(** * The plfsio write path of deltafs

    A shallow embedding of the buffered block writer and reader of
    [src/libdeltafs/plfsio/v1/pdb.cc], of the log sink of the plfsio
    [io.h] header, and of the filter layer that sits between them; the
    compactions of the writer are also given as a step relation, for the
    schedules in which they run side by side. Around them: the log source of
    the same header, the direct writer of [bulkio.cc], the measured file and
    the whole-file buffer of [env_files.cc], and the number and escape
    functions of [strutil.cc].

    Conventions.
    - A [uint64_t], [uint32_t] or [size_t] is a [Z]; every operation that can
      wrap in C++ has its [mod 2^w] written out.
    - A [std::string] or [Slice] is a [list byte]: the bytes it covers. Where
      a [Slice] can leave its buffer, the bytes outside are those of a [Heap].
    - [assert(...)] and [mu_.AssertHeld()] are no-ops, as in a release build.
    - An abstract base class of the environment ([WritableFile],
      [RandomAccessFile], [SequentialFile]) is a type class over the state of
      the object.
    - A loop that the source bounds by its data only takes a [fuel]; the
      theorems say how much fuel lets it end by its own condition. *)

From Stdlib Require Import ZArith Lia List String Bool.
From coqutil Require Import Byte Word.LittleEndianList Z.bitblast.
From stdpp Require Import base list.
Import ListNotations.
Local Open Scope Z_scope.

(** ** Bytes, slices and status values *)

Abbreviation bytes := (list byte) (only parsing).

(** [size_t] and [uint64_t] are both 64 bits wide on the supported ports. *)
Definition wrap64 (z : Z) : Z := z mod 2 ^ 64.
Definition wrap32 (z : Z) : Z := z mod 2 ^ 32.

(** [s.size()] *)
Definition size (s : bytes) : Z := Z.of_nat (length s).

(** [pdlfs::Status]: the OK value and the error kinds used by the write path,
    each with the message(s) it was built from. *)
Inductive Status : Type :=
| OK
| NotFound (msg : string)
| Corruption (msg : string)
| IOError (msg : string)
| Disconnected (msg msg2 : string).

Definition ok (s : Status) : bool :=
  match s with OK => true | _ => false end.

Definition IsNotFound (s : Status) : bool :=
  match s with NotFound _ => true | _ => false end.

Definition IsDisconnected (s : Status) : bool :=
  match s with Disconnected _ _ => true | _ => false end.

Lemma ok_true_iff s : ok s = true <-> s = OK.
Proof. destruct s; simpl; split; congruence. Qed.

Lemma ok_false_iff s : ok s = false <-> s <> OK.
Proof. destruct s; simpl; split; congruence. Qed.

(** ** Fixed-width and variable-width integer coding *)

Module Coding.

(** [EncodeFixed64]: eight bytes, least significant first. *)
Definition EncodeFixed64 (v : Z) : bytes := le_split 8 v.

(** [PutFixed64(&dst, v)] *)
Definition PutFixed64 (dst : bytes) (v : Z) : bytes := dst ++ EncodeFixed64 v.

(** [DecodeFixed64(p)] reads the eight bytes at [p]. *)
Definition DecodeFixed64 (p : bytes) : Z := le_combine (firstn 8 p).

(** Modelled from the spec: the footer holds its four numbers as varints.
    [EncodeVarint64] emits seven bits per byte, least significant group
    first, with the top bit of a byte set while more groups follow. A
    64-bit value needs at most ten groups. *)
Fixpoint EncodeVarint64_loop (fuel : nat) (v : Z) : bytes :=
  match fuel with
  | O => []
  | S fuel' =>
      if v <? 128 then [byte.of_Z v]
      else byte.of_Z (Z.lor (Z.land v 127) 128)
             :: EncodeVarint64_loop fuel' (Z.shiftr v 7)
  end.

Definition EncodeVarint64 (v : Z) : bytes := EncodeVarint64_loop 10 v.

Definition PutVarint64 (dst : bytes) (v : Z) : bytes := dst ++ EncodeVarint64 v.

(** Modelled from the spec: [GetVarint64] undoes [EncodeVarint64]; it reads
    at most ten bytes ([shift <= 63]) and fails on a truncated input. On
    success it returns the value and the unread rest of the input. *)
Fixpoint GetVarint64_loop (fuel : nat) (shift result : Z) (p : bytes)
  : option (Z * bytes) :=
  match fuel with
  | O => None
  | S fuel' =>
      match p with
      | [] => None
      | b :: p' =>
          let byte := byte.unsigned b in
          if Z.land byte 128 =? 0
          then Some (Z.lor result (wrap64 (Z.shiftl byte shift)), p')
          else GetVarint64_loop fuel' (shift + 7)
                 (Z.lor result (wrap64 (Z.shiftl (Z.land byte 127) shift))) p'
      end
  end.

Definition GetVarint64 (input : bytes) : option (Z * bytes) :=
  GetVarint64_loop 10 0 0 input.

End Coding.
Export Coding.

Arguments wrap64 : simpl never.
Arguments wrap32 : simpl never.
Arguments size : simpl never.
Arguments PutFixed64 : simpl never.
Arguments EncodeFixed64 : simpl never.
Arguments DecodeFixed64 : simpl never.

(** ** Block handles and the footer *)

(** [BlockHandle]: the position and extent of a region of the file. *)
Record BlockHandle : Type := mkBlockHandle { offset : Z; size_ : Z }.

Module Handle.

(** Modelled from the spec: [BlockHandle::kMaxEncodedLength], the room for
    two varint64 numbers of ten bytes each. *)
Definition kMaxEncodedLength : nat := 20.

(** Modelled from the spec: [BlockHandle::EncodeTo] appends the offset and
    then the size, both as varints. *)
Definition EncodeTo (h : BlockHandle) (dst : bytes) : bytes :=
  PutVarint64 (PutVarint64 dst (offset h)) (size_ h).

(** Modelled from the spec: [BlockHandle::DecodeFrom] consumes two varints
    from the input, or reports a corruption. *)
Definition DecodeFrom (input : bytes) : Status * BlockHandle * bytes :=
  match GetVarint64 input with
  | Some (o, rest) =>
      match GetVarint64 rest with
      | Some (s, rest') => (OK, mkBlockHandle o s, rest')
      | None => (Corruption "bad block handle", mkBlockHandle 0 0, input)
      end
  | None => (Corruption "bad block handle", mkBlockHandle 0 0, input)
  end.

End Handle.

Arguments Handle.EncodeTo : simpl never.
Arguments Handle.DecodeFrom : simpl never.

(** ** The environment: files *)

Module Env.

(** [WritableFile]: the append-only file of the environment. [F] is the state
    of the file object; a method returns its status and the state after the
    call. Nothing is assumed about when a method fails. *)
Class WritableFile (F : Type) : Type := {
  Append : F -> bytes -> Status * F;
  Flush : F -> Status * F;
  Sync : F -> Status * F;
  Close : F -> Status * F
}.

(** [RandomAccessFile::Read(offset, n, &result, scratch)]: the status and the
    slice read, which may be shorter than [n]. The state lets two reads of the
    same range differ, as they may on a failing device. *)
Class RandomAccessFile (R : Type) : Type := {
  Read : R -> Z -> Z -> Status * bytes * R
}.

(** The calls made on a file, kept as a ghost trace by the objects that own
    one, each with the status the file answered. *)
Inductive Call : Type :=
| CallAppend (data : bytes) (st : Status)
| CallFlush (st : Status)
| CallSync (st : Status)
| CallClose (st : Status)
| CallRead (off n : Z) (st : Status).

Definition is_sync (c : Call) : bool :=
  match c with CallSync _ => true | _ => false end.

Definition is_close (c : Call) : bool :=
  match c with CallClose _ => true | _ => false end.

Definition is_append (c : Call) : bool :=
  match c with CallAppend _ _ => true | _ => false end.

Definition call_status (c : Call) : Status :=
  match c with
  | CallAppend _ st | CallFlush st | CallSync st | CallClose st
  | CallRead _ _ st => st
  end.

End Env.

(** ** The log sink ([LogSink] of the plfsio io header) *)

Module LogSink.
Section Sink.
Context {F : Type} `{Env.WritableFile F}.

(** The mutable state of a [LogSink]. [file_] is [None] for the NULL pointer
    the header documents ("NULL after Finish() is called"). [io_] is the ghost
    trace of the calls made on the underlying file. *)
#[projections(primitive)]
Record t : Type := mk {
  prefix_ : string;
  has_mu_ : bool;
  buf_memory_usage_ : Z;
  finish_status_ : Status;
  prev_off_ : Z;
  off_ : Z;
  file_ : option F;
  filename_ : string;
  refs_ : Z;
  io_ : list Env.Call
}.

Definition set_file (s : t) (f : option F) (c : list Env.Call) : t :=
  mk (prefix_ s) (has_mu_ s) (buf_memory_usage_ s) (finish_status_ s)
     (prev_off_ s) (off_ s) f (filename_ s) (refs_ s) (io_ s ++ c).

Definition set_off (s : t) (o : Z) : t :=
  mk (prefix_ s) (has_mu_ s) (buf_memory_usage_ s) (finish_status_ s)
     (prev_off_ s) o (file_ s) (filename_ s) (refs_ s) (io_ s).

Definition set_finish_status (s : t) (st : Status) : t :=
  mk (prefix_ s) (has_mu_ s) (buf_memory_usage_ s) st
     (prev_off_ s) (off_ s) (file_ s) (filename_ s) (refs_ s) (io_ s).

(** [Ltell]: the current logic write offset. *)
Definition Ltell (s : t) : Z := off_ s.

(** [Lwrite(data)] *)
Definition Lwrite (s : t) (data : bytes) : Status * t :=
  match file_ s with
  | None => (Disconnected "Log already closed" (filename_ s), s)
  | Some f =>
      let '(result, f1) := Env.Append f data in
      let s1 := set_file s (Some f1) [Env.CallAppend data result] in
      if ok result then
        (* File implementation may ignore the flush *)
        let '(result2, f2) := Env.Flush f1 in
        let s2 := set_file s1 (Some f2) [Env.CallFlush result2] in
        if ok result2
        then (result2, set_off s2 (wrap64 (off_ s2 + size data)))
        else (result2, s2)
      else (result, s1)
  end.

(** [Lsync()] *)
Definition Lsync (s : t) : Status * t :=
  match file_ s with
  | None => (Disconnected "Log already closed" (filename_ s), s)
  | Some f =>
      let '(result, f1) := Env.Sync f in
      (result, set_file s (Some f1) [Env.CallSync result])
  end.

(** Modelled from the spec: [Finish], the body of the sink behind [Lclose];
    only its declaration and the comments "Invoked by Lclose() and the class
    destructor" and "NULL after Finish() is called" are in the header. It
    closes the underlying file and drops the pointer. *)
Definition Finish (s : t) : Status * t :=
  match file_ s with
  | None => (finish_status_ s, s)
  | Some f =>
      let '(st, f1) := Env.Close f in
      (st, set_finish_status (set_file s None [Env.CallClose st]) st)
  end.

(** Modelled from the spec: [Lclose(sync)], "transitions to a disconnected
    state; subsequent append/sync fail. Idempotent after the first call", with
    the header's "If sync is set to true, will force data sync before closing
    the log". The first error of the two steps is returned. *)
Definition Lclose (s : t) (sync : bool) : Status * t :=
  match file_ s with
  | None => (OK, s)
  | Some f =>
      let '(st, s1) := if sync then Lsync s else (OK, s) in
      let '(st2, s2) := Finish s1 in
      (if ok st then st2 else st, s2)
  end.

(** The operations a client can issue on a sink after it opened it. *)
Inductive Op : Type :=
| OpLwrite (data : bytes)
| OpLsync.

Definition step (s : t) (o : Op) : Status * t :=
  match o with
  | OpLwrite data => Lwrite s data
  | OpLsync => Lsync s
  end.

(** A sequence of operations, with the status of each. *)
Fixpoint run (s : t) (ops : list Op) : list Status * t :=
  match ops with
  | [] => ([], s)
  | o :: ops' =>
      let '(st, s1) := step s o in
      let '(sts, s2) := run s1 ops' in
      (st :: sts, s2)
  end.

(** The bytes a sequence of operations asks the sink to write. *)
Fixpoint requested (ops : list Op) : Z :=
  match ops with
  | [] => 0
  | OpLwrite data :: ops' => size data + requested ops'
  | OpLsync :: ops' => requested ops'
  end.

End Sink.
Arguments t F : clear implicits.
End LogSink.

(** ** An in-memory file, for evaluating the models on concrete inputs *)

Module MemFile.

(** The bytes stored so far, and a script of the answers the device gives to
    the next calls; a call past the end of the script succeeds. *)
Record t : Type := mk { data : bytes; script : list Status }.

Definition next (f : t) : Status * t :=
  match script f with
  | [] => (OK, f)
  | st :: sc => (st, mk (data f) sc)
  end.

Definition append (f : t) (d : bytes) : Status * t :=
  let '(st, f1) := next f in
  if ok st then (OK, mk (data f1 ++ d) (script f1)) else (st, f1).

#[global] Instance writable : Env.WritableFile t := {
  Env.Append := append;
  Env.Flush := next;
  Env.Sync := next;
  Env.Close := next
}.

(** Reading [n] bytes at [off] returns what is there, less at the end of the
    file, as [pread] does. *)
Definition read (f : t) (off n : Z) : Status * bytes * t :=
  let '(st, f1) := next f in
  if ok st
  then (OK, firstn (Z.to_nat n) (skipn (Z.to_nat off) (data f1)), f1)
  else (st, [], f1).

#[global] Instance readable : Env.RandomAccessFile t := {
  Env.Read := read
}.

Definition empty : t := mk [] [].

End MemFile.

(** ** Blocks and filters, as the writer and the reader use them *)

(** A record: an opaque key and an opaque value. *)
Definition entry : Type := (bytes * bytes)%type.

(** The calls [pdb.cc] makes on the block layer. [BlockBuf::Finish] turns the
    entries of a buffer into the contents of a block; a [Block] iterator
    opened with a NULL comparator visits the entries of a block in storage
    order, from [SeekToFirst] by [Next]. [BlockBuf_size] is the estimate of
    the bytes a buffer holds, which decides when the writer rotates. *)
Class BlockFormat : Type := {
  BlockBuf_Finish : list entry -> bytes;
  Block_entries : bytes -> list entry;
  BlockBuf_size : list entry -> Z
}.

(** The calls [pdb.cc] makes on the filter layer: a [BloomBuilder] is reset
    for the number of entries, fed every key and finished; the reader asks
    [BloomKeyMayMatch]. [BloomBuilder_build bits_per_key n keys] is the result
    of [Reset(n); AddKey(k_1); ...; AddKey(k_m); Finish()]. *)
Class FilterFormat : Type := {
  BloomBuilder_build : Z -> Z -> list bytes -> bytes;
  BloomKeyMayMatch : bytes -> bytes -> bool
}.

(** Section 4.2 and 8 of the spec: finishing a block and parsing it back is
    the identity "on well-formed inputs" ([fits] says which entries the
    format can hold), and a finished block is never empty (it ends in a
    trailer). *)
Record BlockFormatOk (BF : BlockFormat) (fits : entry -> Prop) : Prop := {
  block_roundtrip :
    forall es : list entry,
      es <> [] -> Forall fits es -> Block_entries (BlockBuf_Finish es) = es;
  block_nonempty :
    forall es : list entry, es <> [] -> BlockBuf_Finish es <> []
}.

(** Section 4.3 of the spec: a filter has no false negatives. *)
Record FilterFormatOk (FF : FilterFormat) : Prop := {
  filter_no_false_negative :
    forall (bits_per_key n : Z) (keys : list bytes) (k : bytes),
      bits_per_key <> 0 -> In k keys ->
      BloomKeyMayMatch k (BloomBuilder_build bits_per_key n keys) = true
}.

(** [iter.Seek(k)] on an iterator with a NULL comparator, followed by
    [iter.Valid()] and [iter.value()]: a linear search for the first entry
    whose key is [k]. *)
Definition bytes_eqb (a b : bytes) : bool :=
  if List.list_eq_dec Byte.byte_eq_dec a b then true else false.

Fixpoint Block_Seek (k : bytes) (es : list entry) : option bytes :=
  match es with
  | [] => None
  | (k', v) :: es' => if bytes_eqb k' k then Some v else Block_Seek k es'
  end.

(** The options of a directory that the writer and the reader consult. *)
Record DirOptions : Type := mkDirOptions {
  bf_bits_per_key : Z;
  compaction_pool : bool;     (* a thread pool was supplied *)
  allow_env_threads : bool
}.

(** [BlockBuf]: a buffer of entries in insertion order ("unordered fmt"). *)
Record BlockBuf : Type := mkBlockBuf {
  bb_unordered : bool;
  bb_reserved : Z;
  bb_entries : list entry
}.

Definition BlockBuf_empty (bb : BlockBuf) : bool :=
  match bb_entries bb with [] => true | _ => false end.

Definition BlockBuf_NumEntries (bb : BlockBuf) : Z :=
  Z.of_nat (length (bb_entries bb)).

Definition BlockBuf_Reserve (bb : BlockBuf) (n : Z) : BlockBuf :=
  mkBlockBuf (bb_unordered bb) n (bb_entries bb).

Definition BlockBuf_Add (bb : BlockBuf) (k v : bytes) : BlockBuf :=
  mkBlockBuf (bb_unordered bb) (bb_reserved bb) (bb_entries bb ++ [(k, v)]).

Definition BlockBuf_Reset (bb : BlockBuf) : BlockBuf :=
  mkBlockBuf (bb_unordered bb) (bb_reserved bb) [].

(** [std::string::resize(n)]: cut, or pad with zero bytes. *)
Definition resize (s : bytes) (n : nat) : bytes :=
  firstn n s ++ repeat Byte.x00 (n - length s).

Arguments resize : simpl never.

Definition is_empty (s : bytes) : bool :=
  match s with [] => true | _ => false end.

(** ** The buffered block writer ([BufferedBlockWriter] of pdb.cc) *)

(** Modelled from the spec: the state of the [DoubleBuffering] base class,
    whose header is not part of the sources. The names [bufs_], [membuf_],
    [num_bg_compactions_] and [num_compac_completed_] are the ones pdb.cc
    uses; the others follow section 4.4 of the spec ([next_ticket], the
    sticky [bg_status] and the [finished] flag). A buffer pointer is the index
    of the buffer in [bbs_]. *)
#[projections(primitive)]
Record DoubleBuffering : Type := mkDoubleBuffering {
  bufs_ : list nat;              (* free buffers *)
  membuf_ : nat;                 (* the active buffer *)
  num_bg_compactions_ : Z;
  num_compac_scheduled_ : Z;     (* the last ticket handed out *)
  num_compac_completed_ : Z;     (* the last ticket committed *)
  bg_status_ : Status;
  finished_ : bool
}.

Module Writer.
Section Writer.
Context {F : Type} `{Env.WritableFile F} {BF : BlockFormat} {FF : FilterFormat}.

(** The state of a [BufferedBlockWriter]. [dst_calls_] is the ghost trace of
    the calls made on [dst_]. *)
#[projections(primitive)]
Record t : Type := mk {
  options_ : DirOptions;
  dst_ : F;
  dst_calls_ : list Env.Call;
  buf_threshold_ : Z;
  buf_reserv_ : Z;
  offset_ : Z;
  bbs_ : list BlockBuf;
  n_ : Z;
  bloomfilter_ : bytes;
  indexes_ : bytes;
  bloomfilter_handle_ : BlockHandle;
  index_handle_ : BlockHandle;
  base : DoubleBuffering
}.

Definition set_dst (w : t) (f : F) (c : list Env.Call) : t :=
  mk (options_ w) f (dst_calls_ w ++ c) (buf_threshold_ w) (buf_reserv_ w)
     (offset_ w) (bbs_ w) (n_ w) (bloomfilter_ w) (indexes_ w)
     (bloomfilter_handle_ w) (index_handle_ w) (base w).

Definition set_offset (w : t) (o : Z) : t :=
  mk (options_ w) (dst_ w) (dst_calls_ w) (buf_threshold_ w) (buf_reserv_ w)
     o (bbs_ w) (n_ w) (bloomfilter_ w) (indexes_ w)
     (bloomfilter_handle_ w) (index_handle_ w) (base w).

Definition set_bbs (w : t) (b : list BlockBuf) : t :=
  mk (options_ w) (dst_ w) (dst_calls_ w) (buf_threshold_ w) (buf_reserv_ w)
     (offset_ w) b (n_ w) (bloomfilter_ w) (indexes_ w)
     (bloomfilter_handle_ w) (index_handle_ w) (base w).

Definition set_bloomfilter (w : t) (b : bytes) : t :=
  mk (options_ w) (dst_ w) (dst_calls_ w) (buf_threshold_ w) (buf_reserv_ w)
     (offset_ w) (bbs_ w) (n_ w) b (indexes_ w)
     (bloomfilter_handle_ w) (index_handle_ w) (base w).

Definition set_indexes (w : t) (i : bytes) : t :=
  mk (options_ w) (dst_ w) (dst_calls_ w) (buf_threshold_ w) (buf_reserv_ w)
     (offset_ w) (bbs_ w) (n_ w) (bloomfilter_ w) i
     (bloomfilter_handle_ w) (index_handle_ w) (base w).

Definition set_bloomfilter_handle (w : t) (h : BlockHandle) : t :=
  mk (options_ w) (dst_ w) (dst_calls_ w) (buf_threshold_ w) (buf_reserv_ w)
     (offset_ w) (bbs_ w) (n_ w) (bloomfilter_ w) (indexes_ w)
     h (index_handle_ w) (base w).

Definition set_index_handle (w : t) (h : BlockHandle) : t :=
  mk (options_ w) (dst_ w) (dst_calls_ w) (buf_threshold_ w) (buf_reserv_ w)
     (offset_ w) (bbs_ w) (n_ w) (bloomfilter_ w) (indexes_ w)
     (bloomfilter_handle_ w) h (base w).

Definition set_base (w : t) (b : DoubleBuffering) : t :=
  mk (options_ w) (dst_ w) (dst_calls_ w) (buf_threshold_ w) (buf_reserv_ w)
     (offset_ w) (bbs_ w) (n_ w) (bloomfilter_ w) (indexes_ w)
     (bloomfilter_handle_ w) (index_handle_ w) b.

(** The calls on [dst_], each leaving its mark in the trace. *)
Definition dst_Append (w : t) (data : bytes) : Status * t :=
  let '(st, f) := Env.Append (dst_ w) data in
  (st, set_dst w f [Env.CallAppend data st]).

Definition dst_Flush (w : t) : Status * t :=
  let '(st, f) := Env.Flush (dst_ w) in (st, set_dst w f [Env.CallFlush st]).

Definition dst_Sync (w : t) : Status * t :=
  let '(st, f) := Env.Sync (dst_ w) in (st, set_dst w f [Env.CallSync st]).

Definition dst_Close (w : t) : Status * t :=
  let '(st, f) := Env.Close (dst_ w) in (st, set_dst w f [Env.CallClose st]).

(** The loop of the constructor: [count] iterations are left and [i] is the
    loop variable. Each one allocates [bbs_[i]], reserves its memory, and
    pushes every buffer but the first onto [bufs_]. *)
Fixpoint new_buffers (count i : nat) (buf_reserv : Z)
    (bbs : list BlockBuf) (bufs : list nat) : list BlockBuf * list nat :=
  match count with
  | O => (bbs, bufs)
  | S count' =>
      let bb := BlockBuf_Reserve (mkBlockBuf true 0 []) buf_reserv in
      let bbs' := bbs ++ [bb] in
      let bufs' := if Nat.eqb i 0 then bufs else bufs ++ [i] in
      new_buffers count' (S i) buf_reserv bbs' bufs'
  end.

(** [BufferedBlockWriter::BufferedBlockWriter(options, dst, buf_size, n)] *)
Definition BufferedBlockWriter (options : DirOptions) (dst : F)
    (buf_size n : Z) : t :=
  let buf_reserv := wrap64 (8 + buf_size) in
  let n_ := if n <? 2 then 2 (* We need at least two buffers *) else n in
  let '(bbs, bufs) := new_buffers (Z.to_nat n_) 0 buf_reserv [] [] in
  mk options dst [] buf_size buf_reserv 0 bbs n_ [] []
     (mkBlockHandle 0 0) (mkBlockHandle 0 0)
     (mkDoubleBuffering bufs 0 (* membuf_ = bbs_[0] *) 0 0 0 OK false).

(** [DumpIndexesAndFilters()] *)
Definition DumpIndexesAndFilters (w : t) : Status * t :=
  let w := set_indexes w (PutFixed64 (indexes_ w) (size (bloomfilter_ w))) in
  let w := set_indexes w (PutFixed64 (indexes_ w) (offset_ w)) in
  let status := OK in
  let '(status, w) :=
    if ok status then
      let w := set_bloomfilter_handle w
                 (mkBlockHandle (offset_ w) (size (bloomfilter_ w))) in
      let '(status, w) :=
        if negb (is_empty (bloomfilter_ w))
        then dst_Append w (bloomfilter_ w) else (status, w) in
      if ok status
      then (status, set_offset w (wrap64 (offset_ w + size (bloomfilter_ w))))
      else (status, w)
    else (status, w) in
  if ok status then
    let w := set_index_handle w
               (mkBlockHandle (offset_ w) (size (indexes_ w))) in
    let '(status, w) :=
      if negb (is_empty (indexes_ w))
      then dst_Append w (indexes_ w) else (status, w) in
    if ok status
    then (status, set_offset w (wrap64 (offset_ w + size (indexes_ w))))
    else (status, w)
  else (status, w).

(** The footer of [Close()]: the two handles, padded to a fixed length. *)
Definition footer_of (w : t) : bytes :=
  resize (Handle.EncodeTo (index_handle_ w)
            (Handle.EncodeTo (bloomfilter_handle_ w) []))
         (2 * Handle.kMaxEncodedLength).

Arguments footer_of : simpl never.

(** [Close()] *)
Definition Close (w : t) : Status * t :=
  let '(status, w) := DumpIndexesAndFilters w in
  let '(status, w) :=
    if ok status then dst_Append w (footer_of w) else (status, w) in
  if ok status then
    let '(status, w) := dst_Sync w in
    let '(_, w) := dst_Close w in
    (status, w)
  else (status, w).

(** [SyncBackend(close)] *)
Definition SyncBackend (w : t) (close : bool) : Status * t :=
  if negb close then dst_Sync w else Close w.

(** [Compact(compac_seq, immbuf)], as one thread runs it. The result is [None]
    when the call does not return in a single thread: [immbuf] is not a
    buffer of the writer, or the loop on [bg_cv_] waits for a ticket that no
    other thread will commit. *)
Definition Compact (w : t) (compac_seq : Z) (immbuf : nat)
  : option (Status * t) :=
  match bbs_ w !! immbuf with
  | None => None
  | Some bb =>
      (* Skip empty buffers *)
      if BlockBuf_empty bb
         && (compac_seq =? wrap32 (num_compac_completed_ (base w) + 1))
      then Some (OK, w)
      else
        let block_contents :=
          if negb (BlockBuf_empty bb)
          then BlockBuf_Finish (bb_entries bb) else [] in
        (* Filter is built only when requested *)
        let filter_contents :=
          if negb (BlockBuf_empty bb)
             && negb (bf_bits_per_key (options_ w) =? 0)
          then BloomBuilder_build (bf_bits_per_key (options_ w))
                 (BlockBuf_NumEntries bb)
                 (map fst (Block_entries block_contents))
          else [] in
        (* All writes are serialized through compac_seq *)
        if negb (compac_seq =? wrap32 (num_compac_completed_ (base w) + 1))
        then None
        else
          let w := set_indexes w
                     (PutFixed64 (indexes_ w) (size (bloomfilter_ w))) in
          let w := if negb (is_empty filter_contents)
                   then set_bloomfilter w (bloomfilter_ w ++ filter_contents)
                   else w in
          let w := set_indexes w (PutFixed64 (indexes_ w) (offset_ w)) in
          let '(status, w) :=
            if negb (is_empty block_contents)
            then dst_Append w block_contents else (OK, w) in
          if ok status then
            let w := set_offset w (wrap64 (offset_ w + size block_contents)) in
            Some (dst_Flush w)
          else Some (status, w)
  end.

(** Modelled from the spec: the body of a compaction task, [DoCompaction] of
    the [DoubleBuffering] base (section 4.4, steps 1 to 4): run [Compact],
    commit the ticket, clear the buffer and return it to the free set, count
    the compaction as done, and latch the first error in [bg_status_]. *)
Definition DoCompaction (w : t) (compac_seq : Z) (immbuf : nat)
  : option (Status * t) :=
  match Compact w compac_seq immbuf with
  | None => None
  | Some (status, w) =>
      let b := base w in
      let bbs := match bbs_ w !! immbuf with
                 | Some bb => <[immbuf := BlockBuf_Reset bb]> (bbs_ w)
                 | None => bbs_ w
                 end in
      let b' := mkDoubleBuffering
                  (bufs_ b ++ [immbuf]) (membuf_ b)
                  (num_bg_compactions_ b - 1)
                  (num_compac_scheduled_ b) compac_seq
                  (if ok (bg_status_ b) then status else bg_status_ b)
                  (finished_ b) in
      Some (status, set_base (set_bbs w bbs) b')
  end.

(** [ScheduleCompaction(compac_seq, immbuf)]: with neither a pool nor the
    permission to use the threads of the environment, the compaction runs
    in the caller. A compaction handed to a pool has no outcome in a single
    thread. *)
Definition ScheduleCompaction (w : t) (compac_seq : Z) (immbuf : nat)
  : option t :=
  if compaction_pool (options_ w) then None
  else if allow_env_threads (options_ w) then None
  else match DoCompaction w compac_seq immbuf with
       | Some (_, w') => Some w'
       | None => None
       end.

(** Modelled from the spec: [RotateBuffer] (section 4.4): wait for a free
    buffer while the background status is OK, give the active buffer the next
    ticket, make a free buffer the active one, and schedule the compaction. *)
Definition RotateBuffer (w : t) : option (Status * t) :=
  let b := base w in
  match bufs_ b with
  | [] => if ok (bg_status_ b) then None (* waits on bg_cv_ *)
          else Some (bg_status_ b, w)
  | free :: rest =>
      let ticket := wrap32 (num_compac_scheduled_ b + 1) in
      let immbuf := membuf_ b in
      let b' := mkDoubleBuffering rest free
                  (num_bg_compactions_ b + 1) ticket
                  (num_compac_completed_ b) (bg_status_ b) (finished_ b) in
      match ScheduleCompaction (set_base w b') ticket immbuf with
      | Some w' => Some (OK, w')
      | None => None
      end
  end.

Definition membuf_entries (w : t) : list entry :=
  match bbs_ w !! membuf_ (base w) with
  | Some bb => bb_entries bb
  | None => []
  end.

(** Modelled from the spec: [__Add] behind [Add(k, v)]: fail with the sticky
    background status, else append to the active buffer and rotate it when it
    has reached its threshold. *)
Definition Add (w : t) (k v : bytes) : option (Status * t) :=
  if negb (ok (bg_status_ (base w))) then Some (bg_status_ (base w), w)
  else
    let m := membuf_ (base w) in
    match bbs_ w !! m with
    | None => None
    | Some bb =>
        let w := set_bbs w (<[m := BlockBuf_Add bb k v]> (bbs_ w)) in
        if buf_threshold_ w <=? BlockBuf_size (membuf_entries w)
        then RotateBuffer w
        else Some (OK, w)
    end.

(** Modelled from the spec: [__Flush] behind [Flush()]: rotate the active
    buffer when it holds something; do not wait for the compaction. *)
Definition Flush (w : t) : option (Status * t) :=
  if negb (ok (bg_status_ (base w))) then Some (bg_status_ (base w), w)
  else match membuf_entries w with
       | [] => Some (OK, w)
       | _ => RotateBuffer w
       end.

(** [EpochFlush()] *)
Definition EpochFlush (w : t) : option (Status * t) := Flush w. (* TODO *)

(** Modelled from the spec: [__Wait] behind [Wait()]: wait until no
    compaction is outstanding and return the background status. *)
Definition Wait (w : t) : option (Status * t) :=
  if num_bg_compactions_ (base w) =? 0
  then Some (bg_status_ (base w), w)
  else None.

(** Modelled from the spec: [__Sync] behind [Sync()]: flush, wait for the
    compactions, then [SyncBackend(false)]. *)
Definition Sync (w : t) : option (Status * t) :=
  match Flush w with
  | None => None
  | Some (st, w) =>
      if negb (ok st) then Some (st, w)
      else match Wait w with
           | None => None
           | Some (st, w) =>
               if negb (ok st) then Some (st, w)
               else Some (SyncBackend w false)
           end
  end.

Definition set_finished (w : t) : t :=
  let b := base w in
  set_base w (mkDoubleBuffering (bufs_ b) (membuf_ b) (num_bg_compactions_ b)
                (num_compac_scheduled_ b) (num_compac_completed_ b)
                (bg_status_ b) true).

(** Modelled from the spec: [__Finish] behind [Finish()] (sections 4.4 and 7):
    rotate a non-empty active buffer, wait for the drain, then call
    [SyncBackend(true)] whatever the drain gave, set [finished], and return the
    first error met. A second call returns the background status. *)
Definition Finish (w : t) : option (Status * t) :=
  if finished_ (base w) then Some (bg_status_ (base w), w)
  else
    let rotated :=
      match membuf_entries w with
      | [] => Some (OK, w)
      | _ => RotateBuffer w
      end in
    match rotated with
    | None => None
    | Some (_, w) =>
        match Wait w with
        | None => None
        | Some (drain, w) =>
            let '(st, w) := SyncBackend w true in
            Some (if ok drain then st else drain, set_finished w)
        end
    end.

(** Modelled from the spec: the drain, the first half of [__Finish] (section
    4.4): rotate a non-empty active buffer, wait until no compaction is
    outstanding; what comes back is the background status. *)
Definition Drain (w : t) : option (Status * t) :=
  let rotated :=
    match membuf_entries w with
    | [] => Some (OK, w)
    | _ => RotateBuffer w
    end in
  match rotated with
  | None => None
  | Some (_, w) => Wait w
  end.

(** The calls a client makes on a writer before [Finish]. *)
Inductive Op : Type :=
| OpAdd (k v : bytes)
| OpFlush
| OpEpochFlush
| OpSync
| OpWait.

Definition step (w : t) (o : Op) : option (Status * t) :=
  match o with
  | OpAdd k v => Add w k v
  | OpFlush => Flush w
  | OpEpochFlush => EpochFlush w
  | OpSync => Sync w
  | OpWait => Wait w
  end.

(** A sequence of calls; the statuses come back in call order. *)
Fixpoint run (w : t) (ops : list Op) : option (list Status * t) :=
  match ops with
  | [] => Some ([], w)
  | o :: ops' =>
      match step w o with
      | None => None
      | Some (st, w1) =>
          match run w1 ops' with
          | None => None
          | Some (sts, w2) => Some (st :: sts, w2)
          end
      end
  end.

End Writer.
Arguments t F : clear implicits.
End Writer.

(** ** The filter layer *)

(** Bit arrays stored in bytes, bit [pos mod 8] of byte [pos / 8]. *)
Definition set_bit (arr : bytes) (pos : Z) : bytes :=
  let i := Z.to_nat (pos / 8) in
  match arr !! i with
  | Some b =>
      <[i := byte.of_Z (Z.lor (byte.unsigned b) (Z.shiftl 1 (pos mod 8)))]> arr
  | None => arr
  end.

Definition get_bit (arr : bytes) (pos : Z) : bool :=
  match arr !! Z.to_nat (pos / 8) with
  | Some b => Z.testbit (byte.unsigned b) (pos mod 8)
  | None => false
  end.

Module Bloom.
Section Bloom.

(** Modelled from the spec: the Bloom block of section 4.3.1, whose source is
    not part of the sources given. The spec fixes the shape ("classic k-hash
    bloom", the blob layout, "recomputes the same k hashes") but not the hash
    functions nor how [k] follows from [bits_per_key]; both are parameters:
    [hash j key] is the j-th hash of a key and [num_hashes bits_per_key] the
    number [k]. *)
Variable hash : nat -> bytes -> Z.
Variable num_hashes : Z -> Z.

Record t : Type := mk {
  bits_per_key_ : Z;
  k_ : Z;            (* number of hashes *)
  space_ : bytes;    (* the bit array *)
  bits_ : Z          (* number of bits in the array *)
}.

(** Modelled from the spec: construction from the options; [k_] is a
    [size_t]. *)
Definition BloomBlock (bits_per_key : Z) : t :=
  mk bits_per_key (wrap64 (num_hashes bits_per_key)) [] 0.

(** Modelled from the spec: [reset(expected_keys)] "size the structure; may
    over-allocate": [bits_per_key] bits for each key, never fewer than 64
    bits, rounded up to whole bytes, all clear. *)
Definition Reset (b : t) (num_keys : Z) : t :=
  let bits := num_keys * bits_per_key_ b in
  let bits := if bits <? 64 then 64 else bits in
  let nbytes := (bits + 7) / 8 in
  mk (bits_per_key_ b) (k_ b) (repeat Byte.x00 (Z.to_nat nbytes)) (nbytes * 8).

(** The bit positions of a key: one per hash. *)
Definition positions (k : Z) (bits : Z) (key : bytes) : list Z :=
  map (fun j => hash j key mod bits) (seq 0 (Z.to_nat k)).

(** Modelled from the spec: [add_key(bytes)] sets the bit of each of the [k]
    hashes of the key. *)
Definition AddKey (b : t) (key : bytes) : t :=
  mk (bits_per_key_ b) (k_ b)
     (fold_left set_bit (positions (k_ b) (bits_ b) key) (space_ b))
     (bits_ b).

(** Modelled from the spec: [finish()], "the blob layout is
    [bits...][num_hashes:u8]". *)
Definition Finish (b : t) : bytes := space_ b ++ [byte.of_Z (k_ b)].

(** Modelled from the spec: [key_may_match(bytes, blob)] "extracts k from the
    last byte, recomputes the same k hashes of the key, and AND-reduces the
    bits". A blob too short to hold a bit array is taken to match: the stripe
    of a block is empty when filters are disabled, and the reader probes
    every stripe. *)
Definition KeyMayMatch (key : bytes) (blob : bytes) : bool :=
  let len := length blob in
  if (len <? 2)%nat then true
  else
    let bits := 8 * (Z.of_nat len - 1) in
    let k := byte.unsigned (List.last blob Byte.x00) in
    forallb (get_bit (firstn (len - 1) blob)) (positions k bits key).

(** The filter of a block: reset for [n] keys, add each key, finish. *)
Definition build (bits_per_key n : Z) (keys : list bytes) : bytes :=
  Finish (fold_left AddKey keys (Reset (BloomBlock bits_per_key) n)).

End Bloom.
End Bloom.

Module Cuckoo.

(** A slot holds a fingerprint and its value payload; fingerprint 0 marks a
    free slot. A table is the array of its slots, four to a bucket. *)
Abbreviation slot := (Z * Z)%type.
Abbreviation table := (list (Z * Z)).

Section Cuckoo.

(** Modelled from the spec: the cuckoo block of section 4.3.2, whose source
    is not part of the sources given (only its tests are). The spec leaves
    open the hash of a key, the bits of the hash that make a fingerprint, the
    hash of a fingerprint and the random choices; they are parameters:
    [CuckooHash key], [fp_bits h], [fp_hash fp], and the stream [rnd]. *)
Variable CuckooHash : bytes -> Z.
Variable fp_bits : Z -> Z.
Variable fp_hash : Z -> Z.
Variable rnd : nat -> Z.

Definition kItemsPerBucket : Z := 4.

(** The state of a [CuckooBlock<b, v>]: [b_] bits per fingerprint and [v_]
    bits per value, some options, the bucket count, the tables (the main one,
    then the auxiliary ones) and the number of random draws so far. *)
#[projections(primitive)]
Record t : Type := mk {
  b_ : Z;
  v_ : Z;
  max_moves_ : Z;
  num_buckets_ : Z;
  tables_ : list table;
  draws_ : nat
}.

(** Modelled from the spec: "fp = fingerprint(h, b) (wrap non-zero)". *)
Definition CuckooFingerprint (h b : Z) : Z :=
  let fp := fp_bits h mod 2 ^ b in
  if fp =? 0 then 1 else fp.

(** [CuckooAlt(i, fp)], "i1 XOR hash(fp)"; the tests reduce it modulo the
    bucket count, as [alt_bucket] does. *)
Definition CuckooAlt (i fp : Z) : Z := Z.lxor i (fp_hash fp).

Definition alt_bucket (m i fp : Z) : Z := CuckooAlt i fp mod m.

(** Modelled from the spec: the bucket count, "ceil(num_keys / 4 /
    cuckoo_frac) rounded up to the next power of two when cuckoo_frac > 0;
    when negative, exactly ceil(num_keys/4) rounded up". The fraction is the
    ratio [frac_num / frac_den] of the options. *)
Definition NumBuckets (num_keys frac_num frac_den : Z) : Z :=
  let want :=
    if (0 <? frac_num) && (0 <? frac_den)
    then (num_keys * frac_den + 4 * frac_num - 1) / (4 * frac_num)
    else (num_keys + 3) / 4 in
  2 ^ Z.log2_up want.

Definition empty_table (m : Z) : table :=
  repeat (0, 0) (Z.to_nat (kItemsPerBucket * m)).

(** Modelled from the spec: construction from the options. *)
Definition CuckooBlock (b v max_moves : Z) : t :=
  mk b v max_moves 1 [empty_table 1] 0.

(** Modelled from the spec: [reset(expected_keys)] sizes one empty table. *)
Definition Reset (c : t) (num_keys frac_num frac_den : Z) : t :=
  let m := NumBuckets num_keys frac_num frac_den in
  mk (b_ c) (v_ c) (max_moves_ c) m [empty_table m] (draws_ c).

Definition slot_index (i j : Z) : nat := Z.to_nat (kItemsPerBucket * i + j).

Definition Read (T : table) (i j : Z) : slot :=
  nth (slot_index i j) T (0, 0).

Definition Write (T : table) (i j : Z) (s : slot) : table :=
  <[slot_index i j := s]> T.

(** The first free slot of a bucket, if it has one. *)
Definition free_slot (T : table) (i : Z) : option Z :=
  find (fun j => fst (Read T i j) =? 0) [0; 1; 2; 3].

(** The outcome of an insertion into one table. *)
Inductive outcome : Type :=
| Placed
| Exhausted (fp v i : Z).   (* what is left in hand, and the bucket it wants *)

(** Modelled from the spec: step 3, "up to cuckoo_max_moves random
    evictions. Each move picks a random occupied slot in the current bucket,
    swaps in the current fingerprint, and continues with the evicted one at
    its alternate bucket." *)
Fixpoint Kick (moves : nat) (m : Z) (T : table) (fp v i : Z) (draws : nat)
  : table * outcome * nat :=
  match moves with
  | O => (T, Exhausted fp v i, draws)
  | S moves' =>
      let j := rnd draws mod kItemsPerBucket in
      let '(fp', v') := Read T i j in
      let T := Write T i j (fp, v) in
      let i' := alt_bucket m i fp' in
      match free_slot T i' with
      | Some j' => (Write T i' j' (fp', v'), Placed, S draws)
      | None => Kick moves' m T fp' v' i' (S draws)
      end
  end.

(** Modelled from the spec: steps 1 to 3 on one table. *)
Definition AddTo (max_moves m : Z) (T : table) (fp v i1 : Z) (draws : nat)
  : table * outcome * nat :=
  let i2 := alt_bucket m i1 fp in
  match free_slot T i1 with
  | Some j => (Write T i1 j (fp, v), Placed, draws)
  | None =>
      match free_slot T i2 with
      | Some j => (Write T i2 j (fp, v), Placed, draws)
      | None => Kick (Z.to_nat max_moves) m T fp v i2 draws
      end
  end.

(** Modelled from the spec: [add_key(bytes)], the auxiliary-table mode: when
    the moves are exhausted, "allocate a new empty table of the same size and
    retry the insertion there". The insertion goes to the newest table, and
    what is retried in the new table is what is left in hand. *)
Definition AddKey (c : t) (key : bytes) (value : Z) : t :=
  let m := num_buckets_ c in
  let h := wrap64 (CuckooHash key) in
  let fp := CuckooFingerprint h (b_ c) in
  let i1 := h mod m in
  match List.last (tables_ c) [] , removelast (tables_ c) with
  | T, older =>
      let '(T', out, draws) := AddTo (max_moves_ c) m T fp value i1 (draws_ c) in
      let newest :=
        match out with
        | Placed => [T']
        | Exhausted fp' v' i' => [T'; Write (empty_table m) i' 0 (fp', v')]
        end in
      mk (b_ c) (v_ c) (max_moves_ c) m (older ++ newest) draws
  end.

(** The bytes of a slot and of a table. The spec does not describe the bytes
    of a table ("...tables..."); here a slot is its fingerprint and its value,
    each a little-endian 32-bit integer. *)
Definition encode_slot (s : slot) : bytes := le_split 4 (fst s) ++ le_split 4 (snd s).

Definition encode_table (T : table) : bytes := concat (map encode_slot T).

Definition kCuckooTag : Z := 2.

(** Modelled from the spec: [finish()] "emits the sequence of tables", with
    the suffix "[num_tables: u32 LE][bucket_count: u32 LE]
    [bits_per_fingerprint: u8][bits_per_value: u8][variant_tag: u8]". *)
Definition Finish (c : t) : bytes :=
  concat (map encode_table (tables_ c))
  ++ le_split 4 (Z.of_nat (length (tables_ c)))
  ++ le_split 4 (num_buckets_ c)
  ++ [byte.of_Z (b_ c); byte.of_Z (v_ c); byte.of_Z kCuckooTag].

(** The fingerprint of slot [j] of bucket [i] of table [tbl] of a blob. *)
Definition blob_fp (blob : bytes) (m tbl i j : Z) : Z :=
  let s := tbl * (kItemsPerBucket * m) + kItemsPerBucket * i + j in
  le_combine (firstn 4 (skipn (Z.to_nat (8 * s)) blob)).

Definition bucket_has (blob : bytes) (m tbl i fp : Z) : bool :=
  existsb (fun j => blob_fp blob m tbl i j =? fp) [0; 1; 2; 3].

(** Modelled from the spec: [key_may_match(bytes, blob)], "scans all tables;
    match iff any slot at i1 or i2 has the key's fingerprint". A blob too short
    for the suffix is taken to match. *)
Definition KeyMayMatch (key : bytes) (blob : bytes) : bool :=
  let len := length blob in
  if (len <? 11)%nat then true
  else
    let suffix := skipn (len - 11) blob in
    let num_tables := le_combine (firstn 4 suffix) in
    let m := le_combine (firstn 4 (skipn 4 suffix)) in
    let b := byte.unsigned (nth 8 suffix Byte.x00) in
    let h := wrap64 (CuckooHash key) in
    let fp := CuckooFingerprint h b in
    let i1 := h mod m in
    let i2 := alt_bucket m i1 fp in
    existsb (fun tbl => bucket_has blob m (Z.of_nat tbl) i1 fp
                        || bucket_has blob m (Z.of_nat tbl) i2 fp)
            (seq 0 (Z.to_nat num_tables)).

(** The filter after a sequence of keys was added. *)
Definition AddKeys (c : t) (kvs : list (bytes * Z)) : t :=
  fold_left (fun c kv => AddKey c (fst kv) (snd kv)) kvs c.

End Cuckoo.
End Cuckoo.

(** ** Sample parameters, for evaluating the models on concrete inputs *)

Module Sample.

(** A multiplicative hash of the bytes of a key, and what the filters derive
    from it. Any other choice would do: the theorems hold for every hash. *)
Definition hash (key : bytes) : Z := wrap64 (le_combine key * 2654435761 + 12345).

Definition bloom_hash (j : nat) (key : bytes) : Z :=
  wrap32 (hash key + Z.of_nat j * Z.shiftr (hash key) 17).

Definition num_hashes (bits_per_key : Z) : Z :=
  Z.max 1 (Z.min 30 (bits_per_key * 69 / 100)).

Definition fp_bits (h : Z) : Z := Z.shiftr h 32.

Definition fp_hash (fp : Z) : Z := wrap64 (fp * 1540483477).

Definition rnd (n : nat) : Z := wrap32 (Z.of_nat n * 16807 + 301).

(** The four-byte key [EncodeFixed32(n)] of the tests. *)
Definition key (n : Z) : bytes := le_split 4 n.

#[global] Instance bloom : FilterFormat := {
  BloomBuilder_build := Bloom.build bloom_hash num_hashes;
  BloomKeyMayMatch := Bloom.KeyMayMatch bloom_hash
}.

(** A cuckoo block of 8-bit fingerprints sized for eight keys with the exact
    bucket count ([cuckoo_frac = -1]), and three moves at most. *)
Definition cuckoo0 : Cuckoo.t := Cuckoo.CuckooBlock 8 0 3.

Definition cuckoo_keys : list (bytes * Z) :=
  map (fun n => (key n, 0)) [1; 2; 3; 4; 5; 6; 7; 8; 9; 10; 11; 12].

Definition bloom_keys : list bytes := map key [1; 2; 3].

End Sample.

(** ** A sample block format, for evaluating the models on concrete inputs *)

Module SampleBlock.

(** [crc32c::Value]: the CRC-32C of a byte string, bit by bit
    (reflected polynomial 0x82F63B78). *)
Definition crc_bit (crc : Z) : Z :=
  if Z.testbit crc 0
  then Z.lxor (Z.shiftr crc 1) 2197175160
  else Z.shiftr crc 1.

Definition crc_byte (crc : Z) (b : byte) : Z :=
  let c := Z.lxor crc (byte.unsigned b) in
  crc_bit (crc_bit (crc_bit (crc_bit (crc_bit (crc_bit (crc_bit (crc_bit c))))))).

Definition crc32c (data : bytes) : Z :=
  Z.lxor (fold_left crc_byte data 4294967295) 4294967295.

(** Section 6 of the spec: "crc_masked = rot_right(crc, 15) + 0xa282ead8". *)
Definition crc_mask (crc : Z) : Z :=
  wrap32 (Z.lor (Z.shiftr crc 15) (wrap32 (Z.shiftl crc 17)) + 2726488792).

Definition kNoCompression : Z := 0.

(** Modelled from the spec: a block in the fixed-kv, length-prefixed format of
    section 4.2: every entry is the length of its key, the length of its
    value (little-endian 32-bit integers), the key and the value; the block
    ends in the trailer of section 6, the compression type and the masked CRC
    of what precedes. *)
Definition encode_entry (e : entry) : bytes :=
  le_split 4 (size (fst e)) ++ le_split 4 (size (snd e)) ++ fst e ++ snd e.

Definition Finish (es : list entry) : bytes :=
  let payload := concat (map encode_entry es) ++ [byte.of_Z kNoCompression] in
  payload ++ le_split 4 (crc_mask (crc32c payload)).

(** Parsing the entries back; [fuel] bounds the number of entries. A
    truncated entry ends the iteration. *)
Fixpoint parse_entries (fuel : nat) (p : bytes) : list entry :=
  match fuel with
  | O => []
  | S fuel' =>
      if (length p <? 8)%nat then []
      else
        let klen := Z.to_nat (le_combine (firstn 4 p)) in
        let vlen := Z.to_nat (le_combine (firstn 4 (skipn 4 p))) in
        let body := skipn 8 p in
        if (length body <? klen + vlen)%nat then []
        else (firstn klen body, firstn vlen (skipn klen body))
               :: parse_entries fuel' (skipn (klen + vlen) body)
  end.

Definition kBlockTrailerSize : nat := 5.

Definition entries (block : bytes) : list entry :=
  let payload := firstn (length block - kBlockTrailerSize) block in
  parse_entries (length payload) payload.

Definition size_estimate (es : list entry) : Z :=
  size (concat (map encode_entry es)).

(** The entries the format can hold: lengths are 32-bit. *)
Definition entry_fits (e : entry) : Prop :=
  size (fst e) < 2 ^ 32 /\ size (snd e) < 2 ^ 32.

#[global] Instance format : BlockFormat := {
  BlockBuf_Finish := Finish;
  Block_entries := entries;
  BlockBuf_size := size_estimate
}.

End SampleBlock.

(** ** The index stripe as a list of pairs *)

(** One entry of the index stripe: two little-endian 64-bit integers. *)
Definition encode_pair (p : Z * Z) : bytes :=
  EncodeFixed64 (fst p) ++ EncodeFixed64 (snd p).

Definition encode_pairs (ps : list (Z * Z)) : bytes :=
  concat (map encode_pair ps).

(** The entries of an index stripe, read sixteen bytes at a time as the
    reader does; a tail shorter than an entry is ignored. *)
Fixpoint index_entries_loop (fuel : nat) (idx : bytes) : list (Z * Z) :=
  match fuel with
  | O => []
  | S fuel' =>
      if (length idx <? 16)%nat then []
      else (DecodeFixed64 idx, DecodeFixed64 (skipn 8 idx))
             :: index_entries_loop fuel' (skipn 16 idx)
  end.

Definition index_entries (idx : bytes) : list (Z * Z) :=
  index_entries_loop (length idx) idx.

(** A sequence of offsets never goes down. *)
Fixpoint nondecreasing (l : list Z) : Prop :=
  match l with
  | [] => True
  | x :: l' =>
      match l' with
      | [] => True
      | y :: _ => x <= y /\ nondecreasing l'
      end
  end.

(** Sample options: the defaults of the directory ([bf_bits_per_key = 8], no
    pool, no environment threads), and a writer over an in-memory file. *)
Definition sample_options : DirOptions := mkDirOptions 8 false false.

Definition sample_writer (dst : MemFile.t) : Writer.t MemFile.t :=
  Writer.BufferedBlockWriter sample_options dst 4096 2.

(** The sample writer after [Add(key 1, key 100)] and [Flush()]: one block
    has been compacted. *)
Definition sample_writer_one_block : Writer.t MemFile.t :=
  match Writer.Add (sample_writer MemFile.empty) (Sample.key 1) (Sample.key 100) with
  | Some (_, w) =>
      match Writer.Flush w with
      | Some (_, w') => w'
      | None => w
      end
  | None => sample_writer MemFile.empty
  end.

(** ** Slices that leave their buffer *)

(** Modelled from the spec: the [Slice] class of pdlfs-common is not among
    the sources; the reader slices [indexes_] and [bloomfilter_] out of its
    cache with it (section 4.5 of the spec), and the class is the one of
    LevelDB, a pointer and a length: [remove_prefix(n)] is
    [assert(n <= size()); data_ += n; size_ -= n], [remove_suffix(n)] is
    [assert(n <= size()); size_ -= n], and a [Slice] made from a pointer and
    a length is not checked at all. With the assert a no-op, a slice can come
    to cover memory outside the buffer it was made from. What the process
    holds there is not the program's to know (reading it is undefined in
    C++): [outside] gives the byte at an address, counted from the start of
    the buffer in [size_t], and nothing is assumed about it. *)
Class Heap : Type := {
  outside : Z -> byte
}.

Section Peek.
Context {HP : Heap}.

(** The byte at address [a] of a buffer that holds [buf]. *)
Definition byte_at (buf : bytes) (a : Z) : byte :=
  match buf !! Z.to_nat a with
  | Some b => b
  | None => outside a
  end.

(** The bytes of [Slice(buf.data() + p, n)]. *)
Definition peek (buf : bytes) (p n : Z) : bytes :=
  map (fun i => byte_at buf (wrap64 (p + Z.of_nat i))) (seq 0 (Z.to_nat n)).

(** The bytes of a slice of the whole of [buf] after [remove_prefix(n)], which
    is [data_ += n; size_ -= n] in [size_t]. *)
Definition remove_prefix (buf : bytes) (n : Z) : bytes :=
  peek buf n (wrap64 (size buf - n)).

(** The same after [remove_suffix(n)], which is [size_ -= n]. *)
Definition remove_suffix (buf : bytes) (n : Z) : bytes :=
  peek buf 0 (wrap64 (size buf - n)).

End Peek.

Arguments peek : simpl never.
Arguments remove_prefix : simpl never.
Arguments remove_suffix : simpl never.

(** A heap that holds zeros, for evaluating the models on concrete inputs.
    It is made an instance only in the sections that evaluate the reader on
    a concrete file. *)
Module SampleHeap.

Definition zeros : Heap := {| outside := fun _ => Byte.x00 |}.

End SampleHeap.

(** ** The buffered block reader ([BufferedBlockReader] of pdb.cc) *)

Module Reader.

(** Which part of the reader issued a read: a ghost label of the trace. *)
Inductive origin : Type := FooterRead | IndexRead | BlockRead.

Section Reader.
Context {R : Type} `{Env.RandomAccessFile R} {BF : BlockFormat} {FF : FilterFormat}
        {HP : Heap}.

(** The state of a [BufferedBlockReader]. A [Slice] is the bytes it points
    to; the [cache_] string that backs [cache_contents_] is not kept apart.
    [reads_] is the ghost trace of the reads made on [src_]. *)
#[projections(primitive)]
Record t : Type := mk {
  options_ : DirOptions;
  src_ : R;
  src_sz_ : Z;
  cache_status_ : Status;
  cache_contents_ : bytes;
  indexes_ : bytes;
  bloomfilter_ : bytes;
  reads_ : list (origin * Env.Call)
}.

Definition set_src (rd : t) (r : R) (c : list (origin * Env.Call)) : t :=
  mk (options_ rd) r (src_sz_ rd) (cache_status_ rd) (cache_contents_ rd)
     (indexes_ rd) (bloomfilter_ rd) (reads_ rd ++ c).

Definition set_cache_status (rd : t) (st : Status) : t :=
  mk (options_ rd) (src_ rd) (src_sz_ rd) st (cache_contents_ rd)
     (indexes_ rd) (bloomfilter_ rd) (reads_ rd).

Definition set_cache_contents (rd : t) (c : bytes) : t :=
  mk (options_ rd) (src_ rd) (src_sz_ rd) (cache_status_ rd) c
     (indexes_ rd) (bloomfilter_ rd) (reads_ rd).

Definition set_slices (rd : t) (idx bloom : bytes) : t :=
  mk (options_ rd) (src_ rd) (src_sz_ rd) (cache_status_ rd)
     (cache_contents_ rd) idx bloom (reads_ rd).

(** [src_->Read(offset, n, &result, scratch)], with its mark in the trace. *)
Definition src_Read (rd : t) (who : origin) (off n : Z) : Status * bytes * t :=
  let '(st, data, r) := Env.Read (src_ rd) off n in
  (st, data, set_src rd r [(who, Env.CallRead off n st)]).

(** [BufferedBlockReader::BufferedBlockReader(options, src, src_sz)] *)
Definition BufferedBlockReader (options : DirOptions) (src : R) (src_sz : Z) : t :=
  mk options src src_sz OK [] [] [] [].

(** [GetFrom(&status, k, result, offset, n)]: whether the key was found, the
    status, the result string and the reader afterwards. *)
Definition GetFrom (rd : t) (k result : bytes) (offset n : Z)
  : bool * Status * bytes * t :=
  let '(status, data, rd) := src_Read rd BlockRead offset n in
  let status :=
    if ok status then
      if negb (size data =? n) then IOError "Read ret partial data"
      else status
    else status in
  if ok status then
    (* Force linear search *)
    match Block_Seek k (Block_entries data) with
    | Some v => (true, status, v, rd)
    | None => (false, status, result, rd)
    end
  else (false, status, result, rd).

(** [LoadIndexesAndFilters(&footer)] *)
Definition LoadIndexesAndFilters (rd : t) (footer : bytes) : Status * t :=
  let '(st, bloomfilter_handle, footer) := Handle.DecodeFrom footer in
  let rd := set_cache_status rd st in
  let '(rd, index_handle) :=
    if ok (cache_status_ rd) then
      let '(st, h, _) := Handle.DecodeFrom footer in (set_cache_status rd st, h)
    else (rd, mkBlockHandle 0 0) in
  if negb (ok (cache_status_ rd)) then (cache_status_ rd, rd)
  else
    let start := offset bloomfilter_handle in
    let totalbytes := wrap64 (size_ bloomfilter_handle + size_ index_handle) in
    let '(st, contents, rd) := src_Read rd IndexRead start totalbytes in
    let rd := set_cache_contents (set_cache_status rd st) contents in
    let rd :=
      if ok (cache_status_ rd) then
        if negb (size (cache_contents_ rd) =? totalbytes)
        then set_cache_status rd (IOError "Read ret partial data")
        else rd
      else rd in
    if negb (ok (cache_status_ rd)) then (cache_status_ rd, rd)
    else
      (* indexes_ = bloomfilter_ = cache_contents_, then remove_prefix on the
         one and remove_suffix on the other *)
      let idx := remove_prefix (cache_contents_ rd) (size_ bloomfilter_handle) in
      let bloom := remove_suffix (cache_contents_ rd) (size_ index_handle) in
      let rd := set_slices rd idx bloom in
      let rd :=
        if size (indexes_ rd) <? 16
        then set_cache_status rd (Corruption "Indexes too short to be valid")
        else rd in
      (cache_status_ rd, rd).

(** [MaybeLoadCache()] *)
Definition MaybeLoadCache (rd : t) : Status * t :=
  if negb (ok (cache_status_ rd)) || negb (is_empty (cache_contents_ rd))
  then (* Do not repeat previous efforts *) (cache_status_ rd, rd)
  else
    let footer_sz := Z.of_nat (2 * Handle.kMaxEncodedLength) in
    let '(rd, footer) :=
      if src_sz_ rd <? footer_sz
      then (set_cache_status rd (Corruption "Input file too short for a footer"),
            [])
      else
        let '(st, footer, rd) :=
          src_Read rd FooterRead (src_sz_ rd - footer_sz) footer_sz in
        let rd := set_cache_status rd st in
        if ok (cache_status_ rd) then
          if negb (size footer =? footer_sz)
          then (set_cache_status rd (IOError "Read ret partial data"), footer)
          else (rd, footer)
        else (rd, footer) in
    if ok (cache_status_ rd) then LoadIndexesAndFilters rd footer
    else (cache_status_ rd, rd).

(** The loop of [Get]: [fuel] bounds the iterations, [off] is the loop
    variable, [bloomoffset] and [offset] are where the current filter stripe
    and block start. *)
Fixpoint Get_loop (fuel : nat) (rd : t) (k result : bytes) (status : Status)
    (bloomoffset offset off : Z) : Status * bytes * t :=
  match fuel with
  | O => (status, result, rd)
  | S fuel' =>
      if off + 15 <? size (indexes_ rd) then
        let next_bloomoffset :=
          DecodeFixed64 (skipn (Z.to_nat off) (indexes_ rd)) in
        let next_offset :=
          DecodeFixed64 (skipn (Z.to_nat (off + 8)) (indexes_ rd)) in
        (* bloomfilter_.data() is cache_contents_.data(): remove_suffix has
           left it where it was *)
        let bf := peek (cache_contents_ rd) bloomoffset
                    (wrap64 (next_bloomoffset - bloomoffset)) in
        if BloomKeyMayMatch k bf then
          let '(found, status, result, rd) :=
            GetFrom rd k result offset (wrap64 (next_offset - offset)) in
          if found then (status, result, rd)
          else if negb (ok status) then (status, result, rd)
          else Get_loop fuel' rd k result status
                 next_bloomoffset next_offset (off + 16)
        else Get_loop fuel' rd k result status
               next_bloomoffset next_offset (off + 16)
      else (status, result, rd)
  end.

(** [Get(k, result)]: the status, the result string (left as it was when
    nothing is found) and the reader afterwards. *)
Definition Get (rd : t) (k result : bytes) : Status * bytes * t :=
  let '(status, rd) := MaybeLoadCache rd in
  if negb (ok status) then (status, result, rd)
  else
    let bloomoffset := DecodeFixed64 (indexes_ rd) in
    let offset := DecodeFixed64 (skipn 8 (indexes_ rd)) in
    Get_loop (length (indexes_ rd)) rd k result status bloomoffset offset 16.

(** A sequence of [Get]s on one reader, each with a fresh empty result
    string; the status and the result of each come back in call order. *)
Fixpoint Gets (rd : t) (keys : list bytes) : list (Status * bytes) * t :=
  match keys with
  | [] => ([], rd)
  | k :: keys' =>
      let '(st, result, rd1) := Get rd k [] in
      let '(rs, rd2) := Gets rd1 keys' in
      ((st, result) :: rs, rd2)
  end.

Definition is_block_read (e : origin * Env.Call) : bool :=
  match fst e with BlockRead => true | _ => false end.

Definition is_footer_read (e : origin * Env.Call) : bool :=
  match fst e with FooterRead => true | _ => false end.

Definition is_index_read (e : origin * Env.Call) : bool :=
  match fst e with IndexRead => true | _ => false end.

End Reader.
Arguments t R : clear implicits.
End Reader.

(** ** Storage that works *)

(** A healthy destination never fails and keeps what is appended to it;
    [contents f] is the bytes a file holds. *)
Record StorageOk {F : Type} `{Env.WritableFile F}
    (contents : F -> bytes) (healthy : F -> Prop) : Prop := {
  storage_append :
    forall (f : F) (d : bytes), healthy f ->
      exists f', Env.Append f d = (OK, f') /\ healthy f' /\
                 contents f' = contents f ++ d;
  storage_flush :
    forall f : F, healthy f ->
      exists f', Env.Flush f = (OK, f') /\ healthy f' /\ contents f' = contents f;
  storage_sync :
    forall f : F, healthy f ->
      exists f', Env.Sync f = (OK, f') /\ healthy f' /\ contents f' = contents f;
  storage_close :
    forall f : F, healthy f ->
      exists f', Env.Close f = (OK, f') /\ healthy f' /\ contents f' = contents f
}.

(** A source that serves a file returns the bytes asked for, fewer at the end
    of the file, and goes on serving it. *)
Record SourceOk {R : Type} `{Env.RandomAccessFile R}
    (serves : R -> bytes -> Prop) : Prop := {
  source_read :
    forall (r : R) (file : bytes) (off n : Z),
      serves r file -> 0 <= off -> 0 <= n ->
      exists r',
        Env.Read r off n
        = (OK, firstn (Z.to_nat n) (skipn (Z.to_nat off) file), r') /\
        serves r' file
}.

(** The records a sequence of calls adds, in call order. *)
Fixpoint added (ops : list Writer.Op) : list entry :=
  match ops with
  | [] => []
  | Writer.OpAdd k v :: ops' => (k, v) :: added ops'
  | _ :: ops' => added ops'
  end.

(** The in-memory file as storage: healthy while its script is empty. *)
Definition MemFile_healthy (f : MemFile.t) : Prop := MemFile.script f = [].

Definition MemFile_serves (f : MemFile.t) (file : bytes) : Prop :=
  MemFile.script f = [] /\ MemFile.data f = file.

(** ** The layout of a finished file *)

Section Layout.
Context {BF : BlockFormat} {FF : FilterFormat}.
Variable options : DirOptions.

(** The filter stripe [Compact] builds for a buffer that holds [es]. *)
Definition stripe_of (es : list entry) : bytes :=
  if bf_bits_per_key options =? 0 then []
  else BloomBuilder_build (bf_bits_per_key options) (Z.of_nat (length es))
         (map fst (Block_entries (BlockBuf_Finish es))).

(** The data blocks and the filter stream of a file whose blocks hold
    [blocks], one list of entries per block. *)
Definition data_of (blocks : list (list entry)) : bytes :=
  concat (map BlockBuf_Finish blocks).

Definition filters_of (blocks : list (list entry)) : bytes :=
  concat (map stripe_of blocks).

(** Entry [i] of the index stripe: the length of the filter stream and the
    offset of the data once [i] blocks have been written. *)
Definition pair_at (blocks : list (list entry)) (i : nat) : Z * Z :=
  (size (filters_of (firstn i blocks)),
   wrap64 (size (data_of (firstn i blocks)))).

Definition pairs_upto (blocks : list (list entry)) (n : nat) : list (Z * Z) :=
  map (pair_at blocks) (seq 0 n).

Definition index_of (blocks : list (list entry)) : bytes :=
  encode_pairs (pairs_upto blocks (S (length blocks))).

Definition footer_for (blocks : list (list entry)) : bytes :=
  let start := wrap64 (size (data_of blocks)) in
  let bloom_handle := mkBlockHandle start (size (filters_of blocks)) in
  let index_handle :=
    mkBlockHandle (wrap64 (start + size (filters_of blocks)))
                  (size (index_of blocks)) in
  resize (Handle.EncodeTo index_handle (Handle.EncodeTo bloom_handle []))
         (2 * Handle.kMaxEncodedLength).

Definition file_of (blocks : list (list entry)) : bytes :=
  data_of blocks ++ filters_of blocks ++ index_of blocks ++ footer_for blocks.

(** What a walk over the blocks finds for a key: the value of the first entry
    with that key in the first block whose filter lets the key through and
    which holds the key; [result] when there is none. *)
Fixpoint search (k result : bytes) (blocks : list (list entry)) : bytes :=
  match blocks with
  | [] => result
  | es :: blocks' =>
      if BloomKeyMayMatch k (stripe_of es) then
        match Block_Seek k es with
        | Some v => v
        | None => search k result blocks'
        end
      else search k result blocks'
  end.

End Layout.

(** A sample run of the writer, and what it adds. *)
Definition sample_ops : list Writer.Op :=
  [Writer.OpAdd (Sample.key 1) (Sample.key 100);
   Writer.OpFlush;
   Writer.OpAdd (Sample.key 2) (Sample.key 200);
   Writer.OpSync;
   Writer.OpAdd (Sample.key 3) (Sample.key 300)].

(** A sample file of one block, and a source that serves it. *)
Definition sample_blocks : list (list entry) :=
  [[(Sample.key 1, Sample.key 100); (Sample.key 2, Sample.key 200)]].

Definition sample_file : bytes := file_of sample_options sample_blocks.

Definition sample_source : MemFile.t := MemFile.mk sample_file [].

(** A file that is one footer, whose two handles are larger together than a
    [size_t] holds: the filter stream at offset 0 with [2^64 - 16] bytes, the
    index stream at offset 0 with 16 bytes, as varints, and the padding. *)
Definition wrapped_footer : bytes :=
  [Byte.x00;
   Byte.xf0; Byte.xff; Byte.xff; Byte.xff; Byte.xff; Byte.xff; Byte.xff;
   Byte.xff; Byte.xff; Byte.x01;
   Byte.x00;
   Byte.x10] ++ repeat Byte.x00 27.

Definition wrapped_source : MemFile.t := MemFile.mk wrapped_footer [].

(** A reader over that file that has nothing latched. *)
Definition unlatched (rd : Reader.t MemFile.t) : Prop :=
  Reader.src_ rd = wrapped_source /\ Reader.src_sz_ rd = 40 /\
  Reader.cache_status_ rd = OK /\ Reader.cache_contents_ rd = [].

(** The reads of one load of that file: the footer, then no bytes at offset
    0 for the two streams. *)
Definition wrapped_load : list (Reader.origin * Env.Call) :=
  [(Reader.FooterRead, Env.CallRead 0 40 OK);
   (Reader.IndexRead, Env.CallRead 0 0 OK)].

(** ** Compactions that run side by side *)

(** [Compact] gives up [mu_] while it builds a block and while it writes it,
    so compactions handed to a pool interleave. The module cuts [Compact]
    at the points where [mu_] changes hands; a schedule is a sequence of
    labels, each naming the thread that takes the next step. Steps that the
    code takes under [mu_] are single steps; the steps taken without [mu_]
    (building, appending, flushing) are steps of their own, so that a
    schedule may put the steps of other threads between them. *)
Module Pool.
Section Pool.
Context {F : Type} `{Env.WritableFile F} {BF : BlockFormat} {FF : FilterFormat}.

(** Where a compaction task stands. *)
Inductive pc : Type :=
| Queued                               (* scheduled, not started *)
| Building                             (* mu_ released: block and filter *)
| AtBarrier (block filter : bytes)     (* mu_ held: the loop on bg_cv_ *)
| Writing (block filter : bytes)       (* past the loop, mu_ released *)
| Flushing (block : bytes) (status : Status)   (* after dst_->Append *)
| Returning (status : Status)          (* mu_ held again: return status *)
| Committed.                           (* the ticket is committed *)

Record task : Type := mkTask {
  compac_seq : Z;      (* the ticket, a uint32_t *)
  immbuf : nat;        (* the buffer being compacted *)
  at_ : pc
}.

(** The writer, the tasks in the order they were scheduled, and a ghost log
    of the blocks appended to the sink, each with the ticket of the task
    that appended it. *)
Record t : Type := mk {
  w : Writer.t F;
  tasks : list task;
  appended : list (Z * bytes)
}.

Inductive label : Type :=
| Fill (k v : bytes)   (* the client thread adds a record *)
| Rotate               (* the client thread rotates the active buffer *)
| Enter (i : nat)      (* task i starts [Compact] *)
| Build (i : nat)      (* task i has built its block and retaken mu_ *)
| Pass (i : nat)       (* task i leaves the loop on bg_cv_ *)
| Append (i : nat)     (* task i records the index entry and appends *)
| Flush (i : nat)      (* task i updates the offset and flushes *)
| Commit (i : nat).    (* task i returns and commits its ticket *)

Definition set_task (s : t) (i : nat) (tk : task) (p : pc) : list task :=
  <[i := mkTask (compac_seq tk) (immbuf tk) p]> (tasks s).

(** The first lines of [Compact], under [mu_]: an empty buffer whose turn
    has come is skipped. *)
Definition enter (s : t) (i : nat) : option t :=
  match tasks s !! i with
  | Some tk =>
      match at_ tk, Writer.bbs_ (w s) !! immbuf tk with
      | Queued, Some bb =>
          if BlockBuf_empty bb
             && (compac_seq tk
                 =? wrap32 (num_compac_completed_ (Writer.base (w s)) + 1))
          then Some (mk (w s) (set_task s i tk (Returning OK)) (appended s))
          else Some (mk (w s) (set_task s i tk Building) (appended s))
      | _, _ => None
      end
  | None => None
  end.

(** Without [mu_]: the block and its filter. *)
Definition build (s : t) (i : nat) : option t :=
  match tasks s !! i with
  | Some tk =>
      match at_ tk, Writer.bbs_ (w s) !! immbuf tk with
      | Building, Some bb =>
          let block_contents :=
            if negb (BlockBuf_empty bb)
            then BlockBuf_Finish (bb_entries bb) else [] in
          let filter_contents :=
            if negb (BlockBuf_empty bb)
               && negb (bf_bits_per_key (Writer.options_ (w s)) =? 0)
            then BloomBuilder_build (bf_bits_per_key (Writer.options_ (w s)))
                   (BlockBuf_NumEntries bb)
                   (map fst (Block_entries block_contents))
            else [] in
          Some (mk (w s)
                  (set_task s i tk (AtBarrier block_contents filter_contents))
                  (appended s))
      | _, _ => None
      end
  | None => None
  end.

(** [while (compac_seq != num_compac_completed_ + 1) bg_cv_.Wait()]: the
    task leaves the loop when its turn has come, and not before. *)
Definition pass (s : t) (i : nat) : option t :=
  match tasks s !! i with
  | Some tk =>
      match at_ tk with
      | AtBarrier block filter =>
          if compac_seq tk
             =? wrap32 (num_compac_completed_ (Writer.base (w s)) + 1)
          then Some (mk (w s) (set_task s i tk (Writing block filter))
                       (appended s))
          else None
      | _ => None
      end
  | None => None
  end.

(** Without [mu_]: the index entry, the filter stripe, and the block to the
    sink. *)
Definition append (s : t) (i : nat) : option t :=
  match tasks s !! i with
  | Some tk =>
      match at_ tk with
      | Writing block_contents filter_contents =>
          let w0 := w s in
          let w1 := Writer.set_indexes w0
                      (PutFixed64 (Writer.indexes_ w0)
                         (size (Writer.bloomfilter_ w0))) in
          let w2 := if negb (is_empty filter_contents)
                    then Writer.set_bloomfilter w1
                           (Writer.bloomfilter_ w1 ++ filter_contents)
                    else w1 in
          let w3 := Writer.set_indexes w2
                      (PutFixed64 (Writer.indexes_ w2) (Writer.offset_ w2)) in
          if negb (is_empty block_contents) then
            let '(status, w4) := Writer.dst_Append w3 block_contents in
            Some (mk w4 (set_task s i tk (Flushing block_contents status))
                    (appended s ++ [(compac_seq tk, block_contents)]))
          else
            Some (mk w3 (set_task s i tk (Flushing block_contents OK))
                    (appended s))
      | _ => None
      end
  | None => None
  end.

(** Still without [mu_]: the offset moves and the sink is flushed, when the
    append went well. *)
Definition flush (s : t) (i : nat) : option t :=
  match tasks s !! i with
  | Some tk =>
      match at_ tk with
      | Flushing block_contents status =>
          if ok status then
            let w1 := Writer.set_offset (w s)
                        (wrap64 (Writer.offset_ (w s) + size block_contents)) in
            let '(status, w2) := Writer.dst_Flush w1 in
            Some (mk w2 (set_task s i tk (Returning status)) (appended s))
          else
            Some (mk (w s) (set_task s i tk (Returning status)) (appended s))
      | _ => None
      end
  | None => None
  end.

(** Modelled from the spec: step 4 of the compaction task (section 4.4),
    under [mu_]: the ticket becomes the last committed one, the buffer is
    cleared and freed, and the first error is latched. *)
Definition commit (s : t) (i : nat) : option t :=
  match tasks s !! i with
  | Some tk =>
      match at_ tk with
      | Returning status =>
          let w0 := w s in
          let b := Writer.base w0 in
          let bbs := match Writer.bbs_ w0 !! immbuf tk with
                     | Some bb => <[immbuf tk := BlockBuf_Reset bb]> (Writer.bbs_ w0)
                     | None => Writer.bbs_ w0
                     end in
          let b' := mkDoubleBuffering
                      (bufs_ b ++ [immbuf tk]) (membuf_ b)
                      (num_bg_compactions_ b - 1)
                      (num_compac_scheduled_ b) (compac_seq tk)
                      (if ok (bg_status_ b) then status else bg_status_ b)
                      (finished_ b) in
          Some (mk (Writer.set_base (Writer.set_bbs w0 bbs) b')
                  (set_task s i tk Committed) (appended s))
      | _ => None
      end
  | None => None
  end.

(** Modelled from the spec: the client thread appends a record to the active
    buffer, unless a compaction has failed. *)
Definition fill (s : t) (k v : bytes) : option t :=
  let w0 := w s in
  if negb (ok (bg_status_ (Writer.base w0))) then Some s
  else
    let m := membuf_ (Writer.base w0) in
    match Writer.bbs_ w0 !! m with
    | Some bb =>
        Some (mk (Writer.set_bbs w0 (<[m := BlockBuf_Add bb k v]> (Writer.bbs_ w0)))
                (tasks s) (appended s))
    | None => None
    end.

(** Modelled from the spec: [RotateBuffer] (section 4.4) when compactions
    go to a pool: the active buffer gets the next ticket and its task is
    queued. With no free buffer the client thread waits. *)
Definition rotate (s : t) : option t :=
  let w0 := w s in
  let b := Writer.base w0 in
  match bufs_ b with
  | [] => if ok (bg_status_ b) then None else Some s
  | free :: rest =>
      let ticket := wrap32 (num_compac_scheduled_ b + 1) in
      let b' := mkDoubleBuffering rest free
                  (num_bg_compactions_ b + 1) ticket
                  (num_compac_completed_ b) (bg_status_ b) (finished_ b) in
      Some (mk (Writer.set_base w0 b')
              (tasks s ++ [mkTask ticket (membuf_ b) Queued])
              (appended s))
  end.

(** One step of a schedule; [None] when the thread named cannot take the
    step (it waits, or it is elsewhere in its code). *)
Definition step (s : t) (l : label) : option t :=
  match l with
  | Fill k v => fill s k v
  | Rotate => rotate s
  | Enter i => enter s i
  | Build i => build s i
  | Pass i => pass s i
  | Append i => append s i
  | Flush i => flush s i
  | Commit i => commit s i
  end.

Fixpoint run (s : t) (schedule : list label) : option t :=
  match schedule with
  | [] => Some s
  | l :: schedule' =>
      match step s l with
      | Some s' => run s' schedule'
      | None => None
      end
  end.

(** A writer fresh from its constructor, no task yet. *)
Definition init (options : DirOptions) (dst : F) (buf_size n : Z) : t :=
  mk (Writer.BufferedBlockWriter options dst buf_size n) [] [].

(** The steps of one task, start to end. *)
Definition whole (i : nat) : list label :=
  [Enter i; Build i; Pass i; Append i; Flush i; Commit i].

End Pool.
Arguments t F : clear implicits.
End Pool.

(** The blocks handed to [dst_->Append], in call order. *)
Fixpoint appends_of (calls : list Env.Call) : list bytes :=
  match calls with
  | [] => []
  | Env.CallAppend data _ :: calls' => data :: appends_of calls'
  | _ :: calls' => appends_of calls'
  end.

(** A sequence of tickets goes up strictly. *)
Fixpoint increasing (l : list Z) : Prop :=
  match l with
  | [] => True
  | x :: l' =>
      match l' with
      | [] => True
      | y :: _ => x < y /\ increasing l'
      end
  end.

(** A sample schedule with two tasks: the second builds its block first and
    waits at the barrier while the first is still queued. *)
Definition sample_schedule : list Pool.label :=
  [Pool.Fill (Sample.key 1) (Sample.key 100); Pool.Rotate;
   Pool.Fill (Sample.key 2) (Sample.key 200); Pool.Rotate;
   Pool.Enter 1; Pool.Build 1;
   Pool.Enter 0; Pool.Build 0; Pool.Pass 0; Pool.Append 0;
   Pool.Flush 0; Pool.Commit 0;
   Pool.Pass 1; Pool.Append 1; Pool.Flush 1; Pool.Commit 1].

Definition sample_pool : Pool.t MemFile.t :=
  Pool.init sample_options MemFile.empty 4096 3.

(** The sample pool after the sample schedule. *)
Definition sample_pool_end : Pool.t MemFile.t :=
  match Pool.run sample_pool sample_schedule with
  | Some s => s
  | None => sample_pool
  end.

(** ** Predicates of the statements *)

Section WriterPredicates.
Context {F : Type} `{Env.WritableFile F} {BF : BlockFormat} {FF : FilterFormat}.
Import Writer.

(** An [Append] on the destination that succeeded. *)
Definition append_ok (c : Env.Call) : bool :=
  match c with Env.CallAppend _ st => ok st | _ => false end.

(** The block and the filter stripe a compaction builds from a buffer. *)
Definition block_of (bb : BlockBuf) : bytes := BlockBuf_Finish (bb_entries bb).

Definition filter_of (options : DirOptions) (bb : BlockBuf) : bytes :=
  if bf_bits_per_key options =? 0 then []
  else BloomBuilder_build (bf_bits_per_key options) (BlockBuf_NumEntries bb)
         (map fst (Block_entries (block_of bb))).

(** A pair whose two numbers fit in 64 bits. *)
Definition pair_fits (p : Z * Z) : Prop :=
  0 <= fst p < 2 ^ 64 /\ 0 <= snd p < 2 ^ 64.

(** The invariant of the index stripe between two compactions: it is the
    encoding of a list of pairs, one per block emitted so far; the first and
    the second components never go down, and they end at or below the length
    of the filter stream and the offset of the data. *)
Definition index_inv (w : Writer.t F) (pairs : list (Z * Z)) : Prop :=
  indexes_ w = encode_pairs pairs /\
  Forall pair_fits pairs /\
  nondecreasing (map fst pairs ++ [size (bloomfilter_ w)]) /\
  nondecreasing (map snd pairs ++ [offset_ w]) /\
  size (bloomfilter_ w) < 2 ^ 64 /\
  0 <= offset_ w < 2 ^ 64.

(** What [Close] hands to the destination, in this order: the filter stream
    unless it is empty, the index stripe with its closing entry, and the
    footer that holds the two handles. *)
Definition Close_appends (w : Writer.t F) : list bytes :=
  let idx := indexes_ w ++ encode_pair (size (bloomfilter_ w), offset_ w) in
  let bh := mkBlockHandle (offset_ w) (size (bloomfilter_ w)) in
  let ih := mkBlockHandle (wrap64 (offset_ w + size (bloomfilter_ w)))
              (size idx) in
  (if is_empty (bloomfilter_ w) then [] else [bloomfilter_ w])
  ++ [idx;
      resize (Handle.EncodeTo ih (Handle.EncodeTo bh []))
        (2 * Handle.kMaxEncodedLength)].

(** The calls of a [Close] that has [todo] to append, and its result: the
    appends in order, each one attempted only when the one before succeeded;
    after a failed append nothing more, and its status is the result; after
    the last append a sync, whose status is the result, and a close, whose
    status is dropped. *)
Fixpoint close_trace (todo : list bytes) (calls : list Env.Call)
    (result : Status) : Prop :=
  match todo with
  | [] => exists stc, calls = [Env.CallSync result; Env.CallClose stc]
  | d :: todo' =>
      exists st rest,
        calls = Env.CallAppend d st :: rest /\
        if ok st then close_trace todo' rest result
        else rest = [] /\ result = st
  end.

(** The calls of the compaction of a block, and its status: an append unless
    the block is empty, and a flush when that went well. *)
Definition compact_trace (block : bytes) (calls : list Env.Call)
    (result : Status) : Prop :=
  match block with
  | [] => calls = [Env.CallFlush result]
  | _ =>
      exists st,
        if ok st then calls = [Env.CallAppend block st; Env.CallFlush result]
        else calls = [Env.CallAppend block st] /\ result = st
  end.

(** The calls of the drain of [Finish], and its status: nothing when the
    active buffer is empty, else the compaction of that buffer; the status
    is the error latched earlier, if any, else that of the compaction. *)
Definition drain_trace (w : Writer.t F) (calls : list Env.Call)
    (result : Status) : Prop :=
  match membuf_entries w with
  | [] => calls = [] /\ result = bg_status_ (base w)
  | es =>
      exists st,
        compact_trace (BlockBuf_Finish es) calls st /\
        result = if ok (bg_status_ (base w)) then st else bg_status_ (base w)
  end.

(** A writer between two calls, with its compactions run by the caller:
    [Finish] has not been called, nothing is outstanding, the active buffer
    exists and a free one is left. *)
Definition quiescent (w : Writer.t F) : Prop :=
  finished_ (base w) = false /\
  compaction_pool (options_ w) = false /\
  allow_env_threads (options_ w) = false /\
  num_bg_compactions_ (base w) = 0 /\
  num_compac_scheduled_ (base w) = num_compac_completed_ (base w) /\
  (exists bb, bbs_ w !! membuf_ (base w) = Some bb) /\
  bufs_ (base w) <> [].

End WriterPredicates.

Section ReaderPredicates.
Context {R : Type} `{Env.RandomAccessFile R}.
Import Reader.

(** A load reads the footer at most once and the index region at most once,
    and no data block. *)
Definition load_reads (l : list (origin * Env.Call)) : Prop :=
  (length (List.filter is_footer_read l) <= 1)%nat /\
  (length (List.filter is_index_read l) <= 1)%nat /\
  List.filter is_block_read l = [].

End ReaderPredicates.

(** A task between the barrier of [Compact] and its commit. *)
Definition in_region (p : Pool.pc) : bool :=
  match p with
  | Pool.Writing _ _ | Pool.Flushing _ _ | Pool.Returning _ => true
  | _ => false
  end.

(** A sample log sink, open on an in-memory file, at offset 10. *)
Definition sample_sink : LogSink.t MemFile.t :=
  LogSink.mk "/tmp/plfs" false 0 OK 0 10 (Some MemFile.empty)
    "/tmp/plfs/L-000.dat" 1 [].

(** A sample file in which key 1 was written twice, in two blocks. *)
Definition sample_blocks_dup : list (list entry) :=
  [[(Sample.key 1, Sample.key 100)];
   [(Sample.key 1, Sample.key 111); (Sample.key 2, Sample.key 200)]].

Definition sample_source_dup : MemFile.t :=
  MemFile.mk (file_of sample_options sample_blocks_dup) [].

(** ** Predicates on the trace of reads *)

(** Every read of a trace but the last one returned OK. *)
Fixpoint ok_but_last (l : list (Reader.origin * Env.Call)) : Prop :=
  match l with
  | [] => True
  | c :: l' =>
      match l' with
      | [] => True
      | _ :: _ => ok (Env.call_status (snd c)) = true /\ ok_but_last l'
      end
  end.

(** The status of the last read of a trace. *)
Fixpoint last_status (l : list (Reader.origin * Env.Call)) : option Status :=
  match l with
  | [] => None
  | c :: l' =>
      match l' with
      | [] => Some (Env.call_status (snd c))
      | _ :: _ => last_status l'
      end
  end.


(** The sample writer after [Add(key 1, key 100)] on a given destination:
    the record waits in the first buffer. *)
Definition sample_writer_pending (dst : MemFile.t) : Writer.t MemFile.t :=
  match Writer.Add (sample_writer dst) (Sample.key 1) (Sample.key 100) with
  | Some (_, w) => w
  | None => sample_writer dst
  end.

(** A destination whose next call fails. *)
Definition sample_full_disk : MemFile.t :=
  MemFile.mk [] [IOError "No space left on device"].

(** ** Accounting of a log sink *)

(** The bytes of the writes of a sequence that the sink acknowledged with OK,
    given the status of each operation. *)
Fixpoint acknowledged (ops : list LogSink.Op) (sts : list Status) : Z :=
  match ops, sts with
  | LogSink.OpLwrite data :: ops', st :: sts' =>
      (if ok st then size data else 0) + acknowledged ops' sts'
  | LogSink.OpLsync :: ops', _ :: sts' => acknowledged ops' sts'
  | _, _ => 0
  end.

(** The data of the writes of a sequence, in order. *)
Fixpoint written (ops : list LogSink.Op) : list bytes :=
  match ops with
  | [] => []
  | LogSink.OpLwrite data :: ops' => data :: written ops'
  | LogSink.OpLsync :: ops' => written ops'
  end.

Definition is_Lsync (o : LogSink.Op) : bool :=
  match o with LogSink.OpLsync => true | _ => false end.

(** A device that takes three calls and fails the fourth. *)
Definition sample_flaky_sink : LogSink.t MemFile.t :=
  LogSink.mk "/tmp/plfs" false 0 OK 0 10
    (Some (MemFile.mk [] [OK; OK; OK; IOError "No space left on device"]))
    "/tmp/plfs/L-000.dat" 1 [].

Definition sample_sink_ops : list LogSink.Op :=
  [LogSink.OpLwrite (Sample.key 1); LogSink.OpLwrite (Sample.key 2);
   LogSink.OpLsync; LogSink.OpLwrite (Sample.key 3)].

(** ** The log source ([LogSource] of the plfsio io header) *)

Module LogSource.
Section Source.
Context {R : Type} `{Env.RandomAccessFile R}.

(** A log that was rotated is read from several files: [files_] holds each
    file with its size, [num_files_] is their number. *)
Record t : Type := mk {
  prefix_ : string;
  files_ : list (R * Z)
}.

Definition num_files_ (s : t) : Z := Z.of_nat (length (files_ s)).

(** [Read(offset, n, result, scratch, index)]: a file of the log is read,
    and an index past the last file gives OK and empty data. *)
Definition Read (s : t) (offset n index : Z) : Status * bytes * t :=
  if index <? num_files_ s then
    match files_ s !! Z.to_nat index with
    | Some (f, sz) =>
        (* May return cached data *)
        let '(status, result, f') := Env.Read f offset n in
        (status, result,
         mk (prefix_ s) (<[Z.to_nat index := (f', sz)]> (files_ s)))
    | None => (OK, [], s)
    end
  else (OK, [], s) (* Return empty data *).

(** [Size(index)]: the size of a given file. *)
Definition Size (s : t) (index : Z) : Z :=
  if index <? num_files_ s then
    match files_ s !! Z.to_nat index with
    | Some (_, sz) => sz
    | None => 0
    end
  else 0.

(** [LastFileIndex()]; [~static_cast<size_t>(0)], with a [size_t] of 64
    bits, marks a log without files. *)
Definition LastFileIndex (s : t) : Z :=
  if num_files_ s =? 0 then 2 ^ 64 - 1 (* Invalid *)
  else num_files_ s - 1.

(** [TotalSize()]: the accumulated file size, summed in a 64-bit counter. *)
Definition TotalSize (s : t) : Z :=
  fold_left (fun result f => wrap64 (result + snd f)) (files_ s) 0.

End Source.
Arguments t R : clear implicits.
End LogSource.

(** The sum of the sizes of the files of a log. *)
Definition sum_sizes {R : Type} (files : list (R * Z)) : Z :=
  fold_right Z.add 0 (map snd files).

(** ** The direct writer ([DirectWriter] of bulkio.cc) *)

Module DirectWriter.
Section Writer.
Context {F : Type} `{Env.WritableFile F}.

(** The state of a [DirectWriter]: the fields its constructor sets, with
    [dst_calls_] the ghost trace of the calls made on [dst_]. The state of
    the base class, which [Compact] and [SyncBackend] do not touch, is left
    out. *)
#[projections(primitive)]
Record t : Type := mk {
  options_ : DirOptions;
  dst_ : F;                      (* Not owned by us *)
  dst_calls_ : list Env.Call;
  buf_threshold_ : Z;
  buf_reserv_ : Z;
  str0_ : bytes;
  str1_ : bytes;
  mem_buf_ : nat                 (* 0 for [&str0_], 1 for [&str1_] *)
}.

Definition set_dst (w : t) (f : F) (c : list Env.Call) : t :=
  mk (options_ w) f (dst_calls_ w ++ c) (buf_threshold_ w) (buf_reserv_ w)
     (str0_ w) (str1_ w) (mem_buf_ w).

(** [DirectWriter::DirectWriter(options, dst, buf_size)] *)
Definition DirectWriter (options : DirOptions) (dst : F) (buf_size : Z) : t :=
  mk options dst [] buf_size buf_size [] [] 0.

(** [Compact(buf)], with the contents [s] of the buffer [buf] points to. *)
Definition Compact (w : t) (s : bytes) : Status * t :=
  (* Skip empty buffers *)
  if is_empty s then (OK, w)
  else
    let '(status, f) := Env.Append (dst_ w) s in
    let w := set_dst w f [Env.CallAppend s status] in
    (* Does not sync data to storage. Sync() does. *)
    if ok status then
      let '(status, f) := Env.Flush (dst_ w) in
      (status, set_dst w f [Env.CallFlush status])
    else (status, w).

(** [SyncBackend(close)] *)
Definition SyncBackend (w : t) (close : bool) : Status * t :=
  let '(status, f) := Env.Sync (dst_ w) in
  let w := set_dst w f [Env.CallSync status] in
  if close then
    let '(st, f) := Env.Close (dst_ w) in
    (status, set_dst w f [Env.CallClose st])
  else (status, w).

(** The two operations, as the base class issues them. *)
Inductive Op : Type :=
| OpCompact (s : bytes)
| OpSyncBackend (close : bool).

Definition step (w : t) (o : Op) : Status * t :=
  match o with
  | OpCompact s => Compact w s
  | OpSyncBackend close => SyncBackend w close
  end.

(** A sequence of operations, with the status of each. *)
Fixpoint run (w : t) (ops : list Op) : list Status * t :=
  match ops with
  | [] => ([], w)
  | o :: ops' =>
      let '(st, w1) := step w o in
      let '(sts, w2) := run w1 ops' in
      (st :: sts, w2)
  end.

(** The buffers a sequence of operations hands to [Compact], in order. *)
Fixpoint compacted (ops : list Op) : list bytes :=
  match ops with
  | [] => []
  | OpCompact s :: ops' => s :: compacted ops'
  | OpSyncBackend _ :: ops' => compacted ops'
  end.

Definition is_SyncBackend (o : Op) : bool :=
  match o with OpSyncBackend _ => true | _ => false end.

Definition is_closing (o : Op) : bool :=
  match o with OpSyncBackend close => close | _ => false end.

(** The statuses the calls to [SyncBackend] of a sequence returned. *)
Fixpoint sync_statuses (ops : list Op) (sts : list Status) : list Status :=
  match ops, sts with
  | OpSyncBackend _ :: ops', st :: sts' => st :: sync_statuses ops' sts'
  | OpCompact _ :: ops', _ :: sts' => sync_statuses ops' sts'
  | _, _ => []
  end.

End Writer.
Arguments t F : clear implicits.
End DirectWriter.

(** ** The direct reader ([DirectReader] of bulkio.cc) *)

Module DirectReader.
Section Reader.
Context {R : Type} `{Env.RandomAccessFile R}.

Record t : Type := mk {
  options_ : DirOptions;
  src_ : R                       (* src_ is not owned by us *)
}.

(** [DirectReader::DirectReader(options, src)] *)
Definition DirectReader (options : DirOptions) (src : R) : t := mk options src.

(** [Read(off, n, result, scratch)]: directly read data from the source. *)
Definition Read (rd : t) (off n : Z) : Status * bytes * t :=
  let '(status, result, r) := Env.Read (src_ rd) off n in
  (status, result, mk (options_ rd) r).

End Reader.
Arguments t R : clear implicits.
End DirectReader.

Definition nonempty (s : bytes) : bool := negb (is_empty s).

(** A device on which everything fails from the second call on. *)
Definition sample_broken_disk : MemFile.t :=
  MemFile.mk [] [OK; IOError "Input/output error"; IOError "Input/output error";
                 IOError "Input/output error"].

Definition sample_direct_ops : list DirectWriter.Op :=
  [DirectWriter.OpCompact (Sample.key 1); DirectWriter.OpCompact [];
   DirectWriter.OpCompact (Sample.key 2); DirectWriter.OpSyncBackend true].

(** ** The measured file ([AtomicMeasuredRandomAccessFile] of env_files.cc) *)

Module Measured.
Section File.
Context {R : Type} `{Env.RandomAccessFile R}.

(** The wrapper and its [Rep]: two 64-bit counters. *)
Record t : Type := mk {
  base_ : R;
  bytes_ : Z;
  ops_ : Z
}.

(** [AtomicMeasuredRandomAccessFile(base)] *)
Definition AtomicMeasuredRandomAccessFile (base : R) : t := mk base 0 0.

(** [Rep::AcceptRead(n)] *)
Definition AcceptRead (m : t) (n : Z) : t :=
  mk (base_ m) (wrap64 (bytes_ m + n)) (wrap64 (ops_ m + 1)).

Definition TotalBytes (m : t) : Z := bytes_ m.

Definition TotalOps (m : t) : Z := ops_ m.

(** [Read(offset, n, result, scratch)] *)
Definition Read (m : t) (offset n : Z) : Status * bytes * t :=
  let '(status, result, b) := Env.Read (base_ m) offset n in
  let m := mk b (bytes_ m) (ops_ m) in
  if ok status then (status, result, AcceptRead m (size result))
  else (status, result, m).

#[global] Instance readable : Env.RandomAccessFile t := {
  Env.Read := Read
}.

End File.
Arguments t R : clear implicits.
End Measured.

(** A sequence of reads on a file, each with its offset and length: the
    status and the data of each, and the file afterwards. *)
Fixpoint read_all {R : Type} `{Env.RandomAccessFile R} (r : R)
    (reqs : list (Z * Z)) : list (Status * bytes) * R :=
  match reqs with
  | [] => ([], r)
  | (off, n) :: reqs' =>
      let '(st, data, r1) := Env.Read r off n in
      let '(rs, r2) := read_all r1 reqs' in
      ((st, data) :: rs, r2)
  end.

(** The reads of a sequence that returned OK, and the bytes they returned. *)
Definition ok_reads (rs : list (Status * bytes)) : list (Status * bytes) :=
  List.filter (fun r => ok (fst r)) rs.

Definition bytes_read (rs : list (Status * bytes)) : Z :=
  fold_right Z.add 0 (map (fun r => size (snd r)) (ok_reads rs)).

(** The reads of a reader's trace that returned OK. *)
Definition ok_calls (l : list (Reader.origin * Env.Call))
  : list (Reader.origin * Env.Call) :=
  List.filter (fun c => ok (Env.call_status (snd c))) l.

(** The reader that reads the file below the measuring wrapper directly. *)
Definition unmeasured {R : Type} (rd : Reader.t (Measured.t R)) : Reader.t R :=
  Reader.mk (Reader.options_ rd) (Measured.base_ (Reader.src_ rd))
    (Reader.src_sz_ rd) (Reader.cache_status_ rd) (Reader.cache_contents_ rd)
    (Reader.indexes_ rd) (Reader.bloomfilter_ rd) (Reader.reads_ rd).

(** ** The whole-file buffer ([WholeFileBufferedRandomAccessFile] of
    env_files.cc) *)

(** [SequentialFile::Read(n, &result, scratch)]: the status and the slice
    read, and the file afterwards, which has moved on by what was read. *)
Class SequentialFile (SF : Type) : Type := {
  SeqRead : SF -> Z -> Status * bytes * SF
}.

Module WholeFile.
Section File.
Context {SF : Type} `{SequentialFile SF}.

(** [base_] is [None] for the NULL pointer; [buf_] stands for the array of
    [max_buf_size_] bytes, of which the first [buf_size_] are meaningful. *)
Record t : Type := mk {
  base_ : option SF;
  max_buf_size_ : Z;
  io_size_ : Z;
  buf_size_ : Z;
  buf_ : bytes
}.

(** The bytes the buffer holds. *)
Definition contents (w : t) : bytes :=
  firstn (Z.to_nat (buf_size_ w)) (buf_ w).

(** The loop of [Load]: [fuel] bounds the iterations, and [None] is a loop
    that has not ended within them. The slice read is copied to
    [buf_ + buf_size_]. *)
Fixpoint Load_loop (fuel : nat) (w : t) (base : SF) (status : Status)
  : option (Status * t * SF) :=
  match fuel with
  | O => None
  | S fuel' =>
      (* Reload until we reach max_buf_size_ *)
      if buf_size_ w <? max_buf_size_ w then
        let n := io_size_ w in
        let n := if n >? wrap64 (max_buf_size_ w - buf_size_ w)
                 then wrap64 (max_buf_size_ w - buf_size_ w) else n in
        let '(status, sli, base) := SeqRead base n in
        if negb (ok status) then Some (status, w, base) (* Error *)
        else if is_empty sli then Some (status, w, base) (* EOF *)
        else
          let w := mk (base_ w) (max_buf_size_ w) (io_size_ w)
                      (wrap64 (buf_size_ w + size sli))
                      (contents w ++ sli) in
          Load_loop fuel' w base status
      else Some (status, w, base)
  end.

(** [Load()]; it asserts that [base_] is there, and deletes it at the end. *)
Definition Load (fuel : nat) (w : t) : option (Status * t) :=
  match base_ w with
  | None => None
  | Some base =>
      let w := mk (base_ w) (max_buf_size_ w) (io_size_ w) 0 (buf_ w) in
      match Load_loop fuel w base OK with
      | None => None
      | Some (status, w, _) =>
          Some (status,
                mk None (max_buf_size_ w) (io_size_ w) (buf_size_ w) (buf_ w))
      end
  end.

End File.
Arguments t SF : clear implicits.
End WholeFile.

(** A sequential file never returns more than it was asked for. *)
Definition SeqBounded (SF : Type) `{SequentialFile SF} : Prop :=
  forall (s : SF) (n : Z), 0 <= n -> size (snd (fst (SeqRead s n))) <= n.

(** A sequential file that works: positioned before [rest], it returns the next
    bytes asked for, fewer at the end of the file, and moves past them. *)
Record SeqOk {SF : Type} `{SequentialFile SF} (before : SF -> bytes -> Prop)
  : Prop := {
  seq_read :
    forall (s : SF) (rest : bytes) (n : Z),
      before s rest -> 0 <= n ->
      exists s',
        SeqRead s n = (OK, firstn (Z.to_nat n) rest, s') /\
        before s' (skipn (Z.to_nat n) rest)
}.

(** An in-memory sequential file: the bytes not yet read, and a script of the
    answers the device gives to the next calls, as for [MemFile]. *)
Module SeqMem.

Record t : Type := mk { rest : bytes; script : list Status }.

Definition read (f : t) (n : Z) : Status * bytes * t :=
  match script f with
  | [] => (OK, firstn (Z.to_nat n) (rest f), mk (skipn (Z.to_nat n) (rest f)) [])
  | st :: sc =>
      if ok st
      then (OK, firstn (Z.to_nat n) (rest f),
            mk (skipn (Z.to_nat n) (rest f)) sc)
      else (st, [], mk (rest f) sc)
  end.

#[global] Instance sequential : SequentialFile t := { SeqRead := read }.

End SeqMem.

Definition SeqMem_before (f : SeqMem.t) (rest : bytes) : Prop :=
  SeqMem.rest f = rest /\ SeqMem.script f = [].

(** A buffer of 6 bytes, filled 4 bytes at a time from a file of 8 bytes. *)
Definition sample_whole_file : WholeFile.t SeqMem.t :=
  WholeFile.mk (Some (SeqMem.mk (Sample.key 1 ++ Sample.key 2) [])) 6 4 0 [].

(** The same, on a device that fails its second call. *)
Definition sample_whole_file_failing : WholeFile.t SeqMem.t :=
  WholeFile.mk (Some (SeqMem.mk (Sample.key 1 ++ Sample.key 2)
                        [OK; IOError "Input/output error"])) 6 4 0 [].

(** ** String utilities ([strutil.cc]) *)

Module Strutil.

(** A character constant, and the text of a string literal. *)
Definition chr (c : string) : Z :=
  match list_byte_of_string c with
  | b :: _ => byte.unsigned b
  | [] => 0
  end.

Definition text (s : string) : bytes := list_byte_of_string s.

(** [Slice::starts_with(x)] *)
Definition starts_with (s x : bytes) : bool :=
  (size x <=? size s) && bytes_eqb (firstn (length x) s) x.

(** [c >= '0' && c <= '9'] *)
Definition is_digit (c : byte) : bool :=
  (chr "0" <=? byte.unsigned c) && (byte.unsigned c <=? chr "9").

Definition kMaxUint64 : Z := 2 ^ 64 - 1.

(** An [int], of 32 bits. C++ leaves the overflow of an [int] undefined; the
    wrap written here is what the ports do, and no theorem below reaches
    it. *)
Definition wrap_int (z : Z) : Z := (z + 2 ^ 31) mod 2 ^ 32 - 2 ^ 31.

(** The loop of [ConsumeDecimalNumber]: whether it ended without overflow,
    what is left of the input, [v] and [digits]; [digits] is an [int]. *)
Fixpoint ConsumeDecimalNumber_loop (input : bytes) (v digits : Z)
  : bool * bytes * Z * Z :=
  match input with
  | [] => (true, input, v, digits)
  | c :: input' =>
      if is_digit c then
        let digits := wrap_int (digits + 1) in
        let delta := byte.unsigned c - chr "0" in
        if (v >? kMaxUint64 / 10)
           || ((v =? kMaxUint64 / 10) && (delta >? kMaxUint64 mod 10))
        then (* Overflow *) (false, input, v, digits)
        else ConsumeDecimalNumber_loop input' (wrap64 (v * 10 + delta)) digits
      else (true, input, v, digits)
  end.

(** [ConsumeDecimalNumber(in, val)]: what is returned, what is left of [in],
    and what was stored in [val], if anything: on overflow the function
    returns before the store. *)
Definition ConsumeDecimalNumber (input : bytes) : bool * bytes * option Z :=
  let '(completed, input, v, digits) := ConsumeDecimalNumber_loop input 0 0 in
  if completed then (0 <? digits, input, Some v)
  else (false, input, None).

(** [ParsePrettyNumber(value)] *)
Definition ParsePrettyNumber (value : bytes) : Z :=
  match ConsumeDecimalNumber value with
  | (true, input, Some base) =>
      if is_empty input then base
      else if starts_with input (text "k") then wrap64 (base * 1024)
      else if starts_with input (text "m")
           then wrap64 (wrap64 (base * 1024) * 1024)
      else if starts_with input (text "g")
           then wrap64 (wrap64 (wrap64 (base * 1024) * 1024) * 1024)
      else 0
  | _ => 0
  end.

(** [ParsePrettyBool(value)] *)
Definition ParsePrettyBool (value : bytes) : bool :=
  if bytes_eqb value (text "t") || bytes_eqb value (text "y") then true
  else if starts_with value (text "true") || starts_with value (text "yes")
       then true
  else false.

(** What [snprintf] prints for ["%llu"]: the decimal digits of [num], the
    most significant first and no leading zero; a [uint64_t] has at most 20. *)
Fixpoint decimal (fuel : nat) (num : Z) (acc : bytes) : bytes :=
  match fuel with
  | O => acc
  | S fuel' =>
      let acc := byte.of_Z (chr "0" + num mod 10) :: acc in
      if num <? 10 then acc else decimal fuel' (num / 10) acc
  end.

(** [AppendNumberTo(str, num)] *)
Definition AppendNumberTo (str : bytes) (num : Z) : bytes :=
  str ++ decimal 20 num [].

(** [NumberToString(num)] *)
Definition NumberToString (num : Z) : bytes := AppendNumberTo [] num.

(** What [snprintf] prints for ["%x"] of a number below 16. *)
Definition hex_digit (d : Z) : byte :=
  if d <? 10 then byte.of_Z (chr "0" + d) else byte.of_Z (chr "a" + (d - 10)).

(** [AppendEscapedStringTo(str, value)]; the format is ["\\x%02x"]. *)
Fixpoint AppendEscapedStringTo (str : bytes) (value : bytes) : bytes :=
  match value with
  | [] => str
  | c :: value' =>
      let str :=
        if (chr " " <=? byte.unsigned c) && (byte.unsigned c <=? chr "~")
        then str ++ [c]
        else str ++ [byte.of_Z 92; byte.of_Z (chr "x");
                     hex_digit (Z.land (byte.unsigned c) 255 / 16);
                     hex_digit (Z.land (byte.unsigned c) 255 mod 16)] in
      AppendEscapedStringTo str value'
  end.

(** [EscapeString(value)] *)
Definition EscapeString (value : bytes) : bytes :=
  AppendEscapedStringTo [] value.

End Strutil.

(** A printable character, from the space to the tilde. *)
Definition printable (c : byte) : Prop := 32 <= byte.unsigned c <= 126.

(** What [AppendEscapedStringTo] appends for one character. *)
Definition escaped (c : byte) : bytes :=
  if (32 <=? byte.unsigned c) && (byte.unsigned c <=? 126) then [c]
  else [byte.of_Z 92; byte.of_Z 120;
        Strutil.hex_digit (byte.unsigned c / 16);
        Strutil.hex_digit (byte.unsigned c mod 16)].

(** The number a string of decimal digits denotes, read after [v]. *)
Definition decimal_value (v : Z) (ds : bytes) : Z :=
  fold_left (fun v c => v * 10 + (byte.unsigned c - 48)) ds v.

(** The input goes on after the number: it does not start with a digit. *)
Definition no_digit_ahead (rest : bytes) : Prop :=
  match rest with
  | [] => True
  | c :: _ => Strutil.is_digit c = false
  end.

(** A sample log of two files, of 4 and 2 bytes. *)
Definition sample_log : LogSource.t MemFile.t :=
  LogSource.mk "/tmp/plfs"
    [(MemFile.mk (Sample.key 1) [], 4);
     (MemFile.mk (firstn 2 (Sample.key 2)) [], 2)].

(* ================================================================== *)
(** * Part II: lemmas and theorems *)
(* ================================================================== *)

(** ** Coding lemmas *)

Lemma size_nonneg (s : bytes) : 0 <= size s.
Proof. unfold size. lia. Qed.

Lemma size_app (a b : bytes) : size (a ++ b) = size a + size b.
Proof. unfold size. rewrite length_app. lia. Qed.

Lemma size_nil_iff (s : bytes) : size s = 0 <-> s = [].
Proof. unfold size. destruct s; simpl; split; intros; try congruence; lia. Qed.

Lemma EncodeFixed64_length v : length (EncodeFixed64 v) = 8%nat.
Proof. apply length_le_split. Qed.

Lemma EncodeFixed64_size v : size (EncodeFixed64 v) = 8.
Proof. unfold size. now rewrite EncodeFixed64_length. Qed.

Lemma DecodeFixed64_Encode v rest :
  DecodeFixed64 (EncodeFixed64 v ++ rest) = wrap64 v.
Proof.
  unfold DecodeFixed64, EncodeFixed64, wrap64.
  rewrite firstn_app, length_le_split. simpl (8 - 8)%nat.
  rewrite firstn_O, app_nil_r.
  rewrite firstn_all2 by (rewrite length_le_split; lia).
  now rewrite le_combine_split.
Qed.


(** Splitting off the low seven bits loses nothing. *)
Lemma varint_group_split v s :
  0 <= v -> 0 <= s ->
  Z.lor (Z.shiftl (Z.land v 127) s) (Z.shiftl (Z.shiftr v 7) (s + 7))
  = Z.shiftl v s.
Proof.
  intros Hv Hs. change 127 with (Z.ones 7).
  apply Z.bits_inj'. intros i Hi.
  rewrite Z.lor_spec, !Z.shiftl_spec by lia.
  destruct (Z.ltb_spec i s) as [Hlt|Hge].
  - rewrite !Z.testbit_neg_r by lia. reflexivity.
  - destruct (Z.ltb_spec (i - s) 7) as [Hlo|Hhi].
    + rewrite Z.land_spec, Z.ones_spec_low by lia.
      rewrite (Z.testbit_neg_r _ (i - (s + 7))) by lia.
      now rewrite andb_true_r, orb_false_r.
    + rewrite Z.land_spec, Z.ones_spec_high by lia.
      rewrite Z.shiftr_spec by lia.
      rewrite andb_false_r. simpl. f_equal. lia.
Qed.

Lemma lor_disjoint_bound a b n :
  0 <= n -> 0 <= a < 2 ^ n -> 0 <= b < 2 ^ n -> 0 <= Z.lor a b < 2 ^ n.
Proof.
  intros Hn Ha Hb. split.
  - apply Z.lor_nonneg. lia.
  - destruct (Z.eq_dec (Z.lor a b) 0) as [->|Hne]; [lia|].
    assert (Hn0 : 0 < n).
    { destruct (Z.eq_dec n 0) as [->|]; [|lia]. exfalso. apply Hne.
      change (2 ^ 0) with 1 in *. replace a with 0 by lia. now replace b with 0 by lia. }
    apply Z.log2_lt_pow2; [assert (0 <= Z.lor a b) by (apply Z.lor_nonneg; lia); lia|].
    rewrite Z.log2_lor by lia.
    apply Z.max_lub_lt.
    + destruct (Z.eq_dec a 0) as [->|]; [simpl; lia|]. apply Z.log2_lt_pow2; lia.
    + destruct (Z.eq_dec b 0) as [->|]; [simpl; lia|]. apply Z.log2_lt_pow2; lia.
Qed.

Lemma shiftl_bound v s n :
  0 <= s -> 0 <= v < 2 ^ (n - s) -> s <= n -> 0 <= Z.shiftl v s < 2 ^ n.
Proof.
  intros Hs Hv Hn. rewrite Z.shiftl_mul_pow2 by lia.
  replace (2 ^ n) with (2 ^ (n - s) * 2 ^ s)
    by (rewrite <- Z.pow_add_r by lia; f_equal; lia).
  assert (0 < 2 ^ s) by (apply Z.pow_pos_nonneg; lia). nia.
Qed.

(** The decoder reads back what the encoder wrote, whatever follows it. *)
Lemma GetVarint64_loop_Encode fuel :
  forall v s r rest,
    (1 <= fuel <= 10)%nat ->
    s = 7 * (10 - Z.of_nat fuel) ->
    0 <= v < 2 ^ (64 - s) ->
    GetVarint64_loop fuel s r (EncodeVarint64_loop fuel v ++ rest)
    = Some (Z.lor r (Z.shiftl v s), rest).
Proof.
  induction fuel as [|fuel IH]; intros v s r rest Hf Hs Hv; [lia|].
  simpl EncodeVarint64_loop.
  assert (Hs0 : 0 <= s <= 63) by lia.
  destruct (Z.ltb_spec v 128) as [Hsmall|Hbig].
  - simpl. rewrite byte.unsigned_of_Z. unfold byte.wrap.
    rewrite (Z.mod_small v) by lia.
    replace (Z.land v 128 =? 0) with true.
    + unfold wrap64. rewrite Z.mod_small; [reflexivity|].
      apply shiftl_bound; lia.
    + symmetry. apply Z.eqb_eq. apply Z.bits_inj'. intros i Hi.
      rewrite Z.land_spec, Z.bits_0. change 128 with (2 ^ 7).
      destruct (Z.eq_dec i 7) as [->|Hne].
      * rewrite (Z.bits_above_log2 v 7); [reflexivity|lia|].
        destruct (Z.eq_dec v 0) as [->|]; [simpl; lia|].
        apply Z.log2_lt_pow2; lia.
      * rewrite Z.pow2_bits_false by lia. apply andb_false_r.
  - assert (Hfuel : (2 <= S fuel)%nat).
    { destruct fuel; [|lia]. exfalso.
      assert (s = 63) by lia. subst s. change (2 ^ (64 - 63)) with 2 in Hv. lia. }
    cbn [app GetVarint64_loop].
    rewrite byte.unsigned_of_Z. unfold byte.wrap.
    assert (Hg : 0 <= Z.land v 127 < 128).
    { change 127 with (Z.ones 7). rewrite Z.land_ones by lia.
      apply Z.mod_pos_bound. lia. }
    assert (Hb : 0 <= Z.lor (Z.land v 127) 128 < 2 ^ 8).
    { apply lor_disjoint_bound; simpl; lia. }
    rewrite (Z.mod_small _ (2 ^ 8)) by exact Hb.
    assert (Hbit : Z.land (Z.lor (Z.land v 127) 128) 128 = 128).
    { apply Z.bits_inj'. intros i Hi.
      rewrite Z.land_spec, Z.lor_spec, Z.land_spec.
      change 128 with (2 ^ 7). change 127 with (Z.ones 7).
      destruct (Z.eq_dec i 7) as [->|Hne].
      - rewrite Z.pow2_bits_true by lia. now rewrite orb_true_r.
      - rewrite Z.pow2_bits_false by lia. now rewrite andb_false_r. }
    rewrite Hbit. simpl (128 =? 0).
    assert (Hlow : Z.land (Z.lor (Z.land v 127) 128) 127 = Z.land v 127).
    { apply Z.bits_inj'. intros i Hi.
      rewrite Z.land_spec, Z.lor_spec, Z.land_spec.
      change 128 with (2 ^ 7). change 127 with (Z.ones 7).
      destruct (Z.ltb_spec i 7) as [Hlo|Hhi].
      - rewrite Z.pow2_bits_false by lia. rewrite Z.ones_spec_low by lia.
        now rewrite orb_false_r, !andb_true_r.
      - rewrite Z.ones_spec_high by lia. now rewrite !andb_false_r. }
    rewrite Hlow.
    assert (Hsh : 0 <= Z.shiftr v 7 < 2 ^ (64 - (s + 7))).
    { rewrite Z.shiftr_div_pow2 by lia. split.
      - apply Z.div_pos; lia.
      - apply Z.div_lt_upper_bound; [lia|].
        rewrite <- Z.pow_add_r by lia.
        replace (7 + (64 - (s + 7))) with (64 - s) by lia. lia. }
    rewrite IH; [|lia|lia|exact Hsh].
    unfold wrap64. rewrite Z.mod_small.
    + rewrite <- Z.lor_assoc, varint_group_split by lia. reflexivity.
    + apply shiftl_bound; try lia.
      all: split; [lia|]; apply Z.lt_le_trans with (2 ^ 7); [simpl; lia|];
        apply Z.pow_le_mono_r; lia.
Qed.

Lemma GetVarint64_Encode v rest :
  0 <= v < 2 ^ 64 -> GetVarint64 (EncodeVarint64 v ++ rest) = Some (v, rest).
Proof.
  intros Hv. unfold GetVarint64, EncodeVarint64.
  rewrite (GetVarint64_loop_Encode 10 v 0 0 rest) by (simpl; lia).
  now rewrite Z.lor_0_l, Z.shiftl_0_r.
Qed.

Lemma EncodeVarint64_loop_length fuel v :
  (length (EncodeVarint64_loop fuel v) <= fuel)%nat.
Proof.
  revert v. induction fuel as [|fuel IH]; intros v; simpl; [lia|].
  destruct (v <? 128); simpl; [lia|]. specialize (IH (Z.shiftr v 7)). lia.
Qed.

Lemma EncodeVarint64_length v : (length (EncodeVarint64 v) <= 10)%nat.
Proof. apply EncodeVarint64_loop_length. Qed.

Lemma Handle_EncodeTo_length h dst :
  (length (Handle.EncodeTo h dst) <= length dst + Handle.kMaxEncodedLength)%nat.
Proof.
  unfold Handle.EncodeTo, PutVarint64, Handle.kMaxEncodedLength.
  rewrite !length_app.
  pose proof (EncodeVarint64_length (offset h)).
  pose proof (EncodeVarint64_length (size_ h)). lia.
Qed.

Lemma Handle_Decode_Encode h rest :
  0 <= offset h < 2 ^ 64 -> 0 <= size_ h < 2 ^ 64 ->
  Handle.DecodeFrom (Handle.EncodeTo h [] ++ rest) = (OK, h, rest).
Proof.
  intros Ho Hs. unfold Handle.DecodeFrom, Handle.EncodeTo, PutVarint64.
  simpl app at 3. rewrite <- app_assoc.
  rewrite GetVarint64_Encode by assumption.
  rewrite GetVarint64_Encode by assumption.
  now destruct h.
Qed.

(** ** The log sink *)

Section LogSinkFacts.
Context {F : Type} `{Env.WritableFile F}.
Import LogSink.

Lemma Lwrite_open_cases (s : LogSink.t F) (f : F) (data : bytes) :
  file_ s = Some f ->
  exists st s',
    Lwrite s data = (st, s') /\
    (exists f', file_ s' = Some f') /\
    filename_ s' = filename_ s /\
    ((ok st = true /\ off_ s' = wrap64 (off_ s + size data)) \/
     (ok st = false /\ off_ s' = off_ s)).
Proof.
  intros Hf. unfold Lwrite. rewrite Hf.
  destruct (Env.Append f data) as [r f1].
  destruct (ok r) eqn:Hr.
  - destruct (Env.Flush f1) as [r2 f2]. simpl.
    destruct (ok r2) eqn:Hr2.
    + eexists _, _. split; [reflexivity|]. simpl. eauto 6.
    + eexists _, _. split; [reflexivity|]. simpl. eauto 6.
  - eexists _, _. split; [reflexivity|]. simpl. eauto 6.
Qed.

Lemma Lsync_open_cases (s : LogSink.t F) (f : F) :
  file_ s = Some f ->
  exists st s',
    Lsync s = (st, s') /\ (exists f', file_ s' = Some f') /\
    filename_ s' = filename_ s /\ off_ s' = off_ s.
Proof.
  intros Hf. unfold Lsync. rewrite Hf.
  destruct (Env.Sync f) as [r f1]. eexists _, _. simpl. eauto 6.
Qed.

Lemma requested_nonneg (ops : list Op) : 0 <= requested ops.
Proof.
  induction ops as [|[d|] ops IH]; simpl; try lia.
  pose proof (size_nonneg d). lia.
Qed.

Lemma run_offset_monotone (ops : list Op) :
  forall (s : LogSink.t F) (f : F),
    file_ s = Some f -> 0 <= off_ s -> off_ s + requested ops < 2 ^ 64 ->
    off_ s <= off_ (snd (run s ops)) <= off_ s + requested ops.
Proof.
  induction ops as [|o ops IH]; intros s f Hf H0 Hb; simpl in *; [lia|].
  pose proof (requested_nonneg ops) as Hr.
  destruct o as [d|]; simpl.
  - pose proof (size_nonneg d) as Hd.
    destruct (Lwrite_open_cases s f d Hf)
      as (st & s1 & E & [f1 Hf1] & _ & Hoff).
    rewrite E. destruct (run s1 ops) as [sts s2] eqn:Er. simpl.
    assert (Hs1 : off_ s <= off_ s1 <= off_ s + size d).
    { destruct Hoff as [[_ ->]|[_ ->]]; [|lia].
      unfold wrap64. rewrite Z.mod_small; lia. }
    specialize (IH s1 f1 Hf1). rewrite Er in IH. simpl in IH. lia.
  - destruct (Lsync_open_cases s f Hf) as (st & s1 & E & [f1 Hf1] & _ & Hoff).
    rewrite E. destruct (run s1 ops) as [sts s2] eqn:Er. simpl.
    specialize (IH s1 f1 Hf1). rewrite Er in IH. simpl in IH. lia.
Qed.

(** C6. On an open log sink whose logical offset has room for the data (the
    offset is a 64-bit counter), a successful [Lwrite(data)] advances [Ltell]
    by exactly [data.size()], a failed one leaves it where it was, and over
    any sequence of writes and syncs [Ltell] never decreases. *)
Theorem Lwrite_advances_Ltell (s : LogSink.t F) (f : F) (data : bytes) :
  file_ s = Some f ->
  0 <= Ltell s ->
  Ltell s + size data < 2 ^ 64 ->
  (ok (fst (Lwrite s data)) = true ->
     Ltell (snd (Lwrite s data)) = Ltell s + size data) /\
  (ok (fst (Lwrite s data)) = false ->
     Ltell (snd (Lwrite s data)) = Ltell s) /\
  Ltell s <= Ltell (snd (Lwrite s data)) /\
  (forall ops : list Op,
     Ltell s + requested ops < 2 ^ 64 -> Ltell s <= Ltell (snd (run s ops))).
Proof.
  intros Hf H0 Hb. unfold Ltell in *.
  pose proof (size_nonneg data) as Hd.
  destruct (Lwrite_open_cases s f data Hf) as (st & s1 & E & _ & _ & Hoff).
  rewrite E. simpl.
  assert (Hw : wrap64 (off_ s + size data) = off_ s + size data).
  { unfold wrap64. apply Z.mod_small. lia. }
  repeat split.
  - intros Hok. destruct Hoff as [[_ ->]|[Hno _]]; congruence.
  - intros Hno. destruct Hoff as [[Hok _]|[_ ->]]; congruence.
  - destruct Hoff as [[_ ->]|[_ ->]]; lia.
  - intros ops Hops. now apply (run_offset_monotone ops s f).
Qed.

End LogSinkFacts.

Lemma Lwrite_advances_Ltell_witness :
  let s := sample_sink in
  let data := [Byte.x61; Byte.x62; Byte.x63] in
  (ok (fst (LogSink.Lwrite s data)) = true ->
     LogSink.Ltell (snd (LogSink.Lwrite s data)) = LogSink.Ltell s + size data) /\
  (ok (fst (LogSink.Lwrite s data)) = false ->
     LogSink.Ltell (snd (LogSink.Lwrite s data)) = LogSink.Ltell s) /\
  LogSink.Ltell s <= LogSink.Ltell (snd (LogSink.Lwrite s data)) /\
  (forall ops : list LogSink.Op,
     LogSink.Ltell s + LogSink.requested ops < 2 ^ 64 ->
     LogSink.Ltell s <= LogSink.Ltell (snd (LogSink.run s ops))).
Proof.
  apply (Lwrite_advances_Ltell sample_sink MemFile.empty
           [Byte.x61; Byte.x62; Byte.x63]).
  - reflexivity.
  - vm_compute. discriminate.
  - vm_compute. reflexivity.
Defined.

(** The sample write succeeds and moves the offset from 10 to 13. *)
Example sample_Lwrite :
  let r := LogSink.Lwrite sample_sink [Byte.x61; Byte.x62; Byte.x63] in
  fst r = OK /\ LogSink.Ltell (snd r) = 13.
Proof. vm_compute. split; reflexivity. Qed.

Section LogSinkClosed.
Context {F : Type} `{Env.WritableFile F}.
Import LogSink.

Lemma Lclose_disconnects (s : LogSink.t F) (sync : bool) :
  file_ (snd (Lclose s sync)) = None.
Proof.
  unfold Lclose. destruct (file_ s) as [f|] eqn:Hf; [|exact Hf].
  destruct sync.
  - destruct (Lsync_open_cases s f Hf) as (st & s1 & E & [f1 Hf1] & _).
    rewrite E. unfold Finish. rewrite Hf1.
    destruct (Env.Close f1) as [st2 f2]. reflexivity.
  - unfold Finish. rewrite Hf. destruct (Env.Close f) as [st2 f2]. reflexivity.
Qed.

Lemma run_closed (ops : list Op) (s : LogSink.t F) :
  file_ s = None ->
  run s ops
  = (map (fun _ => Disconnected "Log already closed" (filename_ s)) ops, s).
Proof.
  intros Hf. induction ops as [|o ops IH]; simpl; [reflexivity|].
  assert (E : step s o = (Disconnected "Log already closed" (filename_ s), s)).
  { destruct o; simpl; unfold Lwrite, Lsync; now rewrite Hf. }
  rewrite E, IH. reflexivity.
Qed.

(** C8. A sink is closed when [file_] is NULL: the header says of [file_]
    "NULL after Finish() is called" and of [Finish] "Invoked by Lclose() and
    the class destructor". On a closed sink every [Lwrite] and every [Lsync]
    returns the Disconnected status and leaves the sink as it was: no call
    reaches a file, so nothing is appended and the offset does not move. *)
Theorem closed_sink_rejects (s : LogSink.t F) (ops : list Op) :
  file_ s = None ->
  (forall data,
     Lwrite s data = (Disconnected "Log already closed" (filename_ s), s)) /\
  Lsync s = (Disconnected "Log already closed" (filename_ s), s) /\
  Forall (fun st => IsDisconnected st = true) (fst (run s ops)) /\
  length (fst (run s ops)) = length ops /\
  snd (run s ops) = s.
Proof.
  intros Hc. repeat split.
  - intros data. unfold Lwrite. now rewrite Hc.
  - unfold Lsync. now rewrite Hc.
  - rewrite run_closed by exact Hc. simpl.
    clear Hc. induction ops as [|o ops IH]; simpl; constructor; auto.
  - rewrite run_closed by exact Hc. simpl. apply length_map.
  - now rewrite run_closed by exact Hc.
Qed.

End LogSinkClosed.

(** The sample sink after [Lclose(true)], and two calls on it. *)
Lemma closed_sink_rejects_witness :
  let closed := snd (LogSink.Lclose sample_sink true) in
  let ops := [LogSink.OpLwrite [Byte.x61]; LogSink.OpLsync] in
  (forall data,
     LogSink.Lwrite closed data
     = (Disconnected "Log already closed" (LogSink.filename_ closed), closed)) /\
  LogSink.Lsync closed
  = (Disconnected "Log already closed" (LogSink.filename_ closed), closed) /\
  Forall (fun st => IsDisconnected st = true) (fst (LogSink.run closed ops)) /\
  length (fst (LogSink.run closed ops)) = length ops /\
  snd (LogSink.run closed ops) = closed.
Proof.
  apply (closed_sink_rejects (snd (LogSink.Lclose sample_sink true))
           [LogSink.OpLwrite [Byte.x61]; LogSink.OpLsync]).
  vm_compute. reflexivity.
Defined.

(** ** The buffered block writer: construction and shutdown *)

(** One step through the code of the writer: name the answer of the next
    call on [dst_], or split on the next test. *)
Ltac writer_step :=
  match goal with
  | |- context [Env.Append ?f ?d] =>
      let st := fresh "st" in let f' := fresh "f" in let E := fresh "E" in
      destruct (Env.Append f d) as [st f'] eqn:E
  | |- context [Env.Flush ?f] =>
      let st := fresh "st" in let f' := fresh "f" in let E := fresh "E" in
      destruct (Env.Flush f) as [st f'] eqn:E
  | |- context [Env.Sync ?f] =>
      let st := fresh "st" in let f' := fresh "f" in let E := fresh "E" in
      destruct (Env.Sync f) as [st f'] eqn:E
  | |- context [Env.Close ?f] =>
      let st := fresh "st" in let f' := fresh "f" in let E := fresh "E" in
      destruct (Env.Close f) as [st f'] eqn:E
  | |- context [if ok ?s then _ else _] =>
      let Hs := fresh "Hst" in destruct (ok s) eqn:Hs
  | |- context [if negb (is_empty ?b) then _ else _] =>
      let Hb := fresh "Hemp" in destruct (is_empty b) eqn:Hb
  end.

Ltac use_ok :=
  repeat match goal with
         | Hk : ok ?s = _ |- context [ok ?s] => rewrite Hk
         end.

Ltac calls_done :=
  cbn; use_ok;
  first
    [ left; split; [reflexivity | cbn; use_ok; reflexivity]
    | right; split; [reflexivity|];
      first [ exists []; eexists; split; reflexivity
            | eexists [_], _; split; [reflexivity | cbn; use_ok; reflexivity] ] ].

Section WriterFacts.
Context {F : Type} `{Env.WritableFile F} {BF : BlockFormat} {FF : FilterFormat}.
Import Writer.

Lemma new_buffers_from (count : nat) :
  forall (i : nat) (r : Z) (bbs : list BlockBuf) (bufs : list nat),
    (1 <= i)%nat ->
    new_buffers count i r bbs bufs
    = (bbs ++ repeat (BlockBuf_Reserve (mkBlockBuf true 0 []) r) count,
       bufs ++ seq i count).
Proof.
  induction count as [|count IH]; intros i r bbs bufs Hi; simpl.
  - now rewrite !app_nil_r.
  - destruct (Nat.eqb_spec i 0) as [->|_]; [lia|].
    rewrite IH by lia. now rewrite <- !app_assoc.
Qed.

Lemma new_buffers_fresh (m : nat) (r : Z) :
  new_buffers (S m) 0 r [] []
  = (repeat (BlockBuf_Reserve (mkBlockBuf true 0 []) r) (S m), seq 1 m).
Proof. simpl. now rewrite new_buffers_from by lia. Qed.

(** C9. Whatever buffer count is requested, the constructor allocates
    [max(n, 2)] block buffers, makes [bbs_[0]] the active buffer and puts
    every other buffer, once, on the free list: the writer starts with at
    least two buffers, one active and the rest free. *)
Theorem constructor_allocates_buffers
    (options : DirOptions) (dst : F) (buf_size n : Z) :
  let w := BufferedBlockWriter options dst buf_size n in
  let m := Z.to_nat (Z.max n 2) in
  n_ w = Z.max n 2 /\
  length (bbs_ w) = m /\
  (2 <= m)%nat /\
  membuf_ (base w) = 0%nat /\
  bufs_ (base w) = seq 1 (m - 1) /\
  NoDup (bufs_ (base w)) /\
  (forall i : nat,
     (i < m)%nat ->
     (i = membuf_ (base w) /\ ~ In i (bufs_ (base w))) \/
     (i <> membuf_ (base w) /\ In i (bufs_ (base w)))) /\
  Forall (fun bb => bb_entries bb = [] /\ bb_unordered bb = true) (bbs_ w).
Proof.
  intros w m. subst w. unfold BufferedBlockWriter.
  assert (Hn : (if n <? 2 then 2 else n) = Z.max n 2).
  { destruct (Z.ltb_spec n 2); lia. }
  rewrite Hn. fold m.
  assert (Hm : exists m', m = S (S m')).
  { exists (m - 2)%nat. subst m. lia. }
  destruct Hm as [m' Hm]. rewrite Hm.
  rewrite new_buffers_fresh. cbn [n_ bbs_ base membuf_ bufs_].
  split_and!.
  - reflexivity.
  - apply repeat_length.
  - lia.
  - reflexivity.
  - f_equal; lia.
  - apply NoDup_ListNoDup, seq_NoDup.
  - intros i Hi. destruct (Nat.eq_dec i 0%nat) as [->|Hne].
    + left. split; [reflexivity|]. rewrite in_seq. lia.
    + right. split; [exact Hne|]. rewrite in_seq. lia.
  - apply Forall_forall. intros bb Hbb.
    apply list_elem_of_In in Hbb. apply repeat_spec in Hbb. now subst bb.
Qed.

Lemma DumpIndexesAndFilters_calls (w : Writer.t F) :
  exists apps : list Env.Call,
    dst_calls_ (snd (DumpIndexesAndFilters w)) = dst_calls_ w ++ apps /\
    ((ok (fst (DumpIndexesAndFilters w)) = true /\
      forallb append_ok apps = true) \/
     (ok (fst (DumpIndexesAndFilters w)) = false /\
      exists pre d,
        apps = pre ++ [Env.CallAppend d (fst (DumpIndexesAndFilters w))] /\
        forallb append_ok pre = true)).
Proof.
  destruct w as [opts dst calls bt br off bbs n bloom idx bh ih b].
  unfold DumpIndexesAndFilters, dst_Append. cbn.
  repeat (writer_step; cbn in * );
  rewrite <- ?app_assoc;
  (eexists; split; [first [reflexivity | symmetry; apply app_nil_r]|]);
  calls_done.
Qed.

Lemma forallb_append_ok_app (a b : list Env.Call) :
  forallb append_ok (a ++ b) = forallb append_ok a && forallb append_ok b.
Proof. apply forallb_app. Qed.

(** [Close] returns the first error
    among its steps, and runs a step only when every step before it
    succeeded. Either every append (filter stream, index stream, footer)
    succeeded, the destination was then synced and closed, and the status of
    the sync is returned ([dst_->Close()]'s own status is dropped); or an
    append failed, its status is returned, and nothing was attempted after
    it: no footer after a failed stream, and neither sync nor close. *)
Theorem Close_stops_at_first_error (w : Writer.t F) :
  exists calls : list Env.Call,
    dst_calls_ (snd (Close w)) = dst_calls_ w ++ calls /\
    ((exists apps stc,
        calls = apps ++ [Env.CallSync (fst (Close w)); Env.CallClose stc] /\
        forallb append_ok apps = true) \/
     (exists apps d,
        calls = apps ++ [Env.CallAppend d (fst (Close w))] /\
        forallb append_ok apps = true /\
        ok (fst (Close w)) = false /\
        existsb Env.is_sync calls = false /\
        existsb Env.is_close calls = false)).
Proof.
  assert (Hno : forall l, forallb append_ok l = true ->
                          existsb Env.is_sync l = false /\
                          existsb Env.is_close l = false).
  { induction l as [|c l IH]; cbn; [auto|].
    intros Hl. apply andb_prop in Hl. destruct Hl as [Hc Hl].
    destruct (IH Hl) as [-> ->]. destruct c; cbn in *; auto; discriminate. }
  destruct (DumpIndexesAndFilters_calls w) as (apps & Hcalls & Hcase).
  unfold Close. destruct (DumpIndexesAndFilters w) as [st1 w1].
  cbn [fst snd] in *.
  destruct Hcase as [[Hok Happs]|[Hko (pre & d & -> & Hpre)]].
  - rewrite Hok. unfold dst_Append, dst_Sync, dst_Close.
    destruct (Env.Append (dst_ w1) (footer_of w1)) as [st2 f2] eqn:E2.
    destruct (ok st2) eqn:Hst2; cbn.
    + destruct (Env.Sync f2) as [st3 f3]. cbn.
      destruct (Env.Close f3) as [st4 f4]. cbn.
      rewrite Hcalls, <- !app_assoc. eexists. split; [reflexivity|]. left.
      exists (apps ++ [Env.CallAppend (footer_of w1) st2]), st4.
      rewrite <- !app_assoc. split; [reflexivity|].
      rewrite forallb_append_ok_app, Happs. cbn. now rewrite Hst2.
    + rewrite Hcalls, <- app_assoc. eexists. split; [reflexivity|]. right.
      exists apps, (footer_of w1). split_and!; auto.
      * rewrite existsb_app. destruct (Hno apps Happs) as [-> _]. reflexivity.
      * rewrite existsb_app. destruct (Hno apps Happs) as [_ ->]. reflexivity.
  - rewrite Hko. cbn. rewrite Hko. cbn. rewrite Hcalls. eexists. split; [reflexivity|]. right.
    exists pre, d. split_and!; auto.
    + rewrite existsb_app. destruct (Hno pre Hpre) as [-> _]. reflexivity.
    + rewrite existsb_app. destruct (Hno pre Hpre) as [_ ->]. reflexivity.
Qed.

End WriterFacts.

(** ** Bit arrays *)

Lemma set_bit_length (arr : bytes) (pos : Z) :
  length (set_bit arr pos) = length arr.
Proof.
  unfold set_bit. cbv zeta. destruct (arr !! Z.to_nat (pos / 8)); [|reflexivity].
  apply length_insert.
Qed.

Lemma bit_of_byte_set (b : byte) (r : Z) :
  0 <= r < 8 ->
  byte.unsigned (byte.of_Z (Z.lor (byte.unsigned b) (Z.shiftl 1 r)))
  = Z.lor (byte.unsigned b) (Z.shiftl 1 r).
Proof.
  intros Hr. rewrite byte.unsigned_of_Z. unfold byte.wrap.
  apply Z.mod_small. apply lor_disjoint_bound; [lia|apply byte.unsigned_range|].
  rewrite Z.shiftl_1_l. split; [apply Z.pow_nonneg; lia|].
  apply Z.pow_lt_mono_r; lia.
Qed.

Lemma get_set_bit_same (arr : bytes) (pos : Z) :
  0 <= pos < 8 * Z.of_nat (length arr) ->
  get_bit (set_bit arr pos) pos = true.
Proof.
  intros Hp. unfold get_bit, set_bit. cbv zeta.
  assert (Hi : (Z.to_nat (pos / 8) < length arr)%nat).
  { apply Nat2Z.inj_lt. rewrite Z2Nat.id by (apply Z.div_pos; lia).
    apply Z.div_lt_upper_bound; lia. }
  destruct (arr !! Z.to_nat (pos / 8)) as [b|] eqn:Hb;
    [|apply lookup_ge_None in Hb; lia].
  rewrite list_lookup_insert_eq by exact Hi.
  assert (Hr : 0 <= pos mod 8 < 8) by (apply Z.mod_pos_bound; lia).
  rewrite bit_of_byte_set by exact Hr.
  rewrite Z.lor_spec, Z.shiftl_1_l, Z.pow2_bits_true by lia.
  apply orb_true_r.
Qed.

Lemma get_set_bit_mono (arr : bytes) (p q : Z) :
  get_bit arr q = true -> get_bit (set_bit arr p) q = true.
Proof.
  unfold get_bit, set_bit. cbv zeta. intros Hq.
  destruct (arr !! Z.to_nat (p / 8)) as [b|] eqn:Hb; [|exact Hq].
  destruct (Nat.eq_dec (Z.to_nat (p / 8)) (Z.to_nat (q / 8))) as [E|NE].
  - rewrite <- E in *. rewrite Hb in Hq.
    rewrite list_lookup_insert_eq by (eapply lookup_lt_Some; exact Hb).
    assert (Hr : 0 <= p mod 8 < 8) by (apply Z.mod_pos_bound; lia).
    rewrite bit_of_byte_set by exact Hr.
    rewrite Z.lor_spec, Hq. reflexivity.
  - rewrite list_lookup_insert_ne by exact NE. exact Hq.
Qed.

Lemma fold_set_bit_length (ps : list Z) (arr : bytes) :
  length (fold_left set_bit ps arr) = length arr.
Proof.
  revert arr. induction ps as [|p ps IH]; intros arr; simpl; [reflexivity|].
  now rewrite IH, set_bit_length.
Qed.

Lemma fold_set_bit_mono (ps : list Z) (arr : bytes) (q : Z) :
  get_bit arr q = true -> get_bit (fold_left set_bit ps arr) q = true.
Proof.
  revert arr. induction ps as [|p ps IH]; intros arr Hq; simpl; [exact Hq|].
  apply IH. now apply get_set_bit_mono.
Qed.

Lemma fold_set_bit_sets (ps : list Z) (arr : bytes) (q : Z) :
  In q ps -> 0 <= q < 8 * Z.of_nat (length arr) ->
  get_bit (fold_left set_bit ps arr) q = true.
Proof.
  revert arr. induction ps as [|p ps IH]; intros arr Hin Hq; simpl; [easy|].
  destruct Hin as [->|Hin].
  - apply fold_set_bit_mono. now apply get_set_bit_same.
  - apply IH; [exact Hin|]. now rewrite set_bit_length.
Qed.

(** ** The Bloom block *)

Section BloomFacts.
Variable hash : nat -> bytes -> Z.
Variable num_hashes : Z -> Z.

Local Abbreviation AddKey := (Bloom.AddKey hash).
Local Abbreviation positions := (Bloom.positions hash).

(** What adding keys keeps: the size of the array and the parameters. *)
Lemma Bloom_AddKeys_shape (keys : list bytes) (b : Bloom.t) :
  let b' := fold_left AddKey keys b in
  Bloom.k_ b' = Bloom.k_ b /\ Bloom.bits_ b' = Bloom.bits_ b /\
  length (Bloom.space_ b') = length (Bloom.space_ b).
Proof.
  revert b. induction keys as [|key keys IH]; intros b; simpl; [auto|].
  destruct (IH (AddKey b key)) as (Hk & Hb & Hl).
  rewrite Hk, Hb, Hl. simpl. now rewrite fold_set_bit_length.
Qed.

Lemma Bloom_AddKeys_mono (keys : list bytes) (b : Bloom.t) (q : Z) :
  get_bit (Bloom.space_ b) q = true ->
  get_bit (Bloom.space_ (fold_left AddKey keys b)) q = true.
Proof.
  revert b. induction keys as [|key keys IH]; intros b Hq; simpl; [exact Hq|].
  apply IH. simpl. now apply fold_set_bit_mono.
Qed.

Lemma positions_in_range (k bits : Z) (key : bytes) (q : Z) :
  0 < bits -> In q (positions k bits key) -> 0 <= q < bits.
Proof.
  intros Hb Hin. unfold Bloom.positions in Hin. apply in_map_iff in Hin.
  destruct Hin as (j & <- & _). apply Z.mod_pos_bound. exact Hb.
Qed.

Lemma positions_prefix (k k' bits : Z) (key : bytes) (q : Z) :
  k' <= k -> In q (positions k' bits key) -> In q (positions k bits key).
Proof.
  intros Hk Hin. unfold Bloom.positions in *. apply in_map_iff in Hin.
  destruct Hin as (j & <- & Hj). apply in_map_iff. exists j. split; [reflexivity|].
  apply in_seq in Hj. apply in_seq. lia.
Qed.

(** Every bit of an added key is set in the array of the block. *)
Lemma Bloom_added_bits_set (keys : list bytes) (b : Bloom.t) (key : bytes) (q : Z) :
  0 < Bloom.bits_ b ->
  Bloom.bits_ b = 8 * Z.of_nat (length (Bloom.space_ b)) ->
  In key keys ->
  In q (positions (Bloom.k_ b) (Bloom.bits_ b) key) ->
  get_bit (Bloom.space_ (fold_left AddKey keys b)) q = true.
Proof.
  revert b. induction keys as [|key' keys IH]; intros b Hpos Hbits Hin Hq;
    simpl; [easy|].
  destruct Hin as [->|Hin].
  - apply Bloom_AddKeys_mono. simpl.
    apply fold_set_bit_sets; [exact Hq|].
    rewrite <- Hbits. eapply positions_in_range; eauto.
  - apply IH; simpl; auto. now rewrite fold_set_bit_length.
Qed.

Lemma Bloom_Reset_shape (b : Bloom.t) (n : Z) :
  let b' := Bloom.Reset b n in
  0 < Bloom.bits_ b' /\
  Bloom.bits_ b' = 8 * Z.of_nat (length (Bloom.space_ b')) /\
  Bloom.k_ b' = Bloom.k_ b.
Proof.
  unfold Bloom.Reset. simpl.
  set (bits := if n * Bloom.bits_per_key_ b <? 64 then 64
               else n * Bloom.bits_per_key_ b).
  assert (Hb : 64 <= bits).
  { subst bits. destruct (Z.ltb_spec (n * Bloom.bits_per_key_ b) 64); lia. }
  assert (Hn : 8 <= (bits + 7) / 8).
  { apply Z.div_le_lower_bound; lia. }
  rewrite repeat_length, Z2Nat.id by lia. lia.
Qed.

(** No false negative: a key that was added matches the finished blob. *)
Lemma Bloom_no_false_negative (bits_per_key n : Z) (keys : list bytes)
    (key : bytes) :
  In key keys ->
  Bloom.KeyMayMatch hash key (Bloom.build hash num_hashes bits_per_key n keys)
  = true.
Proof.
  intros Hin. unfold Bloom.build, Bloom.KeyMayMatch, Bloom.Finish.
  set (b0 := Bloom.Reset (Bloom.BloomBlock num_hashes bits_per_key) n).
  set (b := fold_left AddKey keys b0).
  destruct (Bloom_Reset_shape (Bloom.BloomBlock num_hashes bits_per_key) n)
    as (Hpos & Hbits & Hk0). fold b0 in Hpos, Hbits, Hk0.
  destruct (Bloom_AddKeys_shape keys b0) as (Hk & Hb & Hl). fold b in Hk, Hb, Hl.
  rewrite length_app. simpl (length [_]).
  assert (Hlen : (2 <= length (Bloom.space_ b) + 1)%nat) by lia.
  destruct (Nat.ltb_spec (length (Bloom.space_ b) + 1) 2) as [Hlt|_]; [lia|].
  rewrite last_last.
  replace (length (Bloom.space_ b) + 1 - 1)%nat with (length (Bloom.space_ b))
    by lia.
  rewrite firstn_app, Nat.sub_diag, firstn_O, app_nil_r, firstn_all.
  replace (8 * (Z.of_nat (length (Bloom.space_ b) + 1) - 1))
    with (Bloom.bits_ b0) by lia.
  apply forallb_forall. intros q Hq.
  apply (Bloom_added_bits_set keys b0 key q); [exact Hpos|exact Hbits|exact Hin|].
  eapply positions_prefix; [|exact Hq].
  rewrite byte.unsigned_of_Z. unfold byte.wrap. rewrite Hk.
  assert (Hge : 0 <= Bloom.k_ b0).
  { rewrite Hk0. simpl. unfold wrap64. apply Z.mod_pos_bound. lia. }
  apply Z.mod_le; lia.
Qed.

End BloomFacts.

(** ** The cuckoo block *)

Section CuckooFacts.
Variable CuckooHash : bytes -> Z.
Variable fp_bits : Z -> Z.
Variable fp_hash : Z -> Z.
Variable rnd : nat -> Z.

Local Abbreviation alt_bucket := (Cuckoo.alt_bucket fp_hash).
Local Abbreviation Kick := (Cuckoo.Kick fp_hash rnd).
Local Abbreviation AddTo := (Cuckoo.AddTo fp_hash rnd).
Local Abbreviation AddKey := (Cuckoo.AddKey CuckooHash fp_bits fp_hash rnd).
Local Abbreviation AddKeys := (Cuckoo.AddKeys CuckooHash fp_bits fp_hash rnd).
Local Abbreviation CuckooFingerprint := (Cuckoo.CuckooFingerprint fp_bits).

(** The bucket count is a power of two. *)
Definition pow2 (m : Z) : Prop := exists e, 0 <= e /\ m = 2 ^ e.

Lemma pow2_pos m : pow2 m -> 0 < m.
Proof. intros (e & He & ->). apply Z.pow_pos_nonneg; lia. Qed.

Lemma NumBuckets_pow2 n fn fd : pow2 (Cuckoo.NumBuckets n fn fd).
Proof.
  unfold Cuckoo.NumBuckets. eexists. split; [|reflexivity].
  apply Z.log2_up_nonneg.
Qed.

Lemma alt_bucket_range m i fp : 0 < m -> 0 <= alt_bucket m i fp < m.
Proof. intros Hm. unfold Cuckoo.alt_bucket. now apply Z.mod_pos_bound. Qed.

(** The alternate of the alternate bucket is the bucket itself: the test
    [AltIndex] of the sources. *)
Lemma alt_bucket_involutive m i fp :
  pow2 m -> 0 <= i < m -> alt_bucket m (alt_bucket m i fp) fp = i.
Proof.
  intros (e & He & ->) Hi. unfold Cuckoo.alt_bucket, Cuckoo.CuckooAlt.
  rewrite <- !Z.land_ones by exact He.
  rewrite <- (Z.mod_small i (2 ^ e)) at 2 by exact Hi.
  rewrite <- Z.land_ones by exact He.
  apply Z.bits_inj'. intros n Hn.
  rewrite !Z.land_spec, !Z.lxor_spec, !Z.land_spec, !Z.lxor_spec.
  destruct (Z.testbit (Z.ones e) n), (Z.testbit i n),
    (Z.testbit (fp_hash fp) n); reflexivity.
Qed.

(** Tables and their slots. *)
Definition wf_table (m : Z) (T : Cuckoo.table) : Prop :=
  length T = Z.to_nat (Cuckoo.kItemsPerBucket * m).

Definition in_bucket (j : Z) : Prop := 0 <= j < 4.

Lemma Write_wf m T i j s : wf_table m T -> wf_table m (Cuckoo.Write T i j s).
Proof. unfold wf_table, Cuckoo.Write. now rewrite length_insert. Qed.

Lemma slot_index_lt m T i j :
  wf_table m T -> 0 <= i < m -> in_bucket j ->
  (Cuckoo.slot_index i j < length T)%nat.
Proof.
  unfold wf_table, Cuckoo.slot_index, Cuckoo.kItemsPerBucket, in_bucket.
  intros -> Hi Hj. lia.
Qed.

Lemma slot_index_inj i j i' j' :
  0 <= i -> 0 <= i' -> in_bucket j -> in_bucket j' ->
  Cuckoo.slot_index i j = Cuckoo.slot_index i' j' -> i = i' /\ j = j'.
Proof.
  unfold Cuckoo.slot_index, Cuckoo.kItemsPerBucket, in_bucket. lia.
Qed.

Lemma Read_Write_same m T i j s :
  wf_table m T -> 0 <= i < m -> in_bucket j ->
  Cuckoo.Read (Cuckoo.Write T i j s) i j = s.
Proof.
  intros Hwf Hi Hj. unfold Cuckoo.Read, Cuckoo.Write.
  apply nth_lookup_Some.
  apply list_lookup_insert_eq. eapply slot_index_lt; eauto.
Qed.

Lemma Read_Write_other T i j s i' j' :
  0 <= i -> 0 <= i' -> in_bucket j -> in_bucket j' ->
  (i', j') <> (i, j) ->
  Cuckoo.Read (Cuckoo.Write T i j s) i' j' = Cuckoo.Read T i' j'.
Proof.
  intros Hi Hi' Hj Hj' Hne. unfold Cuckoo.Read, Cuckoo.Write.
  rewrite !nth_lookup. rewrite list_lookup_insert_ne; [reflexivity|].
  intros E. apply slot_index_inj in E; try assumption.
  destruct E as [-> ->]. now apply Hne.
Qed.

Lemma free_slot_spec T i j :
  Cuckoo.free_slot T i = Some j ->
  in_bucket j /\ fst (Cuckoo.Read T i j) = 0.
Proof.
  unfold Cuckoo.free_slot, in_bucket. intros Hf. apply find_some in Hf.
  destruct Hf as [Hin Hz]. apply Z.eqb_eq in Hz. split; [|exact Hz].
  simpl in Hin. lia.
Qed.

(** A bucket of a table has a fingerprint. *)
Definition has (T : Cuckoo.table) (i fp : Z) : Prop :=
  exists j, in_bucket j /\ fst (Cuckoo.Read T i j) = fp.

(** A table covers the fingerprint of a key whose first bucket is [q]: one
    of the two buckets of the key has it. *)
Definition cov1 (m : Z) (T : Cuckoo.table) (g q : Z) : Prop :=
  has T q g \/ has T (alt_bucket m q g) g.

(** [q] is one of the two buckets of the pair [(i, fp)]. *)
Definition orbit (m i fp q : Z) : Prop := q = i \/ q = alt_bucket m i fp.

Lemma orbit_cov1 m T i fp q :
  pow2 m -> 0 <= i < m -> has T i fp -> orbit m i fp q -> cov1 m T fp q.
Proof.
  intros Hm Hi Hhas [->| ->]; [now left|]. right.
  now rewrite alt_bucket_involutive.
Qed.

Lemma orbit_alt m i fp q :
  pow2 m -> 0 <= i < m -> 0 <= q < m ->
  (q = i \/ alt_bucket m q fp = i) ->
  orbit m (alt_bucket m i fp) fp q.
Proof.
  intros Hm Hi Hq [->|E].
  - right. now rewrite alt_bucket_involutive.
  - left. rewrite <- E. now rewrite alt_bucket_involutive.
Qed.

(** Swapping an item into slot [(i, j)]: what the table covered it still
    covers, except the evicted fingerprint, which is now in hand and wants
    its alternate bucket; the item swapped in is covered. *)
Lemma swap_covers m T i j fp v :
  pow2 m -> wf_table m T -> 0 <= i < m -> in_bucket j ->
  let fp' := fst (Cuckoo.Read T i j) in
  let T1 := Cuckoo.Write T i j (fp, v) in
  forall g q, 0 <= q < m ->
    cov1 m T g q \/ (g = fp /\ orbit m i fp q) ->
    cov1 m T1 g q \/ (g = fp' /\ orbit m (alt_bucket m i fp') fp' q).
Proof.
  intros Hm Hwf Hi Hj fp' T1 g q Hq Hcov.
  assert (Hmpos := pow2_pos m Hm).
  assert (Hnew : has T1 i fp).
  { exists j. split; [exact Hj|]. subst T1.
    erewrite Read_Write_same; eauto. }
  destruct Hcov as [Hc|[-> Horb]].
  - assert (Hkeep : forall b, 0 <= b < m -> has T b g ->
                      has T1 b g \/ (b = i /\ g = fp')).
    { intros b Hb (j0 & Hj0 & Hr).
      destruct (Z.eq_dec b i) as [->|Hbi].
      - destruct (Z.eq_dec j0 j) as [->|Hjj].
        + right. split; [reflexivity|]. subst fp'. now rewrite <- Hr.
        + left. exists j0. split; [exact Hj0|]. subst T1.
          rewrite Read_Write_other; try assumption; try lia. congruence.
      - left. exists j0. split; [exact Hj0|]. subst T1.
        rewrite Read_Write_other; try assumption; try lia. congruence. }
    destruct Hc as [Hc|Hc].
    + destruct (Hkeep q Hq Hc) as [Hk|[-> ->]]; [left; now left|].
      right. split; [reflexivity|]. apply orbit_alt; auto.
    + destruct (Hkeep _ (alt_bucket_range m q g Hmpos) Hc) as [Hk|[E ->]];
        [left; now right|].
      right. split; [reflexivity|]. apply orbit_alt; auto.
  - left. apply (orbit_cov1 m T1 i fp q); auto.
Qed.

(** Writing an item into a free slot of the bucket it wants. *)
Lemma place_covers m T i j fp v :
  pow2 m -> wf_table m T -> 0 <= i < m -> in_bucket j ->
  fst (Cuckoo.Read T i j) = 0 ->
  forall g q, g <> 0 -> 0 <= q < m ->
    cov1 m T g q \/ (g = fp /\ orbit m i fp q) ->
    cov1 m (Cuckoo.Write T i j (fp, v)) g q.
Proof.
  intros Hm Hwf Hi Hj Hfree g q Hg Hq Hcov.
  destruct (swap_covers m T i j fp v Hm Hwf Hi Hj g q Hq Hcov)
    as [Hc|[E _]]; [exact Hc|].
  rewrite Hfree in E. contradiction.
Qed.

(** What is in hand after an insertion into one table. *)
Definition in_hand (m : Z) (out : Cuckoo.outcome) (g q : Z) : Prop :=
  match out with
  | Cuckoo.Placed => False
  | Cuckoo.Exhausted fp' _ i' => g = fp' /\ orbit m i' fp' q
  end.

Definition hand_ok (m : Z) (out : Cuckoo.outcome) : Prop :=
  match out with
  | Cuckoo.Placed => True
  | Cuckoo.Exhausted _ _ i' => 0 <= i' < m
  end.

(** The eviction loop loses nothing: every fingerprint the table covered,
    and the one being inserted, is covered afterwards or is in hand. *)
Lemma Kick_covers m (moves : nat) :
  pow2 m ->
  forall T fp v i draws T' out draws',
    wf_table m T -> 0 <= i < m ->
    Kick moves m T fp v i draws = (T', out, draws') ->
    wf_table m T' /\ hand_ok m out /\
    forall g q, g <> 0 -> 0 <= q < m ->
      cov1 m T g q \/ (g = fp /\ orbit m i fp q) ->
      cov1 m T' g q \/ in_hand m out g q.
Proof.
  intros Hm. assert (Hmpos := pow2_pos m Hm).
  induction moves as [|moves IH]; intros T fp v i draws T' out draws' Hwf Hi HK.
  - simpl in HK. injection HK as <- <- <-. simpl.
    split; [exact Hwf|]. split; [exact Hi|].
    intros g q Hg Hq [Hc|Hh]; auto.
  - simpl in HK.
    set (j := rnd draws mod Cuckoo.kItemsPerBucket) in *.
    assert (Hj : in_bucket j).
    { subst j. unfold in_bucket, Cuckoo.kItemsPerBucket.
      apply Z.mod_pos_bound. lia. }
    pose proof (swap_covers m T i j fp v Hm Hwf Hi Hj) as Hswap.
    cbv zeta in Hswap.
    destruct (Cuckoo.Read T i j) as [fp' v'] eqn:HR. simpl fst in Hswap.
    set (T1 := Cuckoo.Write T i j (fp, v)) in *.
    assert (Hwf1 : wf_table m T1) by now apply Write_wf.
    set (i' := alt_bucket m i fp') in *.
    assert (Hi' : 0 <= i' < m) by (apply alt_bucket_range; exact Hmpos).
    destruct (Cuckoo.free_slot T1 i') as [j'|] eqn:Hfree.
    + injection HK as <- <- <-.
      apply free_slot_spec in Hfree. destruct Hfree as [Hj' Hz].
      split_and!; [now apply Write_wf|exact I|].
      intros g q Hg Hq Hcov. left.
      apply place_covers; auto.
    + destruct (IH _ _ _ _ _ _ _ _ Hwf1 Hi' HK) as (Hwf' & Hok & Hcov').
      split_and!; auto.
Qed.

Lemma AddTo_covers m max_moves :
  pow2 m ->
  forall T fp v i1 draws T' out draws',
    wf_table m T -> 0 <= i1 < m ->
    AddTo max_moves m T fp v i1 draws = (T', out, draws') ->
    wf_table m T' /\ hand_ok m out /\
    forall g q, g <> 0 -> 0 <= q < m ->
      cov1 m T g q \/ (g = fp /\ q = i1) ->
      cov1 m T' g q \/ in_hand m out g q.
Proof.
  intros Hm T fp v i1 draws T' out draws' Hwf Hi HA.
  assert (Hmpos := pow2_pos m Hm).
  unfold Cuckoo.AddTo in HA.
  set (i2 := alt_bucket m i1 fp) in *.
  assert (Hi2 : 0 <= i2 < m) by (apply alt_bucket_range; exact Hmpos).
  destruct (Cuckoo.free_slot T i1) as [j|] eqn:Hf1.
  - injection HA as <- <- <-. apply free_slot_spec in Hf1.
    destruct Hf1 as [Hj Hz]. split_and!; [now apply Write_wf|exact I|].
    intros g q Hg Hq Hcov. left. apply place_covers; auto.
    destruct Hcov as [Hc|[-> ->]]; [now left|right]. split; [reflexivity|now left].
  - destruct (Cuckoo.free_slot T i2) as [j|] eqn:Hf2.
    + injection HA as <- <- <-. apply free_slot_spec in Hf2.
      destruct Hf2 as [Hj Hz]. split_and!; [now apply Write_wf|exact I|].
      intros g q Hg Hq Hcov. left. apply place_covers; auto.
      destruct Hcov as [Hc|[-> ->]]; [now left|right]. split; [reflexivity|].
      right. subst i2. now rewrite alt_bucket_involutive.
    + destruct (Kick_covers m _ Hm _ _ _ _ _ _ _ _ Hwf Hi2 HA)
        as (Hwf' & Hok & Hcov').
      split_and!; auto. intros g q Hg Hq Hcov. apply Hcov'; auto.
      destruct Hcov as [Hc|[-> ->]]; [now left|right]. split; [reflexivity|].
      right. subst i2. now rewrite alt_bucket_involutive.
Qed.

(** The tables of a block cover a fingerprint. *)
Definition covers (m : Z) (Ts : list Cuckoo.table) (g q : Z) : Prop :=
  exists T, In T Ts /\ cov1 m T g q.

(** The invariant of a block between two calls. *)
Definition wf_block (c : Cuckoo.t) : Prop :=
  pow2 (Cuckoo.num_buckets_ c) /\
  Cuckoo.tables_ c <> [] /\
  Forall (wf_table (Cuckoo.num_buckets_ c)) (Cuckoo.tables_ c).

Lemma empty_table_wf m : wf_table m (Cuckoo.empty_table m).
Proof. unfold wf_table, Cuckoo.empty_table. apply repeat_length. Qed.

Lemma Reset_wf c n fn fd : wf_block (Cuckoo.Reset c n fn fd).
Proof.
  unfold wf_block, Cuckoo.Reset. simpl. split_and!.
  - apply NumBuckets_pow2.
  - discriminate.
  - constructor; [apply empty_table_wf|constructor].
Qed.

(** The fingerprint and the first bucket of a key in a block. *)
Definition key_fp (c : Cuckoo.t) (key : bytes) : Z :=
  CuckooFingerprint (wrap64 (CuckooHash key)) (Cuckoo.b_ c).

Definition key_bucket (c : Cuckoo.t) (key : bytes) : Z :=
  wrap64 (CuckooHash key) mod Cuckoo.num_buckets_ c.

Lemma CuckooFingerprint_range h b :
  0 <= b -> 1 <= CuckooFingerprint h b < Z.max 2 (2 ^ b).
Proof.
  intros Hb. unfold Cuckoo.CuckooFingerprint. cbv zeta.
  assert (Hp : 0 < 2 ^ b) by (apply Z.pow_pos_nonneg; lia).
  pose proof (Z.mod_pos_bound (fp_bits h) (2 ^ b) Hp) as Hr.
  destruct (Z.eqb_spec (fp_bits h mod 2 ^ b) 0); lia.
Qed.

Lemma covers_last_update m older T Ts' :
  (forall g q, g <> 0 -> 0 <= q < m ->
     cov1 m T g q -> covers m (older ++ Ts') g q) ->
  forall g q, g <> 0 -> 0 <= q < m ->
    covers m (older ++ [T]) g q -> covers m (older ++ Ts') g q.
Proof.
  intros Hlast g q Hg Hq (T0 & Hin & Hc). apply in_app_or in Hin.
  destruct Hin as [Hin|[<-|[]]]; [|now apply Hlast].
  exists T0. split; [apply in_or_app; now left|exact Hc].
Qed.

Lemma fresh_table_covers m i fp v q :
  pow2 m -> 0 <= i < m -> orbit m i fp q ->
  cov1 m (Cuckoo.Write (Cuckoo.empty_table m) i 0 (fp, v)) fp q.
Proof.
  intros Hm Hi Horb. apply (orbit_cov1 m _ i fp q); auto.
  exists 0. split; [unfold in_bucket; lia|].
  erewrite Read_Write_same; eauto using empty_table_wf.
  unfold in_bucket; lia.
Qed.

(** One [add_key]: the block stays well formed, keeps its parameters, covers
    what it covered, and covers the key just added. *)
Lemma AddKey_covers c key value :
  wf_block c ->
  let c' := AddKey c key value in
  wf_block c' /\
  Cuckoo.num_buckets_ c' = Cuckoo.num_buckets_ c /\
  Cuckoo.b_ c' = Cuckoo.b_ c /\ Cuckoo.v_ c' = Cuckoo.v_ c /\
  (length (Cuckoo.tables_ c') <= length (Cuckoo.tables_ c) + 1)%nat /\
  (forall g q, g <> 0 -> 0 <= q < Cuckoo.num_buckets_ c ->
     covers (Cuckoo.num_buckets_ c) (Cuckoo.tables_ c) g q ->
     covers (Cuckoo.num_buckets_ c) (Cuckoo.tables_ c') g q) /\
  (key_fp c key <> 0 ->
   covers (Cuckoo.num_buckets_ c) (Cuckoo.tables_ c')
     (key_fp c key) (key_bucket c key)).
Proof.
  intros (Hm & Hne & Hwf). assert (Hmpos := pow2_pos _ Hm).
  unfold key_fp, key_bucket, Cuckoo.AddKey. cbv zeta.
  set (m := Cuckoo.num_buckets_ c) in *.
  set (h := wrap64 (CuckooHash key)).
  set (fp := CuckooFingerprint h (Cuckoo.b_ c)).
  set (i1 := h mod m).
  assert (Hi1 : 0 <= i1 < m) by (apply Z.mod_pos_bound; exact Hmpos).
  pose proof (app_removelast_last [] Hne) as Hsplit.
  set (T := List.last (Cuckoo.tables_ c) []) in *.
  set (older := removelast (Cuckoo.tables_ c)) in *.
  assert (HwfT : wf_table m T).
  { rewrite Forall_forall in Hwf. apply Hwf. apply list_elem_of_In.
    rewrite Hsplit. apply in_or_app. right. now left. }
  assert (Hwfo : Forall (wf_table m) older).
  { rewrite Hsplit in Hwf. now apply Forall_app in Hwf as [? _]. }
  destruct (AddTo (Cuckoo.max_moves_ c) m T fp value i1 (Cuckoo.draws_ c))
    as [[T' out] draws'] eqn:HA.
  destruct (AddTo_covers m _ Hm _ _ _ _ _ _ _ _ HwfT Hi1 HA)
    as (HwfT' & Hok & Hcov).
  set (Ts' := match out with
              | Cuckoo.Placed => [T']
              | Cuckoo.Exhausted fp' v' i' =>
                  [T'; Cuckoo.Write (Cuckoo.empty_table m) i' 0 (fp', v')]
              end).
  assert (Hlast : forall g q, g <> 0 -> 0 <= q < m ->
            cov1 m T g q \/ (g = fp /\ q = i1) -> covers m (older ++ Ts') g q).
  { intros g q Hg Hq Hc. destruct (Hcov g q Hg Hq Hc) as [Hc'|Hh].
    - exists T'. split; [|exact Hc']. apply in_or_app. right.
      subst Ts'. destruct out; now left.
    - destruct out as [|fp' v' i']; [destruct Hh|].
      destruct Hh as [-> Horb]. simpl in Hok.
      eexists. split; [apply in_or_app; right; subst Ts'; right; now left|].
      now apply fresh_table_covers. }
  assert (Hwf' : Forall (wf_table m) (older ++ Ts')).
  { apply Forall_app. split; [exact Hwfo|]. subst Ts'.
    destruct out; repeat constructor; auto.
    apply Write_wf, empty_table_wf. }
  assert (Hlen : (length (older ++ Ts') <= length (Cuckoo.tables_ c) + 1)%nat).
  { rewrite Hsplit, !length_app. subst Ts'. destruct out; simpl; lia. }
  assert (Hne' : older ++ Ts' <> []).
  { subst Ts'. destruct out, older; discriminate. }
  cbn [Cuckoo.tables_ Cuckoo.num_buckets_ Cuckoo.b_ Cuckoo.v_]. fold Ts'.
  split_and!; auto.
  - split_and!; auto.
  - intros g q Hg Hq Hc. rewrite Hsplit in Hc.
    apply (covers_last_update m older T Ts'); auto.
Qed.

Lemma key_fp_nonzero c key : key_fp c key <> 0.
Proof.
  unfold key_fp, Cuckoo.CuckooFingerprint. cbv zeta.
  destruct (Z.eqb_spec (fp_bits (wrap64 (CuckooHash key)) mod 2 ^ Cuckoo.b_ c) 0);
    lia.
Qed.

(** Any number of [add_key]s: every key added is covered at the end. *)
Lemma AddKeys_covers kvs :
  forall c, wf_block c ->
    let c' := AddKeys c kvs in
    wf_block c' /\
    Cuckoo.num_buckets_ c' = Cuckoo.num_buckets_ c /\
    Cuckoo.b_ c' = Cuckoo.b_ c /\ Cuckoo.v_ c' = Cuckoo.v_ c /\
    (length (Cuckoo.tables_ c') <= length (Cuckoo.tables_ c) + length kvs)%nat /\
    (forall g q, g <> 0 -> 0 <= q < Cuckoo.num_buckets_ c ->
       covers (Cuckoo.num_buckets_ c) (Cuckoo.tables_ c) g q ->
       covers (Cuckoo.num_buckets_ c) (Cuckoo.tables_ c') g q) /\
    (forall key value, In (key, value) kvs ->
       covers (Cuckoo.num_buckets_ c) (Cuckoo.tables_ c')
         (key_fp c key) (key_bucket c key)).
Proof.
  induction kvs as [|[k v] kvs IH]; intros c Hwf; simpl.
  - split_and!; auto; try lia; intros key value [].
  - destruct (AddKey_covers c k v Hwf) as (Hwf1 & Hm1 & Hb1 & Hv1 & Hl1 & Hc1 & Hk1).
    destruct (IH _ Hwf1) as (Hwf2 & Hm2 & Hb2 & Hv2 & Hl2 & Hc2 & Hk2).
    unfold Cuckoo.AddKeys in *. simpl in *.
    rewrite Hm1 in *. 
    split_and!; auto; try congruence; try lia.
    intros key value [E|Hin].
    + injection E as <- <-. apply Hc2.
      * apply key_fp_nonzero.
      * unfold key_bucket. apply Z.mod_pos_bound.
        apply pow2_pos. apply Hwf.
      * apply Hk1. apply key_fp_nonzero.
    + specialize (Hk2 key value Hin). unfold key_fp, key_bucket in *.
      now rewrite Hm1, Hb1 in Hk2.
Qed.

(** Reading the blob. *)
Lemma encode_slot_length s : length (Cuckoo.encode_slot s) = 8%nat.
Proof. unfold Cuckoo.encode_slot. now rewrite length_app, !length_le_split. Qed.

Lemma concat_encode_tables (Ts : list Cuckoo.table) :
  concat (map Cuckoo.encode_table Ts)
  = concat (map Cuckoo.encode_slot (concat Ts)).
Proof.
  induction Ts as [|T Ts IH]; simpl; [reflexivity|].
  rewrite IH, map_app, concat_app. reflexivity.
Qed.

Lemma nth_concat_uniform {A} (d : A) (n : nat) (Ts : list (list A)) :
  Forall (fun T => length T = n) Ts ->
  forall tbl k, (tbl < length Ts)%nat -> (k < n)%nat ->
    nth (tbl * n + k) (concat Ts) d = nth k (nth tbl Ts []) d.
Proof.
  induction 1 as [|T Ts HT HTs IH]; intros tbl k Htbl Hk; simpl in *; [lia|].
  destruct tbl as [|tbl]; simpl.
  - rewrite app_nth1 by lia. reflexivity.
  - rewrite app_nth2 by lia. rewrite <- IH by lia. f_equal. lia.
Qed.

Lemma length_concat_uniform {A} (n : nat) (Ts : list (list A)) :
  Forall (fun T => length T = n) Ts -> length (concat Ts) = (length Ts * n)%nat.
Proof.
  induction 1 as [|T Ts HT HTs IH]; simpl; [reflexivity|].
  rewrite length_app, IH, HT. reflexivity.
Qed.

Lemma firstn_skipn_encoded (flat : list Cuckoo.slot) :
  forall (s : nat) (rest : bytes),
    (s < length flat)%nat ->
    firstn 4 (skipn (8 * s) (concat (map Cuckoo.encode_slot flat) ++ rest))
    = le_split 4 (fst (nth s flat (0, 0))).
Proof.
  induction flat as [|x flat IH]; intros s rest Hs; simpl in Hs; [lia|].
  destruct s as [|s].
  - simpl. reflexivity.
  - replace (8 * S s)%nat with (8 * s + 8)%nat by lia.
    cbn [map concat nth]. rewrite <- app_assoc.
    rewrite <- skipn_skipn.
    rewrite (skipn_app 8), encode_slot_length. simpl (8 - 8)%nat.
    rewrite (skipn_all2 (Cuckoo.encode_slot x)) by (rewrite encode_slot_length; lia).
    simpl. apply IH. lia.
Qed.

Lemma blob_fp_Finish c tbl i j :
  wf_block c -> (tbl < length (Cuckoo.tables_ c))%nat ->
  0 <= i < Cuckoo.num_buckets_ c -> in_bucket j ->
  Cuckoo.blob_fp (Cuckoo.Finish c) (Cuckoo.num_buckets_ c) (Z.of_nat tbl) i j
  = fst (Cuckoo.Read (nth tbl (Cuckoo.tables_ c) []) i j) mod 2 ^ 32.
Proof.
  intros (Hm & Hne & Hwf) Htbl Hi Hj. assert (Hmpos := pow2_pos _ Hm).
  unfold Cuckoo.blob_fp, Cuckoo.Finish, Cuckoo.Read. cbv zeta.
  set (m := Cuckoo.num_buckets_ c) in *.
  set (n := Z.to_nat (Cuckoo.kItemsPerBucket * m)).
  assert (Hun : Forall (fun T : Cuckoo.table => length T = n) (Cuckoo.tables_ c)).
  { eapply Forall_impl; [exact Hwf|]. intros T HT. exact HT. }
  unfold Cuckoo.kItemsPerBucket, in_bucket in *.
  set (k := Cuckoo.slot_index i j).
  assert (Hk : (k < n)%nat).
  { subst k n. unfold Cuckoo.slot_index, Cuckoo.kItemsPerBucket. lia. }
  replace (Z.to_nat (8 * (Z.of_nat tbl * (4 * m) + 4 * i + j)))
    with (8 * (tbl * n + k))%nat
    by (subst k n; unfold Cuckoo.slot_index, Cuckoo.kItemsPerBucket; lia).
  rewrite concat_encode_tables.
  rewrite firstn_skipn_encoded.
  - rewrite le_combine_split. rewrite (nth_concat_uniform (0, 0) n) by assumption.
    reflexivity.
  - rewrite (length_concat_uniform n) by assumption. nia.
Qed.

Lemma Finish_suffix c :
  let blob := Cuckoo.Finish c in
  (11 <= length blob)%nat /\
  skipn (length blob - 11) blob
  = le_split 4 (Z.of_nat (length (Cuckoo.tables_ c)))
    ++ le_split 4 (Cuckoo.num_buckets_ c)
    ++ [byte.of_Z (Cuckoo.b_ c); byte.of_Z (Cuckoo.v_ c);
        byte.of_Z Cuckoo.kCuckooTag].
Proof.
  unfold Cuckoo.Finish. cbv zeta.
  set (body := concat (map Cuckoo.encode_table (Cuckoo.tables_ c))).
  set (sfx := le_split 4 _ ++ le_split 4 _ ++ _).
  assert (Hs : length sfx = 11%nat).
  { subst sfx. rewrite !length_app, !length_le_split. reflexivity. }
  rewrite length_app, Hs. split; [lia|].
  replace (length body + 11 - 11)%nat with (length body) by lia.
  rewrite skipn_app, Nat.sub_diag, skipn_all. reflexivity.
Qed.

Lemma suffix_fields (nt m b v : Z) (tag : byte) :
  let sfx := le_split 4 nt ++ le_split 4 m ++ [byte.of_Z b; byte.of_Z v; tag] in
  le_combine (firstn 4 sfx) = nt mod 2 ^ 32 /\
  le_combine (firstn 4 (skipn 4 sfx)) = m mod 2 ^ 32 /\
  nth 8 sfx Byte.x00 = byte.of_Z b.
Proof.
  cbv zeta. split_and!.
  - exact (le_combine_split 4 nt).
  - exact (le_combine_split 4 m).
  - reflexivity.
Qed.

(** No false negative: a key that was added to a cuckoo block matches the
    finished blob, in whichever table its fingerprint ended up. *)
Lemma Cuckoo_no_false_negative c0 n fn fd kvs key value :
  let c := AddKeys (Cuckoo.Reset c0 n fn fd) kvs in
  0 <= Cuckoo.b_ c0 <= 32 ->
  Cuckoo.num_buckets_ c < 2 ^ 32 ->
  Z.of_nat (length kvs) + 1 < 2 ^ 32 ->
  In (key, value) kvs ->
  Cuckoo.KeyMayMatch CuckooHash fp_bits fp_hash key (Cuckoo.Finish c) = true.
Proof.
  intros c Hb Hmlt Hlen Hin.
  set (c1 := Cuckoo.Reset c0 n fn fd) in *.
  destruct (AddKeys_covers kvs c1 (Reset_wf c0 n fn fd))
    as (Hwf & Hm & Hbb & _ & Hl & _ & Hcov). fold c in Hwf, Hm, Hbb, Hl, Hcov.
  specialize (Hcov key value Hin).
  assert (Hmp : pow2 (Cuckoo.num_buckets_ c)) by apply Hwf.
  assert (Hmpos := pow2_pos _ Hmp).
  destruct (Finish_suffix c) as [Hlen11 Hsfx].
  unfold Cuckoo.KeyMayMatch. cbv zeta.
  destruct (Nat.ltb_spec (length (Cuckoo.Finish c)) 11) as [Hlt|_]; [lia|].
  rewrite Hsfx.
  (* the suffix reads back the table count, the bucket count and [b] *)
  destruct (suffix_fields (Z.of_nat (length (Cuckoo.tables_ c)))
              (Cuckoo.num_buckets_ c) (Cuckoo.b_ c) (Cuckoo.v_ c)
              (byte.of_Z Cuckoo.kCuckooTag)) as (E1 & E2 & E3).
  rewrite E1, E2, E3.
  assert (Hlc1 : length (Cuckoo.tables_ c1) = 1%nat) by reflexivity.
  rewrite (Z.mod_small (Z.of_nat _)) by lia.
  rewrite (Z.mod_small (Cuckoo.num_buckets_ c)) by lia.
  rewrite Nat2Z.id.
  rewrite byte.unsigned_of_Z. unfold byte.wrap.
  assert (Hbc : Cuckoo.b_ c = Cuckoo.b_ c0) by (rewrite Hbb; reflexivity).
  rewrite (Z.mod_small (Cuckoo.b_ c)) by (rewrite Hbc; simpl; lia).
  (* the key is covered by some table *)
  assert (Hfp : key_fp c1 key = key_fp c key) by (unfold key_fp; now rewrite Hbb).
  assert (Hbk : key_bucket c1 key = key_bucket c key)
    by (unfold key_bucket; now rewrite Hm).
  rewrite <- Hm, Hfp, Hbk in Hcov.
  fold (key_fp c key). fold (key_bucket c key).
  set (fp := key_fp c key) in *. set (i1 := key_bucket c key) in *.
  assert (Hi1 : 0 <= i1 < Cuckoo.num_buckets_ c)
    by (apply Z.mod_pos_bound; exact Hmpos).
  assert (Hfpr : 0 <= fp < 2 ^ 32).
  { subst fp. unfold key_fp.
    pose proof (CuckooFingerprint_range (wrap64 (CuckooHash key)) (Cuckoo.b_ c))
      as Hr. rewrite Hbc in *.
    assert (2 ^ Cuckoo.b_ c0 <= 2 ^ 32) by (apply Z.pow_le_mono_r; lia).
    lia. }
  destruct Hcov as (T & HinT & Hc).
  apply In_nth with (d := []) in HinT. destruct HinT as (tbl & Htbl & HT).
  assert (Hhas : forall q, 0 <= q < Cuckoo.num_buckets_ c -> has T q fp ->
            Cuckoo.bucket_has (Cuckoo.Finish c) (Cuckoo.num_buckets_ c)
              (Z.of_nat tbl) q fp = true).
  { intros q Hq (j & Hj & Hr). unfold Cuckoo.bucket_has.
    apply existsb_exists. exists j. split.
    - unfold in_bucket in Hj. simpl. lia.
    - apply Z.eqb_eq. rewrite blob_fp_Finish by assumption.
      rewrite HT, Hr. apply Z.mod_small. exact Hfpr. }
  apply existsb_exists. exists tbl. split; [apply in_seq; lia|].
  destruct Hc as [Hc|Hc].
  - rewrite (Hhas i1) by assumption. reflexivity.
  - rewrite (Hhas (alt_bucket (Cuckoo.num_buckets_ c) i1 fp)).
    + apply orb_true_r.
    + apply alt_bucket_range. exact Hmpos.
    + exact Hc.
Qed.

End CuckooFacts.

(** C7. Neither filter has a false negative. For every choice of the hash
    functions and of the random evictions: a key added to a Bloom block
    matches the blob [finish] returns; and a key added to a cuckoo block with
    [add_key] matches the blob [finish] returns, also when its fingerprint was
    moved by later insertions or spilled into an auxiliary table. The cuckoo
    blob stores its table count and bucket count in 32 bits and its
    fingerprints in at most 32 bits, hence the three bounds. *)
Theorem filters_have_no_false_negative
    (bloom_hash : nat -> bytes -> Z) (num_hashes : Z -> Z)
    (CuckooHash : bytes -> Z) (fp_bits fp_hash : Z -> Z) (rnd : nat -> Z)
    (bits_per_key n : Z) (keys : list bytes)
    (c0 : Cuckoo.t) (num_keys frac_num frac_den : Z) (kvs : list (bytes * Z)) :
  let bloom_blob := Bloom.build bloom_hash num_hashes bits_per_key n keys in
  let c := Cuckoo.AddKeys CuckooHash fp_bits fp_hash rnd
             (Cuckoo.Reset c0 num_keys frac_num frac_den) kvs in
  0 <= Cuckoo.b_ c0 <= 32 ->
  Cuckoo.num_buckets_ c < 2 ^ 32 ->
  Z.of_nat (length kvs) + 1 < 2 ^ 32 ->
  (forall key, In key keys ->
     Bloom.KeyMayMatch bloom_hash key bloom_blob = true) /\
  (forall key value, In (key, value) kvs ->
     Cuckoo.KeyMayMatch CuckooHash fp_bits fp_hash key (Cuckoo.Finish c) = true).
Proof.
  intros bloom_blob c Hb Hm Hlen. split.
  - intros key Hin. now apply Bloom_no_false_negative.
  - intros key value Hin.
    now apply (Cuckoo_no_false_negative CuckooHash fp_bits fp_hash rnd
                 c0 num_keys frac_num frac_den kvs key value).
Qed.

Lemma filters_have_no_false_negative_witness :
  (forall key, In key Sample.bloom_keys ->
     Bloom.KeyMayMatch Sample.bloom_hash key
       (Bloom.build Sample.bloom_hash Sample.num_hashes 10 3 Sample.bloom_keys)
     = true) /\
  (forall key value, In (key, value) Sample.cuckoo_keys ->
     Cuckoo.KeyMayMatch Sample.hash Sample.fp_bits Sample.fp_hash key
       (Cuckoo.Finish
          (Cuckoo.AddKeys Sample.hash Sample.fp_bits Sample.fp_hash Sample.rnd
             (Cuckoo.Reset Sample.cuckoo0 8 (-1) 1) Sample.cuckoo_keys))
     = true).
Proof.
  apply (filters_have_no_false_negative
           Sample.bloom_hash Sample.num_hashes
           Sample.hash Sample.fp_bits Sample.fp_hash Sample.rnd
           10 3 Sample.bloom_keys
           Sample.cuckoo0 8 (-1) 1 Sample.cuckoo_keys).
  - vm_compute. split; discriminate.
  - vm_compute. reflexivity.
  - vm_compute. reflexivity.
Defined.

(** The sample cuckoo block did spill: it ends with more than one table. *)
Example sample_cuckoo_spills :
  length (Cuckoo.tables_
            (Cuckoo.AddKeys Sample.hash Sample.fp_bits Sample.fp_hash Sample.rnd
               (Cuckoo.Reset Sample.cuckoo0 8 (-1) 1) Sample.cuckoo_keys))
  = 2%nat.
Proof. vm_compute. reflexivity. Qed.

(** ** The sample formats meet their contracts *)

Lemma le_split_firstn (n : nat) (z : Z) (tail : bytes) :
  firstn n (le_split n z ++ tail) = le_split n z.
Proof. apply take_app_length'. now rewrite length_le_split. Qed.

Lemma le_split_skipn (n : nat) (z : Z) (tail : bytes) :
  skipn n (le_split n z ++ tail) = tail.
Proof. apply drop_app_length'. now rewrite length_le_split. Qed.

Lemma parse_entries_step (fuel : nat) (k v rest : bytes) :
  size k < 2 ^ 32 -> size v < 2 ^ 32 ->
  SampleBlock.parse_entries (S fuel) (SampleBlock.encode_entry (k, v) ++ rest)
  = (k, v) :: SampleBlock.parse_entries fuel rest.
Proof.
  intros Hk Hv. pose proof (size_nonneg k). pose proof (size_nonneg v).
  unfold SampleBlock.encode_entry. cbn [fst snd]. rewrite <- !app_assoc.
  set (p := le_split 4 (size k) ++ le_split 4 (size v) ++ k ++ v ++ rest).
  assert (E1 : firstn 4 p = le_split 4 (size k)) by apply le_split_firstn.
  assert (E2 : skipn 4 p = le_split 4 (size v) ++ k ++ v ++ rest)
    by apply le_split_skipn.
  assert (E3 : skipn 8 p = k ++ v ++ rest).
  { change 8%nat with (4 + 4)%nat. rewrite <- skipn_skipn, E2.
    apply le_split_skipn. }
  assert (Hlen : (8 <= length p)%nat).
  { subst p. rewrite !length_app, !length_le_split. lia. }
  cbn [SampleBlock.parse_entries].
  destruct (Nat.ltb_spec (length p) 8) as [Hlt|_]; [lia|].
  cbv zeta. rewrite E1, E2, E3, le_split_firstn, !le_combine_split.
  change (Z.of_nat 4 * 8) with 32.
  rewrite !Z.mod_small by lia. unfold size. rewrite !Nat2Z.id.
  destruct (Nat.ltb_spec (length (k ++ v ++ rest)) (length k + length v))
    as [Hlt|_]; [rewrite !length_app in Hlt; lia|].
  rewrite take_app_length.
  rewrite (drop_app_length k), take_app_length.
  rewrite (app_assoc k v rest), drop_app_length'
    by (rewrite length_app; reflexivity).
  reflexivity.
Qed.

Lemma parse_encode_entries (es : list entry) :
  forall fuel : nat,
    (length es <= fuel)%nat -> Forall SampleBlock.entry_fits es ->
    SampleBlock.parse_entries fuel (concat (map SampleBlock.encode_entry es)) = es.
Proof.
  induction es as [|[k v] es IH]; intros fuel Hfuel Hfit.
  - destruct fuel; reflexivity.
  - destruct fuel as [|fuel]; [simpl in Hfuel; lia|].
    apply Forall_cons in Hfit. destruct Hfit as [[Hk Hv] Hfit].
    cbn [map concat]. rewrite parse_entries_step by assumption.
    f_equal. apply IH; [simpl in Hfuel; lia|exact Hfit].
Qed.

Lemma encode_entry_length (e : entry) :
  (8 <= length (SampleBlock.encode_entry e))%nat.
Proof.
  unfold SampleBlock.encode_entry. rewrite !length_app, !length_le_split. lia.
Qed.

Lemma encoded_entries_length (es : list entry) :
  (length es <= length (concat (map SampleBlock.encode_entry es)))%nat.
Proof.
  induction es as [|e es IH]; simpl; [lia|].
  rewrite length_app. pose proof (encode_entry_length e). lia.
Qed.

Lemma SampleBlock_ok : BlockFormatOk SampleBlock.format SampleBlock.entry_fits.
Proof.
  split.
  - intros es _ Hfit. simpl. unfold SampleBlock.entries, SampleBlock.Finish.
    cbv zeta. set (body := concat (map SampleBlock.encode_entry es)).
    rewrite <- app_assoc.
    assert (Hl : (length (body ++ [byte.of_Z SampleBlock.kNoCompression]
                          ++ le_split 4 (SampleBlock.crc_mask
                               (SampleBlock.crc32c
                                  (body ++ [byte.of_Z SampleBlock.kNoCompression]))))
                  - SampleBlock.kBlockTrailerSize = length body)%nat).
    { rewrite !length_app, length_le_split. unfold SampleBlock.kBlockTrailerSize.
      simpl. lia. }
    rewrite Hl, firstn_app, Nat.sub_diag, firstn_O, app_nil_r, firstn_all.
    apply parse_encode_entries; [apply encoded_entries_length|exact Hfit].
  - intros es _. simpl. unfold SampleBlock.Finish. cbv zeta.
    intros E. apply (f_equal (@length byte)) in E.
    rewrite !length_app, length_le_split in E. simpl in E. lia.
Qed.

Lemma Sample_bloom_ok : FilterFormatOk Sample.bloom.
Proof.
  split. intros bits_per_key n keys k _ Hin. simpl.
  now apply Bloom_no_false_negative.
Qed.

(** ** The index stripe *)

Section IndexFacts.
Context {F : Type} `{Env.WritableFile F} {BF : BlockFormat} {FF : FilterFormat}.
Import Writer.

Lemma BlockBuf_empty_iff (bb : BlockBuf) :
  BlockBuf_empty bb = true <-> bb_entries bb = [].
Proof. unfold BlockBuf_empty. destruct (bb_entries bb); split; congruence. Qed.

Lemma app_if_nonempty (a b : bytes) :
  (if negb (is_empty b) then a ++ b else a) = a ++ b.
Proof. destruct b; simpl; [now rewrite app_nil_r|reflexivity]. Qed.


Lemma DumpIndexesAndFilters_indexes (w : Writer.t F) :
  indexes_ (snd (DumpIndexesAndFilters w))
  = indexes_ w ++ encode_pair (size (bloomfilter_ w), offset_ w).
Proof.
  destruct w as [opts dst calls bt br off bbs n bloom idx bh ih b].
  unfold DumpIndexesAndFilters, dst_Append. cbn.
  repeat (writer_step; cbn);
    unfold PutFixed64, encode_pair; now rewrite <- app_assoc.
Qed.


Lemma encode_pair_length (p : Z * Z) : length (encode_pair p) = 16%nat.
Proof. unfold encode_pair. now rewrite length_app, !EncodeFixed64_length. Qed.

Lemma encode_pairs_snoc (ps : list (Z * Z)) (p : Z * Z) :
  encode_pairs (ps ++ [p]) = encode_pairs ps ++ encode_pair p.
Proof.
  unfold encode_pairs. rewrite map_app, concat_app. cbn [map concat].
  now rewrite app_nil_r.
Qed.

Lemma encode_pairs_length (ps : list (Z * Z)) :
  length (encode_pairs ps) = (16 * length ps)%nat.
Proof.
  induction ps as [|p ps IH]; [reflexivity|].
  unfold encode_pairs in *. cbn [map concat length].
  rewrite length_app, encode_pair_length, IH. lia.
Qed.




Lemma nondecreasing_init (l : list Z) (x : Z) :
  nondecreasing (l ++ [x]) -> nondecreasing l.
Proof.
  induction l as [|a l IH]; intros Hl; simpl in *; [auto|].
  destruct l as [|b l]; simpl in *; [auto|].
  destruct Hl as [Hab Hl]. split; [exact Hab|]. apply IH. exact Hl.
Qed.

Lemma index_inv_initial (options : DirOptions) (dst : F) (buf_size n : Z) :
  index_inv (BufferedBlockWriter options dst buf_size n) [].
Proof.
  unfold index_inv, BufferedBlockWriter.
  destruct (new_buffers _ _ _ _ _) as [bbs bufs]. cbn.
  split_and!; auto; try constructor; try lia; reflexivity.
Qed.


End IndexFacts.



(** The sample stripe after [DumpIndexesAndFilters]: two entries for one
    block. *)
Example sample_index_entries :
  index_entries
    (Writer.indexes_ (snd (Writer.DumpIndexesAndFilters sample_writer_one_block)))
  = [(0, 0); (9, 21)].
Proof. vm_compute. reflexivity. Qed.


(** C5 as stated fails: when the append of the index stream fails,
    [SyncBackend(true)] returns that error after a single call on the
    destination, which is neither synced nor closed; and so does [Finish],
    which calls it. And when everything succeeds but the close of the
    destination, [Finish] returns OK: the error of the close is not among
    those it returns. *)
Lemma Finish_skips_sync_and_close :
  let w := sample_writer (MemFile.mk [] [IOError "disk full"]) in
  (exists w',
     Writer.SyncBackend w true = (IOError "disk full", w') /\
     existsb Env.is_sync (Writer.dst_calls_ w') = false /\
     existsb Env.is_close (Writer.dst_calls_ w') = false /\
     length (Writer.dst_calls_ w') = 1%nat) /\
  (exists w',
     Writer.Finish w = Some (IOError "disk full", w') /\
     existsb Env.is_sync (Writer.dst_calls_ w') = false /\
     existsb Env.is_close (Writer.dst_calls_ w') = false /\
     length (Writer.dst_calls_ w') = 1%nat) /\
  (exists w',
     Writer.Finish
       (sample_writer (MemFile.mk [] [OK; OK; OK; IOError "close failed"]))
     = Some (OK, w') /\
     List.last (Writer.dst_calls_ w') (Env.CallSync OK)
     = Env.CallClose (IOError "close failed")).
Proof. vm_compute. split_and!; eexists; split_and!; reflexivity. Qed.

(** ** The reader: a latched cache is not loaded again *)

(** One step through the code of the reader. *)
Ltac reader_step :=
  match goal with
  | |- context [Env.Read ?r ?o ?n] =>
      let st := fresh "st" in let d := fresh "data" in let r' := fresh "r" in
      destruct (Env.Read r o n) as [[st d] r'] eqn:?
  | |- context [Handle.DecodeFrom ?f] =>
      let st := fresh "st" in let h := fresh "h" in let rest := fresh "rest" in
      destruct (Handle.DecodeFrom f) as [[st h] rest] eqn:?
  | |- context [if ok ?s then _ else _] =>
      let Hs := fresh "Hst" in destruct (ok s) eqn:Hs
  | |- context [if negb (ok ?s) then _ else _] =>
      let Hs := fresh "Hst" in destruct (ok s) eqn:Hs
  | |- context [if negb (?a =? ?b) then _ else _] =>
      let Hs := fresh "Hsz" in destruct (Z.eqb_spec a b) as [Hs|Hs]
  | |- context [if ?a <? ?b then _ else _] =>
      let Hs := fresh "Hlt" in destruct (Z.ltb_spec a b) as [Hs|Hs]
  end.

Section ReaderFacts.
Context {R : Type} `{Env.RandomAccessFile R} {BF : BlockFormat} {FF : FilterFormat}
        {HP : Heap}.
Import Reader.

(** Something is latched: the test of [MaybeLoadCache] skips the load. *)
Definition loaded (rd : Reader.t R) : Prop :=
  ok (cache_status_ rd) = false \/ cache_contents_ rd <> [].

(** The cached part of a reader: what [MaybeLoadCache] fills in. *)
Definition same_cache (a b : Reader.t R) : Prop :=
  cache_status_ b = cache_status_ a /\
  cache_contents_ b = cache_contents_ a /\
  indexes_ b = indexes_ a /\
  bloomfilter_ b = bloomfilter_ a /\
  options_ b = options_ a /\ src_sz_ b = src_sz_ a.

(** [b] made only block reads since [a]. *)
Definition only_block_reads (a b : Reader.t R) : Prop :=
  exists extra,
    reads_ b = reads_ a ++ extra /\ forallb is_block_read extra = true.

Lemma same_cache_refl (a : Reader.t R) : same_cache a a.
Proof. unfold same_cache. auto 7. Qed.

Lemma same_cache_trans (a b c : Reader.t R) :
  same_cache a b -> same_cache b c -> same_cache a c.
Proof. unfold same_cache. intuition congruence. Qed.

Lemma only_block_reads_refl (a : Reader.t R) : only_block_reads a a.
Proof. exists []. now rewrite app_nil_r. Qed.

Lemma only_block_reads_trans (a b c : Reader.t R) :
  only_block_reads a b -> only_block_reads b c -> only_block_reads a c.
Proof.
  intros (e1 & E1 & F1) (e2 & E2 & F2). exists (e1 ++ e2).
  rewrite E2, E1, <- app_assoc, forallb_app, F1, F2. auto.
Qed.

Lemma MaybeLoadCache_loaded (rd : Reader.t R) :
  loaded rd -> MaybeLoadCache rd = (cache_status_ rd, rd).
Proof.
  intros [Hst|Hc]; unfold MaybeLoadCache.
  - now rewrite Hst.
  - destruct (cache_contents_ rd); [contradiction|].
    simpl. now rewrite orb_true_r.
Qed.

(** Whatever happens in it, a load returns the status it latched. *)
Lemma LoadIndexesAndFilters_status (rd : Reader.t R) (footer : bytes) :
  fst (LoadIndexesAndFilters rd footer)
  = cache_status_ (snd (LoadIndexesAndFilters rd footer)).
Proof.
  destruct rd as [opts src sz cs cc idx bloom reads].
  unfold LoadIndexesAndFilters, src_Read. cbn.
  repeat (reader_step; cbn in * ); reflexivity.
Qed.

Lemma MaybeLoadCache_status (rd : Reader.t R) :
  fst (MaybeLoadCache rd) = cache_status_ (snd (MaybeLoadCache rd)).
Proof.
  unfold MaybeLoadCache.
  destruct (negb (ok (cache_status_ rd)) || negb (is_empty (cache_contents_ rd))).
  - reflexivity.
  - cbv zeta.
    destruct (src_sz_ rd <? Z.of_nat (2 * Handle.kMaxEncodedLength)).
    + reflexivity.
    + unfold src_Read.
      destruct (Env.Read _ _ _) as [[st data] r]. cbn.
      destruct (ok st) eqn:Hst; cbn.
      * destruct (negb (size data =? _)); cbn.
        -- reflexivity.
        -- rewrite Hst. apply LoadIndexesAndFilters_status.
      * rewrite Hst. reflexivity.
Qed.

Lemma LoadIndexesAndFilters_reads (rd : Reader.t R) (footer : bytes) :
  exists l,
    reads_ (snd (LoadIndexesAndFilters rd footer)) = reads_ rd ++ l /\
    List.filter is_footer_read l = [] /\
    (length (List.filter is_index_read l) <= 1)%nat /\
    List.filter is_block_read l = [].
Proof.
  destruct rd as [opts src sz cs cc idx bloom reads].
  unfold LoadIndexesAndFilters, src_Read. cbn.
  repeat (reader_step; cbn in * );
    first [ exists []; split; [symmetry; apply app_nil_r|];
            cbn; split_and!; auto
          | eexists [_]; split; [reflexivity|]; cbn; split_and!; auto ].
Qed.

Lemma MaybeLoadCache_reads (rd : Reader.t R) :
  exists l,
    reads_ (snd (MaybeLoadCache rd)) = reads_ rd ++ l /\ load_reads l.
Proof.
  unfold MaybeLoadCache, load_reads.
  destruct (negb (ok (cache_status_ rd)) || negb (is_empty (cache_contents_ rd))).
  - exists []. cbn. rewrite app_nil_r. auto.
  - cbv zeta.
    destruct (src_sz_ rd <? Z.of_nat (2 * Handle.kMaxEncodedLength)).
    + exists []. cbn. rewrite app_nil_r. auto.
    + unfold src_Read.
      destruct (Env.Read _ _ _) as [[st data] r]. cbn.
      assert (Hone : forall e, is_footer_read e = true ->
                is_index_read e = false -> is_block_read e = false ->
                exists l, reads_ rd ++ [e] = reads_ rd ++ l /\
                  (length (List.filter is_footer_read l) <= 1)%nat /\
                  (length (List.filter is_index_read l) <= 1)%nat /\
                  List.filter is_block_read l = []).
      { intros e He1 He2 He3. exists [e]. cbn. rewrite He1, He2, He3.
        cbn. auto. }
      destruct (ok st) eqn:Hst; cbn.
      * destruct (negb (size data =? _)); cbn.
        -- now apply Hone.
        -- rewrite Hst.
           match goal with
           | |- context [LoadIndexesAndFilters ?rd1 ?f] =>
               destruct (LoadIndexesAndFilters_reads rd1 f)
                 as (l & -> & Hf & Hi & Hb)
           end.
           cbn. rewrite <- app_assoc. eexists. split; [reflexivity|].
           cbn. rewrite Hf, Hb. cbn. auto with lia.
      * rewrite Hst. cbn. now apply Hone.
Qed.

Lemma GetFrom_keeps_cache (rd : Reader.t R) (k result : bytes) (offset n : Z) :
  let '(found, st, res, rd') := GetFrom rd k result offset n in
  same_cache rd rd' /\ only_block_reads rd rd'.
Proof.
  unfold GetFrom, src_Read.
  destruct (Env.Read (src_ rd) offset n) as [[st data] r].
  assert (Hk : same_cache rd (set_src rd r [(BlockRead, Env.CallRead offset n st)])
               /\ only_block_reads rd
                    (set_src rd r [(BlockRead, Env.CallRead offset n st)])).
  { split; [unfold same_cache; cbn; auto 7|]. eexists. split; reflexivity. }
  destruct (ok st) eqn:Hst; [destruct (negb (size data =? n))|];
    cbn; rewrite ?Hst; cbn;
    try destruct (Block_Seek k (Block_entries data)); exact Hk.
Qed.

Lemma Get_loop_keeps_cache (fuel : nat) :
  forall (rd : Reader.t R) (k result : bytes) (status : Status)
         (bloomoffset offset off : Z),
    let '(st, res, rd') :=
      Get_loop fuel rd k result status bloomoffset offset off in
    same_cache rd rd' /\ only_block_reads rd rd'.
Proof.
  induction fuel as [|fuel IH]; intros rd k result status bo o off; cbn.
  - split; [apply same_cache_refl|apply only_block_reads_refl].
  - destruct (off + 15 <? size (indexes_ rd));
      [|split; [apply same_cache_refl|apply only_block_reads_refl]].
    destruct (BloomKeyMayMatch k _); [|apply IH].
    pose proof (GetFrom_keeps_cache rd k result o
                  (wrap64 (DecodeFixed64 (skipn (Z.to_nat (off + 8)) (indexes_ rd)) - o)))
      as HG.
    destruct (GetFrom rd k result o _) as [[[found st] res] rd1].
    destruct HG as [Hc Hr].
    destruct found; [auto|]. destruct (negb (ok st)); [auto|].
    assert (Hidx : indexes_ rd1 = indexes_ rd) by apply Hc.
    assert (Hbl : bloomfilter_ rd1 = bloomfilter_ rd) by apply Hc.
    rewrite <- Hidx.
    specialize (IH rd1 k res st
                  (DecodeFixed64 (skipn (Z.to_nat off) (indexes_ rd1)))
                  (DecodeFixed64 (skipn (Z.to_nat (off + 8)) (indexes_ rd1)))
                  (off + 16)).
    destruct (Get_loop fuel rd1 _ _ _ _ _ _) as [[st' res'] rd'].
    destruct IH as [Hc' Hr'].
    split; [eapply same_cache_trans|eapply only_block_reads_trans]; eauto.
Qed.

(** A [Get] on a loaded reader: the cache is as it was, only data blocks are
    read, and a latched error comes back without any read. *)
Lemma Get_loaded (rd : Reader.t R) (k result : bytes) :
  loaded rd ->
  let '(st, res, rd') := Get rd k result in
  same_cache rd rd' /\ only_block_reads rd rd' /\ loaded rd' /\
  (ok (cache_status_ rd) = false ->
   st = cache_status_ rd /\ res = result /\ rd' = rd).
Proof.
  intros Hl. unfold Get. rewrite (MaybeLoadCache_loaded rd Hl).
  destruct (ok (cache_status_ rd)) eqn:Hst; cbn.
  - pose proof (Get_loop_keeps_cache (length (indexes_ rd)) rd k result
                  (cache_status_ rd) (DecodeFixed64 (indexes_ rd))
                  (DecodeFixed64 (skipn 8 (indexes_ rd))) 16) as HG.
    destruct (Get_loop _ _ _ _ _ _ _ _) as [[st res] rd'].
    destruct HG as [Hc Hr]. split_and!; auto; [|discriminate].
    destruct Hl as [Hl|Hl]; [congruence|]. right.
    destruct Hc as (_ & -> & _). exact Hl.
  - split_and!; auto using same_cache_refl, only_block_reads_refl.
Qed.

Lemma Gets_loaded (keys : list bytes) :
  forall rd : Reader.t R,
    loaded rd ->
    let '(rs, rd') := Gets rd keys in
    same_cache rd rd' /\ only_block_reads rd rd' /\
    length rs = length keys /\
    (ok (cache_status_ rd) = false ->
     Forall (fun r => r = (cache_status_ rd, [])) rs /\ rd' = rd).
Proof.
  induction keys as [|k keys IH]; intros rd Hl; cbn.
  - split_and!; auto using same_cache_refl, only_block_reads_refl.
  - pose proof (Get_loaded rd k [] Hl) as HG.
    destruct (Get rd k []) as [[st res] rd1].
    destruct HG as (Hc & Hr & Hl1 & Herr).
    specialize (IH rd1 Hl1). destruct (Gets rd1 keys) as [rs rd2].
    destruct IH as (Hc2 & Hr2 & Hlen & Herr2).
    split_and!.
    + eapply same_cache_trans; eauto.
    + eapply only_block_reads_trans; eauto.
    + simpl. now rewrite Hlen.
    + intros Hko. destruct (Herr Hko) as (-> & -> & ->).
      destruct (Herr2 Hko) as [Hall ->]. split; [|reflexivity].
      constructor; auto.
Qed.

(** A cache that was latched is not loaded again. [MaybeLoadCache] reads
    the footer at most once and the filter and index region at most once.
    When it has left an error or at least one cached byte, every later [Get]
    leaves the cached data as it is and reads nothing but data blocks: the
    footer and the index region are not read again. If the load failed,
    every later [Get] returns the latched status, reads nothing at all and
    leaves its result string untouched. *)
Theorem latched_cache_is_not_reloaded (rd0 : Reader.t R) (keys : list bytes) :
  let st1 := fst (MaybeLoadCache rd0) in
  let rd1 := snd (MaybeLoadCache rd0) in
  let results := fst (Gets rd1 keys) in
  let rd2 := snd (Gets rd1 keys) in
  ok st1 = false \/ cache_contents_ rd1 <> [] ->
  st1 = cache_status_ rd1 /\
  (exists first, reads_ rd1 = reads_ rd0 ++ first /\ load_reads first) /\
  cache_status_ rd2 = cache_status_ rd1 /\
  cache_contents_ rd2 = cache_contents_ rd1 /\
  (exists extra,
     reads_ rd2 = reads_ rd1 ++ extra /\ forallb is_block_read extra = true) /\
  length results = length keys /\
  (ok st1 = false ->
   Forall (fun r => r = (st1, [])) results /\ rd2 = rd1).
Proof.
  cbv zeta. intros Hlatched. pose proof (MaybeLoadCache_status rd0) as Hst.
  assert (Hl : loaded (snd (MaybeLoadCache rd0))).
  { unfold loaded. rewrite <- Hst. exact Hlatched. }
  pose proof (Gets_loaded keys _ Hl) as HG.
  destruct (Gets (snd (MaybeLoadCache rd0)) keys) as [rs rd2]. cbn [fst snd].
  destruct HG as (Hc & Hr & Hlen & Herr).
  split_and!; auto; try apply Hc.
  - apply MaybeLoadCache_reads.
  - rewrite Hst. exact Herr.
Qed.

End ReaderFacts.


(** ** The reader: a load that latches nothing *)

(** The sample footer is what [EncodeTo] makes of its two handles. *)
Example wrapped_footer_handles :
  wrapped_footer
  = resize (Handle.EncodeTo (mkBlockHandle 0 16)
              (Handle.EncodeTo (mkBlockHandle 0 (2 ^ 64 - 16)) []))
      (2 * Handle.kMaxEncodedLength).
Proof. vm_compute. reflexivity. Qed.

Section Reloads.
Context {BF : BlockFormat} {FF : FilterFormat} {HP : Heap}.
Import Reader.

Lemma size_peek (buf : bytes) (p n : Z) :
  0 <= n -> size (peek buf p n) = n.
Proof.
  intros Hn. unfold peek, size. rewrite length_map, length_seq. lia.
Qed.

(** After [remove_prefix(n)] a slice has [size() - n] bytes in [size_t],
    whatever [n] is. *)
Lemma size_remove_prefix (buf : bytes) (n : Z) :
  size (remove_prefix buf n) = wrap64 (size buf - n).
Proof.
  unfold remove_prefix. apply size_peek. unfold wrap64.
  pose proof (Z.mod_pos_bound (size buf - n) (2 ^ 64)). lia.
Qed.

Lemma wrapped_footer_decodes :
  Handle.DecodeFrom wrapped_footer
  = (OK, mkBlockHandle 0 (2 ^ 64 - 16),
     Byte.x00 :: Byte.x10 :: repeat Byte.x00 27) /\
  Handle.DecodeFrom (Byte.x00 :: Byte.x10 :: repeat Byte.x00 27)
  = (OK, mkBlockHandle 0 16, repeat Byte.x00 27).
Proof. split; vm_compute; reflexivity. Qed.

Lemma MaybeLoadCache_wrapped (rd : Reader.t MemFile.t) :
  unlatched rd ->
  exists rd',
    MaybeLoadCache rd = (OK, rd') /\ unlatched rd' /\
    reads_ rd' = reads_ rd ++ wrapped_load /\
    size (indexes_ rd') = 16.
Proof.
  intros (Hsrc & Hsz & Hst & Hcc).
  unfold MaybeLoadCache. rewrite Hst, Hcc, Hsz.
  cbn [ok negb is_empty orb].
  change (Z.of_nat (2 * Handle.kMaxEncodedLength)) with 40.
  change (40 <? 40) with false. cbv iota.
  unfold src_Read. rewrite Hsrc.
  change (Env.Read wrapped_source (40 - 40) 40)
    with (OK, wrapped_footer, wrapped_source).
  cbv iota beta.
  cbn [cache_status_ set_cache_status set_src ok].
  change (size wrapped_footer =? 40) with true. cbn [negb].
  unfold LoadIndexesAndFilters.
  destruct wrapped_footer_decodes as [-> ->].
  cbn [cache_status_ set_cache_status set_src ok negb offset size_].
  change (wrap64 (2 ^ 64 - 16 + 16)) with 0.
  unfold src_Read. cbn [src_ set_cache_status set_src].
  change (Env.Read wrapped_source 0 0) with (OK, @nil byte, wrapped_source).
  cbv iota beta.
  cbn [cache_status_ cache_contents_ set_cache_status set_cache_contents
       set_src set_slices ok negb indexes_].
  change (size [] =? 0) with true.
  cbn [cache_status_ cache_contents_ set_cache_status set_cache_contents
       set_src set_slices ok negb indexes_].
  rewrite size_remove_prefix.
  change (wrap64 (size [] - (2 ^ 64 - 16)) <? 16) with false. cbv iota.
  eexists. split; [reflexivity|].
  cbn [cache_status_ cache_contents_ set_cache_status set_cache_contents
       set_src set_slices ok negb indexes_ reads_ src_ src_sz_].
  rewrite size_remove_prefix, <- app_assoc.
  repeat split; assumption || reflexivity.
Qed.

(** The loop of [Get] ends where the index ends. *)
Lemma Get_loop_past_end (fuel : nat) (rd : Reader.t MemFile.t)
    (k result : bytes) (status : Status) (bloomoffset offset off : Z) :
  size (indexes_ rd) <= off + 15 ->
  Get_loop fuel rd k result status bloomoffset offset off
  = (status, result, rd).
Proof.
  intros Hend. destruct fuel as [|fuel]; [reflexivity|].
  cbn [Get_loop].
  destruct (Z.ltb_spec (off + 15) (size (indexes_ rd))); [lia|reflexivity].
Qed.

(** [Get] on such a reader loads, walks an index of one entry and returns OK;
    nothing is latched afterwards. *)
Lemma Get_wrapped (rd : Reader.t MemFile.t) (k result : bytes) :
  unlatched rd ->
  exists rd',
    Get rd k result = (OK, result, rd') /\ unlatched rd' /\
    reads_ rd' = reads_ rd ++ wrapped_load.
Proof.
  intros Hrd. unfold Get.
  destruct (MaybeLoadCache_wrapped rd Hrd) as (rd1 & -> & Hrd1 & Hreads & Hsize).
  cbn [ok negb].
  rewrite Get_loop_past_end by lia.
  exists rd1. auto.
Qed.

Lemma Gets_wrapped (keys : list bytes) :
  forall rd : Reader.t MemFile.t,
    unlatched rd ->
    fst (Gets rd keys) = map (fun _ => (OK, [])) keys /\
    unlatched (snd (Gets rd keys)) /\
    reads_ (snd (Gets rd keys))
    = reads_ rd ++ concat (map (fun _ => wrapped_load) keys).
Proof.
  induction keys as [|k keys IH]; intros rd Hrd.
  - cbn. rewrite app_nil_r. auto.
  - cbn [Gets map concat].
    destruct (Get_wrapped rd k [] Hrd) as (rd1 & -> & Hrd1 & Hreads).
    destruct (IH rd1 Hrd1) as (Hres & Hun & Hr).
    destruct (Gets rd1 keys) as [rs rd2]. cbn [fst snd] in *.
    rewrite Hres, Hr, Hreads, <- app_assoc. auto.
Qed.

(** C10, at a footer whose handles wrap. The file is the forty bytes of
    [wrapped_footer]: a filter handle of [2^64 - 16] bytes and an index
    handle of 16 bytes. [totalbytes] wraps to 0, the read of no bytes
    succeeds, [remove_prefix] leaves [indexes_] with 16 bytes, and
    [LoadIndexesAndFilters] returns OK with [cache_contents_] empty: the
    test of [MaybeLoadCache] ("Do not repeat previous efforts") finds nothing
    latched. Every [Get] returns OK, and every [Get], not only the first,
    reads the footer and the index region. *)
Theorem wrapped_handles_reload_cache (options : DirOptions)
    (keys : list bytes) :
  let rd := BufferedBlockReader options wrapped_source 40 in
  fst (Gets rd keys) = map (fun _ => (OK, [])) keys /\
  cache_status_ (snd (Gets rd keys)) = OK /\
  cache_contents_ (snd (Gets rd keys)) = [] /\
  reads_ (snd (Gets rd keys))
  = concat (map (fun _ => [(FooterRead, Env.CallRead 0 40 OK);
                           (IndexRead, Env.CallRead 0 0 OK)]) keys) /\
  length (List.filter is_footer_read (reads_ (snd (Gets rd keys))))
  = length keys.
Proof.
  intros rd.
  assert (Hrd : unlatched rd) by (repeat split).
  destruct (Gets_wrapped keys rd Hrd) as (Hres & (_ & _ & Hst & Hcc) & Hreads).
  change (reads_ rd) with (@nil (origin * Env.Call)) in Hreads.
  rewrite app_nil_l in Hreads.
  split_and!; auto.
  rewrite Hreads. clear. induction keys as [|k keys IH]; [reflexivity|].
  cbn [map concat]. rewrite List.filter_app, length_app, IH. reflexivity.
Qed.

End Reloads.

(** ** Slices within their buffer *)

Section PeekFacts.
Context {HP : Heap}.

Lemma peek_from (buf : bytes) (n : nat) :
  forall p : nat,
    (p + n <= length buf)%nat -> size buf <= 2 ^ 64 ->
    map (fun i => byte_at buf (wrap64 (Z.of_nat p + Z.of_nat i))) (seq 0 n)
    = firstn n (skipn p buf).
Proof.
  induction n as [|n IH]; intros p Hp Hsz; [now rewrite take_0|].
  cbn [seq map]. rewrite <- seq_shift, map_map.
  destruct (lookup_lt_is_Some_2 buf p ltac:(lia)) as [x Hx].
  rewrite (drop_S _ _ _ Hx). cbn [firstn]. f_equal.
  - unfold byte_at, wrap64. rewrite Z.add_0_r, Z.mod_small, Nat2Z.id, Hx.
    + reflexivity.
    + unfold size in Hsz. lia.
  - rewrite <- (IH (S p)) by (lia || exact Hsz). apply map_ext. intros i.
    do 2 f_equal. lia.
Qed.

(** A slice that stays within its buffer is a part of its bytes. *)
Lemma peek_inbounds (buf : bytes) (p n : Z) :
  0 <= p -> 0 <= n -> p + n <= size buf -> size buf <= 2 ^ 64 ->
  peek buf p n = firstn (Z.to_nat n) (skipn (Z.to_nat p) buf).
Proof.
  intros Hp Hn Hpn Hsz. unfold peek.
  rewrite <- (peek_from buf (Z.to_nat n) (Z.to_nat p))
    by (unfold size in *; lia).
  apply map_ext. intros i. rewrite Z2Nat.id by lia. reflexivity.
Qed.

Lemma remove_prefix_inbounds (buf : bytes) (n : Z) :
  0 <= n <= size buf -> size buf < 2 ^ 64 ->
  remove_prefix buf n = skipn (Z.to_nat n) buf.
Proof.
  intros Hn Hsz. unfold remove_prefix.
  assert (Hw : wrap64 (size buf - n) = size buf - n).
  { unfold wrap64. apply Z.mod_small. lia. }
  rewrite Hw, peek_inbounds by lia.
  apply take_ge. rewrite length_drop. unfold size in *. lia.
Qed.

Lemma remove_suffix_inbounds (buf : bytes) (n : Z) :
  0 <= n <= size buf -> size buf < 2 ^ 64 ->
  remove_suffix buf n = firstn (length buf - Z.to_nat n) buf.
Proof.
  intros Hn Hsz. unfold remove_suffix.
  assert (Hw : wrap64 (size buf - n) = size buf - n).
  { unfold wrap64. apply Z.mod_small. lia. }
  rewrite Hw, peek_inbounds by lia.
  change (Z.to_nat 0) with 0%nat. rewrite drop_0. f_equal.
  unfold size. lia.
Qed.

End PeekFacts.

(** ** From the writer to the reader *)

Section RoundTrip.
Context {F : Type} `{Env.WritableFile F} {R : Type} `{Env.RandomAccessFile R}
        {BF : BlockFormat} {FF : FilterFormat} {HP : Heap}.
Variables (contents : F -> bytes) (healthy : F -> Prop).
Variable serves : R -> bytes -> Prop.
Variable fits : entry -> Prop.
Hypothesis HS : StorageOk contents healthy.
Hypothesis HR : SourceOk serves.
Hypothesis HB : BlockFormatOk BF fits.
Variable options : DirOptions.
Hypothesis Hpool : compaction_pool options = false.
Hypothesis Henv : allow_env_threads options = false.
Import Writer.

Lemma wrap64_add_l (a b : Z) : wrap64 (wrap64 a + b) = wrap64 (a + b).
Proof. unfold wrap64. now rewrite Zplus_mod_idemp_l. Qed.

Lemma filter_of_stripe (bb : BlockBuf) :
  filter_of options bb = stripe_of options (bb_entries bb).
Proof. reflexivity. Qed.

(** A compaction of a non-empty buffer whose turn has come, on healthy
    storage: it returns OK, the block is at the end of the file and the
    index and the filter stream have grown by one entry. *)
Lemma Compact_reliable (w : Writer.t F) (immbuf : nat) (bb : BlockBuf) :
  healthy (dst_ w) ->
  bbs_ w !! immbuf = Some bb ->
  bb_entries bb <> [] ->
  exists w',
    Compact w (wrap32 (num_compac_completed_ (base w) + 1)) immbuf
    = Some (OK, w') /\
    healthy (dst_ w') /\
    contents (dst_ w') = contents (dst_ w) ++ BlockBuf_Finish (bb_entries bb) /\
    offset_ w' = wrap64 (offset_ w + size (BlockBuf_Finish (bb_entries bb))) /\
    indexes_ w'
    = indexes_ w ++ encode_pair (size (bloomfilter_ w), offset_ w) /\
    bloomfilter_ w' = bloomfilter_ w ++ filter_of (options_ w) bb /\
    bbs_ w' = bbs_ w /\ base w' = base w /\ options_ w' = options_ w /\
    buf_threshold_ w' = buf_threshold_ w.
Proof.
  intros Hh Hbb Hne.
  destruct (storage_append _ _ HS (dst_ w) (BlockBuf_Finish (bb_entries bb)) Hh)
    as (f1 & Happ & Hh1 & Hc1).
  destruct (storage_flush _ _ HS f1 Hh1) as (f2 & Hfl & Hh2 & Hc2).
  assert (Hblock : BlockBuf_Finish (bb_entries bb) <> [])
    by (apply (block_nonempty _ _ HB); exact Hne).
  assert (Hemp : BlockBuf_empty bb = false).
  { destruct (BlockBuf_empty bb) eqn:E; [|reflexivity].
    apply BlockBuf_empty_iff in E. contradiction. }
  unfold Compact. rewrite Hbb, Hemp, Z.eqb_refl. cbn [andb negb].
  assert (Hfilter :
            (if negb (bf_bits_per_key (options_ w) =? 0)
             then BloomBuilder_build (bf_bits_per_key (options_ w))
                    (BlockBuf_NumEntries bb)
                    (map fst (Block_entries (BlockBuf_Finish (bb_entries bb))))
             else []) = filter_of (options_ w) bb).
  { unfold filter_of, block_of. now destruct (bf_bits_per_key (options_ w) =? 0). }
  rewrite Hfilter. clear Hfilter.
  generalize dependent (filter_of (options_ w) bb). intros filter.
  destruct (BlockBuf_Finish (bb_entries bb)) as [|b0 block] eqn:Eblock;
    [contradiction|].
  destruct w as [opts dst calls bt br off bbs n bloom idx bh ih b].
  unfold dst_Append, dst_Flush. cbn in *.
  destruct filter as [|c0 filter]; cbn; rewrite Happ; cbn; rewrite Hfl;
    eexists; (split; [reflexivity|]); cbn; rewrite ?app_nil_r;
    split_and!; auto; try congruence;
    unfold PutFixed64, encode_pair; now rewrite <- app_assoc.
Qed.

Lemma data_of_snoc (blocks : list (list entry)) (es : list entry) :
  data_of (blocks ++ [es]) = data_of blocks ++ BlockBuf_Finish es.
Proof.
  unfold data_of. rewrite map_app, concat_app. cbn. now rewrite app_nil_r.
Qed.

Lemma filters_of_snoc (blocks : list (list entry)) (es : list entry) :
  filters_of options (blocks ++ [es])
  = filters_of options blocks ++ stripe_of options es.
Proof.
  unfold filters_of. rewrite map_app, concat_app. cbn. now rewrite app_nil_r.
Qed.

Lemma pair_at_snoc (blocks : list (list entry)) (es : list entry) (i : nat) :
  (i <= length blocks)%nat ->
  pair_at options (blocks ++ [es]) i = pair_at options blocks i.
Proof.
  intros Hi. unfold pair_at. now rewrite take_app_le by exact Hi.
Qed.

Lemma pairs_upto_snoc (blocks : list (list entry)) (es : list entry) (n : nat) :
  (n <= S (length blocks))%nat ->
  pairs_upto options (blocks ++ [es]) n = pairs_upto options blocks n.
Proof.
  intros Hn. unfold pairs_upto. apply map_ext_in. intros i Hi.
  apply in_seq in Hi. apply pair_at_snoc. lia.
Qed.

Lemma pairs_upto_S (blocks : list (list entry)) (n : nat) :
  pairs_upto options blocks (S n)
  = pairs_upto options blocks n ++ [pair_at options blocks n].
Proof. unfold pairs_upto. now rewrite seq_S, map_app. Qed.

Lemma pair_at_end (blocks : list (list entry)) :
  pair_at options blocks (length blocks)
  = (size (filters_of options blocks), wrap64 (size (data_of blocks))).
Proof. unfold pair_at. now rewrite firstn_all. Qed.

(** The state of a writer between two calls, when compactions run in the
    caller on healthy storage: [blocks] are the buffers compacted so far and
    [pending] is what the active buffer holds. *)
Record writer_inv (w : Writer.t F) (blocks : list (list entry))
    (pending : list entry) : Prop := {
  inv_options : options_ w = options;
  inv_healthy : healthy (dst_ w);
  inv_contents : contents (dst_ w) = data_of blocks;
  inv_offset : offset_ w = wrap64 (size (data_of blocks));
  inv_bloom : bloomfilter_ w = filters_of options blocks;
  inv_indexes :
    indexes_ w = encode_pairs (pairs_upto options blocks (length blocks));
  inv_status : bg_status_ (base w) = OK;
  inv_finished : finished_ (base w) = false;
  inv_bg : num_bg_compactions_ (base w) = 0;
  inv_tickets :
    num_compac_scheduled_ (base w) = num_compac_completed_ (base w);
  inv_membuf :
    exists bb, bbs_ w !! membuf_ (base w) = Some bb /\ bb_entries bb = pending;
  inv_free : bufs_ (base w) <> [];
  inv_free_empty :
    forall i, In i (bufs_ (base w)) ->
      exists bb, bbs_ w !! i = Some bb /\ bb_entries bb = [];
  inv_distinct : List.NoDup (membuf_ (base w) :: bufs_ (base w));
  inv_pending : Forall fits pending;
  inv_blocks : Forall (fun es => es <> [] /\ Forall fits es) blocks
}.

Lemma RotateBuffer_inv (w : Writer.t F) blocks pending :
  writer_inv w blocks pending -> pending <> [] ->
  exists w', RotateBuffer w = Some (OK, w') /\
             writer_inv w' (blocks ++ [pending]) [].
Proof.
  intros [Hopt Hh Hc Hoff Hbl Hidx Hst Hfin Hbg Htk (bb & Hbb & Hpend)
            Hfree Hempty Hnd Hfits Hblocks] Hne.
  unfold RotateBuffer.
  destruct (bufs_ (base w)) as [|free rest] eqn:Hbufs; [contradiction|].
  unfold ScheduleCompaction. cbn [options_ set_base].
  rewrite Hopt, Hpool, Henv.
  unfold DoCompaction.
  set (w1 := set_base w _).
  assert (Hne' : bb_entries bb <> []) by (rewrite Hpend; exact Hne).
  destruct (Compact_reliable w1 (membuf_ (base w)) bb Hh Hbb Hne')
    as (w2 & HC & Hh2 & Hc2 & Hoff2 & Hidx2 & Hbl2 & Hbbs2 & Hbase2 & Hopt2 & _).
  cbn in HC. rewrite Htk. rewrite HC. clear HC.
  cbn in Hc2, Hoff2, Hidx2, Hbl2, Hbbs2, Hbase2, Hopt2.
  rewrite Hbbs2, Hbb.
  eexists. split; [reflexivity|].
  apply NoDup_cons_iff in Hnd. destruct Hnd as [Hm Hnd].
  apply NoDup_cons_iff in Hnd. destruct Hnd as [Hfr Hnd].
  assert (Hfm : free <> membuf_ (base w)).
  { intros E. apply Hm. rewrite <- E. now left. }
  assert (Hlen : (membuf_ (base w) < length (bbs_ w))%nat)
    by (eapply lookup_lt_Some; exact Hbb).
  split; cbn; rewrite ?Hbase2; cbn.
  - congruence.
  - exact Hh2.
  - rewrite Hc2, Hc, data_of_snoc, Hpend. reflexivity.
  - rewrite Hoff2, Hoff, data_of_snoc, Hpend, wrap64_add_l.
    f_equal. unfold size. rewrite length_app. lia.
  - rewrite Hbl2, Hbl, filters_of_snoc, Hopt, filter_of_stripe, Hpend.
    reflexivity.
  - rewrite Hidx2, Hidx, Hbl, Hoff.
    rewrite length_app. cbn [length]. rewrite Nat.add_1_r.
    rewrite pairs_upto_S, encode_pairs_snoc.
    rewrite pairs_upto_snoc by lia.
    rewrite pair_at_snoc by lia. rewrite pair_at_end. reflexivity.
  - now rewrite Hst.
  - exact Hfin.
  - lia.
  - now rewrite Htk.
  - destruct (Hempty free) as (bf & Hbf & Hbfe); [now left|].
    exists bf. split; [|exact Hbfe].
    rewrite list_lookup_insert_ne by congruence. exact Hbf.
  - destruct rest; discriminate.
  - intros i Hi. apply in_app_iff in Hi. destruct Hi as [Hi|[<-|[]]].
    + destruct (Hempty i) as (bi & Hbi & Hbie); [now right|].
      exists bi. split; [|exact Hbie].
      rewrite list_lookup_insert_ne; [exact Hbi|].
      intros E. apply Hm. rewrite E. now right.
    + exists (BlockBuf_Reset bb). split; [|reflexivity].
      apply list_lookup_insert_eq. exact Hlen.
  - apply NoDup_cons_iff. split.
    + intros Hi. apply in_app_iff in Hi. destruct Hi as [Hi|[E|[]]];
        [contradiction|congruence].
    + apply List.NoDup_app.
      * exact Hnd.
      * constructor; [intros []|constructor].
      * intros x Hx [<-|[]]. apply Hm. now right.
  - constructor.
  - apply Forall_app. split; [exact Hblocks|].
    constructor; [|constructor]. split; [exact Hne|exact Hfits].
Qed.

Lemma lookup_repeat {A : Type} (x : A) (n : nat) :
  forall i : nat, (i < n)%nat -> repeat x n !! i = Some x.
Proof.
  induction n as [|n IH]; intros [|i] Hi; try lia; [reflexivity|].
  cbn. apply IH. lia.
Qed.

Lemma writer_inv_initial (dst : F) (buf_size n : Z) :
  healthy dst -> contents dst = [] ->
  writer_inv (BufferedBlockWriter options dst buf_size n) [] [].
Proof.
  intros Hh Hc. unfold BufferedBlockWriter.
  assert (Hm : exists m', Z.to_nat (if (n <? 2)%Z then 2%Z else n) = S (S m')).
  { exists (Z.to_nat (if (n <? 2)%Z then 2%Z else n) - 2)%nat.
    destruct (Z.ltb_spec n 2); lia. }
  destruct Hm as [m' Hm]. rewrite Hm, new_buffers_fresh.
  split; cbn; auto.
  - eexists. split; reflexivity.
  - intros i Hi. change (In i (seq 1 (S m'))) in Hi. apply in_seq in Hi.
    exists (BlockBuf_Reserve (mkBlockBuf true 0 []) (wrap64 (8 + buf_size))).
    split; [|reflexivity].
    change (?a :: ?b :: repeat ?x m') with (repeat x (S (S m'))).
    apply lookup_repeat. lia.
  - change (List.NoDup (seq 0 (S (S m')))). apply seq_NoDup.
Qed.

Lemma writer_inv_set_dst (w : Writer.t F) blocks pending f c :
  writer_inv w blocks pending ->
  healthy f -> contents f = contents (dst_ w) ->
  writer_inv (set_dst w f c) blocks pending.
Proof.
  intros [Hopt Hh Hc Hoff Hbl Hidx Hst Hfin Hbg Htk Hmem
            Hfree Hempty Hnd Hfits Hblocks] Hf Hcf.
  split; cbn; auto. congruence.
Qed.

Lemma membuf_entries_inv (w : Writer.t F) blocks pending :
  writer_inv w blocks pending -> membuf_entries w = pending.
Proof.
  intros Hinv. destruct (inv_membuf _ _ _ Hinv) as (bb & Hbb & Hp).
  unfold membuf_entries. now rewrite Hbb.
Qed.

(** The outcome of a call that succeeds and keeps the invariant: the
    entries of the blocks and of the active buffer, in order, are those
    before the call followed by [new]. *)
Definition steps_to (r : option (Status * Writer.t F))
    (blocks : list (list entry)) (pending new : list entry) : Prop :=
  exists w' blocks' pending',
    r = Some (OK, w') /\ writer_inv w' blocks' pending' /\
    concat blocks' ++ pending' = (concat blocks ++ pending) ++ new.

Lemma steps_to_rotate (w : Writer.t F) blocks pending :
  writer_inv w blocks pending -> pending <> [] ->
  steps_to (RotateBuffer w) blocks pending [].
Proof.
  intros Hinv Hne.
  destruct (RotateBuffer_inv w blocks pending Hinv Hne) as (w' & HR' & Hinv').
  exists w', (blocks ++ [pending]), []. split_and!; auto.
  rewrite concat_app. cbn. now rewrite !app_nil_r.
Qed.

Lemma steps_to_same (w : Writer.t F) blocks pending :
  writer_inv w blocks pending -> steps_to (Some (OK, w)) blocks pending [].
Proof.
  intros Hinv. exists w, blocks, pending. split_and!; auto.
  now rewrite app_nil_r.
Qed.

Lemma Add_inv (w : Writer.t F) blocks pending (k v : bytes) :
  writer_inv w blocks pending -> fits (k, v) ->
  steps_to (Add w k v) blocks pending [(k, v)].
Proof.
  intros Hinv Hkv.
  destruct (inv_membuf _ _ _ Hinv) as (bb & Hbb & Hp).
  unfold Add. rewrite (inv_status _ _ _ Hinv), Hbb. cbn [ok negb].
  set (w1 := set_bbs w _).
  assert (Hlen : (membuf_ (base w) < length (bbs_ w))%nat)
    by (eapply lookup_lt_Some; exact Hbb).
  assert (Hinv1 : writer_inv w1 blocks (pending ++ [(k, v)])).
  { destruct Hinv as [Hopt Hh Hc Hoff Hbl Hidx Hst Hfin Hbg Htk _
                        Hfree Hempty Hnd Hfits Hblocks].
    split; cbn; auto.
    - exists (BlockBuf_Add bb k v). split.
      + apply list_lookup_insert_eq. exact Hlen.
      + cbn. now rewrite Hp.
    - intros i Hi. destruct (Hempty i Hi) as (bi & Hbi & Hbie).
      exists bi. split; [|exact Hbie].
      rewrite list_lookup_insert_ne; [exact Hbi|].
      intros E. apply NoDup_cons_iff in Hnd. destruct Hnd as [Hm _].
      apply Hm. now rewrite E.
    - apply Forall_app. split; [exact Hfits|]. constructor; [exact Hkv|constructor]. }
  assert (Hsteps : forall r, steps_to r blocks (pending ++ [(k, v)]) [] ->
                             steps_to r blocks pending [(k, v)]).
  { intros r (w' & blocks' & pending' & -> & Hinv' & Hall).
    exists w', blocks', pending'. split_and!; auto.
    rewrite Hall. now rewrite !app_nil_r, !app_assoc. }
  destruct (buf_threshold_ w1 <=? BlockBuf_size (membuf_entries w1)).
  - apply Hsteps, steps_to_rotate; [exact Hinv1|].
    destruct pending; discriminate.
  - apply Hsteps, steps_to_same. exact Hinv1.
Qed.

Lemma Flush_inv (w : Writer.t F) blocks pending :
  writer_inv w blocks pending -> steps_to (Flush w) blocks pending [].
Proof.
  intros Hinv. unfold Flush.
  rewrite (inv_status _ _ _ Hinv), (membuf_entries_inv _ _ _ Hinv).
  cbn [ok negb]. destruct pending as [|e pending].
  - now apply steps_to_same.
  - apply steps_to_rotate; [exact Hinv|discriminate].
Qed.

Lemma Wait_inv (w : Writer.t F) blocks pending :
  writer_inv w blocks pending -> Wait w = Some (OK, w).
Proof.
  intros Hinv. unfold Wait.
  now rewrite (inv_bg _ _ _ Hinv), (inv_status _ _ _ Hinv).
Qed.

Lemma Sync_inv (w : Writer.t F) blocks pending :
  writer_inv w blocks pending -> steps_to (Sync w) blocks pending [].
Proof.
  intros Hinv. unfold Sync.
  destruct (Flush_inv w blocks pending Hinv)
    as (w1 & blocks1 & pending1 & -> & Hinv1 & Hall).
  cbn [ok negb]. rewrite (Wait_inv _ _ _ Hinv1). cbn [ok negb].
  unfold SyncBackend, dst_Sync. cbn [negb].
  destruct (storage_sync _ _ HS (dst_ w1) (inv_healthy _ _ _ Hinv1))
    as (f & -> & Hf & Hcf).
  eexists _, blocks1, pending1. split_and!; [reflexivity| |exact Hall].
  now apply writer_inv_set_dst.
Qed.

Lemma step_inv (w : Writer.t F) blocks pending (o : Op) :
  writer_inv w blocks pending -> Forall fits (added [o]) ->
  steps_to (step w o) blocks pending (added [o]).
Proof.
  intros Hinv Hfit. destruct o as [k v| | | |]; cbn [step added].
  - apply Add_inv; [exact Hinv|]. now apply Forall_cons in Hfit.
  - now apply Flush_inv.
  - now apply Flush_inv.
  - now apply Sync_inv.
  - rewrite (Wait_inv _ _ _ Hinv). now apply steps_to_same.
Qed.

Lemma added_cons (o : Op) (ops : list Op) :
  added (o :: ops) = added [o] ++ added ops.
Proof. destruct o; reflexivity. Qed.

(** Every call of a sequence returns OK, whatever the sequence. *)
Lemma run_inv (ops : list Op) :
  forall (w : Writer.t F) blocks pending,
    writer_inv w blocks pending -> Forall fits (added ops) ->
    exists sts w' blocks' pending',
      run w ops = Some (sts, w') /\ Forall (fun st => st = OK) sts /\
      length sts = length ops /\
      writer_inv w' blocks' pending' /\
      concat blocks' ++ pending' = (concat blocks ++ pending) ++ added ops.
Proof.
  induction ops as [|o ops IH]; intros w blocks pending Hinv Hfit.
  - exists [], w, blocks, pending. cbn. rewrite app_nil_r. split_and!; auto.
  - rewrite added_cons in Hfit. apply Forall_app in Hfit.
    destruct Hfit as [Hfo Hfops].
    destruct (step_inv w blocks pending o Hinv Hfo)
      as (w1 & blocks1 & pending1 & Hstep & Hinv1 & Hall1).
    destruct (IH w1 blocks1 pending1 Hinv1 Hfops)
      as (sts & w2 & blocks2 & pending2 & Hrun & Hsts & Hlen & Hinv2 & Hall2).
    exists (OK :: sts), w2, blocks2, pending2.
    cbn [run]. rewrite Hstep, Hrun. split_and!; auto.
    + cbn. now rewrite Hlen.
    + rewrite Hall2, Hall1, (added_cons o ops). now rewrite !app_assoc.
Qed.

(** [DumpIndexesAndFilters] on healthy storage: the last index entry, then
    the filter stream and the index stripe at the end of the file, and the
    two handles that say where they are. *)
Lemma DumpIndexesAndFilters_reliable (w : Writer.t F) :
  healthy (dst_ w) ->
  let idx := indexes_ w ++ encode_pair (size (bloomfilter_ w), offset_ w) in
  exists w',
    DumpIndexesAndFilters w = (OK, w') /\
    healthy (dst_ w') /\
    contents (dst_ w') = contents (dst_ w) ++ bloomfilter_ w ++ idx /\
    bloomfilter_handle_ w'
    = mkBlockHandle (offset_ w) (size (bloomfilter_ w)) /\
    index_handle_ w'
    = mkBlockHandle (wrap64 (offset_ w + size (bloomfilter_ w))) (size idx) /\
    base w' = base w.
Proof.
  intros Hh idx'. subst idx'.
  destruct w as [opts dst calls bt br off bbs n bloom idx bh ih b].
  cbn in Hh. unfold DumpIndexesAndFilters, dst_Append. cbn.
  replace (PutFixed64 (PutFixed64 idx (size bloom)) off)
    with (idx ++ encode_pair (size bloom, off))
    by (unfold PutFixed64, encode_pair; now rewrite <- app_assoc).
  generalize (idx ++ encode_pair (size bloom, off)). intros idx'.
  assert (Hstep : forall (f : F) (d : bytes), healthy f ->
            exists f', healthy f' /\ contents f' = contents f ++ d /\
                       (d <> [] -> Env.Append f d = (OK, f')) /\
                       (d = [] -> f' = f)).
  { intros f [|c d] Hf.
    - exists f. rewrite app_nil_r. split_and!; auto. congruence.
    - destruct (storage_append _ _ HS f (c :: d) Hf) as (f' & Happ & Hf' & Hc').
      exists f'. split_and!; auto. discriminate. }
  destruct (Hstep dst bloom Hh) as (f1 & Hh1 & Hc1 & Happ1 & Hsame1).
  destruct (Hstep f1 idx' Hh1) as (f2 & Hh2 & Hc2 & Happ2 & Hsame2).
  assert (Hc : contents f2 = contents dst ++ bloom ++ idx')
    by (rewrite Hc2, Hc1; now rewrite <- app_assoc).
  destruct bloom as [|c0 bloom]; cbn.
  - rewrite (Hsame1 eq_refl) in *.
    destruct idx' as [|c1 idx']; cbn.
    + rewrite (Hsame2 eq_refl) in *. eexists. split; [reflexivity|].
      cbn. split_and!; auto.
    + rewrite Happ2 by discriminate. cbn. eexists. split; [reflexivity|].
      cbn. split_and!; auto.
  - rewrite Happ1 by discriminate. cbn.
    destruct idx' as [|c1 idx']; cbn.
    + rewrite (Hsame2 eq_refl) in *. eexists. split; [reflexivity|].
      cbn. split_and!; auto.
    + rewrite Happ2 by discriminate. cbn. eexists. split; [reflexivity|].
      cbn. split_and!; auto.
Qed.

(** [Close] on healthy storage: the footer follows, and the file is synced
    and closed. *)
Lemma Close_reliable (w : Writer.t F) :
  healthy (dst_ w) ->
  let idx := indexes_ w ++ encode_pair (size (bloomfilter_ w), offset_ w) in
  let bloom_handle := mkBlockHandle (offset_ w) (size (bloomfilter_ w)) in
  let index_handle :=
    mkBlockHandle (wrap64 (offset_ w + size (bloomfilter_ w))) (size idx) in
  exists w',
    Close w = (OK, w') /\
    contents (dst_ w')
    = contents (dst_ w) ++ bloomfilter_ w ++ idx
      ++ resize (Handle.EncodeTo index_handle (Handle.EncodeTo bloom_handle []))
           (2 * Handle.kMaxEncodedLength) /\
    base w' = base w.
Proof.
  intros Hh idx bloom_handle index_handle.
  destruct (DumpIndexesAndFilters_reliable w Hh)
    as (w1 & HD & Hh1 & Hc1 & Hbh & Hih & Hb1).
  unfold Close. rewrite HD. cbn [ok].
  unfold footer_of. rewrite Hbh, Hih. fold idx bloom_handle index_handle.
  set (footer := resize _ _).
  unfold dst_Append.
  destruct (storage_append _ _ HS (dst_ w1) footer Hh1) as (f2 & -> & Hh2 & Hc2).
  cbn [ok]. unfold dst_Sync. cbn [dst_ set_dst].
  destruct (storage_sync _ _ HS f2 Hh2) as (f3 & -> & Hh3 & Hc3).
  unfold dst_Close. cbn [dst_ set_dst].
  destruct (storage_close _ _ HS f3 Hh3) as (f4 & -> & Hh4 & Hc4).
  eexists. split; [reflexivity|]. cbn. split; [|exact Hb1].
  rewrite Hc4, Hc3, Hc2, Hc1. fold idx. now rewrite <- !app_assoc.
Qed.

(** [Finish] on healthy storage returns OK and leaves a file with the layout
    of section 6: the blocks, the filter stream, the index stripe and the
    footer; the blocks hold what was added, in order. *)
Lemma Finish_layout (w : Writer.t F) blocks pending :
  writer_inv w blocks pending ->
  exists wf blocks',
    Finish w = Some (OK, wf) /\
    contents (dst_ wf) = file_of options blocks' /\
    concat blocks' = concat blocks ++ pending /\
    Forall (fun es => es <> [] /\ Forall fits es) blocks'.
Proof.
  intros Hinv. unfold Finish.
  rewrite (inv_finished _ _ _ Hinv), (membuf_entries_inv _ _ _ Hinv).
  assert (Hrot : exists w1 blocks',
            match pending with [] => Some (OK, w) | _ => RotateBuffer w end
            = Some (OK, w1) /\ writer_inv w1 blocks' [] /\
            concat blocks' = concat blocks ++ pending).
  { destruct pending as [|e pending].
    - exists w, blocks. now rewrite app_nil_r.
    - destruct (RotateBuffer_inv w blocks (e :: pending) Hinv) as (w1 & -> & Hinv1);
        [discriminate|].
      exists w1, (blocks ++ [e :: pending]). split_and!; auto.
      rewrite concat_app. cbn. now rewrite app_nil_r. }
  destruct Hrot as (w1 & blocks' & Hrot & Hinv1 & Hall).
  replace (match pending with [] => Some (OK, w) | _ :: _ => RotateBuffer w end)
    with (Some (OK, w1)).
  rewrite (Wait_inv _ _ _ Hinv1). unfold SyncBackend. cbn [negb].
  destruct (Close_reliable w1 (inv_healthy _ _ _ Hinv1)) as (wf & -> & Hc & Hb).
  exists (set_finished wf), blocks'. cbn [ok]. split_and!; auto.
  - cbn. rewrite Hc.
    rewrite (inv_contents _ _ _ Hinv1), (inv_bloom _ _ _ Hinv1),
      (inv_indexes _ _ _ Hinv1), (inv_offset _ _ _ Hinv1).
    unfold file_of, footer_for, index_of.
    rewrite pairs_upto_S, encode_pairs_snoc, pair_at_end. reflexivity.
  - exact (inv_blocks _ _ _ Hinv1).
Qed.

(** *** Reading a file with the layout of section 6 *)

Import Reader.

Lemma slice_app (a b c : bytes) :
  firstn (length b) (skipn (length a) (a ++ b ++ c)) = b.
Proof. rewrite drop_app_length. apply take_app_length. Qed.

Lemma to_nat_size (s : bytes) : Z.to_nat (size s) = length s.
Proof. unfold size. apply Nat2Z.id. Qed.

Lemma resize_length (s : bytes) (n : nat) : length (resize s n) = n.
Proof.
  unfold resize. rewrite length_app, length_firstn, repeat_length. lia.
Qed.

Lemma resize_short (s : bytes) (n : nat) :
  (length s <= n)%nat -> resize s n = s ++ repeat Byte.x00 (n - length s).
Proof. intros Hn. unfold resize. now rewrite firstn_all2 by exact Hn. Qed.

Lemma EncodeTo_app (h : BlockHandle) (dst : bytes) :
  Handle.EncodeTo h dst = dst ++ Handle.EncodeTo h [].
Proof.
  unfold Handle.EncodeTo, PutVarint64. cbn [app]. now rewrite <- app_assoc.
Qed.

(** A reader that has loaded the filter stream [bloom] and the index stripe
    [idx] of [file]. *)
Definition ready (rd : Reader.t R) (file bloom idx : bytes) : Prop :=
  serves (src_ rd) file /\ cache_status_ rd = OK /\
  cache_contents_ rd = bloom ++ idx /\
  Reader.indexes_ rd = idx /\ Reader.bloomfilter_ rd = bloom.

Lemma MaybeLoadCache_file (opts : DirOptions) (src : R) (data bloom idx : bytes) :
  let bloom_handle := mkBlockHandle (size data) (size bloom) in
  let index_handle := mkBlockHandle (size data + size bloom) (size idx) in
  let footer :=
    resize (Handle.EncodeTo index_handle (Handle.EncodeTo bloom_handle []))
           (2 * Handle.kMaxEncodedLength) in
  let file := data ++ bloom ++ idx ++ footer in
  size file < 2 ^ 64 -> 16 <= size idx -> serves src file ->
  exists rd,
    MaybeLoadCache (BufferedBlockReader opts src (size file)) = (OK, rd) /\
    ready rd file bloom idx.
Proof.
  intros bloom_handle index_handle footer file Hsz Hidx Hsrc.
  assert (Hflen : length footer = 40%nat) by apply resize_length.
  assert (Hdec : footer
                 = Handle.EncodeTo bloom_handle []
                   ++ Handle.EncodeTo index_handle []
                   ++ repeat Byte.x00
                        (40 - length (Handle.EncodeTo index_handle
                                        (Handle.EncodeTo bloom_handle [])))).
  { unfold footer. rewrite resize_short.
    - rewrite (EncodeTo_app index_handle). now rewrite <- app_assoc.
    - pose proof (Handle_EncodeTo_length index_handle
                    (Handle.EncodeTo bloom_handle [])) as H1.
      pose proof (Handle_EncodeTo_length bloom_handle []) as H2.
      unfold Handle.kMaxEncodedLength in *. cbn [length] in H2. lia. }
  clearbody footer.
  assert (Hfile : size file = size data + size bloom + size idx + 40).
  { unfold file. rewrite !size_app. unfold size at 4. rewrite Hflen. lia. }
  pose proof (size_nonneg data) as Hd0. pose proof (size_nonneg bloom) as Hb0.
  unfold MaybeLoadCache, BufferedBlockReader.
  cbn [cache_status_ cache_contents_ ok negb is_empty orb src_sz_].
  change (Z.of_nat (2 * Handle.kMaxEncodedLength)) with 40.
  destruct (Z.ltb_spec (size file) 40) as [Hlt|_]; [lia|].
  unfold src_Read. cbn [src_].
  destruct (source_read _ HR src file (size file - 40) 40 Hsrc) as (r1 & -> & Hs1);
    [lia|lia|].
  assert (Hfooter : firstn (Z.to_nat 40)
                      (skipn (Z.to_nat (size file - 40)) file) = footer).
  { replace (Z.to_nat (size file - 40)) with (length (data ++ bloom ++ idx))
      by (rewrite Hfile, !length_app; unfold size; lia).
    unfold file. rewrite !app_assoc, drop_app_length.
    change (Z.to_nat 40) with 40%nat. rewrite <- Hflen. apply firstn_all. }
  rewrite Hfooter. cbn [cache_status_ set_cache_status set_src ok].
  replace (size footer) with 40 by (unfold size; lia).
  cbn [Z.eqb Pos.eqb negb]. cbn [cache_status_ set_cache_status ok].
  unfold LoadIndexesAndFilters.
  pose proof (size_nonneg idx) as Hi0.
  rewrite Hdec.
  rewrite Handle_Decode_Encode by (cbn; lia).
  cbn [cache_status_ set_cache_status ok].
  rewrite Handle_Decode_Encode by (cbn; lia).
  cbn [cache_status_ set_cache_status ok negb offset size_ bloom_handle index_handle].
  replace (wrap64 (size bloom + size idx)) with (size bloom + size idx)
    by (unfold wrap64; rewrite Z.mod_small; lia).
  unfold src_Read. cbn [src_ set_src set_cache_status].
  destruct (source_read _ HR r1 file (size data) (size bloom + size idx) Hs1)
    as (r2 & -> & Hs2); [lia|lia|].
  assert (Hcache : firstn (Z.to_nat (size bloom + size idx))
                     (skipn (Z.to_nat (size data)) file) = bloom ++ idx).
  { rewrite to_nat_size.
    replace (Z.to_nat (size bloom + size idx)) with (length (bloom ++ idx))
      by (rewrite length_app; unfold size; lia).
    unfold file. rewrite (app_assoc bloom idx footer). apply slice_app. }
  rewrite Hcache. cbn.
  rewrite size_app, Z.eqb_refl. cbn.
  rewrite remove_prefix_inbounds, remove_suffix_inbounds
    by (rewrite size_app; lia).
  rewrite !to_nat_size, drop_app_length.
  replace (length (bloom ++ idx) - length idx)%nat with (length bloom)
    by (rewrite length_app; lia).
  rewrite take_app_length.
  destruct (Z.ltb_spec (size idx) 16) as [Hlt|_]; [lia|].
  eexists. split; [reflexivity|].
  unfold ready. cbn. split_and!; auto.
Qed.

Lemma lookup_map_seq {A : Type} (f : nat -> A) (n : nat) :
  forall a i : nat, (i < n)%nat -> map f (seq a n) !! i = Some (f (a + i)%nat).
Proof.
  induction n as [|n IH]; intros a [|i] Hi; try lia; cbn.
  - now rewrite Nat.add_0_r.
  - rewrite IH by lia. f_equal. f_equal. lia.
Qed.

Lemma encode_pairs_app (a b : list (Z * Z)) :
  encode_pairs (a ++ b) = encode_pairs a ++ encode_pairs b.
Proof. unfold encode_pairs. now rewrite map_app, concat_app. Qed.

(** Entry [i] of an index stripe, as the reader decodes it. *)
Lemma encode_pairs_at (ps : list (Z * Z)) (i : nat) (p : Z * Z) :
  ps !! i = Some p ->
  DecodeFixed64 (skipn (Z.to_nat (16 * Z.of_nat i)) (encode_pairs ps))
  = wrap64 (fst p) /\
  DecodeFixed64 (skipn (Z.to_nat (16 * Z.of_nat i + 8)) (encode_pairs ps))
  = wrap64 (snd p).
Proof.
  intros Hp. pose proof (lookup_lt_Some _ _ _ Hp) as Hi.
  rewrite <- (take_drop_middle ps i p Hp).
  rewrite encode_pairs_app.
  change (encode_pairs (p :: drop (S i) ps))
    with (encode_pair p ++ encode_pairs (drop (S i) ps)).
  assert (Hlen : (16 * i)%nat = length (encode_pairs (take i ps))).
  { rewrite encode_pairs_length, length_take. lia. }
  unfold encode_pair. rewrite <- !app_assoc. split.
  - replace (Z.to_nat (16 * Z.of_nat i)) with (16 * i)%nat by lia.
    rewrite drop_app_length' by exact Hlen. apply DecodeFixed64_Encode.
  - replace (Z.to_nat (16 * Z.of_nat i + 8)) with (16 * i + 8)%nat by lia.
    rewrite <- drop_drop, drop_app_length' by exact Hlen.
    unfold EncodeFixed64 at 1. rewrite le_split_skipn.
    apply DecodeFixed64_Encode.
Qed.

Lemma data_of_app (a b : list (list entry)) :
  data_of (a ++ b) = data_of a ++ data_of b.
Proof. unfold data_of. now rewrite map_app, concat_app. Qed.

Lemma filters_of_app (a b : list (list entry)) :
  filters_of options (a ++ b) = filters_of options a ++ filters_of options b.
Proof. unfold filters_of. now rewrite map_app, concat_app. Qed.

Lemma index_of_size (blocks : list (list entry)) :
  size (index_of options blocks) = 16 * (Z.of_nat (length blocks) + 1).
Proof.
  unfold size, index_of, pairs_upto.
  rewrite encode_pairs_length, length_map, length_seq. lia.
Qed.

Lemma file_of_size (blocks : list (list entry)) :
  size (file_of options blocks)
  = size (data_of blocks) + size (filters_of options blocks)
    + size (index_of options blocks) + 40.
Proof.
  unfold file_of. rewrite !size_app.
  unfold size at 4, footer_for. rewrite resize_length. cbn. lia.
Qed.

(** Where the walk of [Get] stands after the blocks [pre]: what it has
    decoded from entry [length pre] of the index. *)
Lemma index_of_decode (pre post : list (list entry)) :
  size (file_of options (pre ++ post)) < 2 ^ 64 ->
  DecodeFixed64
    (skipn (Z.to_nat (16 * Z.of_nat (length pre)))
       (index_of options (pre ++ post)))
  = size (filters_of options pre) /\
  DecodeFixed64
    (skipn (Z.to_nat (16 * Z.of_nat (length pre) + 8))
       (index_of options (pre ++ post)))
  = size (data_of pre).
Proof.
  intros Hsz. rewrite file_of_size, data_of_app, filters_of_app in Hsz.
  rewrite !size_app in Hsz.
  pose proof (size_nonneg (data_of pre)). pose proof (size_nonneg (data_of post)).
  pose proof (size_nonneg (filters_of options pre)).
  pose proof (size_nonneg (filters_of options post)).
  pose proof (size_nonneg (index_of options (pre ++ post))).
  destruct (encode_pairs_at
              (pairs_upto options (pre ++ post) (S (length (pre ++ post))))
              (length pre) (pair_at options (pre ++ post) (length pre)))
    as [Hf Hd].
  { unfold pairs_upto. rewrite lookup_map_seq by (rewrite length_app; lia).
    reflexivity. }
  unfold index_of. rewrite Hf, Hd. unfold pair_at. cbn [fst snd].
  rewrite take_app_length. unfold wrap64.
  rewrite Z.mod_mod by lia. rewrite !Z.mod_small by lia. auto.
Qed.

Lemma data_of_one (es : list entry) : data_of [es] = BlockBuf_Finish es.
Proof. unfold data_of. cbn. apply app_nil_r. Qed.

Lemma filters_of_one (es : list entry) :
  filters_of options [es] = stripe_of options es.
Proof. unfold filters_of. cbn. apply app_nil_r. Qed.

(** [GetFrom] on the block that holds [es]: a linear search of [es]. *)
Lemma GetFrom_block (rd : Reader.t R) (file bloom idx a c : bytes)
    (es : list entry) (k result : bytes) :
  ready rd file bloom idx ->
  file = a ++ BlockBuf_Finish es ++ c ->
  es <> [] -> Forall fits es ->
  exists rd',
    GetFrom rd k result (size a) (size (BlockBuf_Finish es))
    = match Block_Seek k es with
      | Some v => (true, OK, v, rd')
      | None => (false, OK, result, rd')
      end /\
    ready rd' file bloom idx.
Proof.
  intros (Hsrc & Hst & Hcc & Hi & Hb) Hfile Hne Hfits.
  unfold GetFrom, src_Read.
  destruct (source_read _ HR (src_ rd) file (size a) (size (BlockBuf_Finish es)) Hsrc)
    as (r1 & -> & Hs1); [apply size_nonneg|apply size_nonneg|].
  rewrite !to_nat_size, Hfile, slice_app.
  cbn [ok]. rewrite Z.eqb_refl. cbn [negb ok].
  rewrite (block_roundtrip _ _ HB es Hne Hfits).
  eexists. split.
  - destruct (Block_Seek k es); reflexivity.
  - unfold ready. cbn. rewrite <- Hfile. auto.
Qed.

(** The loop of [Get] from the block after [pre] on: it finds what a walk
    over the remaining blocks finds, and returns OK. *)
Lemma Get_loop_search (blocks : list (list entry)) (k : bytes) :
  size (file_of options blocks) < 2 ^ 64 ->
  Forall (fun es => es <> [] /\ Forall fits es) blocks ->
  forall (post pre : list (list entry)) (rd : Reader.t R) (fuel : nat)
         (result : bytes),
    blocks = pre ++ post ->
    ready rd (file_of options blocks) (filters_of options blocks)
      (index_of options blocks) ->
    (length post <= fuel)%nat ->
    exists rd',
      Get_loop fuel rd k result OK
        (size (filters_of options pre)) (size (data_of pre))
        (16 * (Z.of_nat (length pre) + 1))
      = (OK, search options k result post, rd') /\
      ready rd' (file_of options blocks) (filters_of options blocks)
        (index_of options blocks).
Proof.
  intros Hsz Hok post.
  induction post as [|es post IH]; intros pre rd fuel result Hblocks Hrd Hfuel.
  - exists rd. split; [|exact Hrd]. destruct fuel as [|fuel]; [reflexivity|].
    cbn [Get_loop search].
    destruct Hrd as (_ & _ & _ & -> & _).
    rewrite index_of_size, Hblocks, app_nil_r.
    destruct (Z.ltb_spec (16 * (Z.of_nat (length pre) + 1) + 15)
                (16 * (Z.of_nat (length pre) + 1))); [lia|reflexivity].
  - destruct fuel as [|fuel]; [simpl in Hfuel; lia|].
    cbn [Get_loop search].
    pose proof Hrd as (_ & _ & Hcc & Hi & _). rewrite Hi, Hcc.
    rewrite index_of_size.
    assert (Hlen : length blocks = (length pre + S (length post))%nat)
      by (rewrite Hblocks, length_app; reflexivity).
    destruct (Z.ltb_spec (16 * (Z.of_nat (length pre) + 1) + 15)
                (16 * (Z.of_nat (length blocks) + 1))) as [_|Hge]; [|lia].
    assert (Hblocks' : blocks = (pre ++ [es]) ++ post)
      by (rewrite Hblocks, <- app_assoc; reflexivity).
    assert (Hsz' : size (file_of options ((pre ++ [es]) ++ post)) < 2 ^ 64)
      by (rewrite <- Hblocks'; exact Hsz).
    destruct (index_of_decode (pre ++ [es]) post Hsz') as [Hnf Hnd].
    rewrite <- Hblocks' in Hnf, Hnd.
    rewrite length_app in Hnf, Hnd. cbn [length] in Hnf, Hnd.
    replace (16 * Z.of_nat (length pre + 1)) with (16 * (Z.of_nat (length pre) + 1))
      in Hnf, Hnd by lia.
    rewrite Hnf, Hnd. rewrite filters_of_snoc, data_of_snoc, !size_app.
    pose proof (size_nonneg (stripe_of options es)) as Hs0.
    pose proof (size_nonneg (BlockBuf_Finish es)) as Hb0.
    assert (Hbound : size (stripe_of options es) < 2 ^ 64 /\
                     size (BlockBuf_Finish es) < 2 ^ 64).
    { rewrite file_of_size, Hblocks, data_of_app, filters_of_app in Hsz.
      change (es :: post) with ([es] ++ post) in Hsz.
      rewrite data_of_app, filters_of_app, !size_app in Hsz.
      rewrite data_of_one, filters_of_one in Hsz.
      pose proof (size_nonneg (data_of pre)).
      pose proof (size_nonneg (data_of post)).
      pose proof (size_nonneg (filters_of options pre)).
      pose proof (size_nonneg (filters_of options post)).
      pose proof (size_nonneg (index_of options (pre ++ [es] ++ post))).
      lia. }
    replace (wrap64 (size (filters_of options pre) + size (stripe_of options es)
                     - size (filters_of options pre)))
      with (size (stripe_of options es))
      by (unfold wrap64; rewrite Z.mod_small; lia).
    replace (wrap64 (size (data_of pre) + size (BlockBuf_Finish es)
                     - size (data_of pre)))
      with (size (BlockBuf_Finish es))
      by (unfold wrap64; rewrite Z.mod_small; lia).
    assert (Hbf : peek (filters_of options blocks ++ index_of options blocks)
                    (size (filters_of options pre))
                    (size (stripe_of options es))
                  = stripe_of options es).
    { pose proof (size_nonneg (filters_of options pre)).
      pose proof (size_nonneg (index_of options blocks)).
      pose proof (size_nonneg (data_of blocks)).
      assert (Hfs : filters_of options blocks
                    = filters_of options pre ++ stripe_of options es
                      ++ filters_of options post).
      { rewrite Hblocks. change (es :: post) with ([es] ++ post).
        now rewrite !filters_of_app, filters_of_one. }
      pose proof (size_nonneg (filters_of options post)).
      rewrite file_of_size in Hsz.
      rewrite peek_inbounds; [|lia|lia|rewrite Hfs, !size_app; lia
                              |rewrite size_app; lia].
      rewrite !to_nat_size, Hfs, <- !app_assoc. apply slice_app. }
    rewrite Hbf.
    assert (Hes : es <> [] /\ Forall fits es).
    { rewrite Hblocks in Hok. apply Forall_app in Hok. destruct Hok as [_ Hok].
      apply Forall_cons in Hok. tauto. }
    assert (Hnext : forall rd1 : Reader.t R,
              ready rd1 (file_of options blocks) (filters_of options blocks)
                (index_of options blocks) ->
              exists rd',
                Get_loop fuel rd1 k result OK
                  (size (filters_of options pre) + size (stripe_of options es))
                  (size (data_of pre) + size (BlockBuf_Finish es))
                  (16 * (Z.of_nat (length pre) + 1) + 16)
                = (OK, search options k result post, rd') /\
                ready rd' (file_of options blocks) (filters_of options blocks)
                  (index_of options blocks)).
    { intros rd1 Hrd1.
      destruct (IH (pre ++ [es]) rd1 fuel result Hblocks' Hrd1) as (rd' & HG & Hrd');
        [simpl in Hfuel; lia|].
      exists rd'. split; [|exact Hrd'].
      rewrite filters_of_snoc, data_of_snoc, !size_app in HG.
      rewrite length_app in HG. cbn [length] in HG.
      replace (16 * (Z.of_nat (length pre + 1) + 1))
        with (16 * (Z.of_nat (length pre) + 1) + 16) in HG by lia.
      exact HG. }
    destruct (BloomKeyMayMatch k (stripe_of options es)).
    + destruct (GetFrom_block rd (file_of options blocks)
                  (filters_of options blocks) (index_of options blocks)
                  (data_of pre)
                  (data_of post ++ filters_of options blocks
                   ++ index_of options blocks ++ footer_for options blocks)
                  es k result Hrd) as (rd1 & HG & Hrd1);
        [|tauto|tauto|].
      { unfold file_of. rewrite Hblocks at 1.
        change (es :: post) with ([es] ++ post).
        rewrite !data_of_app, data_of_one. now rewrite <- !app_assoc. }
      rewrite HG.
      destruct (Block_Seek k es) as [v|].
      * exists rd1. split; [reflexivity|exact Hrd1].
      * cbn [ok negb]. apply Hnext. exact Hrd1.
    + apply Hnext. exact Hrd.
Qed.

Lemma file_of_plain (blocks : list (list entry)) :
  size (file_of options blocks) < 2 ^ 64 ->
  file_of options blocks
  = data_of blocks ++ filters_of options blocks ++ index_of options blocks
    ++ resize
         (Handle.EncodeTo
            (mkBlockHandle
               (size (data_of blocks) + size (filters_of options blocks))
               (size (index_of options blocks)))
            (Handle.EncodeTo
               (mkBlockHandle (size (data_of blocks))
                  (size (filters_of options blocks))) []))
         (2 * Handle.kMaxEncodedLength).
Proof.
  intros Hsz. rewrite file_of_size in Hsz.
  pose proof (size_nonneg (data_of blocks)).
  pose proof (size_nonneg (filters_of options blocks)).
  pose proof (size_nonneg (index_of options blocks)).
  unfold file_of, footer_for. cbv zeta. unfold wrap64.
  rewrite (Z.mod_small (size (data_of blocks))) by lia.
  rewrite Z.mod_small by lia. reflexivity.
Qed.

(** [Get] on a fresh reader over a finished file: it loads the cache and
    walks the blocks. *)
Lemma Get_search (opts : DirOptions) (src : R) (blocks : list (list entry))
    (k result : bytes) :
  size (file_of options blocks) < 2 ^ 64 ->
  Forall (fun es => es <> [] /\ Forall fits es) blocks ->
  serves src (file_of options blocks) ->
  exists rd',
    Get (BufferedBlockReader opts src (size (file_of options blocks))) k result
    = (OK, search options k result blocks, rd').
Proof.
  intros Hsz Hok Hsrc.
  pose proof (index_of_size blocks) as Hisz.
  destruct (MaybeLoadCache_file opts src (data_of blocks)
              (filters_of options blocks) (index_of options blocks))
    as (rd & HL & Hrd).
  - rewrite <- file_of_plain by exact Hsz. exact Hsz.
  - lia.
  - rewrite <- file_of_plain by exact Hsz. exact Hsrc.
  - rewrite <- file_of_plain in HL, Hrd by exact Hsz.
    unfold Get. rewrite HL. cbn [ok negb].
    pose proof Hrd as (_ & _ & _ & Hi & _).
    destruct (index_of_decode [] blocks Hsz) as [Hf Hd].
    cbn [length app] in Hf, Hd.
    change (Z.to_nat (16 * Z.of_nat 0)) with 0%nat in Hf.
    change (Z.to_nat (16 * Z.of_nat 0 + 8)) with 8%nat in Hd.
    rewrite drop_0 in Hf. rewrite Hi, Hf, Hd.
    destruct (Get_loop_search blocks k Hsz Hok blocks [] rd
                (length (index_of options blocks)) result eq_refl Hrd)
      as (rd' & HG & _).
    + unfold size in Hisz. lia.
    + exists rd'. exact HG.
Qed.

(** *** What the walk finds *)

Lemma bytes_eqb_eq (a b : bytes) : bytes_eqb a b = true <-> a = b.
Proof.
  unfold bytes_eqb.
  destruct (List.list_eq_dec Byte.byte_eq_dec a b); split; congruence.
Qed.

Lemma Block_Seek_absent (k : bytes) (es : list entry) :
  ~ In k (map fst es) -> Block_Seek k es = None.
Proof.
  induction es as [|[k' v'] es IH]; intros Hk; [reflexivity|].
  cbn in Hk |- *. destruct (bytes_eqb k' k) eqn:E.
  - apply bytes_eqb_eq in E. tauto.
  - apply IH. tauto.
Qed.

Lemma Block_Seek_found (k v : bytes) (es : list entry) :
  List.NoDup (map fst es) -> In (k, v) es -> Block_Seek k es = Some v.
Proof.
  induction es as [|[k' v'] es IH]; intros Hnd Hin; [destruct Hin|].
  cbn in Hnd. apply NoDup_cons_iff in Hnd. destruct Hnd as [Hk' Hnd].
  cbn. destruct Hin as [E|Hin].
  - injection E as -> ->.
    replace (bytes_eqb k k) with true; [reflexivity|].
    symmetry. now apply bytes_eqb_eq.
  - destruct (bytes_eqb k' k) eqn:E.
    + apply bytes_eqb_eq in E. subst k'. exfalso. apply Hk'.
      apply in_map_iff. exists (k, v). auto.
    + apply IH; assumption.
Qed.

Lemma NoDup_app_disjoint {A : Type} (a b : list A) (x : A) :
  List.NoDup (a ++ b) -> In x a -> In x b -> False.
Proof.
  induction a as [|y a IH]; intros Hnd Ha Hb; [destruct Ha|].
  cbn in Hnd. apply NoDup_cons_iff in Hnd. destruct Hnd as [Hy Hnd].
  destruct Ha as [->|Ha]; [|now apply IH].
  apply Hy, in_app_iff. now right.
Qed.

(** A key that no block holds is not found: the result is left as it was. *)
Lemma search_absent (k result : bytes) (blocks : list (list entry)) :
  ~ In k (map fst (concat blocks)) -> search options k result blocks = result.
Proof.
  induction blocks as [|es blocks IH]; intros Hk; [reflexivity|].
  cbn [concat] in Hk. rewrite map_app, in_app_iff in Hk.
  cbn [search]. rewrite Block_Seek_absent by tauto.
  rewrite IH by tauto. now destruct (BloomKeyMayMatch k (stripe_of options es)).
Qed.

(** The filter stripe of a block lets the keys of the block through. *)
Lemma stripe_matches (HF : FilterFormatOk FF) (k : bytes) (es : list entry) :
  (bf_bits_per_key options = 0 -> forall k', BloomKeyMayMatch k' [] = true) ->
  es <> [] -> Forall fits es -> In k (map fst es) ->
  BloomKeyMayMatch k (stripe_of options es) = true.
Proof.
  intros Hoff Hne Hfits Hk. unfold stripe_of.
  destruct (Z.eqb_spec (bf_bits_per_key options) 0) as [E|E].
  - now apply Hoff.
  - apply (filter_no_false_negative _ HF); [exact E|].
    now rewrite (block_roundtrip _ _ HB es Hne Hfits).
Qed.

(** A key that was added once is found, with its value. *)
Lemma search_found (HF : FilterFormatOk FF) (k v result : bytes)
    (blocks : list (list entry)) :
  (bf_bits_per_key options = 0 -> forall k', BloomKeyMayMatch k' [] = true) ->
  Forall (fun es => es <> [] /\ Forall fits es) blocks ->
  List.NoDup (map fst (concat blocks)) -> In (k, v) (concat blocks) ->
  search options k result blocks = v.
Proof.
  intros Hoff. induction blocks as [|es blocks IH]; intros Hok Hnd Hin;
    [destruct Hin|].
  apply Forall_cons in Hok. destruct Hok as [[Hne Hfits] Hok].
  cbn [concat] in Hnd, Hin. rewrite map_app in Hnd.
  apply in_app_iff in Hin. cbn [search].
  destruct Hin as [Hin|Hin].
  - rewrite (stripe_matches HF k es Hoff Hne Hfits)
      by (apply in_map_iff; exists (k, v); auto).
    rewrite (Block_Seek_found k v es); [reflexivity| |exact Hin].
    eapply NoDup_app_remove_r. exact Hnd.
  - assert (Hk : ~ In k (map fst es)).
    { intros Hk. apply (NoDup_app_disjoint _ _ k Hnd Hk).
      apply in_map_iff. exists (k, v). auto. }
    rewrite Block_Seek_absent by exact Hk.
    rewrite IH; [|exact Hok|eapply NoDup_app_remove_l; exact Hnd|exact Hin].
    now destruct (BloomKeyMayMatch k (stripe_of options es)).
Qed.

(** C1. With compactions run by the caller, on a fresh destination that
    never fails, with a block format that parses back what it has finished
    and a filter without false negatives: every call of a sequence of [Add],
    [Flush], [EpochFlush], [Sync] and [Wait] returns OK, and so does [Finish];
    and when the keys added are distinct (the unique-key mode) and the
    finished file is shorter than 2^64 bytes, [Get(k)] on a new reader over
    the file returns OK and the value added with [k], for every pair added.
    When filters are switched off ([bf_bits_per_key = 0]) the filter layer
    must let every key through an empty stripe. *)
Theorem Get_returns_added_value (HF : FilterFormatOk FF)
    (dst : F) (buf_size n : Z) (ops : list Op) :
  (bf_bits_per_key options = 0 -> forall k, BloomKeyMayMatch k [] = true) ->
  healthy dst -> contents dst = [] ->
  Forall fits (added ops) -> List.NoDup (map fst (added ops)) ->
  exists sts w wf,
    run (BufferedBlockWriter options dst buf_size n) ops = Some (sts, w) /\
    Forall (fun st => st = OK) sts /\
    Finish w = Some (OK, wf) /\
    (size (contents (dst_ wf)) < 2 ^ 64 ->
     forall (opts : DirOptions) (src : R),
       serves src (contents (dst_ wf)) ->
       forall k v result : bytes,
         In (k, v) (added ops) ->
         exists rd',
           Get (BufferedBlockReader opts src (size (contents (dst_ wf))))
               k result
           = (OK, v, rd')).
Proof.
  intros Hoff Hh Hc Hfits Hnd.
  destruct (run_inv ops _ [] [] (writer_inv_initial dst buf_size n Hh Hc) Hfits)
    as (sts & w & blocks & pending & Hrun & Hsts & _ & Hinv & Hall).
  destruct (Finish_layout w blocks pending Hinv)
    as (wf & blocks' & HFin & Hfile & Hall' & Hok).
  exists sts, w, wf. split_and!; auto.
  rewrite Hfile. intros Hsz opts src Hsrc k v result Hin.
  assert (Hadded : concat blocks' = added ops)
    by (rewrite Hall', Hall; reflexivity).
  destruct (Get_search opts src blocks' k result Hsz Hok Hsrc) as (rd' & HG).
  exists rd'. rewrite HG. f_equal. f_equal.
  apply (search_found HF k v result blocks' Hoff Hok); rewrite Hadded; assumption.
Qed.

(** C3, as the code has it. On a file with the layout of section 6 that is
    shorter than 2^64 bytes (the blocks, each non-empty and within what the
    block format holds; the filter stream; the index stripe; the footer),
    [Get(k)] for a key that no block holds returns OK, not NotFound, and
    leaves the result string as the caller passed it. A file with no block
    at all is included. *)
Theorem Get_of_absent_key_returns_OK (opts : DirOptions) (src : R)
    (blocks : list (list entry)) (k result : bytes) :
  size (file_of options blocks) < 2 ^ 64 ->
  Forall (fun es => es <> [] /\ Forall fits es) blocks ->
  serves src (file_of options blocks) ->
  ~ In k (map fst (concat blocks)) ->
  exists rd',
    Get (BufferedBlockReader opts src (size (file_of options blocks))) k result
    = (OK, result, rd') /\
    IsNotFound (fst (fst (Get (BufferedBlockReader opts src
                                 (size (file_of options blocks))) k result)))
    = false.
Proof.
  intros Hsz Hok Hsrc Hk.
  destruct (Get_search opts src blocks k result Hsz Hok Hsrc) as (rd' & HG).
  rewrite (search_absent k result blocks Hk) in HG.
  exists rd'. rewrite HG. split; reflexivity.
Qed.

(** *** Lookups, one after the other *)

Lemma Block_Seek_app (k : bytes) (a b : list entry) :
  Block_Seek k (a ++ b)
  = match Block_Seek k a with
    | Some v => Some v
    | None => Block_Seek k b
    end.
Proof.
  induction a as [|[k' v'] a IH]; [reflexivity|].
  cbn. destruct (bytes_eqb k' k); [reflexivity|exact IH].
Qed.

Lemma Block_Seek_In (k v : bytes) (es : list entry) :
  Block_Seek k es = Some v -> In k (map fst es).
Proof.
  induction es as [|[k' v'] es IH]; [discriminate|].
  cbn. destruct (bytes_eqb k' k) eqn:E.
  - intros _. left. now apply bytes_eqb_eq.
  - intros Hs. right. now apply IH.
Qed.

(** With filters that have no false negative, the walk over the blocks finds
    what a linear search over all the entries finds. *)
Lemma search_is_Block_Seek (HF : FilterFormatOk FF) (k result : bytes)
    (blocks : list (list entry)) :
  (bf_bits_per_key options = 0 -> forall k', BloomKeyMayMatch k' [] = true) ->
  Forall (fun es => es <> [] /\ Forall fits es) blocks ->
  search options k result blocks
  = match Block_Seek k (concat blocks) with
    | Some v => v
    | None => result
    end.
Proof.
  intros Hoff. induction blocks as [|es blocks IH]; intros Hok; [reflexivity|].
  apply Forall_cons in Hok. destruct Hok as [[Hne Hfits] Hok].
  cbn [concat search]. rewrite Block_Seek_app.
  destruct (Block_Seek k es) as [v|] eqn:Hs.
  - rewrite (stripe_matches HF k es Hoff Hne Hfits); [reflexivity|].
    exact (Block_Seek_In k v es Hs).
  - rewrite (IH Hok).
    now destruct (BloomKeyMayMatch k (stripe_of options es)).
Qed.

Lemma MaybeLoadCache_ready (rd : Reader.t R) (file bloom idx : bytes) :
  ready rd file bloom idx -> idx <> [] -> MaybeLoadCache rd = (OK, rd).
Proof.
  intros (_ & Hst & Hcc & _) Hidx. unfold MaybeLoadCache.
  rewrite Hst, Hcc. cbn [ok negb orb].
  destruct (bloom ++ idx) as [|c l] eqn:E; [|reflexivity].
  apply app_eq_nil in E. tauto.
Qed.

Lemma index_of_nonempty (blocks : list (list entry)) :
  index_of options blocks <> [].
Proof.
  intros E. pose proof (index_of_size blocks) as Hsz. rewrite E in Hsz.
  unfold size in Hsz. cbn [length] in Hsz. lia.
Qed.

(** [Get] on a reader whose cache is loaded. *)
Lemma Get_ready (rd : Reader.t R) (blocks : list (list entry))
    (k result : bytes) :
  size (file_of options blocks) < 2 ^ 64 ->
  Forall (fun es => es <> [] /\ Forall fits es) blocks ->
  ready rd (file_of options blocks) (filters_of options blocks)
    (index_of options blocks) ->
  exists rd',
    Get rd k result = (OK, search options k result blocks, rd') /\
    ready rd' (file_of options blocks) (filters_of options blocks)
      (index_of options blocks).
Proof.
  intros Hsz Hok Hrd. unfold Get.
  rewrite (MaybeLoadCache_ready rd _ _ _ Hrd (index_of_nonempty blocks)).
  cbn [ok negb].
  pose proof Hrd as (_ & _ & _ & Hi & _).
  pose proof (index_of_size blocks) as Hisz.
  destruct (index_of_decode [] blocks Hsz) as [Hf Hd].
  cbn [length app] in Hf, Hd.
  change (Z.to_nat (16 * Z.of_nat 0)) with 0%nat in Hf.
  change (Z.to_nat (16 * Z.of_nat 0 + 8)) with 8%nat in Hd.
  rewrite drop_0 in Hf. rewrite Hi, Hf, Hd.
  apply (Get_loop_search blocks k Hsz Hok blocks [] rd
           (length (index_of options blocks)) result eq_refl Hrd).
  unfold size in Hisz. lia.
Qed.

(** [Get] on a new reader: it loads the cache first. *)
Lemma Get_fresh (opts : DirOptions) (src : R) (blocks : list (list entry))
    (k result : bytes) :
  size (file_of options blocks) < 2 ^ 64 ->
  Forall (fun es => es <> [] /\ Forall fits es) blocks ->
  serves src (file_of options blocks) ->
  exists rd',
    Get (BufferedBlockReader opts src (size (file_of options blocks))) k result
    = (OK, search options k result blocks, rd') /\
    ready rd' (file_of options blocks) (filters_of options blocks)
      (index_of options blocks).
Proof.
  intros Hsz Hok Hsrc.
  pose proof (index_of_size blocks) as Hisz.
  destruct (MaybeLoadCache_file opts src (data_of blocks)
              (filters_of options blocks) (index_of options blocks))
    as (rd & HL & Hrd).
  - rewrite <- file_of_plain by exact Hsz. exact Hsz.
  - lia.
  - rewrite <- file_of_plain by exact Hsz. exact Hsrc.
  - rewrite <- file_of_plain in HL, Hrd by exact Hsz.
    destruct (Get_ready rd blocks k result Hsz Hok Hrd) as (rd' & HG & Hrd').
    exists rd'. split; [|exact Hrd'].
    unfold Get in HG |- *. rewrite HL.
    rewrite (MaybeLoadCache_ready rd _ _ _ Hrd (index_of_nonempty blocks)) in HG.
    exact HG.
Qed.

Lemma Gets_ready (blocks : list (list entry)) (keys : list bytes) :
  size (file_of options blocks) < 2 ^ 64 ->
  Forall (fun es => es <> [] /\ Forall fits es) blocks ->
  forall rd : Reader.t R,
    ready rd (file_of options blocks) (filters_of options blocks)
      (index_of options blocks) ->
    fst (Gets rd keys)
    = map (fun k => (OK, search options k [] blocks)) keys.
Proof.
  intros Hsz Hok. induction keys as [|k keys IH]; intros rd Hrd; [reflexivity|].
  cbn [Gets map].
  destruct (Get_ready rd blocks k [] Hsz Hok Hrd) as (rd' & -> & Hrd').
  specialize (IH rd' Hrd'). destruct (Gets rd' keys) as [rs rd2].
  cbn [fst] in IH |- *. now rewrite IH.
Qed.

(** A reader answers like a linear search. On a file with the layout that
    [Compact] and [Close] give it, shorter than 2^64 bytes, and with a filter
    layer that has no false negative: every [Get] of a sequence of [Get]s on
    one new reader returns OK, and its result is the value of the first
    entry with that key, in the order of the file; the result stays empty
    when no entry has the key. So when a key was written more than once, the
    value written first is the one returned. *)
Theorem Gets_is_linear_search (HF : FilterFormatOk FF) (opts : DirOptions)
    (src : R) (blocks : list (list entry)) (keys : list bytes) :
  (bf_bits_per_key options = 0 -> forall k, BloomKeyMayMatch k [] = true) ->
  size (file_of options blocks) < 2 ^ 64 ->
  Forall (fun es => es <> [] /\ Forall fits es) blocks ->
  serves src (file_of options blocks) ->
  fst (Gets (BufferedBlockReader opts src (size (file_of options blocks))) keys)
  = map (fun k => (OK, match Block_Seek k (concat blocks) with
                       | Some v => v
                       | None => []
                       end)) keys.
Proof.
  intros Hoff Hsz Hok Hsrc.
  assert (Hmap : map (fun k => (OK, search options k [] blocks)) keys
                 = map (fun k => (OK, match Block_Seek k (concat blocks) with
                                      | Some v => v
                                      | None => []
                                      end)) keys).
  { apply map_ext. intros k.
    now rewrite (search_is_Block_Seek HF k [] blocks Hoff Hok). }
  rewrite <- Hmap. destruct keys as [|k keys]; [reflexivity|].
  cbn [Gets map].
  destruct (Get_fresh opts src blocks k [] Hsz Hok Hsrc) as (rd' & -> & Hrd').
  pose proof (Gets_ready blocks keys Hsz Hok rd' Hrd') as Hrest.
  destruct (Gets rd' keys) as [rs rd2]. cbn [fst] in Hrest |- *.
  now rewrite Hrest.
Qed.

(** *** Where [Close] puts the two streams *)

Lemma DumpIndexesAndFilters_bloomfilter (w : Writer.t F) :
  Writer.bloomfilter_ (snd (DumpIndexesAndFilters w)) = Writer.bloomfilter_ w.
Proof.
  destruct w as [opts dst calls bt br off bbs n bloom idx bh ih b].
  unfold DumpIndexesAndFilters, dst_Append. cbn.
  repeat (writer_step; cbn); reflexivity.
Qed.

Lemma Close_fields (w : Writer.t F) :
  let w1 := snd (DumpIndexesAndFilters w) in
  let w2 := snd (Close w) in
  Writer.bloomfilter_ w2 = Writer.bloomfilter_ w1 /\ Writer.indexes_ w2 = Writer.indexes_ w1 /\
  bloomfilter_handle_ w2 = bloomfilter_handle_ w1 /\
  index_handle_ w2 = index_handle_ w1 /\ offset_ w2 = offset_ w1.
Proof.
  unfold Close. destruct (DumpIndexesAndFilters w) as [st w1]. cbn [snd].
  unfold dst_Append, dst_Sync, dst_Close.
  generalize (footer_of w1). intros footer.
  destruct w1 as [opts dst calls bt br off bbs n bloom idx bh ih b]. cbn.
  repeat (writer_step; cbn); auto.
Qed.

(** The handles of the footer say where the streams are. On a destination
    that never fails, whose contents are as long as the writer's offset says,
    and while the file stays below 2^64 bytes: [Close] returns OK; the bytes
    of the file that the filter handle names are the filter stream, those
    that the index handle names are the index stripe, with its last entry;
    the index stripe starts where the filter stream ends, as the reader
    asserts; and forty bytes of footer follow the index stripe. *)
Theorem Close_handles_locate_streams (w : Writer.t F) :
  healthy (dst_ w) ->
  offset_ w = size (contents (dst_ w)) ->
  size (contents (dst_ w)) + size (Writer.bloomfilter_ w) + size (Writer.indexes_ w) + 16
  < 2 ^ 64 ->
  exists w',
    Close w = (OK, w') /\
    let file := contents (dst_ w') in
    let bh := bloomfilter_handle_ w' in
    let ih := index_handle_ w' in
    firstn (Z.to_nat (size_ bh)) (skipn (Z.to_nat (offset bh)) file)
    = Writer.bloomfilter_ w /\
    firstn (Z.to_nat (size_ ih)) (skipn (Z.to_nat (offset ih)) file)
    = Writer.indexes_ w ++ encode_pair (size (Writer.bloomfilter_ w), offset_ w) /\
    Writer.indexes_ w' = Writer.indexes_ w ++ encode_pair (size (Writer.bloomfilter_ w), offset_ w) /\
    Writer.bloomfilter_ w' = Writer.bloomfilter_ w /\
    offset ih = offset bh + size_ bh /\
    size file = offset ih + size_ ih + 40.
Proof.
  intros Hh Hoff Hsz.
  destruct (Close_reliable w Hh) as (w' & HC & Hc & _).
  destruct (DumpIndexesAndFilters_reliable w Hh)
    as (w1 & HD & _ & _ & Hbh & Hih & _).
  pose proof (Close_fields w) as HF. rewrite HC, HD in HF. cbn [snd] in HF.
  destruct HF as (Hbl & Hidx & Hbh' & Hih' & _).
  pose proof (DumpIndexesAndFilters_bloomfilter w) as Hbl1.
  pose proof (DumpIndexesAndFilters_indexes w) as Hidx1.
  rewrite HD in Hbl1, Hidx1. cbn [snd] in Hbl1, Hidx1.
  exists w'. split; [exact HC|]. cbv zeta.
  rewrite Hbh', Hih', Hbh, Hih, Hbl, Hidx, Hbl1, Hidx1. cbn [offset size_].
  set (idx := Writer.indexes_ w ++ encode_pair (size (Writer.bloomfilter_ w), offset_ w)) in *.
  assert (Hidxsz : size idx = size (Writer.indexes_ w) + 16).
  { unfold idx. rewrite size_app. unfold size at 2.
    rewrite encode_pair_length. lia. }
  pose proof (size_nonneg (contents (dst_ w))).
  pose proof (size_nonneg (Writer.bloomfilter_ w)).
  pose proof (size_nonneg (Writer.indexes_ w)).
  rewrite Hoff.
  replace (wrap64 (size (contents (dst_ w)) + size (Writer.bloomfilter_ w)))
    with (size (contents (dst_ w)) + size (Writer.bloomfilter_ w))
    by (unfold wrap64; rewrite Z.mod_small; lia).
  rewrite Hc. fold idx. set (footer := resize _ _).
  assert (Hflen : length footer = 40%nat) by apply resize_length.
  split_and!; auto.
  - rewrite !to_nat_size. apply slice_app.
  - replace (Z.to_nat (size (contents (dst_ w)) + size (Writer.bloomfilter_ w)))
      with (length (contents (dst_ w) ++ Writer.bloomfilter_ w))
      by (rewrite length_app; unfold size; lia).
    rewrite to_nat_size.
    rewrite (app_assoc (contents (dst_ w)) (Writer.bloomfilter_ w)).
    rewrite drop_app_length. apply take_app_length.
  - rewrite !size_app. unfold size at 4. rewrite Hflen. lia.
Qed.

End RoundTrip.


(** ** The sample file, end to end *)

Section SampleFile.
#[local] Existing Instance SampleHeap.zeros.

Lemma MemFile_storage_ok : StorageOk MemFile.data MemFile_healthy.
Proof.
  unfold MemFile_healthy.
  split; intros [d sc]; cbn; unfold MemFile.append, MemFile.next; cbn.
  - intros d' ->. eexists. split; [reflexivity|]. cbn. auto.
  - intros ->. eexists. split; [reflexivity|]. cbn. auto.
  - intros ->. eexists. split; [reflexivity|]. cbn. auto.
  - intros ->. eexists. split; [reflexivity|]. cbn. auto.
Qed.

Lemma MemFile_source_ok : SourceOk MemFile_serves.
Proof.
  split. intros [d sc] file off n [Hsc Hd] _ _. cbn in Hsc, Hd. subst sc d.
  eexists. split; [reflexivity|]. split; reflexivity.
Qed.

Lemma sample_keys_fit : Forall SampleBlock.entry_fits (added sample_ops).
Proof. repeat constructor; vm_compute; reflexivity. Qed.

Lemma sample_keys_distinct : List.NoDup (map fst (added sample_ops)).
Proof.
  repeat constructor; cbn; intros Hin;
    repeat (destruct Hin as [Hin|Hin]; [vm_compute in Hin; discriminate Hin|]);
    exact Hin.
Qed.

Lemma Get_returns_added_value_witness :
  exists sts w wf,
    Writer.run (Writer.BufferedBlockWriter sample_options MemFile.empty 4096 2)
      sample_ops = Some (sts, w) /\
    Forall (fun st => st = OK) sts /\
    Writer.Finish w = Some (OK, wf) /\
    (size (MemFile.data (Writer.dst_ wf)) < 2 ^ 64 ->
     forall (opts : DirOptions) (src : MemFile.t),
       MemFile_serves src (MemFile.data (Writer.dst_ wf)) ->
       forall k v result : bytes,
         In (k, v) (added sample_ops) ->
         exists rd',
           Reader.Get
             (Reader.BufferedBlockReader opts src
                (size (MemFile.data (Writer.dst_ wf)))) k result
           = (OK, v, rd')).
Proof.
  apply (Get_returns_added_value MemFile.data MemFile_healthy MemFile_serves
           SampleBlock.entry_fits MemFile_storage_ok MemFile_source_ok
           SampleBlock_ok sample_options eq_refl eq_refl Sample_bloom_ok
           MemFile.empty 4096 2 sample_ops).
  - intros E. discriminate E.
  - reflexivity.
  - reflexivity.
  - exact sample_keys_fit.
  - exact sample_keys_distinct.
Defined.

(** The sample run, computed: the five calls and [Finish] return OK, and the
    three keys come back with their values. *)
Example sample_roundtrip :
  match Writer.run (sample_writer MemFile.empty) sample_ops with
  | Some (sts, w) =>
      match Writer.Finish w with
      | Some (st, wf) =>
          let file := MemFile.data (Writer.dst_ wf) in
          let rd := Reader.BufferedBlockReader sample_options
                      (MemFile.mk file []) (size file) in
          (sts, st,
           map (fun r => snd r) (fst (Reader.Gets rd
                  [Sample.key 1; Sample.key 2; Sample.key 3])))
          = ([OK; OK; OK; OK; OK], OK,
             [Sample.key 100; Sample.key 200; Sample.key 300])
      | None => False
      end
  | None => False
  end.
Proof. vm_compute. reflexivity. Qed.

Lemma sample_blocks_ok :
  Forall (fun es => es <> [] /\ Forall SampleBlock.entry_fits es) sample_blocks.
Proof.
  repeat constructor; try discriminate; vm_compute; reflexivity.
Qed.

Lemma sample_file_size : size sample_file < 2 ^ 64.
Proof. vm_compute. reflexivity. Qed.

Lemma sample_key_absent :
  ~ In (Sample.key 7) (map fst (concat sample_blocks)).
Proof.
  cbn. intros Hin.
  repeat (destruct Hin as [Hin|Hin]; [vm_compute in Hin; discriminate Hin|]).
  exact Hin.
Qed.

Lemma Get_of_absent_key_returns_OK_witness :
  exists rd',
    Reader.Get
      (Reader.BufferedBlockReader sample_options sample_source
         (size (file_of sample_options sample_blocks)))
      (Sample.key 7) []
    = (OK, [], rd') /\
    IsNotFound
      (fst (fst (Reader.Get
                   (Reader.BufferedBlockReader sample_options sample_source
                      (size (file_of sample_options sample_blocks)))
                   (Sample.key 7) [])))
    = false.
Proof.
  apply (Get_of_absent_key_returns_OK MemFile_serves SampleBlock.entry_fits
           MemFile_source_ok SampleBlock_ok sample_options sample_options
           sample_source sample_blocks (Sample.key 7) []).
  - exact sample_file_size.
  - exact sample_blocks_ok.
  - split; reflexivity.
  - exact sample_key_absent.
Defined.

(** The file that [Finish] leaves when nothing was added holds no block;
    [Get] on it returns OK, which is not a NotFound status, and an untouched
    result. *)
Lemma absent_key_is_not_NotFound :
  exists wf,
    Writer.Finish (sample_writer MemFile.empty) = Some (OK, wf) /\
    MemFile.data (Writer.dst_ wf) = file_of sample_options [] /\
    let file := MemFile.data (Writer.dst_ wf) in
    let rd := Reader.BufferedBlockReader sample_options
                (MemFile.mk file []) (size file) in
    fst (Reader.Get rd (Sample.key 7) []) = (OK, []) /\
    IsNotFound (fst (fst (Reader.Get rd (Sample.key 7) []))) = false.
Proof.
  eexists. split; [vm_compute; reflexivity|].
  split; vm_compute; auto.
Qed.

Lemma latched_cache_is_not_reloaded_witness :
  let rd0 := Reader.BufferedBlockReader sample_options sample_source
               (size sample_file) in
  let keys := [Sample.key 1; Sample.key 7] in
  let st1 := fst (Reader.MaybeLoadCache rd0) in
  let rd1 := snd (Reader.MaybeLoadCache rd0) in
  let results := fst (Reader.Gets rd1 keys) in
  let rd2 := snd (Reader.Gets rd1 keys) in
  st1 = Reader.cache_status_ rd1 /\
  (exists first,
     Reader.reads_ rd1 = Reader.reads_ rd0 ++ first /\ load_reads first) /\
  Reader.cache_status_ rd2 = Reader.cache_status_ rd1 /\
  Reader.cache_contents_ rd2 = Reader.cache_contents_ rd1 /\
  (exists extra,
     Reader.reads_ rd2 = Reader.reads_ rd1 ++ extra /\
     forallb Reader.is_block_read extra = true) /\
  length results = length keys /\
  (ok st1 = false ->
   Forall (fun r => r = (st1, [])) results /\ rd2 = rd1).
Proof.
  apply (latched_cache_is_not_reloaded
           (Reader.BufferedBlockReader sample_options sample_source
              (size sample_file))
           [Sample.key 1; Sample.key 7]).
  right. vm_compute. discriminate.
Defined.

(** The same reader on a file of ten bytes, computed: the load fails, the
    failure is latched and the two lookups read nothing. *)
Example sample_latched_failure :
  let rd0 := Reader.BufferedBlockReader sample_options MemFile.empty 10 in
  let rd1 := snd (Reader.MaybeLoadCache rd0) in
  ok (fst (Reader.MaybeLoadCache rd0)) = false /\
  Reader.reads_ (snd (Reader.Gets rd1 [Sample.key 1; Sample.key 7])) = [].
Proof. vm_compute. split; reflexivity. Qed.

End SampleFile.

(** ** The order of the appends under concurrent compactions *)

Section PoolFacts.
Context {F : Type} `{Env.WritableFile F} {BF : BlockFormat} {FF : FilterFormat}.
Import Pool.

Definition completed (s : Pool.t F) : Z :=
  num_compac_completed_ (Writer.base (w s)).

(** Where a task may stand, given its place [i] in the queue and the last
    committed ticket [c]: committed tasks are those before [c]; past the
    barrier there is only the task whose turn it is. *)
Definition phase_ok (c : Z) (i : nat) (p : pc) : Prop :=
  match p with
  | Committed => Z.of_nat i < c
  | Writing _ _ | Flushing _ _ | Returning _ => Z.of_nat i = c
  | Queued | Building | AtBarrier _ _ => c <= Z.of_nat i
  end.

Definition has_appended (p : pc) : bool :=
  match p with
  | Flushing _ _ | Returning _ => true
  | _ => false
  end.

(** The highest ticket the log may hold. *)
Definition bound (s : Pool.t F) : Z :=
  match tasks s !! Z.to_nat (completed s) with
  | Some tk => if has_appended (at_ tk) then completed s + 1 else completed s
  | None => completed s
  end.

Record pool_inv (s : Pool.t F) : Prop := {
  pi_scheduled :
    num_compac_scheduled_ (Writer.base (w s)) = Z.of_nat (length (tasks s));
  pi_completed : 0 <= completed s <= Z.of_nat (length (tasks s));
  pi_tickets :
    forall i tk, tasks s !! i = Some tk -> compac_seq tk = Z.of_nat i + 1;
  pi_phase :
    forall i tk, tasks s !! i = Some tk -> phase_ok (completed s) i (at_ tk);
  pi_increasing : increasing (map fst (appended s));
  pi_log_bound :
    forall x, In x (map fst (appended s)) -> 1 <= x <= bound s;
  pi_sink :
    appends_of (Writer.dst_calls_ (w s)) = map snd (appended s)
}.

Lemma appends_of_app (a b : list Env.Call) :
  appends_of (a ++ b) = appends_of a ++ appends_of b.
Proof.
  induction a as [|c a IH]; [reflexivity|].
  destruct c; cbn; rewrite IH; reflexivity.
Qed.

Lemma increasing_snoc (l : list Z) (y : Z) :
  increasing l -> (forall x, In x l -> x < y) -> increasing (l ++ [y]).
Proof.
  induction l as [|a l IH]; intros Hl Hlt; [exact I|].
  destruct l as [|b l].
  - cbn. split; [apply Hlt; now left|exact I].
  - destruct Hl as [Hab Hl]. cbn [app increasing]. split; [exact Hab|].
    apply IH; [exact Hl|]. intros x Hx. apply Hlt. now right.
Qed.

Lemma wrap32_small (x : Z) : 0 <= x < 2 ^ 32 -> wrap32 x = x.
Proof. intros Hx. unfold wrap32. now apply Z.mod_small. Qed.

(** The test of the barrier, for a task in the queue: only the task right
    after the last committed one passes. *)
Lemma turn (s : Pool.t F) (i : nat) (tk : task) :
  pool_inv s -> Z.of_nat (length (tasks s)) < 2 ^ 32 ->
  tasks s !! i = Some tk ->
  (compac_seq tk =? wrap32 (completed s + 1)) = true ->
  Z.of_nat i = completed s.
Proof.
  intros Hinv Hn Hi Hturn. apply Z.eqb_eq in Hturn.
  pose proof (pi_completed s Hinv) as Hc.
  pose proof (pi_tickets s Hinv i tk Hi) as Htk.
  pose proof (lookup_lt_Some _ _ _ Hi) as Hlt.
  destruct (Z.eq_dec (completed s + 1) (2 ^ 32)) as [E|E].
  - rewrite E in Hturn. change (wrap32 (2 ^ 32)) with 0 in Hturn. lia.
  - rewrite wrap32_small in Hturn by lia. lia.
Qed.

Lemma lookup_set_task (s : Pool.t F) (i j : nat) (tk tj : task) (p : pc) :
  tasks s !! i = Some tk ->
  set_task s i tk p !! j = Some tj ->
  (j = i /\ tj = mkTask (compac_seq tk) (immbuf tk) p) \/
  (j <> i /\ tasks s !! j = Some tj).
Proof.
  intros Hi Hj. unfold set_task in Hj.
  apply list_lookup_insert_Some in Hj.
  destruct Hj as [(-> & <- & _)|(Hne & Hj)]; [left|right]; auto.
Qed.

(** A task moves on and the last committed ticket stays; the log may grow
    by the ticket of the task whose turn it is. *)
Lemma inv_update_log (s : Pool.t F) (w' : Writer.t F) (i : nat) (tk : task)
    (p : pc) (log' : list (Z * bytes)) :
  pool_inv s -> tasks s !! i = Some tk ->
  Writer.base w' = Writer.base (w s) ->
  phase_ok (completed s) i p ->
  (has_appended (at_ tk) = true -> has_appended p = true) ->
  increasing (map fst log') ->
  (forall x, In x (map fst log') ->
     In x (map fst (appended s)) \/
     (x = completed s + 1 /\ Z.of_nat i = completed s /\
      has_appended p = true)) ->
  appends_of (Writer.dst_calls_ w') = map snd log' ->
  pool_inv (mk w' (set_task s i tk p) log').
Proof.
  intros [Hs Hc Ht Hp Hinc Hb Hsink] Hi Hbase Hphase Hmono Hlog Hlogb Hcalls.
  assert (Hlen : length (set_task s i tk p) = length (tasks s))
    by apply length_insert.
  split; unfold completed in *; cbn [w tasks appended].
  - rewrite Hbase, Hlen. exact Hs.
  - rewrite Hbase, Hlen. exact Hc.
  - intros j tj Hj.
    destruct (lookup_set_task s i j tk tj p Hi Hj) as [[-> ->]|[_ Hj']].
    + cbn. now apply (Ht i tk).
    + now apply Ht.
  - intros j tj Hj. rewrite Hbase.
    destruct (lookup_set_task s i j tk tj p Hi Hj) as [[-> ->]|[_ Hj']].
    + exact Hphase.
    + now apply Hp.
  - exact Hlog.
  - intros x Hx. unfold bound, completed in *. cbn [w tasks]. rewrite Hbase.
    set (c := num_compac_completed_ (Writer.base (w s))) in *.
    destruct (Hlogb x Hx) as [Hold|(-> & Hic & Hp')].
    + specialize (Hb x Hold).
      destruct (set_task s i tk p !! Z.to_nat c) as [tj|] eqn:Hj.
      * destruct (lookup_set_task s i _ tk tj p Hi Hj) as [[E ->]|[_ Hj']].
        -- rewrite E, Hi in Hb. cbn.
           destruct (has_appended (at_ tk)).
           ++ now rewrite Hmono.
           ++ destruct (has_appended p); lia.
        -- rewrite Hj' in Hb. exact Hb.
      * apply lookup_ge_None in Hj. rewrite Hlen in Hj.
        apply lookup_ge_None in Hj. rewrite Hj in Hb. exact Hb.
    + rewrite <- Hic, Nat2Z.id. unfold set_task.
      rewrite list_lookup_insert_eq by (eapply lookup_lt_Some; exact Hi).
      cbn. rewrite Hp'. lia.
  - exact Hcalls.
Qed.

(** A task moves on; the last committed ticket and the log stay. *)
Lemma inv_update (s : Pool.t F) (w' : Writer.t F) (i : nat) (tk : task)
    (p : pc) :
  pool_inv s -> tasks s !! i = Some tk ->
  Writer.base w' = Writer.base (w s) ->
  appends_of (Writer.dst_calls_ w') = appends_of (Writer.dst_calls_ (w s)) ->
  phase_ok (completed s) i p ->
  (has_appended (at_ tk) = true -> has_appended p = true) ->
  pool_inv (mk w' (set_task s i tk p) (appended s)).
Proof.
  intros Hinv Hi Hbase Hcalls Hphase Hmono.
  apply inv_update_log; auto.
  - exact (pi_increasing s Hinv).
  - rewrite Hcalls. exact (pi_sink s Hinv).
Qed.

Lemma enter_inv (s s' : Pool.t F) (i : nat) :
  pool_inv s -> Z.of_nat (length (tasks s)) < 2 ^ 32 ->
  enter s i = Some s' -> pool_inv s'.
Proof.
  intros Hinv Hn. unfold enter.
  destruct (tasks s !! i) as [tk|] eqn:Hi; [|discriminate].
  pose proof (pi_phase s Hinv i tk Hi) as Hp.
  destruct (at_ tk) eqn:Hat; try discriminate.
  destruct (Writer.bbs_ (w s) !! immbuf tk) as [bb|]; [|discriminate].
  destruct (BlockBuf_empty bb); cbn [andb].
  - destruct (compac_seq tk
              =? wrap32 (num_compac_completed_ (Writer.base (w s)) + 1))
      eqn:Hturn; intros E; injection E as <-.
    + apply inv_update; auto. cbn. now apply (turn s i tk).
    + apply inv_update; auto. rewrite Hat. discriminate.
  - intros E. injection E as <-. apply inv_update; auto.
    rewrite Hat. discriminate.
Qed.

Lemma build_inv (s s' : Pool.t F) (i : nat) :
  pool_inv s -> build s i = Some s' -> pool_inv s'.
Proof.
  intros Hinv. unfold build.
  destruct (tasks s !! i) as [tk|] eqn:Hi; [|discriminate].
  pose proof (pi_phase s Hinv i tk Hi) as Hp.
  destruct (at_ tk) eqn:Hat; try discriminate.
  destruct (Writer.bbs_ (w s) !! immbuf tk) as [bb|]; [|discriminate].
  intros E. injection E as <-. apply inv_update; auto.
  rewrite Hat. discriminate.
Qed.

Lemma pass_inv (s s' : Pool.t F) (i : nat) :
  pool_inv s -> Z.of_nat (length (tasks s)) < 2 ^ 32 ->
  pass s i = Some s' -> pool_inv s'.
Proof.
  intros Hinv Hn. unfold pass.
  destruct (tasks s !! i) as [tk|] eqn:Hi; [|discriminate].
  destruct (at_ tk) eqn:Hat; try discriminate.
  destruct (compac_seq tk
            =? wrap32 (num_compac_completed_ (Writer.base (w s)) + 1))
    eqn:Hturn; [|discriminate].
  intros E. injection E as <-. apply inv_update; auto.
  - cbn. now apply (turn s i tk).
  - rewrite Hat. discriminate.
Qed.

Lemma flush_inv (s s' : Pool.t F) (i : nat) :
  pool_inv s -> flush s i = Some s' -> pool_inv s'.
Proof.
  intros Hinv. unfold flush.
  destruct (tasks s !! i) as [tk|] eqn:Hi; [|discriminate].
  pose proof (pi_phase s Hinv i tk Hi) as Hp.
  destruct (at_ tk) eqn:Hat; try discriminate. cbn in Hp.
  destruct (ok status).
  - unfold Writer.dst_Flush. cbn [Writer.dst_ Writer.set_offset].
    destruct (Env.Flush (Writer.dst_ (w s))) as [st f].
    intros E. injection E as <-. apply inv_update; auto.
    cbn. rewrite appends_of_app. cbn. apply app_nil_r.
  - intros E. injection E as <-. apply inv_update; auto.
Qed.

(** The append of the task whose turn it is: its ticket is above every
    ticket in the log. *)
Lemma append_inv (s s' : Pool.t F) (i : nat) :
  pool_inv s -> append s i = Some s' -> pool_inv s'.
Proof.
  intros Hinv. unfold append.
  destruct (tasks s !! i) as [tk|] eqn:Hi; [|discriminate].
  pose proof (pi_phase s Hinv i tk Hi) as Hp.
  pose proof (pi_tickets s Hinv i tk Hi) as Htk.
  destruct (at_ tk) eqn:Hat; try discriminate. cbn in Hp. cbv zeta.
  set (w3 := Writer.set_indexes _ _).
  assert (Hbase : Writer.base w3 = Writer.base (w s)).
  { subst w3. destruct (negb (is_empty filter)); reflexivity. }
  assert (Hcalls : Writer.dst_calls_ w3 = Writer.dst_calls_ (w s)).
  { subst w3. destruct (negb (is_empty filter)); reflexivity. }
  clearbody w3.
  destruct (negb (is_empty block)).
  - unfold Writer.dst_Append. destruct (Env.Append (Writer.dst_ w3) block) as [st f].
    intros E. injection E as <-.
    assert (Hold : forall x, In x (map fst (appended s)) -> x < compac_seq tk).
    { intros x Hx. pose proof (pi_log_bound s Hinv x Hx) as Hb.
      unfold bound in Hb. rewrite <- Hp, Nat2Z.id, Hi, Hat in Hb.
      cbn in Hb. lia. }
    apply inv_update_log; auto.
    + rewrite map_app. apply increasing_snoc; [exact (pi_increasing s Hinv)|].
      exact Hold.
    + intros x Hx. rewrite map_app in Hx. apply in_app_iff in Hx.
      destruct Hx as [Hx|[<-|[]]]; [now left|]. right. cbn. lia.
    + cbn. rewrite appends_of_app, Hcalls, map_app, (pi_sink s Hinv).
      reflexivity.
  - intros E. injection E as <-. apply inv_update; auto.
    now rewrite Hcalls.
Qed.

(** The commit of the task whose turn it is: the next task has its turn. *)
Lemma commit_inv (s s' : Pool.t F) (i : nat) :
  pool_inv s -> commit s i = Some s' -> pool_inv s'.
Proof.
  intros Hinv. unfold commit.
  destruct (tasks s !! i) as [tk|] eqn:Hi; [|discriminate].
  pose proof (pi_phase s Hinv i tk Hi) as Hp.
  pose proof (pi_tickets s Hinv i tk Hi) as Htk.
  pose proof (lookup_lt_Some _ _ _ Hi) as Hlt.
  destruct (at_ tk) eqn:Hat; try discriminate. cbn in Hp.
  intros E. injection E as <-.
  destruct Hinv as [Hs Hc Ht Hph Hinc Hb Hsink].
  assert (Hlen : length (set_task s i tk Committed) = length (tasks s))
    by apply length_insert.
  split; unfold completed in *; cbn [w tasks appended]; cbn.
  - rewrite Hlen. exact Hs.
  - rewrite Hlen. lia.
  - intros j tj Hj.
    destruct (lookup_set_task s i j tk tj _ Hi Hj) as [[-> ->]|[_ Hj']].
    + cbn. exact Htk.
    + now apply Ht.
  - intros j tj Hj.
    destruct (lookup_set_task s i j tk tj _ Hi Hj) as [[-> ->]|[Hne Hj']].
    + cbn. lia.
    + specialize (Hph j tj Hj'). destruct (at_ tj); cbn in Hph |- *; lia.
  - exact Hinc.
  - intros x Hx. specialize (Hb x Hx). unfold bound, completed in *.
    rewrite <- Hp, Nat2Z.id, Hi, Hat in Hb. cbn in Hb. cbn.
    destruct (set_task s i tk Committed !! Z.to_nat (compac_seq tk)) as [tj|];
      [destruct (has_appended (at_ tj))|]; lia.
  - exact Hsink.
Qed.

Lemma fill_inv (s s' : Pool.t F) (k v : bytes) :
  pool_inv s -> fill s k v = Some s' -> pool_inv s'.
Proof.
  intros Hinv. unfold fill.
  destruct (negb (ok (bg_status_ (Writer.base (w s))))).
  - intros E. injection E as <-. exact Hinv.
  - destruct (Writer.bbs_ (w s) !! membuf_ (Writer.base (w s))); [|discriminate].
    intros E. injection E as <-.
    destruct Hinv as [Hs Hc Ht Hph Hinc Hb Hsink]. split; auto.
Qed.

Lemma rotate_inv (s s' : Pool.t F) :
  pool_inv s -> Z.of_nat (length (tasks s')) < 2 ^ 32 ->
  rotate s = Some s' -> pool_inv s'.
Proof.
  intros Hinv Hn. unfold rotate.
  destruct (bufs_ (Writer.base (w s))) as [|free rest].
  - destruct (ok (bg_status_ (Writer.base (w s)))); [discriminate|].
    intros E. injection E as <-. exact Hinv.
  - intros E. injection E as <-. cbn [tasks] in Hn.
    rewrite length_app in Hn. cbn [length] in Hn.
    destruct Hinv as [Hs Hc Ht Hph Hinc Hb Hsink].
    split; unfold completed in *; cbn [w tasks appended]; cbn.
    + rewrite Hs, length_app. cbn [length]. rewrite wrap32_small; lia.
    + rewrite length_app. cbn [length]. lia.
    + intros j tj Hj. apply lookup_app_Some in Hj.
      destruct Hj as [Hj|[Hge Hj]]; [now apply Ht|].
      apply list_lookup_singleton_Some in Hj. destruct Hj as [Hj <-]. cbn.
      rewrite Hs, wrap32_small; lia.
    + intros j tj Hj. apply lookup_app_Some in Hj.
      destruct Hj as [Hj|[Hge Hj]]; [now apply Hph|].
      apply list_lookup_singleton_Some in Hj. destruct Hj as [Hj <-]. cbn. lia.
    + exact Hinc.
    + intros x Hx. specialize (Hb x Hx). unfold bound, completed in *.
      cbn [w tasks]. cbn.
      set (c := num_compac_completed_ (Writer.base (w s))) in *.
      destruct (tasks s !! Z.to_nat c) as [tj|] eqn:Hj.
      * rewrite (lookup_app_l_Some _ _ _ _ Hj). exact Hb.
      * destruct ((tasks s ++ [_]) !! Z.to_nat c) as [tj|] eqn:Hj'; [|exact Hb].
        apply lookup_app_Some in Hj'. destruct Hj' as [Hj'|[_ Hj']]; [congruence|].
        apply list_lookup_singleton_Some in Hj'. destruct Hj' as [_ <-].
        cbn. exact Hb.
    + exact Hsink.
Qed.

Lemma pool_step_length (s s' : Pool.t F) (l : label) :
  step s l = Some s' -> (length (tasks s) <= length (tasks s'))%nat.
Proof.
  destruct l; cbn [step];
    unfold fill, rotate, enter, build, pass, append, flush, commit, set_task,
      Writer.dst_Append, Writer.dst_Flush;
    intros E;
    repeat match type of E with
      | context [match ?x with _ => _ end] => destruct x; try discriminate
      end;
    injection E as <-; cbn [tasks];
    rewrite ?length_insert, ?length_app; cbn [length]; lia.
Qed.

Lemma pool_step_inv (s s' : Pool.t F) (l : label) :
  pool_inv s -> Z.of_nat (length (tasks s')) < 2 ^ 32 ->
  step s l = Some s' -> pool_inv s'.
Proof.
  intros Hinv Hn Hstep. pose proof (pool_step_length s s' l Hstep) as Hlen.
  destruct l; cbn [step] in Hstep.
  - eapply fill_inv; eauto.
  - eapply rotate_inv; eauto.
  - eapply enter_inv; eauto. lia.
  - eapply build_inv; eauto.
  - eapply pass_inv; eauto. lia.
  - eapply append_inv; eauto.
  - eapply flush_inv; eauto.
  - eapply commit_inv; eauto.
Qed.

Lemma pool_run_length (schedule : list label) :
  forall s s' : Pool.t F,
    run s schedule = Some s' -> (length (tasks s) <= length (tasks s'))%nat.
Proof.
  induction schedule as [|l schedule IH]; intros s s' Hrun; cbn in Hrun.
  - injection Hrun as <-. lia.
  - destruct (step s l) as [s1|] eqn:Hstep; [|discriminate].
    pose proof (pool_step_length s s1 l Hstep). pose proof (IH s1 s' Hrun). lia.
Qed.

Lemma run_inv_pool (schedule : list label) :
  forall s s' : Pool.t F,
    pool_inv s -> run s schedule = Some s' ->
    Z.of_nat (length (tasks s')) < 2 ^ 32 -> pool_inv s'.
Proof.
  induction schedule as [|l schedule IH]; intros s s' Hinv Hrun Hn;
    cbn in Hrun.
  - injection Hrun as <-. exact Hinv.
  - destruct (step s l) as [s1|] eqn:Hstep; [|discriminate].
    pose proof (pool_run_length schedule s1 s' Hrun) as Hlen.
    apply (IH s1 s'); [|exact Hrun|exact Hn].
    eapply pool_step_inv; [exact Hinv| |exact Hstep]. lia.
Qed.

Lemma pool_init_inv (options : DirOptions) (dst : F) (buf_size n : Z) :
  pool_inv (init options dst buf_size n).
Proof.
  unfold init, Writer.BufferedBlockWriter.
  destruct (Writer.new_buffers _ _ _ _ _) as [bbs bufs].
  split; unfold completed, bound; cbn; auto; try lia;
    try (intros i tk Hi; destruct i; discriminate).
Qed.

(** The steps of one task, taken with no other thread in between, are
    [Compact] as one thread runs it. *)
Lemma task_alone_is_Compact (s : Pool.t F) (i : nat) (tk : task)
    (st : Status) (w' : Writer.t F) :
  tasks s !! i = Some tk -> at_ tk = Queued ->
  Writer.Compact (w s) (compac_seq tk) (immbuf tk) = Some (st, w') ->
  exists s',
    (run s [Enter i] = Some s' \/
     run s [Enter i; Build i; Pass i; Append i; Flush i] = Some s') /\
    w s' = w' /\ tasks s' = set_task s i tk (Returning st).
Proof.
  intros Hi Hat. unfold Writer.Compact.
  destruct (Writer.bbs_ (w s) !! immbuf tk) as [bb|] eqn:Hbb; [|discriminate].
  pose proof (lookup_lt_Some _ _ _ Hi) as Hlt.
  assert (Hget : forall p, set_task s i tk p !! i
                           = Some (mkTask (compac_seq tk) (immbuf tk) p)).
  { intros p. unfold set_task. now apply list_lookup_insert_eq. }
  destruct (BlockBuf_empty bb
            && (compac_seq tk
                =? wrap32 (num_compac_completed_ (Writer.base (w s)) + 1)))
    eqn:Hskip.
  - intros E. injection E as <- <-. eexists. split; [left|].
    + cbn [run step]. unfold enter. rewrite Hi, Hat, Hbb, Hskip. reflexivity.
    + split; reflexivity.
  - destruct (compac_seq tk
              =? wrap32 (num_compac_completed_ (Writer.base (w s)) + 1))
      eqn:Hturn; [|discriminate].
    rewrite andb_true_r in Hskip. rewrite Hskip.
    cbn [negb andb]. cbv zeta.
    set (block := BlockBuf_Finish (bb_entries bb)).
    set (filter := if negb (bf_bits_per_key (Writer.options_ (w s)) =? 0)
                   then _ else _).
    set (w3 := Writer.set_indexes _ _).
    assert (Hrun : forall (st1 : Status) (w4 : Writer.t F),
              (if negb (is_empty block)
               then Writer.dst_Append w3 block else (OK, w3)) = (st1, w4) ->
              exists s1,
                run s [Enter i; Build i; Pass i; Append i] = Some s1 /\
                w s1 = w4 /\
                tasks s1 = set_task s i tk (Flushing block st1)).
    { intros st1 w4 E1. cbn [run step]. unfold enter.
      rewrite Hi, Hat, Hbb, Hskip, Hturn. cbn [andb].
      unfold build, set_task. cbn [tasks w].
      rewrite list_lookup_insert_eq by exact Hlt.
      cbn [at_ immbuf compac_seq]. rewrite Hbb, Hskip. cbn [negb andb].
      fold block. fold filter.
      unfold pass, set_task. cbn [tasks w compac_seq immbuf].
      rewrite list_insert_insert_eq, list_lookup_insert_eq by exact Hlt.
      cbn [at_ compac_seq immbuf]. rewrite Hturn.
      unfold append, set_task. cbn [tasks w compac_seq immbuf].
      rewrite list_insert_insert_eq, list_lookup_insert_eq by exact Hlt.
      cbn [at_ compac_seq immbuf]. cbv zeta. fold w3.
      destruct (negb (is_empty block)).
      - rewrite E1. eexists. split; [reflexivity|]. cbn.
        now rewrite list_insert_insert_eq.
      - injection E1 as <- <-. eexists. split; [reflexivity|]. cbn.
        now rewrite list_insert_insert_eq. }
    destruct (if negb (is_empty block)
              then Writer.dst_Append w3 block else (OK, w3)) as [st1 w4] eqn:E1.
    destruct (Hrun st1 w4 eq_refl) as (s1 & Hs1 & Hw1 & Ht1).
    assert (Hrun' : forall s2, flush s1 i = Some s2 ->
              run s [Enter i; Build i; Pass i; Append i; Flush i] = Some s2).
    { intros s2 Hs2. cbn [run step] in Hs1 |- *.
      destruct (enter s i) as [sa|]; [|discriminate].
      destruct (build sa i) as [sb|]; [|discriminate].
      destruct (pass sb i) as [sc|]; [|discriminate].
      destruct (append sc i) as [sd|]; [|discriminate].
      injection Hs1 as ->. now rewrite Hs2. }
    unfold flush in Hrun'. rewrite Ht1, Hget in Hrun'.
    cbn [at_ compac_seq immbuf] in Hrun'.
    rewrite Hw1 in Hrun'. unfold set_task in Hrun'. rewrite Ht1 in Hrun'.
    unfold set_task in Hrun'. rewrite !list_insert_insert_eq in Hrun'.
    cbn [compac_seq immbuf] in Hrun'.
    intros E. destruct (ok st1).
    + destruct (Writer.dst_Flush _) as [st2 w5]. injection E as <- <-.
      eexists. split; [right; apply Hrun'; reflexivity|].
      split; [reflexivity|]. cbn [tasks]. unfold set_task.
      now rewrite ?list_insert_insert_eq.
    + injection E as <- <-.
      eexists. split; [right; apply Hrun'; reflexivity|].
      split; [reflexivity|]. cbn [tasks]. unfold set_task.
      now rewrite ?list_insert_insert_eq.
Qed.

(** C4. Whatever the schedule of the client thread and of the compaction
    tasks, as long as fewer than 2^32 compactions have been scheduled (the
    tickets are 32-bit and have not wrapped): the blocks handed to
    [dst_->Append] are the blocks of the log, in order, and the tickets of
    the log go up strictly; when a block is in the log, every task with a
    smaller ticket has committed, so its block, if it had one, is earlier in
    the log; every ticket of the log is the ticket of a scheduled task; and
    at most one task is between the barrier and its commit. *)
Theorem appends_follow_ticket_order
    (options : DirOptions) (dst : F) (buf_size n : Z)
    (schedule : list label) (s : Pool.t F) :
  run (init options dst buf_size n) schedule = Some s ->
  Z.of_nat (length (tasks s)) < 2 ^ 32 ->
  appends_of (Writer.dst_calls_ (w s)) = map snd (appended s) /\
  increasing (map fst (appended s)) /\
  (forall (x : Z) (i : nat) (tk : task),
     In x (map fst (appended s)) -> tasks s !! i = Some tk ->
     compac_seq tk < x -> at_ tk = Committed) /\
  (forall x : Z,
     In x (map fst (appended s)) ->
     exists (i : nat) (tk : task),
       tasks s !! i = Some tk /\ compac_seq tk = x) /\
  (forall (i j : nat) (ti tj : task),
     tasks s !! i = Some ti -> tasks s !! j = Some tj ->
     in_region (at_ ti) = true -> in_region (at_ tj) = true -> i = j).
Proof.
  intros Hrun Hn.
  pose proof (run_inv_pool schedule _ s (pool_init_inv options dst buf_size n)
                Hrun Hn) as Hinv.
  pose proof (pi_completed s Hinv) as Hc.
  assert (Hbound : bound s <= completed s + 1).
  { unfold bound. destruct (tasks s !! Z.to_nat (completed s)) as [tk|];
      [destruct (has_appended (at_ tk))|]; lia. }
  split_and!.
  - exact (pi_sink s Hinv).
  - exact (pi_increasing s Hinv).
  - intros x i tk Hx Hi Hlt.
    pose proof (pi_log_bound s Hinv x Hx) as Hb.
    pose proof (pi_tickets s Hinv i tk Hi) as Htk.
    pose proof (pi_phase s Hinv i tk Hi) as Hp.
    destruct (at_ tk); cbn in Hp; try lia. reflexivity.
  - intros x Hx. pose proof (pi_log_bound s Hinv x Hx) as Hb.
    assert (Hlt : (Z.to_nat (x - 1) < length (tasks s))%nat).
    { unfold bound in Hb.
      destruct (tasks s !! Z.to_nat (completed s)) as [tk|] eqn:Hk.
      - apply lookup_lt_Some in Hk.
        destruct (has_appended (at_ tk)); lia.
      - lia. }
    destruct (lookup_lt_is_Some_2 _ _ Hlt) as [tk Hi].
    exists (Z.to_nat (x - 1)), tk. split; [exact Hi|].
    rewrite (pi_tickets s Hinv _ tk Hi). lia.
  - intros i j ti tj Hi Hj Hri Hrj.
    pose proof (pi_phase s Hinv i ti Hi) as Hpi.
    pose proof (pi_phase s Hinv j tj Hj) as Hpj.
    destruct (at_ ti); try discriminate; destruct (at_ tj); try discriminate;
      cbn in Hpi, Hpj; lia.
Qed.

End PoolFacts.


Lemma sample_schedule_runs :
  Pool.run (Pool.init sample_options MemFile.empty 4096 3) sample_schedule
  = Some sample_pool_end.
Proof. vm_compute. reflexivity. Qed.

Lemma sample_pool_end_small :
  Z.of_nat (length (Pool.tasks sample_pool_end)) < 2 ^ 32.
Proof. vm_compute. reflexivity. Qed.

Lemma appends_follow_ticket_order_witness :
  appends_of (Writer.dst_calls_ (Pool.w sample_pool_end))
  = map snd (Pool.appended sample_pool_end) /\
  increasing (map fst (Pool.appended sample_pool_end)).
Proof.
  pose proof (appends_follow_ticket_order sample_options MemFile.empty 4096 3
                sample_schedule sample_pool_end
                sample_schedule_runs sample_pool_end_small) as Horder.
  split; [exact (proj1 Horder)|exact (proj1 (proj2 Horder))].
Defined.

(** The sample schedule, computed: the second task has built its block
    before the first has started, and the log still holds ticket 1 before
    ticket 2. *)
Example sample_schedule_log :
  map fst (Pool.appended sample_pool_end) = [1; 2] /\
  length (appends_of (Writer.dst_calls_ (Pool.w sample_pool_end))) = 2%nat.
Proof. vm_compute. split; reflexivity. Qed.

(** The second task cannot leave the barrier before the first has
    committed: with the first task queued, or with its block appended and
    flushed but its ticket not committed, [Pass 1] is not a step. *)
Example sample_barrier_holds :
  Pool.run sample_pool (firstn 6 sample_schedule ++ [Pool.Pass 1]) = None /\
  Pool.run sample_pool (firstn 11 sample_schedule ++ [Pool.Pass 1]) = None.
Proof. vm_compute. split; reflexivity. Qed.


(** ** Further properties of the reader and the writer *)

Section SampleDuplicates.
#[local] Existing Instance SampleHeap.zeros.

Lemma sample_blocks_dup_ok :
  Forall (fun es => es <> [] /\ Forall SampleBlock.entry_fits es)
    sample_blocks_dup.
Proof. repeat constructor; try discriminate; vm_compute; reflexivity. Qed.

Lemma sample_file_dup_size :
  size (file_of sample_options sample_blocks_dup) < 2 ^ 64.
Proof. vm_compute. reflexivity. Qed.

Lemma Gets_is_linear_search_witness :
  fst (Reader.Gets
         (Reader.BufferedBlockReader sample_options sample_source_dup
            (size (file_of sample_options sample_blocks_dup)))
         [Sample.key 1; Sample.key 2; Sample.key 7])
  = map (fun k => (OK, match Block_Seek k (concat sample_blocks_dup) with
                       | Some v => v
                       | None => []
                       end))
      [Sample.key 1; Sample.key 2; Sample.key 7].
Proof.
  apply (Gets_is_linear_search MemFile_serves SampleBlock.entry_fits
           MemFile_source_ok SampleBlock_ok sample_options Sample_bloom_ok
           sample_options sample_source_dup sample_blocks_dup
           [Sample.key 1; Sample.key 2; Sample.key 7]).
  - intros E. discriminate E.
  - exact sample_file_dup_size.
  - exact sample_blocks_dup_ok.
  - split; reflexivity.
Defined.

(** The sample file, computed: key 1 comes back with the value written
    first. *)
Example sample_Gets_dup :
  fst (Reader.Gets
         (Reader.BufferedBlockReader sample_options sample_source_dup
            (size (file_of sample_options sample_blocks_dup)))
         [Sample.key 1; Sample.key 2; Sample.key 7])
  = [(OK, Sample.key 100); (OK, Sample.key 200); (OK, [])].
Proof. vm_compute. reflexivity. Qed.

End SampleDuplicates.


Section ReaderEdges.
Context {R : Type} `{Env.RandomAccessFile R} {BF : BlockFormat} {FF : FilterFormat}
        {HP : Heap}.
Import Reader.

(** A file shorter than a footer. [Get] on a new reader over a source whose
    size is below the forty bytes of a footer returns the Corruption status
    "Input file too short for a footer" and leaves its result untouched, and
    so does every later [Get]; the source is never read. *)
Theorem Gets_on_short_file (options : DirOptions) (src : R) (src_sz : Z)
    (keys : list bytes) :
  src_sz < 40 ->
  let rd := BufferedBlockReader options src src_sz in
  let too_short := Corruption "Input file too short for a footer" in
  fst (Gets rd keys) = map (fun _ => (too_short, [])) keys /\
  reads_ (snd (Gets rd keys)) = [] /\
  src_ (snd (Gets rd keys)) = src.
Proof.
  intros Hsz rd too_short. subst too_short.
  assert (Hlatched : forall (ks : list bytes) (rd1 : Reader.t R),
            cache_status_ rd1 = Corruption "Input file too short for a footer" ->
            Gets rd1 ks
            = (map (fun _ => (Corruption "Input file too short for a footer",
                              [])) ks, rd1)).
  { induction ks as [|k ks IH]; intros rd1 Hst; [reflexivity|].
    cbn [Gets map]. unfold Get, MaybeLoadCache. rewrite Hst.
    cbn [ok negb orb]. rewrite (IH rd1 Hst). reflexivity. }
  destruct keys as [|k keys]; [cbn; auto|].
  cbn [Gets map]. unfold Get, MaybeLoadCache. subst rd.
  unfold BufferedBlockReader.
  cbn [cache_status_ cache_contents_ ok negb orb is_empty src_sz_].
  change (Z.of_nat (2 * Handle.kMaxEncodedLength)) with 40.
  destruct (Z.ltb_spec src_sz 40) as [_|Hge]; [|lia].
  cbn [cache_status_ set_cache_status ok negb].
  rewrite Hlatched by reflexivity. cbn. auto.
Qed.

Lemma ok_but_last_app (a b : list (origin * Env.Call)) :
  Forall (fun c => ok (Env.call_status (snd c)) = true) a ->
  ok_but_last b -> ok_but_last (a ++ b).
Proof.
  induction a as [|c a IH]; intros Ha Hb; [exact Hb|].
  apply Forall_cons in Ha. destruct Ha as [Hc Ha].
  cbn [app ok_but_last]. specialize (IH Ha Hb).
  destruct (a ++ b); [exact I|split; assumption].
Qed.

Lemma last_status_none (l : list (origin * Env.Call)) :
  last_status l = None -> l = [].
Proof.
  induction l as [|c l IH]; [reflexivity|].
  cbn [last_status]. destruct l as [|d l]; [discriminate|].
  intros E. specialize (IH E). discriminate IH.
Qed.

Lemma last_status_app (a b : list (origin * Env.Call)) :
  last_status (a ++ b)
  = match last_status b with
    | Some st => Some st
    | None => last_status a
    end.
Proof.
  induction a as [|c a IH]; cbn [app].
  - destruct (last_status b); reflexivity.
  - destruct (a ++ b) as [|d l] eqn:E.
    + apply app_eq_nil in E. destruct E as [-> ->]. reflexivity.
    + change (last_status (c :: d :: l)) with (last_status (d :: l)).
      rewrite IH. destruct (last_status b) as [st|] eqn:Eb; [reflexivity|].
      apply last_status_none in Eb. subst b. rewrite app_nil_r in E.
      subst a. reflexivity.
Qed.

Lemma last_status_ok (a : list (origin * Env.Call)) (st : Status) :
  Forall (fun c => ok (Env.call_status (snd c)) = true) a ->
  last_status a = Some st -> ok st = true.
Proof.
  induction a as [|c a IH]; intros Ha Hl; [discriminate|].
  apply Forall_cons in Ha. destruct Ha as [Hc Ha].
  cbn [last_status] in Hl. destruct a as [|c' a].
  - injection Hl as <-. exact Hc.
  - now apply IH.
Qed.

(** What a part of [Get] adds to the trace: reads that all returned OK but
    perhaps the last one; and when the last one failed, the part returns its
    status. *)
Definition reads_then_stop (before after : list (origin * Env.Call))
    (st : Status) : Prop :=
  exists extra,
    after = before ++ extra /\ ok_but_last extra /\
    (forall st', last_status extra = Some st' -> ok st' = false -> st = st') /\
    (ok st = true ->
     Forall (fun c => ok (Env.call_status (snd c)) = true) extra).

Lemma reads_then_stop_none (l : list (origin * Env.Call)) (st : Status) :
  reads_then_stop l l st.
Proof.
  exists []. rewrite app_nil_r. split_and!; auto; try exact I.
  intros st' E. discriminate E.
Qed.

Lemma reads_then_stop_one (l : list (origin * Env.Call)) (c : origin * Env.Call)
    (st : Status) :
  (ok (Env.call_status (snd c)) = false -> st = Env.call_status (snd c)) ->
  (ok st = true -> ok (Env.call_status (snd c)) = true) ->
  reads_then_stop l (l ++ [c]) st.
Proof.
  intros Hfail Hok. exists [c]. split_and!; auto; try exact I.
  intros st' E Hst'. injection E as <-. now apply Hfail.
Qed.

Lemma reads_then_stop_trans (l1 l2 l3 : list (origin * Env.Call))
    (st1 st : Status) :
  reads_then_stop l1 l2 st1 -> ok st1 = true ->
  reads_then_stop l2 l3 st ->
  reads_then_stop l1 l3 st.
Proof.
  intros (e1 & -> & Hb1 & Hl1 & Ha1) Hst1 (e2 & -> & Hb2 & Hl2 & Ha2).
  specialize (Ha1 Hst1).
  exists (e1 ++ e2). rewrite app_assoc. split_and!; auto.
  - now apply ok_but_last_app.
  - intros st'. rewrite last_status_app.
    destruct (last_status e2) as [s2|] eqn:E2.
    + intros E. injection E as <-. now apply Hl2.
    + intros E Hko. pose proof (last_status_ok e1 st' Ha1 E). congruence.
  - intros Hst. apply Forall_app. split; [exact Ha1|now apply Ha2].
Qed.

Lemma GetFrom_stop (rd : Reader.t R) (k result : bytes) (offset n : Z) :
  let '(found, st, res, rd') := GetFrom rd k result offset n in
  reads_then_stop (reads_ rd) (reads_ rd') st /\
  (found = false -> res = result) /\
  (found = true -> ok st = true).
Proof.
  unfold GetFrom, src_Read.
  destruct (Env.Read (src_ rd) offset n) as [[st data] r].
  destruct (ok st) eqn:Hst.
  - destruct (negb (size data =? n)); cbn [ok]; rewrite ?Hst;
      try destruct (Block_Seek k (Block_entries data));
      split_and!; auto; try discriminate;
      apply reads_then_stop_one; cbn; congruence.
  - rewrite Hst. split_and!; auto; try discriminate.
    apply reads_then_stop_one; cbn; congruence.
Qed.

Lemma Get_loop_stop (fuel : nat) :
  forall (rd : Reader.t R) (k result : bytes) (status : Status)
         (bloomoffset offset off : Z),
    ok status = true ->
    let '(st, res, rd') :=
      Get_loop fuel rd k result status bloomoffset offset off in
    reads_then_stop (reads_ rd) (reads_ rd') st /\
    (ok st = false -> res = result).
Proof.
  induction fuel as [|fuel IH]; intros rd k result status bo o off Hst;
    cbn [Get_loop].
  - split; [apply reads_then_stop_none|congruence].
  - destruct (off + 15 <? size (indexes_ rd));
      [|split; [apply reads_then_stop_none|congruence]].
    destruct (BloomKeyMayMatch k _); [|now apply IH].
    pose proof (GetFrom_stop rd k result o
                  (wrap64 (DecodeFixed64 (skipn (Z.to_nat (off + 8))
                                            (indexes_ rd)) - o))) as HG.
    destruct (GetFrom rd k result o _) as [[[found st1] res1] rd1].
    destruct HG as (Hstop & Hnot & Hfound).
    destruct found.
    + split; [exact Hstop|]. rewrite (Hfound eq_refl). discriminate.
    + rewrite (Hnot eq_refl) in *. destruct (ok st1) eqn:Hst1; cbn [negb].
      * specialize (IH rd1 k result st1
                      (DecodeFixed64 (skipn (Z.to_nat off) (indexes_ rd)))
                      (DecodeFixed64 (skipn (Z.to_nat (off + 8)) (indexes_ rd)))
                      (off + 16) Hst1).
        destruct (Get_loop fuel rd1 k result st1 _ _ _) as [[st res] rd'].
        destruct IH as [Hstop2 Hres]. split; [|exact Hres].
        exact (reads_then_stop_trans _ _ _ st1 st Hstop Hst1 Hstop2).
      * split; [exact Hstop|reflexivity].
Qed.

Lemma LoadIndexesAndFilters_stop (rd : Reader.t R) (footer : bytes) :
  let '(st, rd') := LoadIndexesAndFilters rd footer in
  reads_then_stop (reads_ rd) (reads_ rd') st.
Proof.
  unfold LoadIndexesAndFilters, src_Read.
  destruct (Handle.DecodeFrom footer) as [[st1 bh] rest].
  cbn [cache_status_ set_cache_status].
  destruct (ok st1) eqn:Hst1.
  2:{ cbn [negb cache_status_ set_cache_status]. rewrite Hst1. cbn [negb].
      apply reads_then_stop_none. }
  destruct (Handle.DecodeFrom rest) as [[st2 ih] rest2].
  cbn [cache_status_ set_cache_status].
  destruct (ok st2) eqn:Hst2; cbn [negb].
  2:{ apply reads_then_stop_none. }
  cbn [src_ set_cache_status].
  destruct (Env.Read (src_ rd) (offset bh) _) as [[st3 data] r].
  cbn [cache_status_ cache_contents_ set_cache_status set_cache_contents
       set_src].
  destruct (ok st3) eqn:Hst3.
  - destruct (negb (size data =? _)); cbn; rewrite ?Hst3; cbn;
      try (destruct (size _ <? 16)); cbn;
      apply reads_then_stop_one; cbn; congruence.
  - cbn. rewrite Hst3. cbn. apply reads_then_stop_one; cbn; congruence.
Qed.

Lemma MaybeLoadCache_stop (rd : Reader.t R) :
  let '(st, rd') := MaybeLoadCache rd in
  reads_then_stop (reads_ rd) (reads_ rd') st.
Proof.
  unfold MaybeLoadCache.
  destruct (negb (ok (cache_status_ rd)) || negb (is_empty (cache_contents_ rd)));
    [apply reads_then_stop_none|].
  destruct (src_sz_ rd <? _).
  - cbn [cache_status_ set_cache_status ok]. apply reads_then_stop_none.
  - unfold src_Read.
    destruct (Env.Read (src_ rd) _ _) as [[st footer] r].
    cbn [cache_status_ set_cache_status].
    set (rd1 := set_cache_status (set_src rd r _) st).
    assert (Hone : forall st', (ok st = false -> st' = st) ->
                               (ok st' = true -> ok st = true) ->
                               reads_then_stop (reads_ rd) (reads_ rd1) st').
    { intros st' H1 H2. apply reads_then_stop_one; cbn; assumption. }
    destruct (ok st) eqn:Hst.
    + destruct (negb (size footer =? _)).
      * cbn [cache_status_ set_cache_status ok]. apply Hone; congruence.
      * fold rd1. replace (cache_status_ rd1) with st by reflexivity.
        rewrite Hst.
        pose proof (LoadIndexesAndFilters_stop rd1 footer) as HL.
        destruct (LoadIndexesAndFilters rd1 footer) as [st2 rd2].
        assert (H1 : reads_then_stop (reads_ rd) (reads_ rd1) st)
          by (apply Hone; congruence).
        exact (reads_then_stop_trans _ _ _ st st2 H1 Hst HL).
    + fold rd1. replace (cache_status_ rd1) with st by reflexivity.
      rewrite Hst. apply Hone; congruence.
Qed.

(** [Get] gives up at the first read that fails. Whatever the source does,
    every read a [Get] makes returned OK, except perhaps the last one; and
    when the last one failed, [Get] returns the status of that read and
    leaves its result untouched: it does not go on to the next block. *)
Theorem Get_stops_at_failed_read (rd : Reader.t R) (k result : bytes) :
  exists extra : list (origin * Env.Call),
    reads_ (snd (Get rd k result)) = reads_ rd ++ extra /\
    ok_but_last extra /\
    (forall st : Status,
       last_status extra = Some st -> ok st = false ->
       fst (fst (Get rd k result)) = st /\
       snd (fst (Get rd k result)) = result).
Proof.
  unfold Get.
  pose proof (MaybeLoadCache_stop rd) as HL.
  destruct (MaybeLoadCache rd) as [st1 rd1].
  destruct (ok st1) eqn:Hst1; cbn [negb].
  - pose proof (Get_loop_stop (length (indexes_ rd1)) rd1 k result st1
                  (DecodeFixed64 (indexes_ rd1))
                  (DecodeFixed64 (skipn 8 (indexes_ rd1))) 16 Hst1) as HG.
    destruct (Get_loop _ _ _ _ _ _ _ _) as [[st res] rd2].
    destruct HG as [Hstop Hres].
    destruct (reads_then_stop_trans _ _ _ st1 st HL Hst1 Hstop)
      as (extra & Hreads & Hbut & Hlast & _).
    exists extra. cbn [fst snd]. split_and!; auto.
    intros st' E Hko. rewrite (Hlast st' E Hko) in *. auto.
  - destruct HL as (extra & Hreads & Hbut & Hlast & _).
    exists extra. cbn [fst snd]. split_and!; auto.
Qed.

End ReaderEdges.


Section WriterEdges.
Context {F : Type} `{Env.WritableFile F} {BF : BlockFormat} {FF : FilterFormat}.
Import Writer.

(** [Compact] records before it writes. When the ticket of [Compact] is the
    next one and its buffer holds something, [Compact] returns, whatever the
    destination answers, and it has appended the index entry and the filter
    stripe to the streams it keeps in memory before it handed the block to
    the destination: they stay recorded also when the append fails. The
    destination gets one [Append]; it is flushed, and the offset moves, only
    when that append succeeded; it is never synced or closed. *)
Theorem Compact_records_before_append (w : Writer.t F) (seq : Z)
    (immbuf : nat) (bb : BlockBuf) :
  bbs_ w !! immbuf = Some bb -> bb_entries bb <> [] ->
  BlockBuf_Finish (bb_entries bb) <> [] ->
  seq = wrap32 (num_compac_completed_ (base w) + 1) ->
  let block := BlockBuf_Finish (bb_entries bb) in
  exists (st : Status) (w' : Writer.t F),
    Compact w seq immbuf = Some (st, w') /\
    indexes_ w' = indexes_ w ++ encode_pair (size (bloomfilter_ w), offset_ w) /\
    bloomfilter_ w' = bloomfilter_ w ++ filter_of (options_ w) bb /\
    ((dst_calls_ w' = dst_calls_ w ++ [Env.CallAppend block st] /\
      ok st = false /\ offset_ w' = offset_ w) \/
     (exists sta,
        dst_calls_ w'
        = dst_calls_ w ++ [Env.CallAppend block sta; Env.CallFlush st] /\
        ok sta = true /\ offset_ w' = wrap64 (offset_ w + size block))).
Proof.
  intros Hbb Hne Hblock Hturn. unfold Compact. rewrite Hbb.
  assert (Hemp : BlockBuf_empty bb = false).
  { destruct (BlockBuf_empty bb) eqn:E; [|reflexivity].
    apply BlockBuf_empty_iff in E. contradiction. }
  rewrite Hemp. cbn [andb negb].
  rewrite Hturn, Z.eqb_refl. clear Hturn seq.
  cbn [negb].
  assert (Hfilter :
            (if negb (bf_bits_per_key (options_ w) =? 0)
             then BloomBuilder_build (bf_bits_per_key (options_ w))
                    (BlockBuf_NumEntries bb)
                    (map fst (Block_entries (BlockBuf_Finish (bb_entries bb))))
             else []) = filter_of (options_ w) bb).
  { unfold filter_of, block_of. now destruct (bf_bits_per_key (options_ w) =? 0). }
  rewrite Hfilter. clear Hfilter.
  generalize dependent (filter_of (options_ w) bb). intros filter.
  destruct (BlockBuf_Finish (bb_entries bb)) as [|b0 block] eqn:Eblock;
    [contradiction|].
  destruct w as [opts dst calls bt br off bbs n bloom idx bh ih b].
  unfold dst_Append, dst_Flush. cbn in *.
  assert (Hidx : PutFixed64 (PutFixed64 idx (size bloom)) off
                 = idx ++ encode_pair (size bloom, off)).
  { unfold PutFixed64, encode_pair. now rewrite <- app_assoc. }
  destruct filter as [|c0 filter]; cbn;
    destruct (Env.Append dst (b0 :: block)) as [sta f1]; cbn;
    (destruct (ok sta) eqn:Hsta; cbn;
     [destruct (Env.Flush f1) as [stf f2]; cbn|]);
    (eexists _, _; split; [reflexivity|]); cbn; rewrite Hidx, ?app_nil_r;
    split_and!; auto;
    solve [ left; split_and!; auto
          | right; exists sta; rewrite <- app_assoc; split_and!; auto ].
Qed.

End WriterEdges.


Section SampleEdges.
#[local] Existing Instance SampleHeap.zeros.

Lemma Gets_on_short_file_witness :
  let rd := Reader.BufferedBlockReader sample_options MemFile.empty 10 in
  let too_short := Corruption "Input file too short for a footer" in
  fst (Reader.Gets rd [Sample.key 1; Sample.key 2])
  = map (fun _ => (too_short, [])) [Sample.key 1; Sample.key 2] /\
  Reader.reads_ (snd (Reader.Gets rd [Sample.key 1; Sample.key 2])) = [] /\
  Reader.src_ (snd (Reader.Gets rd [Sample.key 1; Sample.key 2])) = MemFile.empty.
Proof.
  apply (Gets_on_short_file sample_options MemFile.empty 10
           [Sample.key 1; Sample.key 2]).
  reflexivity.
Defined.

Lemma Close_handles_locate_streams_witness :
  let w := sample_writer_one_block in
  exists w',
    Writer.Close w = (OK, w') /\
    let file := MemFile.data (Writer.dst_ w') in
    let bh := Writer.bloomfilter_handle_ w' in
    let ih := Writer.index_handle_ w' in
    firstn (Z.to_nat (size_ bh)) (skipn (Z.to_nat (offset bh)) file)
    = Writer.bloomfilter_ w /\
    firstn (Z.to_nat (size_ ih)) (skipn (Z.to_nat (offset ih)) file)
    = Writer.indexes_ w
      ++ encode_pair (size (Writer.bloomfilter_ w), Writer.offset_ w) /\
    Writer.indexes_ w'
    = Writer.indexes_ w
      ++ encode_pair (size (Writer.bloomfilter_ w), Writer.offset_ w) /\
    Writer.bloomfilter_ w' = Writer.bloomfilter_ w /\
    offset ih = offset bh + size_ bh /\
    size file = offset ih + size_ ih + 40.
Proof.
  apply (Close_handles_locate_streams MemFile.data MemFile_healthy
           MemFile_storage_ok sample_writer_one_block).
  - reflexivity.
  - vm_compute. reflexivity.
  - vm_compute. reflexivity.
Defined.

(** The sample writer closed, computed: 21 bytes of data, 9 of filter, 32 of
    index and the footer. *)
Example sample_Close_handles :
  let w' := snd (Writer.Close sample_writer_one_block) in
  Writer.bloomfilter_handle_ w' = mkBlockHandle 21 9 /\
  Writer.index_handle_ w' = mkBlockHandle 30 32 /\
  size (MemFile.data (Writer.dst_ w')) = 102.
Proof. vm_compute. repeat split. Qed.

Lemma Compact_records_before_append_witness :
  let w := sample_writer_pending sample_full_disk in
  let bb := mkBlockBuf true 4104 [(Sample.key 1, Sample.key 100)] in
  let block := BlockBuf_Finish (bb_entries bb) in
  exists (st : Status) (w' : Writer.t MemFile.t),
    Writer.Compact w 1 0 = Some (st, w') /\
    Writer.indexes_ w'
    = Writer.indexes_ w
      ++ encode_pair (size (Writer.bloomfilter_ w), Writer.offset_ w) /\
    Writer.bloomfilter_ w'
    = Writer.bloomfilter_ w ++ filter_of (Writer.options_ w) bb /\
    ((Writer.dst_calls_ w' = Writer.dst_calls_ w ++ [Env.CallAppend block st] /\
      ok st = false /\ Writer.offset_ w' = Writer.offset_ w) \/
     (exists sta,
        Writer.dst_calls_ w'
        = Writer.dst_calls_ w ++ [Env.CallAppend block sta; Env.CallFlush st] /\
        ok sta = true /\
        Writer.offset_ w' = wrap64 (Writer.offset_ w + size block))).
Proof.
  apply (Compact_records_before_append
           (sample_writer_pending sample_full_disk) 1 0
           (mkBlockBuf true 4104 [(Sample.key 1, Sample.key 100)])).
  - vm_compute. reflexivity.
  - discriminate.
  - vm_compute. discriminate.
  - vm_compute. reflexivity.
Defined.

(** The failed compaction, computed: the stripes have grown, the offset has
    not, and the destination holds nothing. *)
Example sample_Compact_full_disk :
  let w := sample_writer_pending sample_full_disk in
  let w' := match Writer.Compact w 1 0 with
            | Some (_, w') => w'
            | None => w
            end in
  index_entries (Writer.indexes_ w') = [(0, 0)] /\
  size (Writer.bloomfilter_ w') = 9 /\
  Writer.offset_ w' = 0 /\
  MemFile.data (Writer.dst_ w') = [].
Proof. vm_compute. repeat split. Qed.

End SampleEdges.


(** ** The log sink over a sequence of operations *)

Section LogSinkRuns.
Context {F : Type} `{Env.WritableFile F}.
Import LogSink.

Lemma run_app_calls (s : LogSink.t F) (f : F) (o : Op) :
  file_ s = Some f ->
  exists calls f',
    file_ (snd (step s o)) = Some f' /\
    io_ (snd (step s o)) = io_ s ++ calls /\
    appends_of calls = written [o] /\
    length (List.filter Env.is_sync calls) = (if is_Lsync o then 1 else 0)%nat /\
    List.filter Env.is_close calls = [] /\
    off_ (snd (step s o))
    = (if ok (fst (step s o))
       then match o with
            | OpLwrite data => wrap64 (off_ s + size data)
            | OpLsync => off_ s
            end
       else off_ s) /\
    filename_ (snd (step s o)) = filename_ s.
Proof.
  intros Hf. destruct o as [data|]; cbn [step].
  - unfold Lwrite. rewrite Hf.
    destruct (Env.Append f data) as [r f1].
    destruct (ok r) eqn:Hr.
    + destruct (Env.Flush f1) as [r2 f2]. cbn.
      destruct (ok r2) eqn:Hr2; cbn; rewrite ?Hr2, <- ?app_assoc;
        eexists _, _; split_and!; reflexivity.
    + cbn. rewrite Hr. eexists _, _; split_and!; reflexivity.
  - unfold Lsync. rewrite Hf. destruct (Env.Sync f) as [r f1]. cbn.
    destruct (ok r); eexists _, _; split_and!; reflexivity.
Qed.

(** What a log sink owes its clients. Over any sequence of writes and syncs
    on an open sink, whatever the device answers: every operation gets a
    status; [Ltell] ends at the start offset plus the bytes of the writes
    that were acknowledged with OK (as a 64-bit counter), so a failed write
    is never counted; the file receives the data of every write, once and in
    order, one [Sync] for each [Lsync], and no [Close]; the sink stays
    open. *)
Theorem Ltell_counts_acknowledged_writes (s : LogSink.t F) (f : F)
    (ops : list Op) :
  file_ s = Some f ->
  0 <= Ltell s < 2 ^ 64 ->
  let sts := fst (run s ops) in
  let s' := snd (run s ops) in
  length sts = length ops /\
  Ltell s' = wrap64 (Ltell s + acknowledged ops sts) /\
  (exists f', file_ s' = Some f') /\
  exists calls,
    io_ s' = io_ s ++ calls /\
    appends_of calls = written ops /\
    length (List.filter Env.is_sync calls)
    = length (List.filter is_Lsync ops) /\
    List.filter Env.is_close calls = [].
Proof.
  unfold Ltell. revert s f.
  induction ops as [|o ops IH]; intros s f Hf Hoff.
  - cbn. split_and!; eauto.
    + rewrite Z.add_0_r. unfold wrap64. now rewrite Z.mod_small.
    + exists []. now rewrite app_nil_r.
  - cbn [run].
    destruct (run_app_calls s f o Hf)
      as (calls & f1 & Hf1 & Hio & Happ & Hsync & Hclose & Hoff1 & _).
    destruct (step s o) as [st s1] eqn:Es. cbn [fst snd] in *.
    assert (Hr1 : 0 <= off_ s1 < 2 ^ 64).
    { rewrite Hoff1. destruct (ok st); [|lia].
      destruct o; [|lia]. unfold wrap64. apply Z.mod_pos_bound. lia. }
    specialize (IH s1 f1 Hf1 Hr1).
    destruct (run s1 ops) as [sts s2] eqn:Er. cbn [fst snd] in *.
    destruct IH as (Hlen & Hend & Hopen & calls2 & Hio2 & Happ2 & Hsync2 & Hclose2).
    split_and!.
    + cbn. now rewrite Hlen.
    + rewrite Hend, Hoff1.
      destruct o as [data|]; cbn [acknowledged]; destruct (ok st);
        rewrite ?wrap64_add_l; f_equal; lia.
    + exact Hopen.
    + exists (calls ++ calls2). split_and!.
      * now rewrite Hio2, Hio, app_assoc.
      * rewrite appends_of_app, Happ, Happ2. now destruct o.
      * rewrite List.filter_app, length_app, Hsync, Hsync2.
        now destruct o.
      * now rewrite List.filter_app, Hclose, Hclose2.
Qed.

End LogSinkRuns.

Lemma Ltell_counts_acknowledged_writes_witness :
  let sts := fst (LogSink.run sample_flaky_sink sample_sink_ops) in
  let s' := snd (LogSink.run sample_flaky_sink sample_sink_ops) in
  length sts = length sample_sink_ops /\
  LogSink.Ltell s'
  = wrap64 (LogSink.Ltell sample_flaky_sink + acknowledged sample_sink_ops sts) /\
  (exists f', LogSink.file_ s' = Some f') /\
  exists calls,
    LogSink.io_ s' = LogSink.io_ sample_flaky_sink ++ calls /\
    appends_of calls = written sample_sink_ops /\
    length (List.filter Env.is_sync calls)
    = length (List.filter is_Lsync sample_sink_ops) /\
    List.filter Env.is_close calls = [].
Proof.
  apply (Ltell_counts_acknowledged_writes sample_flaky_sink
           (MemFile.mk [] [OK; OK; OK; IOError "No space left on device"])
           sample_sink_ops).
  - reflexivity.
  - vm_compute. split; [discriminate | reflexivity].
Defined.

(** The sample run, computed: the first write is acknowledged, the second
    write is appended but its flush fails, and [Ltell] counts the first and
    the last one only. *)
Example sample_flaky_run :
  let sts := fst (LogSink.run sample_flaky_sink sample_sink_ops) in
  let s' := snd (LogSink.run sample_flaky_sink sample_sink_ops) in
  map ok sts = [true; false; true; true] /\
  LogSink.Ltell s' = 18 /\
  option_map MemFile.data (LogSink.file_ s')
  = Some (Sample.key 1 ++ Sample.key 2 ++ Sample.key 3).
Proof. vm_compute. repeat split. Qed.


(** ** The log source *)

Section LogSourceFacts.
Context {R : Type} `{Env.RandomAccessFile R}.
Import LogSource.

Lemma TotalSize_loop (files : list (R * Z)) (acc : Z) :
  fold_left (fun result f => wrap64 (result + snd f)) files (wrap64 acc)
  = wrap64 (acc + sum_sizes files).
Proof.
  revert acc. induction files as [|[f sz] files IH]; intros acc.
  - unfold sum_sizes. cbn. now rewrite Z.add_0_r.
  - cbn [fold_left snd]. rewrite wrap64_add_l, IH.
    unfold sum_sizes. cbn. f_equal. lia.
Qed.

Lemma Read_sizes (s : LogSource.t R) (offset n index : Z) :
  0 <= index ->
  map snd (files_ (snd (Read s offset n index))) = map snd (files_ s).
Proof.
  intros Hi. unfold Read.
  destruct (index <? num_files_ s); [|reflexivity].
  destruct (files_ s !! Z.to_nat index) as [[f sz]|] eqn:E; [|reflexivity].
  destruct (Env.Read f offset n) as [[st result] f']. cbn.
  rewrite list_fmap_insert. cbn.
  apply list_insert_id. rewrite list_lookup_fmap, E. reflexivity.
Qed.

(** The sizes a log source reports. [TotalSize] is the sum of the sizes of
    the files as a 64-bit counter; past the last file [Size] is 0 and [Read]
    returns OK with empty data and touches no file, which is also what the
    index [LastFileIndex] gives for a log without files; in a log with files
    [LastFileIndex] is the index of the last one. A [Read], whatever its
    outcome, changes neither the number of files nor any size. *)
Theorem LogSource_sizes (s : LogSource.t R) :
  TotalSize s = wrap64 (sum_sizes (files_ s)) /\
  (forall index offset n,
     num_files_ s <= index ->
     Size s index = 0 /\ Read s offset n index = (OK, [], s)) /\
  (files_ s = [] -> num_files_ s <= LastFileIndex s) /\
  (forall f sz, List.last (files_ s) (f, sz) = (f, sz) -> files_ s <> [] ->
     Size s (LastFileIndex s) = sz /\ LastFileIndex s = num_files_ s - 1) /\
  (forall index offset n,
     0 <= index ->
     let s' := snd (Read s offset n index) in
     num_files_ s' = num_files_ s /\
     TotalSize s' = TotalSize s /\
     forall i, Size s' i = Size s i).
Proof.
  split_and!.
  - unfold TotalSize. change 0 with (wrap64 0) at 1.
    now rewrite TotalSize_loop.
  - intros index offset n Hi. unfold Size, Read.
    destruct (index <? num_files_ s) eqn:E; [apply Z.ltb_lt in E; lia|].
    split; reflexivity.
  - intros E. unfold LastFileIndex, num_files_. rewrite E.
    change (0 <= 2 ^ 64 - 1). lia.
  - intros f sz Hlast Hne. unfold LastFileIndex, Size, num_files_.
    destruct (files_ s) as [|x l] eqn:E using rev_ind; [contradiction|].
    clear IHl. rewrite List.last_last in Hlast. subst x.
    rewrite length_app. cbn [length].
    replace (Z.of_nat (length l + 1) =? 0) with false
      by (symmetry; apply Z.eqb_neq; lia).
    replace (Z.of_nat (length l + 1) - 1 <? Z.of_nat (length l + 1))
      with true by (symmetry; apply Z.ltb_lt; lia).
    replace (Z.to_nat (Z.of_nat (length l + 1) - 1)) with (length l) by lia.
    rewrite lookup_app_r by lia. rewrite Nat.sub_diag. cbn. split; reflexivity.
  - intros index offset n Hi s'.
    pose proof (Read_sizes s offset n index Hi) as Hs. fold s' in Hs.
    assert (Hlen : num_files_ s' = num_files_ s).
    { unfold num_files_.
      rewrite <- (length_map snd (files_ s')), Hs, length_map. reflexivity. }
    split_and!.
    + exact Hlen.
    + unfold TotalSize. change 0 with (wrap64 0).
      rewrite !TotalSize_loop. unfold sum_sizes. now rewrite Hs.
    + intros i. unfold Size. rewrite Hlen.
      destruct (i <? num_files_ s); [|reflexivity].
      assert (E : (map snd (files_ s')) !! Z.to_nat i
                  = (map snd (files_ s)) !! Z.to_nat i) by now rewrite Hs.
      rewrite !list_lookup_fmap in E.
      destruct (files_ s' !! Z.to_nat i) as [[f1 z1]|],
               (files_ s !! Z.to_nat i) as [[f2 z2]|];
        cbn in E; congruence.
Qed.

End LogSourceFacts.



(** The sample log, computed: the second file is the last one, a read of it
    returns its bytes, and a read past it returns nothing. *)
Example sample_log_reads :
  LogSource.TotalSize sample_log = 6 /\
  LogSource.LastFileIndex sample_log = 1 /\
  fst (LogSource.Read sample_log 0 4 1) = (OK, firstn 2 (Sample.key 2)) /\
  fst (LogSource.Read sample_log 0 4 2) = (OK, []) /\
  LogSource.LastFileIndex (LogSource.mk "/tmp/plfs" (@nil (MemFile.t * Z)))
  = 2 ^ 64 - 1.
Proof. vm_compute. repeat split. Qed.

(** ** The direct writer *)

Section DirectWriterFacts.
Context {F : Type} `{Env.WritableFile F}.
Import DirectWriter.

Lemma DirectWriter_step_calls (w : DirectWriter.t F) (o : Op) :
  exists calls,
    dst_calls_ (snd (step w o)) = dst_calls_ w ++ calls /\
    appends_of calls = List.filter nonempty (compacted [o]) /\
    map Env.call_status (List.filter Env.is_sync calls)
    = (if is_SyncBackend o then [fst (step w o)] else []) /\
    length (List.filter Env.is_close calls)
    = (if is_closing o then 1 else 0)%nat.
Proof.
  destruct o as [s|close]; cbn [step].
  - unfold Compact. destruct s as [|b s]; cbn [is_empty].
    + exists []. now rewrite app_nil_r.
    + destruct (Env.Append (dst_ w) (b :: s)) as [st f]. cbn.
      destruct (ok st).
      * destruct (Env.Flush f) as [st2 f2]. cbn. rewrite <- app_assoc.
        eexists. split_and!; reflexivity.
      * eexists. split_and!; reflexivity.
  - unfold SyncBackend. destruct (Env.Sync (dst_ w)) as [st f]. cbn.
    destruct close.
    + destruct (Env.Close f) as [st2 f2]. cbn. rewrite <- app_assoc.
      eexists. split_and!; reflexivity.
    + eexists. split_and!; reflexivity.
Qed.

(** What a direct writer does to its file. Over any sequence of compactions
    and backend syncs, whatever the device answers: the file is handed each
    non-empty buffer once, in order, and nothing for an empty one; every
    [SyncBackend] syncs the file and returns what [Sync] answered;
    [SyncBackend(true)] then closes the file, also when the sync failed, and
    the answer of [Close] is reported to no one. *)
Theorem DirectWriter_calls (w : DirectWriter.t F) (ops : list Op) :
  let sts := fst (run w ops) in
  let w' := snd (run w ops) in
  length sts = length ops /\
  exists calls,
    dst_calls_ w' = dst_calls_ w ++ calls /\
    appends_of calls = List.filter nonempty (compacted ops) /\
    map Env.call_status (List.filter Env.is_sync calls)
    = sync_statuses ops sts /\
    length (List.filter Env.is_close calls)
    = length (List.filter is_closing ops).
Proof.
  revert w. induction ops as [|o ops IH]; intros w.
  - cbn. split; [reflexivity|]. exists []. now rewrite app_nil_r.
  - cbn [run].
    destruct (DirectWriter_step_calls w o)
      as (calls & Hio & Happ & Hsync & Hclose).
    destruct (step w o) as [st w1] eqn:Es. cbn [fst snd] in *.
    specialize (IH w1).
    destruct (run w1 ops) as [sts w2] eqn:Er. cbn [fst snd] in *.
    destruct IH as (Hlen & calls2 & Hio2 & Happ2 & Hsync2 & Hclose2).
    split; [cbn; now rewrite Hlen|].
    exists (calls ++ calls2). split_and!.
    + now rewrite Hio2, Hio, app_assoc.
    + rewrite appends_of_app, Happ, Happ2.
      destruct o as [s|c]; cbn; [destruct (nonempty s)|]; reflexivity.
    + rewrite List.filter_app, map_app, Hsync, Hsync2. now destruct o.
    + rewrite List.filter_app, length_app, Hclose, Hclose2.
      destruct o as [s|c]; cbn; [|destruct c]; reflexivity.
Qed.

Lemma DirectWriter_run_healthy (contents : F -> bytes)
    (healthy : F -> Prop) (w : DirectWriter.t F) (ops : list Op) :
  StorageOk contents healthy ->
  healthy (dst_ w) ->
  let sts := fst (run w ops) in
  let w' := snd (run w ops) in
  Forall (fun st => st = OK) sts /\
  healthy (dst_ w') /\
  contents (dst_ w') = contents (dst_ w) ++ concat (compacted ops).
Proof.
  intros HS. revert w. induction ops as [|o ops IH]; intros w Hh.
  - cbn. split_and!; auto. now rewrite app_nil_r.
  - cbn [run].
    assert (Hstep : fst (step w o) = OK /\ healthy (dst_ (snd (step w o))) /\
                    contents (dst_ (snd (step w o)))
                    = contents (dst_ w) ++ concat (compacted [o])).
    { destruct o as [s|close]; cbn [step compacted concat].
      - unfold Compact. destruct s as [|b s]; cbn [is_empty].
        + cbn. now rewrite app_nil_r.
        + destruct (storage_append _ _ HS _ (b :: s) Hh)
            as (f1 & -> & Hh1 & Hc1). cbn.
          destruct (storage_flush _ _ HS _ Hh1) as (f2 & -> & Hh2 & Hc2). cbn.
          rewrite Hc2, Hc1, app_nil_r. auto.
      - unfold SyncBackend.
        destruct (storage_sync _ _ HS _ Hh) as (f1 & -> & Hh1 & Hc1). cbn.
        destruct close.
        + destruct (storage_close _ _ HS _ Hh1) as (f2 & -> & Hh2 & Hc2). cbn.
          rewrite Hc2, Hc1, app_nil_r. auto.
        + cbn. rewrite Hc1, app_nil_r. auto. }
    destruct (step w o) as [st w1] eqn:Es. cbn [fst snd] in *.
    destruct Hstep as (-> & Hh1 & Hc1).
    specialize (IH w1 Hh1).
    destruct (run w1 ops) as [sts w2] eqn:Er. cbn [fst snd] in *.
    destruct IH as (Hall & Hh2 & Hc2).
    split_and!; auto.
    rewrite Hc2, Hc1, <- app_assoc. f_equal.
    destruct o; cbn; rewrite ?app_nil_r; reflexivity.
Qed.

End DirectWriterFacts.

Section DirectRoundTrip.
Context {F : Type} `{Env.WritableFile F} {R : Type} `{Env.RandomAccessFile R}.
Import DirectWriter.

Lemma compacted_app (a b : list Op) :
  compacted (a ++ b) = compacted a ++ compacted b.
Proof.
  induction a as [|[s|c] a IH]; cbn; rewrite ?IH; reflexivity.
Qed.

(** Direct writing and reading back. On healthy storage every operation of
    a sequence returns OK and the file ends up holding what it held followed
    by the compacted buffers in order: the direct writer adds no header,
    index or footer of its own. So a [DirectReader] on a source that serves
    that file gets each buffer back by a read at the offset where the buffers
    before it end. *)
Theorem DirectReader_reads_back (contents : F -> bytes) (healthy : F -> Prop)
    (serves : R -> bytes -> Prop) (w : DirectWriter.t F) (rd : DirectReader.t R)
    (a b : list Op) (s : bytes) :
  StorageOk contents healthy -> SourceOk serves ->
  healthy (dst_ w) ->
  let ops := a ++ OpCompact s :: b in
  serves (DirectReader.src_ rd) (contents (dst_ (snd (run w ops)))) ->
  Forall (fun st => st = OK) (fst (run w ops)) /\
  contents (dst_ (snd (run w ops)))
  = contents (dst_ w) ++ concat (compacted ops) /\
  fst (DirectReader.Read rd
         (size (contents (dst_ w)) + size (concat (compacted a))) (size s))
  = (OK, s).
Proof.
  intros HS HR Hh ops Hsrc.
  destruct (DirectWriter_run_healthy contents healthy w ops HS Hh)
    as (Hall & _ & Hc).
  split_and!; [exact Hall|exact Hc|].
  rewrite Hc in Hsrc. subst ops. rewrite compacted_app in Hsrc.
  cbn [compacted] in Hsrc. rewrite concat_app in Hsrc. cbn [concat] in Hsrc.
  unfold DirectReader.Read.
  pose proof (size_nonneg (contents (dst_ w))) as Hp0.
  pose proof (size_nonneg (concat (compacted a))) as Hp1.
  pose proof (size_nonneg s) as Hp2.
  destruct (source_read _ HR _ _
              (size (contents (dst_ w)) + size (concat (compacted a)))
              (size s) Hsrc ltac:(lia) ltac:(lia)) as (r' & -> & _).
  cbn [fst]. f_equal.
  rewrite (app_assoc (contents (dst_ w)) (concat (compacted a))).
  rewrite drop_app_length'
    by (rewrite length_app; unfold size in *; lia).
  rewrite take_app_length' by (unfold size; lia). reflexivity.
Qed.

End DirectRoundTrip.

Lemma DirectReader_reads_back_witness :
  let w := DirectWriter.DirectWriter sample_options MemFile.empty 4096 in
  let rd := DirectReader.DirectReader sample_options
              (MemFile.mk (Sample.key 1 ++ Sample.key 2) []) in
  let a := [DirectWriter.OpCompact (Sample.key 1); DirectWriter.OpCompact []] in
  let b := [DirectWriter.OpSyncBackend true] in
  let ops := a ++ DirectWriter.OpCompact (Sample.key 2) :: b in
  Forall (fun st => st = OK) (fst (DirectWriter.run w ops)) /\
  MemFile.data (DirectWriter.dst_ (snd (DirectWriter.run w ops)))
  = MemFile.data (DirectWriter.dst_ w)
    ++ concat (DirectWriter.compacted ops) /\
  fst (DirectReader.Read rd
         (size (MemFile.data (DirectWriter.dst_ w))
          + size (concat (DirectWriter.compacted a)))
         (size (Sample.key 2)))
  = (OK, Sample.key 2).
Proof.
  apply (DirectReader_reads_back MemFile.data MemFile_healthy MemFile_serves
           (DirectWriter.DirectWriter sample_options MemFile.empty 4096)
           (DirectReader.DirectReader sample_options
              (MemFile.mk (Sample.key 1 ++ Sample.key 2) []))
           [DirectWriter.OpCompact (Sample.key 1); DirectWriter.OpCompact []]
           [DirectWriter.OpSyncBackend true] (Sample.key 2)).
  - exact MemFile_storage_ok.
  - exact MemFile_source_ok.
  - reflexivity.
  - split; vm_compute; reflexivity.
Defined.

(** The sample operations on a device that fails from its second call on,
    computed: the first buffer is appended and its flush fails, the empty
    buffer causes no call, the append of the third fails, the sync fails and
    the file is closed all the same. *)
Example sample_direct_broken :
  let w := DirectWriter.DirectWriter sample_options sample_broken_disk 4096 in
  map ok (fst (DirectWriter.run w sample_direct_ops))
  = [false; true; false; false] /\
  map Env.is_close (DirectWriter.dst_calls_ (snd (DirectWriter.run w sample_direct_ops)))
  = [false; false; false; false; true] /\
  MemFile.data (DirectWriter.dst_ (snd (DirectWriter.run w sample_direct_ops)))
  = Sample.key 1.
Proof. vm_compute. repeat split. Qed.


(** ** The measured file *)

Section MeasuredFacts.
Context {R : Type} `{Env.RandomAccessFile R}.
Import Measured.

(** Measuring changes nothing and counts what succeeded. A sequence of reads
    through a new [AtomicMeasuredRandomAccessFile] returns what the same
    reads return on the file below, and leaves that file in the same state;
    afterwards [TotalOps] is the number of reads that returned OK and
    [TotalBytes] the bytes these returned, short reads included, both as
    64-bit counters. A failed read counts for nothing. *)
Theorem measured_reads_count (base : R) (reqs : list (Z * Z)) :
  let m := AtomicMeasuredRandomAccessFile base in
  fst (read_all m reqs) = fst (read_all base reqs) /\
  base_ (snd (read_all m reqs)) = snd (read_all base reqs) /\
  TotalOps (snd (read_all m reqs))
  = wrap64 (Z.of_nat (length (ok_reads (fst (read_all base reqs))))) /\
  TotalBytes (snd (read_all m reqs))
  = wrap64 (bytes_read (fst (read_all base reqs))).
Proof.
  intros m.
  assert (G : forall reqs (m : Measured.t R),
             0 <= ops_ m < 2 ^ 64 -> 0 <= bytes_ m < 2 ^ 64 ->
             fst (read_all m reqs) = fst (read_all (base_ m) reqs) /\
             base_ (snd (read_all m reqs)) = snd (read_all (base_ m) reqs) /\
             ops_ (snd (read_all m reqs))
             = wrap64 (ops_ m + Z.of_nat (length (ok_reads
                                           (fst (read_all (base_ m) reqs))))) /\
             bytes_ (snd (read_all m reqs))
             = wrap64 (bytes_ m + bytes_read (fst (read_all (base_ m) reqs)))).
  { clear. intros reqs. induction reqs as [|[off n] reqs IH]; intros m Ho Hb.
    - cbn. unfold wrap64. rewrite !Z.add_0_r, !Z.mod_small by lia. auto.
    - cbn [read_all]. change (Env.Read m off n) with (Read m off n).
      unfold Read. destruct (Env.Read (base_ m) off n) as [[st data] b].
      assert (Hw : forall z, 0 <= wrap64 z < 2 ^ 64).
      { intros z. unfold wrap64. apply Z.mod_pos_bound. lia. }
      destruct (ok st) eqn:Hst.
      + specialize (IH (AcceptRead (mk b (bytes_ m) (ops_ m)) (size data))
                      (Hw _) (Hw _)).
        cbn [base_ AcceptRead ops_ bytes_] in IH.
        destruct (read_all (AcceptRead _ _) reqs) as [rs1 m1].
        destruct (read_all b reqs) as [rs2 b2].
        cbn [fst snd] in *. destruct IH as (-> & -> & -> & ->).
        unfold bytes_read, ok_reads. cbn [List.filter fst]. rewrite Hst.
        cbn [length map fold_right snd]. rewrite !wrap64_add_l.
        split_and!; try reflexivity; f_equal; lia.
      + specialize (IH (mk b (bytes_ m) (ops_ m)) Ho Hb).
        cbn [base_ ops_ bytes_] in IH.
        destruct (read_all (mk b _ _) reqs) as [rs1 m1].
        destruct (read_all b reqs) as [rs2 b2].
        cbn [fst snd] in *. destruct IH as (-> & -> & -> & ->).
        unfold bytes_read, ok_reads. cbn [List.filter fst]. rewrite Hst.
        auto. }
  destruct (G reqs m) as (G1 & G2 & G3 & G4); cbn; try lia.
  unfold TotalOps, TotalBytes. rewrite G3, G4. cbn. auto.
Qed.

End MeasuredFacts.


(** ** The reader on a measured file *)

Section MeasuredReader.
Context {R : Type} `{Env.RandomAccessFile R} {BF : BlockFormat} {FF : FilterFormat}
        {HP : Heap}.
Import Reader.

(** The reader [ru] is the reader [rd] without the measuring, and the
    counter of [rd] agrees with its trace. *)
Definition tracks (rd : Reader.t (Measured.t R)) (ru : Reader.t R) : Prop :=
  ru = unmeasured rd /\
  Measured.ops_ (src_ rd)
  = wrap64 (Z.of_nat (length (ok_calls (reads_ rd)))).

Lemma src_Read_tracks rd ru who off n :
  tracks rd ru ->
  exists st d rd' ru',
    src_Read rd who off n = (st, d, rd') /\
    src_Read ru who off n = (st, d, ru') /\
    tracks rd' ru'.
Proof.
  intros [-> Hops]. unfold src_Read.
  change (Env.Read (src_ rd) off n) with (Measured.Read (src_ rd) off n).
  unfold Measured.Read. cbn [unmeasured src_].
  destruct (Env.Read (Measured.base_ (src_ rd)) off n) as [[st d] b].
  destruct (ok st) eqn:Hst.
  - eexists _, _, _, _. split_and!; try reflexivity.
    split; [reflexivity|]. cbn. unfold ok_calls in *.
    rewrite List.filter_app, length_app. cbn. rewrite Hst.
    cbn [length]. rewrite Hops, wrap64_add_l. f_equal. lia.
  - eexists _, _, _, _. split_and!; try reflexivity.
    split; [reflexivity|]. cbn. unfold ok_calls in *.
    rewrite List.filter_app, length_app. cbn. rewrite Hst.
    cbn [length]. rewrite Hops. f_equal. lia.
Qed.

Lemma tracks_fields rd ru :
  tracks rd ru ->
  options_ ru = options_ rd /\ src_sz_ ru = src_sz_ rd /\
  cache_status_ ru = cache_status_ rd /\
  cache_contents_ ru = cache_contents_ rd /\
  indexes_ ru = indexes_ rd /\ bloomfilter_ ru = bloomfilter_ rd /\
  reads_ ru = reads_ rd.
Proof. intros [-> _]. split_and!; reflexivity. Qed.

Lemma tracks_set_cache_status rd ru st :
  tracks rd ru -> tracks (set_cache_status rd st) (set_cache_status ru st).
Proof. intros [-> Hops]. split; [reflexivity | exact Hops]. Qed.

Lemma tracks_set_cache_contents rd ru c :
  tracks rd ru -> tracks (set_cache_contents rd c) (set_cache_contents ru c).
Proof. intros [-> Hops]. split; [reflexivity | exact Hops]. Qed.

Lemma tracks_set_slices rd ru i b :
  tracks rd ru -> tracks (set_slices rd i b) (set_slices ru i b).
Proof. intros [-> Hops]. split; [reflexivity | exact Hops]. Qed.

Lemma GetFrom_tracks rd ru k result offset n :
  tracks rd ru ->
  exists found st v rd' ru',
    GetFrom rd k result offset n = (found, st, v, rd') /\
    GetFrom ru k result offset n = (found, st, v, ru') /\
    tracks rd' ru'.
Proof.
  intros Ht. unfold GetFrom.
  destruct (src_Read_tracks rd ru BlockRead offset n Ht)
    as (st & d & rd' & ru' & -> & -> & Ht').
  destruct (ok (if ok st then if negb (size d =? n)
                              then IOError "Read ret partial data" else st
                else st)).
  - destruct (Block_Seek k (Block_entries d)); eauto 10.
  - eauto 10.
Qed.

Lemma LoadIndexesAndFilters_tracks rd ru footer :
  tracks rd ru ->
  exists st rd' ru',
    LoadIndexesAndFilters rd footer = (st, rd') /\
    LoadIndexesAndFilters ru footer = (st, ru') /\
    tracks rd' ru'.
Proof.
  intros Ht. unfold LoadIndexesAndFilters.
  destruct (Handle.DecodeFrom footer) as [[st1 bh] footer1].
  pose proof (tracks_set_cache_status rd ru st1 Ht) as Ht1.
  assert (E1 : cache_status_ (set_cache_status ru st1)
               = cache_status_ (set_cache_status rd st1)) by reflexivity.
  rewrite E1. clear E1.
  assert (Hstep :
    exists rd2 ru2 ih,
      (if ok (cache_status_ (set_cache_status rd st1))
       then let '(st, h, _) := Handle.DecodeFrom footer1 in
            (set_cache_status (set_cache_status rd st1) st, h)
       else (set_cache_status rd st1, mkBlockHandle 0 0)) = (rd2, ih) /\
      (if ok (cache_status_ (set_cache_status rd st1))
       then let '(st, h, _) := Handle.DecodeFrom footer1 in
            (set_cache_status (set_cache_status ru st1) st, h)
       else (set_cache_status ru st1, mkBlockHandle 0 0)) = (ru2, ih) /\
      tracks rd2 ru2).
  { destruct (ok (cache_status_ (set_cache_status rd st1))).
    - destruct (Handle.DecodeFrom footer1) as [[st2 h] ?].
      eexists _, _, _. split_and!; try reflexivity.
      now apply tracks_set_cache_status.
    - eexists _, _, _. split_and!; try reflexivity. exact Ht1. }
  destruct Hstep as (rd2 & ru2 & ih & -> & -> & Ht2).
  destruct (tracks_fields _ _ Ht2) as (_ & _ & -> & _).
  destruct (negb (ok (cache_status_ rd2))); [eauto 10|].
  destruct (src_Read_tracks rd2 ru2 IndexRead (offset bh)
              (wrap64 (size_ bh + size_ ih)) Ht2)
    as (st3 & contents & rd3 & ru3 & -> & -> & Ht3).
  pose proof (tracks_set_cache_contents _ _ contents
                (tracks_set_cache_status _ _ st3 Ht3)) as Ht4.
  set (rd4 := set_cache_contents (set_cache_status rd3 st3) contents) in *.
  set (ru4 := set_cache_contents (set_cache_status ru3 st3) contents) in *.
  clearbody rd4 ru4.
  assert (Hstep :
    exists rd5 ru5,
      (if ok (cache_status_ rd4)
       then if negb (size (cache_contents_ rd4) =? wrap64 (size_ bh + size_ ih))
            then set_cache_status rd4 (IOError "Read ret partial data")
            else rd4
       else rd4) = rd5 /\
      (if ok (cache_status_ ru4)
       then if negb (size (cache_contents_ ru4) =? wrap64 (size_ bh + size_ ih))
            then set_cache_status ru4 (IOError "Read ret partial data")
            else ru4
       else ru4) = ru5 /\
      tracks rd5 ru5).
  { destruct (tracks_fields _ _ Ht4) as (_ & _ & -> & -> & _).
    destruct (ok (cache_status_ rd4)); [|eauto].
    destruct (negb _); [|eauto].
    eexists _, _. split_and!; try reflexivity.
    now apply tracks_set_cache_status. }
  destruct Hstep as (rd5 & ru5 & -> & -> & Ht5).
  destruct (tracks_fields _ _ Ht5) as (_ & _ & -> & -> & _).
  destruct (negb (ok (cache_status_ rd5))); [eauto 10|].
  match goal with
  | |- context [set_slices rd5 ?i ?b] =>
      pose proof (tracks_set_slices _ _ i b Ht5) as Ht6;
      set (rd6 := set_slices rd5 i b) in *;
      set (ru6 := set_slices ru5 i b) in *
  end.
  clearbody rd6 ru6.
  destruct (tracks_fields _ _ Ht6) as (_ & _ & _ & _ & -> & _).
  destruct (size (indexes_ rd6) <? 16).
  - eexists _, _, _. split_and!; try reflexivity.
    now apply tracks_set_cache_status.
  - destruct (tracks_fields _ _ Ht6) as (_ & _ & -> & _). eauto 10.
Qed.

Lemma MaybeLoadCache_tracks rd ru :
  tracks rd ru ->
  exists st rd' ru',
    MaybeLoadCache rd = (st, rd') /\
    MaybeLoadCache ru = (st, ru') /\
    tracks rd' ru'.
Proof.
  intros Ht. unfold MaybeLoadCache.
  destruct (tracks_fields _ _ Ht) as (_ & -> & -> & -> & _).
  destruct (negb (ok (cache_status_ rd)) || negb (is_empty (cache_contents_ rd)));
    [eauto 10|].
  set (footer_sz := Z.of_nat (2 * Handle.kMaxEncodedLength)). clearbody footer_sz.
  assert (Htail : forall rd1 ru1 footer, tracks rd1 ru1 ->
    exists st rd' ru',
      (if ok (cache_status_ rd1) then LoadIndexesAndFilters rd1 footer
       else (cache_status_ rd1, rd1)) = (st, rd') /\
      (if ok (cache_status_ ru1) then LoadIndexesAndFilters ru1 footer
       else (cache_status_ ru1, ru1)) = (st, ru') /\
      tracks rd' ru').
  { intros rd1 ru1 footer Ht1.
    destruct (tracks_fields _ _ Ht1) as (_ & _ & -> & _).
    destruct (ok (cache_status_ rd1)); [|eauto 10].
    now apply LoadIndexesAndFilters_tracks. }
  destruct (src_sz_ rd <? footer_sz).
  - cbv beta iota zeta. apply Htail. now apply tracks_set_cache_status.
  - destruct (src_Read_tracks rd ru FooterRead (src_sz_ rd - footer_sz)
                footer_sz Ht) as (st & footer & rd1 & ru1 & -> & -> & Ht1).
    cbv beta iota zeta.
    pose proof (tracks_set_cache_status _ _ st Ht1) as Ht2.
    destruct (tracks_fields _ _ Ht2) as (_ & _ & -> & _).
    destruct (ok (cache_status_ (set_cache_status rd1 st)));
      [|cbv beta iota zeta; now apply Htail].
    destruct (negb (size footer =? footer_sz)); cbv beta iota zeta;
      apply Htail; [now apply tracks_set_cache_status | exact Ht2].
Qed.

Lemma Get_loop_tracks (fuel : nat) :
  forall rd ru k result status bloomoffset offset off,
    tracks rd ru ->
    exists st v rd' ru',
      Get_loop fuel rd k result status bloomoffset offset off = (st, v, rd') /\
      Get_loop fuel ru k result status bloomoffset offset off = (st, v, ru') /\
      tracks rd' ru'.
Proof.
  induction fuel as [|fuel IH]; intros rd ru k result status bo o off Ht.
  - cbn. eauto 10.
  - cbn [Get_loop].
    destruct (tracks_fields _ _ Ht) as (_ & _ & _ & -> & -> & _ & _).
    destruct (off + 15 <? size (indexes_ rd)); [|eauto 10].
    cbn zeta.
    destruct (BloomKeyMayMatch k _); [|now apply IH].
    destruct (GetFrom_tracks rd ru k result o
                (wrap64 (DecodeFixed64 (skipn (Z.to_nat (off + 8)) (indexes_ rd)) - o))
                Ht)
      as (found & st & v & rd1 & ru1 & -> & -> & Ht1).
    destruct found; [eauto 10|].
    destruct (negb (ok st)); [eauto 10|].
    now apply IH.
Qed.

Lemma Get_tracks rd ru k result :
  tracks rd ru ->
  exists st v rd' ru',
    Get rd k result = (st, v, rd') /\
    Get ru k result = (st, v, ru') /\
    tracks rd' ru'.
Proof.
  intros Ht. unfold Get.
  destruct (MaybeLoadCache_tracks rd ru Ht) as (st & rd1 & ru1 & -> & -> & Ht1).
  destruct (negb (ok st)); [eauto 10|].
  destruct (tracks_fields _ _ Ht1) as (_ & _ & _ & _ & -> & _).
  now apply Get_loop_tracks.
Qed.

Lemma Gets_tracks (keys : list bytes) :
  forall rd ru,
    tracks rd ru ->
    fst (Gets rd keys) = fst (Gets ru keys) /\
    tracks (snd (Gets rd keys)) (snd (Gets ru keys)).
Proof.
  induction keys as [|k keys IH]; intros rd ru Ht; [cbn; auto|].
  cbn [Gets].
  destruct (Get_tracks rd ru k [] Ht) as (st & v & rd1 & ru1 & -> & -> & Ht1).
  specialize (IH rd1 ru1 Ht1).
  destruct (Gets rd1 keys) as [rs1 rd2], (Gets ru1 keys) as [rs2 ru2].
  cbn [fst snd] in *. destruct IH as [-> Ht2]. auto.
Qed.

(** Measuring is transparent to the reader. A [BufferedBlockReader] whose
    source is wrapped in a new [AtomicMeasuredRandomAccessFile] returns for
    any sequence of [Get]s the statuses and values it returns on the source
    itself, issues the same reads and ends in the same state; afterwards
    [TotalOps] is the number of the reader's reads that returned OK, as a
    64-bit counter. *)
Theorem measured_reader_is_transparent (options : DirOptions) (base : R)
    (src_sz : Z) (keys : list bytes) :
  let rd := BufferedBlockReader options
              (Measured.AtomicMeasuredRandomAccessFile base) src_sz in
  let ru := BufferedBlockReader options base src_sz in
  fst (Gets rd keys) = fst (Gets ru keys) /\
  unmeasured (snd (Gets rd keys)) = snd (Gets ru keys) /\
  Measured.TotalOps (src_ (snd (Gets rd keys)))
  = wrap64 (Z.of_nat (length (ok_calls (reads_ (snd (Gets ru keys)))))).
Proof.
  intros rd ru.
  assert (Ht : tracks rd ru) by (split; reflexivity).
  destruct (Gets_tracks keys rd ru Ht) as (E & Eu & Hops).
  split_and!; auto.
  unfold Measured.TotalOps. rewrite Hops, Eu. reflexivity.
Qed.

End MeasuredReader.

Section SampleMeasured.
#[local] Existing Instance SampleHeap.zeros.

(** The sample file read through a measured source, computed: the footer,
    the index and two blocks are read for the three keys, 102 + 37 bytes. *)
Example sample_measured_reads :
  let rd := Reader.BufferedBlockReader sample_options
              (Measured.AtomicMeasuredRandomAccessFile sample_source)
              (size sample_file) in
  let m := Reader.src_ (snd (Reader.Gets rd [Sample.key 1; Sample.key 7])) in
  Measured.TotalOps m
  = Z.of_nat (length (Reader.reads_
                        (snd (Reader.Gets rd [Sample.key 1; Sample.key 7])))) /\
  0 < Measured.TotalBytes m.
Proof. vm_compute. repeat split. Qed.

End SampleMeasured.


(** ** The whole-file buffer *)

Section WholeFileFacts.
Context {SF : Type} `{SequentialFile SF}.
Import WholeFile.

Lemma contents_size (w : WholeFile.t SF) :
  0 <= buf_size_ w <= size (buf_ w) -> size (contents w) = buf_size_ w.
Proof.
  intros Hb. unfold contents, size in *. rewrite length_take. lia.
Qed.

Lemma Load_loop_bounded (fuel : nat) :
  forall (w : WholeFile.t SF) (base : SF) (status : Status),
    SeqBounded SF ->
    0 <= io_size_ w ->
    0 <= buf_size_ w <= max_buf_size_ w -> max_buf_size_ w < 2 ^ 64 ->
    buf_size_ w <= size (buf_ w) ->
    (Z.to_nat (max_buf_size_ w - buf_size_ w) < fuel)%nat ->
    exists st w' base',
      Load_loop fuel w base status = Some (st, w', base') /\
      buf_size_ w <= buf_size_ w' <= max_buf_size_ w /\
      size (contents w') = buf_size_ w' /\
      firstn (Z.to_nat (buf_size_ w)) (contents w') = contents w /\
      max_buf_size_ w' = max_buf_size_ w /\ io_size_ w' = io_size_ w.
Proof.
  induction fuel as [|fuel IH]; intros w base status HB Hio Hbs Hmax Hbuf Hfuel;
    [lia|].
  cbn [Load_loop].
  pose proof (contents_size w ltac:(lia)) as Hcs.
  assert (Hself : firstn (Z.to_nat (buf_size_ w)) (contents w) = contents w).
  { apply take_ge. unfold size in Hcs. lia. }
  destruct (buf_size_ w <? max_buf_size_ w) eqn:Hlt.
  2:{ eexists _, _, _. split; [reflexivity|]. split_and!; auto; lia. }
  apply Z.ltb_lt in Hlt.
  assert (Hw : wrap64 (max_buf_size_ w - buf_size_ w)
               = max_buf_size_ w - buf_size_ w).
  { unfold wrap64. apply Z.mod_small. lia. }
  rewrite Hw.
  set (n := if io_size_ w >? max_buf_size_ w - buf_size_ w
            then max_buf_size_ w - buf_size_ w else io_size_ w).
  assert (Hn : 0 <= n <= max_buf_size_ w - buf_size_ w).
  { subst n. destruct (io_size_ w >? _) eqn:E; [lia|].
    pose proof (Zgt_cases (io_size_ w) (max_buf_size_ w - buf_size_ w)) as G.
    rewrite E in G. lia. }
  clearbody n.
  pose proof (HB base n ltac:(lia)) as Hsl.
  destruct (SeqRead base n) as [[st sli] base1]. cbn [fst snd] in Hsl.
  destruct (negb (ok st)).
  { eexists _, _, _. split; [reflexivity|]. split_and!; auto; lia. }
  destruct sli as [|b sli]; cbn [is_empty].
  { eexists _, _, _. split; [reflexivity|]. split_and!; auto; lia. }
  set (sl := b :: sli) in *.
  assert (Hpos : 0 < size sl) by (unfold size, sl; cbn [length]; lia).
  clearbody sl.
  assert (Hw2 : wrap64 (buf_size_ w + size sl) = buf_size_ w + size sl).
  { unfold wrap64. apply Z.mod_small. lia. }
  rewrite Hw2.
  match goal with
  | |- context [Load_loop fuel ?w1 base1 st] =>
      destruct (IH w1 base1 st HB) as (st' & w' & base' & E & Hr & Hc & Hp & Hm & Hi)
  end; cbn [io_size_ buf_size_ max_buf_size_ buf_]; try lia.
  { rewrite size_app, Hcs. lia. }
  cbn [io_size_ buf_size_ max_buf_size_ buf_ contents] in *.
  eexists _, _, _. split; [exact E|]. split_and!; auto; try lia.
  assert (Hpre : firstn (Z.to_nat (buf_size_ w))
                   (firstn (Z.to_nat (buf_size_ w + size sl)) (contents w'))
                 = firstn (Z.to_nat (buf_size_ w)) (contents w')).
  { rewrite take_take. f_equal. lia. }
  rewrite <- Hpre, Hp.
  change (take (Z.to_nat (buf_size_ w)) (buf_ w)) with (contents w).
  unfold contents at 1. cbn [buf_size_ buf_].
  rewrite take_take.
  replace (Z.to_nat (buf_size_ w) `min` Z.to_nat (buf_size_ w + size sl))%nat
    with (Z.to_nat (buf_size_ w)) by lia.
  rewrite take_app_le by (unfold size in Hcs; lia). exact Hself.
Qed.

(** [Load] ends, and stays within its buffer. When the file never returns
    more than it is asked for, [Load] ends after at most [max_buf_size_ + 1]
    reads, whatever the file answers and also with [io_size_] 0; the buffer
    then holds at most [max_buf_size_] bytes, and the base file is gone. *)
Theorem Load_stays_within_buffer (w : WholeFile.t SF) (base : SF)
    (fuel : nat) :
  SeqBounded SF ->
  base_ w = Some base ->
  0 <= io_size_ w ->
  0 <= max_buf_size_ w < 2 ^ 64 ->
  (Z.to_nat (max_buf_size_ w) < fuel)%nat ->
  exists st w',
    Load fuel w = Some (st, w') /\
    base_ w' = None /\
    0 <= buf_size_ w' <= max_buf_size_ w /\
    size (contents w') = buf_size_ w' /\
    max_buf_size_ w' = max_buf_size_ w.
Proof.
  intros HB Hbase Hio Hmax Hfuel. unfold Load. rewrite Hbase. cbv zeta.
  destruct (Load_loop_bounded fuel
              (mk (Some base) (max_buf_size_ w) (io_size_ w) 0 (buf_ w))
              base OK HB)
    as (st & w' & base' & -> & Hr & Hc & _ & Hm & _);
    cbn [io_size_ buf_size_ max_buf_size_ buf_] in *; try lia.
  { unfold size. lia. }
  eexists _, _. split; [reflexivity|].
  cbn [base_ buf_size_ max_buf_size_]. split_and!; auto; try lia.
Qed.

Lemma Load_loop_serves (before : SF -> bytes -> Prop) (fuel : nat) :
  SeqOk before ->
  forall (w : WholeFile.t SF) (base : SF) (rest : bytes) (status : Status),
    before base rest ->
    0 < io_size_ w ->
    0 <= buf_size_ w <= max_buf_size_ w -> max_buf_size_ w < 2 ^ 64 ->
    buf_size_ w <= size (buf_ w) ->
    ok status = true ->
    (Z.to_nat (max_buf_size_ w - buf_size_ w) < fuel)%nat ->
    exists st w' base',
      Load_loop fuel w base status = Some (st, w', base') /\
      ok st = true /\
      contents w'
      = contents w
        ++ firstn (Z.to_nat (max_buf_size_ w - buf_size_ w)) rest.
Proof.
  intros HS.
  induction fuel as [|fuel IH];
    intros w base rest status Hb Hio Hbs Hmax Hbuf Hst Hfuel; [lia|].
  cbn [Load_loop].
  pose proof (contents_size w ltac:(lia)) as Hcs.
  destruct (buf_size_ w <? max_buf_size_ w) eqn:Hlt.
  2:{ apply Z.ltb_ge in Hlt. eexists _, _, _. split; [reflexivity|].
      split; [exact Hst|].
      replace (max_buf_size_ w - buf_size_ w) with 0 by lia.
      cbn. now rewrite app_nil_r. }
  apply Z.ltb_lt in Hlt.
  assert (Hw : wrap64 (max_buf_size_ w - buf_size_ w)
               = max_buf_size_ w - buf_size_ w).
  { unfold wrap64. apply Z.mod_small. lia. }
  rewrite Hw.
  set (n := if io_size_ w >? max_buf_size_ w - buf_size_ w
            then max_buf_size_ w - buf_size_ w else io_size_ w).
  assert (Hn : 0 < n <= max_buf_size_ w - buf_size_ w).
  { subst n. destruct (io_size_ w >? _) eqn:E; [lia|].
    pose proof (Zgt_cases (io_size_ w) (max_buf_size_ w - buf_size_ w)) as G.
    rewrite E in G. lia. }
  clearbody n.
  destruct (seq_read _ HS base rest n Hb ltac:(lia)) as (base1 & -> & Hb1).
  cbn [ok negb].
  destruct (firstn (Z.to_nat n) rest) as [|b sli] eqn:Esl; cbn [is_empty].
  { eexists _, _, _. split; [reflexivity|]. split; [reflexivity|].
    assert (rest = []) as ->.
    { destruct rest; [reflexivity|].
      destruct (Z.to_nat n) eqn:En; [lia|]. discriminate Esl. }
    now rewrite take_nil, app_nil_r. }
  assert (Hpos : 0 < size (firstn (Z.to_nat n) rest)).
  { rewrite Esl. unfold size. cbn [length]. lia. }
  rewrite <- Esl. clear b sli Esl.
  set (sl := firstn (Z.to_nat n) rest) in *.
  assert (Hsl : size sl <= n).
  { unfold size, sl. rewrite length_take. lia. }
  assert (Hw2 : wrap64 (buf_size_ w + size sl) = buf_size_ w + size sl).
  { unfold wrap64. apply Z.mod_small. pose proof (size_nonneg sl). lia. }
  rewrite Hw2.
  pose proof (size_nonneg sl) as Hs0.
  match goal with
  | |- context [Load_loop fuel ?w1 base1 OK] =>
      destruct (IH w1 base1 (skipn (Z.to_nat n) rest) OK Hb1)
        as (st' & w' & base' & E & Hok & Hc)
  end; cbn [io_size_ buf_size_ max_buf_size_ buf_];
    try lia; try reflexivity; try (rewrite size_app, Hcs; lia).
  eexists _, _, _. split; [exact E|]. split; [exact Hok|].
  rewrite Hc. cbn [io_size_ buf_size_ max_buf_size_ buf_].
  unfold contents at 1. cbn [buf_size_ buf_].
  rewrite take_ge by (rewrite length_app; unfold size in *; lia).
  rewrite <- app_assoc. f_equal.
  (* the slice read, then the rest of the room from what follows it *)
  destruct (Z_le_gt_dec (Z.of_nat (length rest)) n) as [Hshort|Hlong].
  - unfold sl. rewrite (take_ge rest (Z.to_nat n)), drop_ge by lia.
    rewrite take_nil, app_nil_r. symmetry. apply take_ge. lia.
  - assert (Hlen : size sl = n).
    { unfold size, sl. rewrite length_take. lia. }
    rewrite Hlen. unfold sl.
    replace (Z.to_nat (max_buf_size_ w - buf_size_ w))
      with (Z.to_nat n + Z.to_nat (max_buf_size_ w - (buf_size_ w + n)))%nat
      by lia.
    rewrite <- take_take_drop. reflexivity.
Qed.

(** [Load] reads the whole file, as far as the buffer goes. On a file that
    works, with a positive [io_size_], [Load] returns OK and the buffer holds
    the first [max_buf_size_] bytes of the file: all of it when it fits, and
    otherwise the beginning only, without any error. *)
Theorem Load_reads_whole_file (before : SF -> bytes -> Prop)
    (w : WholeFile.t SF) (base : SF) (file : bytes) (fuel : nat) :
  SeqOk before ->
  base_ w = Some base -> before base file ->
  0 < io_size_ w ->
  0 <= max_buf_size_ w < 2 ^ 64 ->
  (Z.to_nat (max_buf_size_ w) < fuel)%nat ->
  exists st w',
    Load fuel w = Some (st, w') /\
    ok st = true /\
    contents w' = firstn (Z.to_nat (max_buf_size_ w)) file /\
    (size file <= max_buf_size_ w -> contents w' = file).
Proof.
  intros HS Hbase Hb Hio Hmax Hfuel. unfold Load. rewrite Hbase. cbv zeta.
  destruct (Load_loop_serves before fuel HS
              (mk (Some base) (max_buf_size_ w) (io_size_ w) 0 (buf_ w))
              base file OK Hb)
    as (st & w' & base' & -> & Hok & Hc);
    cbn [io_size_ buf_size_ max_buf_size_ buf_] in *; try lia; try reflexivity.
  { unfold size. lia. }
  eexists _, _. split; [reflexivity|]. split; [exact Hok|].
  unfold contents in Hc |- *. cbn [buf_size_ buf_] in Hc |- *.
  rewrite Z.sub_0_r in Hc. change (Z.to_nat 0) with 0%nat in Hc.
  rewrite take_0, app_nil_l in Hc.
  split; [exact Hc|].
  intros Hfit. rewrite Hc. apply take_ge. unfold size in Hfit. lia.
Qed.

End WholeFileFacts.


Lemma SeqMem_bounded : SeqBounded SeqMem.t.
Proof.
  intros s n Hn. cbn. unfold SeqMem.read.
  assert (Ht : size (firstn (Z.to_nat n) (SeqMem.rest s)) <= n).
  { unfold size. rewrite length_take. lia. }
  destruct (SeqMem.script s) as [|st sc]; [exact Ht|].
  destruct (ok st); [exact Ht|]. cbn. unfold size. cbn. lia.
Qed.

Lemma SeqMem_ok : SeqOk SeqMem_before.
Proof.
  constructor. intros s rest n [Hr Hs] Hn. cbn. unfold SeqMem.read.
  rewrite Hs, Hr. eexists. split; [reflexivity|]. split; reflexivity.
Qed.

Lemma Load_stays_within_buffer_witness :
  exists st w',
    WholeFile.Load 7 sample_whole_file_failing = Some (st, w') /\
    WholeFile.base_ w' = None /\
    0 <= WholeFile.buf_size_ w'
      <= WholeFile.max_buf_size_ sample_whole_file_failing /\
    size (WholeFile.contents w') = WholeFile.buf_size_ w' /\
    WholeFile.max_buf_size_ w'
    = WholeFile.max_buf_size_ sample_whole_file_failing.
Proof.
  apply (Load_stays_within_buffer sample_whole_file_failing
           (SeqMem.mk (Sample.key 1 ++ Sample.key 2)
              [OK; IOError "Input/output error"]) 7).
  - exact SeqMem_bounded.
  - reflexivity.
  - vm_compute. discriminate.
  - vm_compute. split; [discriminate | reflexivity].
  - vm_compute. lia.
Defined.

Lemma Load_reads_whole_file_witness :
  exists st w',
    WholeFile.Load 7 sample_whole_file = Some (st, w') /\
    ok st = true /\
    WholeFile.contents w'
    = firstn (Z.to_nat (WholeFile.max_buf_size_ sample_whole_file))
        (Sample.key 1 ++ Sample.key 2) /\
    (size (Sample.key 1 ++ Sample.key 2)
     <= WholeFile.max_buf_size_ sample_whole_file ->
     WholeFile.contents w' = Sample.key 1 ++ Sample.key 2).
Proof.
  apply (Load_reads_whole_file SeqMem_before sample_whole_file
           (SeqMem.mk (Sample.key 1 ++ Sample.key 2) [])
           (Sample.key 1 ++ Sample.key 2) 7).
  - exact SeqMem_ok.
  - reflexivity.
  - split; reflexivity.
  - vm_compute. reflexivity.
  - vm_compute. split; [discriminate | reflexivity].
  - vm_compute. lia.
Defined.

(** The two sample loads, computed: 4 and then 2 bytes fill the buffer of 6
    and the last 2 bytes of the file are left out; on the failing device the
    first 4 bytes stay in the buffer and the error is returned. *)
Example sample_Load :
  option_map (fun r => (ok (fst r), WholeFile.contents (snd r)))
    (WholeFile.Load 7 sample_whole_file)
  = Some (true, firstn 6 (Sample.key 1 ++ Sample.key 2)) /\
  option_map (fun r => (fst r, WholeFile.contents (snd r)))
    (WholeFile.Load 7 sample_whole_file_failing)
  = Some (IOError "Input/output error", Sample.key 1).
Proof. vm_compute. split; reflexivity. Qed.


(** ** String utilities *)

Section StrutilFacts.
Import Strutil.

Lemma is_digit_range (c : byte) :
  is_digit c = true <-> 48 <= byte.unsigned c <= 57.
Proof.
  unfold is_digit. change (chr "0") with 48. change (chr "9") with 57.
  rewrite andb_true_iff, !Z.leb_le. reflexivity.
Qed.

Lemma decimal_value_ge (ds : bytes) :
  forall v, 0 <= v -> Forall (fun c => is_digit c = true) ds ->
    v <= decimal_value v ds.
Proof.
  induction ds as [|c ds IH]; intros v Hv Hds; [cbn; lia|].
  inversion Hds as [|? ? Hc Hds']; subst. apply is_digit_range in Hc.
  unfold decimal_value in *. cbn [fold_left].
  specialize (IH (v * 10 + (byte.unsigned c - 48)) ltac:(lia) Hds'). lia.
Qed.

Lemma ConsumeDecimalNumber_loop_digits (rest : bytes) (ds : bytes) :
  no_digit_ahead rest ->
  forall v digits,
    0 <= v < 2 ^ 64 ->
    0 <= digits -> digits + size ds < 2 ^ 31 ->
    Forall (fun c => is_digit c = true) ds ->
    (decimal_value v ds < 2 ^ 64 ->
     ConsumeDecimalNumber_loop (ds ++ rest) v digits
     = (true, rest, decimal_value v ds, digits + size ds)) /\
    (2 ^ 64 <= decimal_value v ds ->
     fst (fst (fst (ConsumeDecimalNumber_loop (ds ++ rest) v digits))) = false).
Proof.
  intros Hrest. induction ds as [|c ds IH]; intros v digits Hv Hd0 Hdn Hds.
  - cbn [app decimal_value fold_left]. split; [|lia]. intros _.
    unfold size. cbn [length]. rewrite Z.add_0_r.
    destruct rest as [|c rest]; [reflexivity|].
    cbn in Hrest |- *. now rewrite Hrest.
  - inversion Hds as [|? ? Hc Hds']; subst.
    pose proof Hc as Hr. apply is_digit_range in Hr.
    cbn [app ConsumeDecimalNumber_loop]. rewrite Hc.
    assert (Hlen : size (c :: ds) = 1 + size ds)
      by (unfold size; cbn [length]; lia).
    pose proof (size_nonneg ds) as Hs0.
    assert (Hwi : wrap_int (digits + 1) = digits + 1).
    { unfold wrap_int. rewrite Z.mod_small by lia. lia. }
    rewrite Hwi.
    change (chr "0") with 48.
    change (kMaxUint64 / 10) with 1844674407370955161.
    change (kMaxUint64 mod 10) with 5.
    set (delta := byte.unsigned c - 48) in *.
    unfold decimal_value. cbn [fold_left]. fold delta.
    fold (decimal_value (v * 10 + delta) ds).
    pose proof (decimal_value_ge ds (v * 10 + delta) ltac:(lia) Hds') as Hge.
    destruct ((v >? 1844674407370955161)
              || ((v =? 1844674407370955161) && (delta >? 5))) eqn:Hov.
    + split; [|reflexivity]. intros Hlt. exfalso.
      apply orb_true_iff in Hov. destruct Hov as [Hov|Hov].
      * apply Z.gtb_lt in Hov. lia.
      * apply andb_true_iff in Hov. destruct Hov as [H1 H2].
        apply Z.eqb_eq in H1. apply Z.gtb_lt in H2. lia.
    + apply orb_false_iff in Hov. destruct Hov as [H1 H2].
      assert (Hfit : v * 10 + delta < 2 ^ 64).
      { pose proof (Zgt_cases v 1844674407370955161) as G1. rewrite H1 in G1.
        apply andb_false_iff in H2. destruct H2 as [H2|H2].
        - apply Z.eqb_neq in H2. lia.
        - pose proof (Zgt_cases delta 5) as G2. rewrite H2 in G2. lia. }
      assert (Hw : wrap64 (v * 10 + delta) = v * 10 + delta).
      { unfold wrap64. apply Z.mod_small. lia. }
      rewrite Hw.
      destruct (IH (v * 10 + delta) (digits + 1) ltac:(lia) ltac:(lia)
                  ltac:(lia) Hds') as [I1 I2].
      split; [|exact I2].
      intros Hlt. rewrite (I1 Hlt). f_equal. lia.
Qed.

(** [ConsumeDecimalNumber] never wraps around. On an input that starts with
    a run of fewer than 2^31 decimal digits (the function counts them in an
    [int]), it accepts the number exactly when it is below 2^64: it then
    returns true, stores the number and leaves the input after the digits
    (leading zeros are taken as well); a larger number makes it return false
    with nothing stored. *)
Theorem ConsumeDecimalNumber_never_wraps (ds rest : bytes) :
  Forall (fun c => is_digit c = true) ds -> ds <> [] ->
  size ds < 2 ^ 31 ->
  no_digit_ahead rest ->
  (decimal_value 0 ds < 2 ^ 64 ->
   ConsumeDecimalNumber (ds ++ rest) = (true, rest, Some (decimal_value 0 ds))) /\
  (2 ^ 64 <= decimal_value 0 ds ->
   fst (fst (ConsumeDecimalNumber (ds ++ rest))) = false /\
   snd (ConsumeDecimalNumber (ds ++ rest)) = None).
Proof.
  intros Hds Hne Hlen Hrest. unfold ConsumeDecimalNumber.
  destruct (ConsumeDecimalNumber_loop_digits rest ds Hrest 0 0 ltac:(lia)
              ltac:(lia) ltac:(lia) Hds) as [H1 H2].
  split.
  - intros Hlt. rewrite (H1 Hlt).
    replace (0 <? 0 + size ds) with true; [reflexivity|].
    symmetry. apply Z.ltb_lt. unfold size. destruct ds; [contradiction|].
    cbn [length]. lia.
  - intros Hge. specialize (H2 Hge).
    destruct (ConsumeDecimalNumber_loop (ds ++ rest) 0 0) as [[[c i] v] d].
    cbn in H2. subst c. split; reflexivity.
Qed.

Lemma decimal_value_cons_acc (ds : bytes) :
  forall v, decimal_value v ds = v * 10 ^ size ds + decimal_value 0 ds.
Proof.
  induction ds as [|c ds IH]; intros v.
  - unfold size. cbn. lia.
  - unfold decimal_value in *. cbn [fold_left].
    rewrite (IH (v * 10 + _)), (IH (0 * 10 + _)).
    unfold size. cbn [length]. rewrite Nat2Z.inj_succ, Z.pow_succ_r by lia.
    lia.
Qed.

Lemma digit_byte (d : Z) :
  0 <= d < 10 -> byte.unsigned (byte.of_Z (chr "0" + d)) = 48 + d.
Proof.
  intros Hd. change (chr "0") with 48.
  rewrite byte.unsigned_of_Z. unfold byte.wrap. apply Z.mod_small. lia.
Qed.

Lemma decimal_spec (fuel : nat) :
  forall num acc,
    0 <= num < 10 ^ Z.of_nat fuel ->
    Forall (fun c => is_digit c = true) acc ->
    Forall (fun c => is_digit c = true) (decimal fuel num acc) /\
    decimal_value 0 (decimal fuel num acc)
    = num * 10 ^ size acc + decimal_value 0 acc /\
    (fuel <> 0%nat -> decimal fuel num acc <> []) /\
    size (decimal fuel num acc) <= Z.of_nat fuel + size acc.
Proof.
  induction fuel as [|fuel IH]; intros num acc Hnum Hacc.
  - cbn [decimal]. change (10 ^ Z.of_nat 0) with 1 in Hnum.
    assert (num = 0) as -> by lia.
    split_and!; [assumption|lia|congruence|lia].
  - cbn [decimal].
    assert (Hd : 0 <= num mod 10 < 10) by (apply Z.mod_pos_bound; lia).
    pose proof (digit_byte _ Hd) as Hb.
    set (c := byte.of_Z (chr "0" + num mod 10)) in *.
    assert (Hc : is_digit c = true) by (apply is_digit_range; lia).
    assert (Hv : decimal_value 0 (c :: acc)
                 = (num mod 10) * 10 ^ size acc + decimal_value 0 acc).
    { unfold decimal_value at 1. cbn [fold_left].
      fold (decimal_value (0 * 10 + (byte.unsigned c - 48)) acc).
      rewrite decimal_value_cons_acc, Hb. f_equal. lia. }
    assert (Hsz : size (c :: acc) = 1 + size acc)
      by (unfold size; cbn [length]; lia).
    destruct (num <? 10) eqn:Hlt.
    + apply Z.ltb_lt in Hlt. rewrite Z.mod_small in Hv by lia.
      split_and!; [constructor; assumption|exact Hv|discriminate|lia].
    + apply Z.ltb_ge in Hlt.
      rewrite Nat2Z.inj_succ, Z.pow_succ_r in Hnum by lia.
      destruct (IH (num / 10) (c :: acc)) as (I1 & I2 & I3 & I4).
      { split; [apply Z.div_pos; lia|].
        apply Z.div_lt_upper_bound; lia. }
      { constructor; assumption. }
      split_and!; [exact I1| | |lia].
      * rewrite I2, Hv. unfold size. cbn [length].
        rewrite Nat2Z.inj_succ, Z.pow_succ_r by lia.
        pose proof (Z.div_mod num 10 ltac:(lia)). nia.
      * intros _. intros E.
        assert (Hlen : decimal_value 0 (decimal fuel (num / 10) (c :: acc))
                       = decimal_value 0 []) by now rewrite E.
        destruct fuel; [cbn in E; discriminate|]. now apply I3.
Qed.

(** Numbers read back as they were printed. For every 64-bit number,
    [ConsumeDecimalNumber] on what [NumberToString] printed, followed by
    anything that does not start with a digit, returns true, stores the
    number and leaves the input after it. *)
Theorem NumberToString_round_trip (num : Z) (rest : bytes) :
  0 <= num < 2 ^ 64 -> no_digit_ahead rest ->
  ConsumeDecimalNumber (NumberToString num ++ rest) = (true, rest, Some num).
Proof.
  intros Hnum Hrest. unfold NumberToString, AppendNumberTo. cbn [app].
  destruct (decimal_spec 20 num []) as (D1 & D2 & D3 & D4);
    [lia|constructor|].
  change (size []) with 0 in D4.
  change (size []) with 0 in D2. change (decimal_value 0 []) with 0 in D2.
  rewrite Z.pow_0_r, Z.mul_1_r, Z.add_0_r in D2.
  unfold ConsumeDecimalNumber.
  destruct (ConsumeDecimalNumber_loop_digits rest (decimal 20 num []) Hrest
              0 0 ltac:(lia) ltac:(lia) ltac:(lia) D1) as [H1 _].
  rewrite H1 by (rewrite D2; lia). rewrite D2.
  replace (0 <? 0 + size (decimal 20 num [])) with true; [reflexivity|].
  symmetry. apply Z.ltb_lt. unfold size.
  destruct (decimal 20 num []); [exfalso; now apply D3|].
  cbn [length]. lia.
Qed.

End StrutilFacts.


Section StrutilUnits.
Import Strutil.

Lemma ParsePrettyNumber_printed (num : Z) (rest : bytes) :
  0 <= num < 2 ^ 64 -> no_digit_ahead rest ->
  ParsePrettyNumber (NumberToString num ++ rest)
  = if is_empty rest then num
    else if starts_with rest (text "k") then wrap64 (num * 1024)
    else if starts_with rest (text "m") then wrap64 (wrap64 (num * 1024) * 1024)
    else if starts_with rest (text "g")
         then wrap64 (wrap64 (wrap64 (num * 1024) * 1024) * 1024)
    else 0.
Proof.
  intros Hnum Hrest. unfold ParsePrettyNumber, NumberToString, AppendNumberTo.
  cbn [app].
  destruct (decimal_spec 20 num []) as (D1 & D2 & D3 & D4);
    [lia|constructor|].
  change (size []) with 0 in D4.
  change (size []) with 0 in D2. change (decimal_value 0 []) with 0 in D2.
  rewrite Z.pow_0_r, Z.mul_1_r, Z.add_0_r in D2.
  unfold ConsumeDecimalNumber.
  destruct (ConsumeDecimalNumber_loop_digits rest (decimal 20 num []) Hrest
              0 0 ltac:(lia) ltac:(lia) ltac:(lia) D1) as [H1 _].
  rewrite H1 by (rewrite D2; lia). rewrite D2.
  replace (0 <? 0 + size (decimal 20 num [])) with true; [reflexivity|].
  symmetry. apply Z.ltb_lt. unfold size.
  destruct (decimal 20 num []); [exfalso; now apply D3|].
  cbn [length]. lia.
Qed.

Lemma wrap64_mul_l (a b : Z) : wrap64 (wrap64 a * b) = wrap64 (a * b).
Proof. unfold wrap64. now rewrite Zmult_mod_idemp_l. Qed.

(** [ParsePrettyNumber] and its units. A printed 64-bit number parses to
    itself; followed by "k", "m" or "g" it parses to the number times 2^10,
    2^20 or 2^30 as a 64-bit product, which wraps around without notice, and
    whatever comes after the unit is ignored. *)
Theorem ParsePrettyNumber_units (num : Z) (tail : bytes) :
  0 <= num < 2 ^ 64 ->
  ParsePrettyNumber (NumberToString num) = num /\
  ParsePrettyNumber (NumberToString num ++ text "k" ++ tail)
  = wrap64 (num * 2 ^ 10) /\
  ParsePrettyNumber (NumberToString num ++ text "m" ++ tail)
  = wrap64 (num * 2 ^ 20) /\
  ParsePrettyNumber (NumberToString num ++ text "g" ++ tail)
  = wrap64 (num * 2 ^ 30).
Proof.
  intros Hnum.
  assert (Hk : forall c : byte,
             is_digit c = false -> no_digit_ahead ([c] ++ tail)).
  { intros c Hc. exact Hc. }
  assert (Hs : forall c d : byte,
             starts_with (c :: tail) [d] = bytes_eqb [c] [d]).
  { intros c d. unfold starts_with, size. cbn [length firstn].
    replace (Z.of_nat 1 <=? Z.of_nat (S (length tail))) with true;
      [reflexivity|]. symmetry. apply Z.leb_le. lia. }
  split_and!.
  - rewrite <- (app_nil_r (NumberToString num)).
    now rewrite ParsePrettyNumber_printed.
  - rewrite ParsePrettyNumber_printed by (try apply Hk; auto).
    cbn [text list_byte_of_string app is_empty]. cbn -[wrap64 starts_with].
    rewrite !Hs. cbn. f_equal.
  - rewrite ParsePrettyNumber_printed by (try apply Hk; auto).
    cbn -[wrap64 starts_with]. rewrite !Hs. cbn.
    rewrite wrap64_mul_l. f_equal. lia.
  - rewrite ParsePrettyNumber_printed by (try apply Hk; auto).
    cbn -[wrap64 starts_with]. rewrite !Hs. cbn.
    rewrite wrap64_mul_l, <- Z.mul_assoc, wrap64_mul_l. f_equal. lia.
Qed.

Lemma AppendEscapedStringTo_concat (value : bytes) :
  forall str,
    AppendEscapedStringTo str value = str ++ concat (map escaped value).
Proof.
  induction value as [|c value IH]; intros str.
  - cbn. now rewrite app_nil_r.
  - cbn [AppendEscapedStringTo map concat]. rewrite IH.
    change (chr " ") with 32. change (chr "~") with 126.
    change (chr "x") with 120. unfold escaped at 2.
    assert (Hland : Z.land (byte.unsigned c) 255 = byte.unsigned c).
    { change 255 with (Z.ones 8). rewrite Z.land_ones by lia.
      apply Z.mod_small. apply byte.unsigned_range. }
    rewrite Hland.
    destruct ((32 <=? byte.unsigned c) && (byte.unsigned c <=? 126));
      now rewrite <- app_assoc.
Qed.

Lemma escaped_check :
  forallb (fun n =>
             let c := byte.of_Z (Z.of_nat n) in
             forallb (fun d => (32 <=? byte.unsigned d) && (byte.unsigned d <=? 126))
               (escaped c)
             && (1 <=? size (escaped c)) && (size (escaped c) <=? 4)
             && (negb ((32 <=? byte.unsigned c) && (byte.unsigned c <=? 126))
                 || bytes_eqb (escaped c) [c]))
    (seq 0 256) = true.
Proof. vm_compute. reflexivity. Qed.

Lemma escaped_printable (c : byte) :
  Forall printable (escaped c) /\
  1 <= size (escaped c) <= 4 /\
  (printable c -> escaped c = [c]).
Proof.
  pose proof escaped_check as Hall. rewrite forallb_forall in Hall.
  specialize (Hall (Z.to_nat (byte.unsigned c))).
  pose proof (byte.unsigned_range c) as Hr.
  rewrite Z2Nat.id, byte.of_Z_unsigned in Hall by lia.
  specialize (Hall ltac:(apply in_seq; lia)). cbv zeta in Hall.
  rewrite !andb_true_iff in Hall. destruct Hall as [[[H1 H2] H3] H4].
  unfold printable. split_and!.
  - rewrite forallb_forall in H1. apply List.Forall_forall. intros d Hd.
    specialize (H1 d Hd). rewrite andb_true_iff, !Z.leb_le in H1. exact H1.
  - now apply Z.leb_le.
  - now apply Z.leb_le.
  - intros [A B]. apply orb_true_iff in H4. destruct H4 as [H4|H4].
    + apply negb_true_iff, andb_false_iff in H4.
      destruct H4 as [H4|H4]; apply Z.leb_gt in H4; lia.
    + now apply bytes_eqb_eq.
Qed.

(** What [EscapeString] returns can be printed. Every character of the
    result is a printable one, from the space to the tilde; a string of
    printable characters is returned as it is, and no string grows to more
    than four times its length. *)
Theorem EscapeString_is_printable (value : bytes) :
  Forall printable (EscapeString value) /\
  (Forall printable value -> EscapeString value = value) /\
  size value <= size (EscapeString value) <= 4 * size value.
Proof.
  unfold EscapeString. rewrite AppendEscapedStringTo_concat. cbn [app].
  induction value as [|c value (IH1 & IH2 & IH3)].
  - cbn. split_and!; [constructor|reflexivity|unfold size; cbn; lia|
                      unfold size; cbn; lia].
  - destruct (escaped_printable c) as (E1 & E2 & E3).
    cbn [map concat]. split_and!.
    + apply Forall_app. split; assumption.
    + intros Hp. inversion Hp as [|? ? Hc Hv]; subst.
      rewrite (E3 Hc), (IH2 Hv). reflexivity.
    + rewrite size_app. unfold size in *. cbn [length]. lia.
    + rewrite size_app. unfold size in *. cbn [length]. lia.
Qed.

End StrutilUnits.

Lemma ConsumeDecimalNumber_never_wraps_witness :
  let ds := Strutil.text "18446744073709551615" in
  let rest := Strutil.text "k" in
  (decimal_value 0 ds < 2 ^ 64 ->
   Strutil.ConsumeDecimalNumber (ds ++ rest)
   = (true, rest, Some (decimal_value 0 ds))) /\
  (2 ^ 64 <= decimal_value 0 ds ->
   fst (fst (Strutil.ConsumeDecimalNumber (ds ++ rest))) = false /\
   snd (Strutil.ConsumeDecimalNumber (ds ++ rest)) = None).
Proof.
  apply (ConsumeDecimalNumber_never_wraps
           (Strutil.text "18446744073709551615") (Strutil.text "k")).
  - vm_compute. repeat constructor.
  - discriminate.
  - vm_compute. reflexivity.
  - reflexivity.
Defined.

Lemma NumberToString_round_trip_witness :
  Strutil.ConsumeDecimalNumber
    (Strutil.NumberToString 4096 ++ Strutil.text " bytes")
  = (true, Strutil.text " bytes", Some 4096).
Proof.
  apply (NumberToString_round_trip 4096 (Strutil.text " bytes")).
  - lia.
  - reflexivity.
Defined.

Lemma ParsePrettyNumber_units_witness :
  Strutil.ParsePrettyNumber (Strutil.NumberToString 18014398509481984)
  = 18014398509481984 /\
  Strutil.ParsePrettyNumber
    (Strutil.NumberToString 18014398509481984 ++ Strutil.text "k"
     ++ Strutil.text "B")
  = wrap64 (18014398509481984 * 2 ^ 10) /\
  Strutil.ParsePrettyNumber
    (Strutil.NumberToString 18014398509481984 ++ Strutil.text "m"
     ++ Strutil.text "B")
  = wrap64 (18014398509481984 * 2 ^ 20) /\
  Strutil.ParsePrettyNumber
    (Strutil.NumberToString 18014398509481984 ++ Strutil.text "g"
     ++ Strutil.text "B")
  = wrap64 (18014398509481984 * 2 ^ 30).
Proof.
  apply (ParsePrettyNumber_units 18014398509481984 (Strutil.text "B")).
  lia.
Defined.

(** The string utilities, computed: the largest number is accepted and the
    next one refused with nothing stored; 2^54 "k" wraps around to 0; a
    control character is escaped. *)
Example sample_strutil :
  Strutil.ConsumeDecimalNumber (Strutil.text "18446744073709551615")
  = (true, [], Some (2 ^ 64 - 1)) /\
  Strutil.ConsumeDecimalNumber (Strutil.text "18446744073709551616")
  = (false, Strutil.text "6", None) /\
  Strutil.ConsumeDecimalNumber (Strutil.text "k") = (false, Strutil.text "k", Some 0) /\
  Strutil.ParsePrettyNumber (Strutil.text "18014398509481984k") = 0 /\
  Strutil.ParsePrettyNumber (Strutil.text "4 k") = 0 /\
  Strutil.EscapeString (Strutil.text "a" ++ [Byte.x0a]) = Strutil.text "a\x0a".
Proof. vm_compute. repeat split. Qed.


(** ** The cost of a [Get] *)

Section ReaderCost.
Context {R : Type} `{Env.RandomAccessFile R} {BF : BlockFormat} {FF : FilterFormat}
        {HP : Heap}.
Import Reader.

Lemma GetFrom_one_read (rd : Reader.t R) (k result : bytes) (offset n : Z) :
  exists c,
    reads_ (snd (GetFrom rd k result offset n)) = reads_ rd ++ [c] /\
    is_block_read c = true /\
    indexes_ (snd (GetFrom rd k result offset n)) = indexes_ rd.
Proof.
  unfold GetFrom, src_Read.
  destruct (Env.Read (src_ rd) offset n) as [[st data] r].
  exists (BlockRead, Env.CallRead offset n st).
  destruct (ok (if ok st then if negb (size data =? n)
                              then IOError "Read ret partial data" else st
                else st));
    [destruct (Block_Seek k (Block_entries data))|]; cbn; auto.
Qed.

(** The loop of [Get] ends by its own condition: with fuel for every 16
    bytes of index left, more fuel changes nothing. *)
Lemma Get_loop_fuel (fuel : nat) :
  forall (more : nat) (rd : Reader.t R) (k result : bytes) (status : Status)
         (bloomoffset offset off : Z),
    size (indexes_ rd) - off <= 16 * Z.of_nat fuel ->
    Get_loop (fuel + more) rd k result status bloomoffset offset off
    = Get_loop fuel rd k result status bloomoffset offset off.
Proof.
  induction fuel as [|fuel IH]; intros more rd k result status bo o off Hf.
  - cbn [Nat.add Get_loop]. destruct more; [reflexivity|]. cbn [Get_loop].
    replace (off + 15 <? size (indexes_ rd)) with false; [reflexivity|].
    symmetry. apply Z.ltb_ge. lia.
  - cbn [Nat.add Get_loop].
    destruct (off + 15 <? size (indexes_ rd)); [|reflexivity]. cbv zeta.
    destruct (BloomKeyMayMatch k _); [|apply IH; lia].
    match goal with
    | |- context [GetFrom rd k result o ?n] =>
        destruct (GetFrom_one_read rd k result o n) as (c & _ & _ & G3);
        destruct (GetFrom rd k result o n) as [[[found st] v] rd1]
    end.
    cbn [snd] in G3.
    destruct found; [reflexivity|]. destruct (negb (ok st)); [reflexivity|].
    apply IH. rewrite G3. lia.
Qed.

(** Each turn of the loop reads one block at most, and takes 16 bytes of the
    index. *)
Lemma Get_loop_cost (fuel : nat) :
  forall (rd : Reader.t R) (k result : bytes) (status : Status)
         (bloomoffset offset off : Z),
    0 <= off ->
    exists extra,
      reads_ (snd (Get_loop fuel rd k result status bloomoffset offset off))
      = reads_ rd ++ extra /\
      forallb is_block_read extra = true /\
      indexes_ (snd (Get_loop fuel rd k result status bloomoffset offset off))
      = indexes_ rd /\
      16 * Z.of_nat (length extra) <= Z.max 0 (size (indexes_ rd) - off).
Proof.
  induction fuel as [|fuel IH]; intros rd k result status bo o off Hoff.
  - exists []. cbn. rewrite app_nil_r. split_and!; auto. lia.
  - cbn [Get_loop].
    destruct (off + 15 <? size (indexes_ rd)) eqn:Hlt.
    2:{ exists []. cbn. rewrite app_nil_r. split_and!; auto. lia. }
    apply Z.ltb_lt in Hlt. cbv zeta.
    destruct (BloomKeyMayMatch k _).
    2:{ destruct (IH rd k result status
                    (DecodeFixed64 (skipn (Z.to_nat off) (indexes_ rd)))
                    (DecodeFixed64 (skipn (Z.to_nat (off + 8)) (indexes_ rd)))
                    (off + 16) ltac:(lia)) as (extra & E1 & E2 & E3 & E4).
        exists extra. split_and!; auto. lia. }
    match goal with
    | |- context [GetFrom rd k result o ?n] =>
        destruct (GetFrom_one_read rd k result o n) as (c & G1 & G2 & G3);
        destruct (GetFrom rd k result o n) as [[[found st] v] rd1]
    end.
    cbn [fst snd] in G1, G3.
    assert (Hone : exists extra,
               reads_ rd1 = reads_ rd ++ extra /\
               forallb is_block_read extra = true /\
               indexes_ rd1 = indexes_ rd /\
               16 * Z.of_nat (length extra)
               <= Z.max 0 (size (indexes_ rd) - off)).
    { exists [c]. cbn [forallb length]. rewrite G2. split_and!; auto. lia. }
    destruct found; [exact Hone|].
    destruct (negb (ok st)); [exact Hone|].
    destruct (IH rd1 k v st
                (DecodeFixed64 (skipn (Z.to_nat off) (indexes_ rd)))
                (DecodeFixed64 (skipn (Z.to_nat (off + 8)) (indexes_ rd)))
                (off + 16) ltac:(lia)) as (extra & E1 & E2 & E3 & E4).
    exists (c :: extra). rewrite E1, G1, <- app_assoc, E3, G3.
    cbn [forallb length app]. rewrite G2, E2. rewrite G3 in E4.
    split_and!; auto. lia.
Qed.

(** The cost of a [Get] is bounded by the number of data blocks. Whatever
    the source answers, one [Get] makes at most as many block reads as the
    index describes data blocks (an index of [n] blocks has [n + 1] entries
    of 16 bytes); besides them it reads the footer and the index region at
    most once each. *)
Theorem Get_block_reads_are_bounded (rd : Reader.t R) (k result : bytes) :
  let rd' := snd (Get rd k result) in
  exists extra,
    reads_ rd' = reads_ rd ++ extra /\
    (length (List.filter is_footer_read extra) <= 1)%nat /\
    (length (List.filter is_index_read extra) <= 1)%nat /\
    16 * Z.of_nat (length (List.filter is_block_read extra)) + 16
    <= Z.max 16 (size (indexes_ rd')).
Proof.
  cbv zeta. unfold Get.
  destruct (MaybeLoadCache_reads rd) as (l & Hl & Hf & Hi & Hb).
  destruct (MaybeLoadCache rd) as [st rd1]. cbn [snd] in Hl.
  destruct (negb (ok st)).
  - exists l. cbn [snd]. rewrite Hb. cbn [length]. split_and!; auto. lia.
  - destruct (Get_loop_cost (length (indexes_ rd1)) rd1 k result st
                (DecodeFixed64 (indexes_ rd1))
                (DecodeFixed64 (skipn 8 (indexes_ rd1))) 16 ltac:(lia))
      as (extra & E1 & E2 & E3 & E4).
    exists (l ++ extra). rewrite E1, Hl, <- app_assoc, E3.
    assert (Hall : List.filter is_block_read extra = extra /\
                   List.filter is_footer_read extra = [] /\
                   List.filter is_index_read extra = []).
    { clear -E2. induction extra as [|[[] c] extra IH]; cbn in *;
        try discriminate; [auto|].
      destruct (IH E2) as (-> & -> & ->). auto. }
    destruct Hall as (A1 & A2 & A3).
    rewrite !List.filter_app, !length_app, A1, A2, A3, Hb.
    cbn [length]. split_and!; auto; lia.
Qed.

End ReaderCost.


(** ** [Finish] and the first error *)

Section FinishFacts.
Context {F : Type} `{Env.WritableFile F} {BF : BlockFormat} {FF : FilterFormat}.
Import Writer.

Lemma PutFixed64_nonempty (s : bytes) (v : Z) :
  is_empty (PutFixed64 s v) = false.
Proof. unfold PutFixed64, EncodeFixed64. destruct s; reflexivity. Qed.

Lemma PutFixed64_pair (s : bytes) (a b : Z) :
  PutFixed64 (PutFixed64 s a) b = s ++ encode_pair (a, b).
Proof. unfold PutFixed64, encode_pair. now rewrite <- app_assoc. Qed.

Lemma encode_pair_nonempty (s : bytes) (p : Z * Z) :
  is_empty (s ++ encode_pair p) = false.
Proof. unfold encode_pair, EncodeFixed64. destruct s; reflexivity. Qed.

Ltac trace_step :=
  first
    [ progress use_ok
    | match goal with
      | |- exists st rest, Env.CallAppend ?d ?s :: ?r = _ :: rest /\ _ =>
          exists s, r; split; [reflexivity|]
      | |- exists stc, [Env.CallSync ?s; Env.CallClose ?c] = _ =>
          exists c; reflexivity
      | |- _ /\ _ => split; reflexivity
      end ].

(** The calls of [Close], one by one. *)
Lemma Close_calls_exact (w : Writer.t F) :
  exists calls,
    dst_calls_ (snd (Close w)) = dst_calls_ w ++ calls /\
    close_trace (Close_appends w) calls (fst (Close w)).
Proof.
  destruct w as [opts dst calls bt br off bbs n bloom idx bh ih b].
  unfold Close, DumpIndexesAndFilters, Close_appends, footer_of,
    dst_Append, dst_Sync, dst_Close.
  cbn -[resize Handle.EncodeTo encode_pair].
  rewrite !PutFixed64_pair.
  destruct bloom as [|b0 bl]; cbn -[resize Handle.EncodeTo encode_pair];
    rewrite ?encode_pair_nonempty; cbn -[resize Handle.EncodeTo encode_pair];
    repeat (writer_step; cbn -[resize Handle.EncodeTo encode_pair];
            rewrite ?encode_pair_nonempty;
            cbn -[resize Handle.EncodeTo encode_pair]);
    rewrite <- ?app_assoc;
    (eexists; split; [cbn [app]; reflexivity|]);
    cbn -[resize Handle.EncodeTo encode_pair].
  all: try congruence.
  all: try (match goal with
            | Hx : is_empty (_ ++ encode_pair _) = true |- _ =>
                rewrite encode_pair_nonempty in Hx; discriminate
            end).
  all: repeat trace_step.
Qed.

(** A compaction whose turn has come returns, whatever the destination
    answers. *)
Lemma Compact_turn (w : Writer.t F) (seq : Z) (immbuf : nat) (bb : BlockBuf) :
  bbs_ w !! immbuf = Some bb -> bb_entries bb <> [] ->
  seq = wrap32 (num_compac_completed_ (base w) + 1) ->
  exists st w' calls,
    Compact w seq immbuf = Some (st, w') /\
    dst_calls_ w' = dst_calls_ w ++ calls /\
    compact_trace (BlockBuf_Finish (bb_entries bb)) calls st /\
    base w' = base w /\ bbs_ w' = bbs_ w /\ options_ w' = options_ w.
Proof.
  intros Hbb Hne Hturn. unfold Compact. rewrite Hbb.
  assert (Hemp : BlockBuf_empty bb = false).
  { destruct (BlockBuf_empty bb) eqn:E; [|reflexivity].
    apply BlockBuf_empty_iff in E. contradiction. }
  rewrite Hemp, Hturn, Z.eqb_refl. cbn [andb negb]. clear Hturn seq.
  set (block := BlockBuf_Finish (bb_entries bb)).
  match goal with
  | |- context [if negb (is_empty ?f) then set_bloomfilter _ _ else _] =>
      set (filter := f)
  end.
  clearbody filter. clearbody block.
  destruct w as [opts dst calls bt br off bbs n bloom idx bh ih b].
  unfold dst_Append, dst_Flush, compact_trace. cbn in *.
  destruct block as [|b0 block];
    destruct filter as [|c0 filter]; cbn;
    repeat (writer_step; cbn);
    try congruence;
    (eexists _, _, _; split; [reflexivity|]); cbn; rewrite <- ?app_assoc;
    (split; [reflexivity|]);
    split_and!; try reflexivity;
    try (exists st; use_ok; first [reflexivity | split; reflexivity]).
Qed.

Lemma Finish_Drain (w : Writer.t F) :
  finished_ (base w) = false ->
  Finish w
  = match Drain w with
    | None => None
    | Some (drain, w1) =>
        Some (if ok drain then fst (Close w1) else drain,
              set_finished (snd (Close w1)))
    end.
Proof.
  intros Hfin. unfold Finish, Drain. rewrite Hfin.
  destruct (match membuf_entries w with
            | [] => Some (OK, w)
            | _ :: _ => RotateBuffer w
            end) as [[st w0]|]; [|reflexivity].
  destruct (Wait w0) as [[drain w1]|]; [|reflexivity].
  unfold SyncBackend. cbn [negb]. destruct (Close w1) as [stc w2]. reflexivity.
Qed.

Lemma Drain_quiescent (w : Writer.t F) :
  quiescent w ->
  exists drain w1 dcalls,
    Drain w = Some (drain, w1) /\
    dst_calls_ w1 = dst_calls_ w ++ dcalls /\
    drain_trace w dcalls drain.
Proof.
  intros (Hfin & Hpool & Henv & Hbg & Htk & (bb & Hbb) & Hfree).
  unfold Drain, drain_trace, membuf_entries. rewrite Hbb.
  destruct (bb_entries bb) as [|e es] eqn:Hes.
  - unfold Wait. rewrite Hbg. cbn [Z.eqb].
    exists (bg_status_ (base w)), w, []. rewrite app_nil_r. auto.
  - unfold RotateBuffer.
    destruct (bufs_ (base w)) as [|free rest] eqn:Hbufs; [contradiction|].
    unfold ScheduleCompaction. cbn [options_ set_base].
    rewrite Hpool, Henv. unfold DoCompaction.
    match goal with
    | |- context [Compact ?w0 ?t ?i] =>
        destruct (Compact_turn w0 t i bb) as
          (st & w2 & calls & -> & Hcalls & Htrace & Hbase & Hbbs & Hopt)
    end.
    + exact Hbb.
    + rewrite Hes. discriminate.
    + cbn. now rewrite Htk.
    + rewrite Hes in Htrace. unfold Wait. cbn. rewrite Hbase. cbn.
      rewrite Hbg. cbn [Z.add Z.sub Z.eqb Z.opp Z.pos_sub Pos.eqb].
      eexists _, _, calls. split; [reflexivity|]. cbn.
      split; [exact Hcalls|]. exists st. split; [exact Htrace|reflexivity].
Qed.

(** C5, as the code has it. [Finish] on a writer that runs its compactions
    itself returns, whatever the destination answers, and what it returns is
    the first error in this order: an error latched before, the error of
    draining the active buffer, and then the result of [Close]. [Close] is
    run also when the drain failed, on the writer the drain left. [Close]
    appends the filter stream, the index stripe and the footer in this
    order, each only when the append before it succeeded; a failed append
    ends it with that error, and the destination is then neither synced nor
    closed; after the three appends the destination is synced and closed,
    and the result is the status of the sync: that of [dst_->Close()] is
    dropped. *)
Theorem Finish_returns_first_error (w : Writer.t F) :
  quiescent w ->
  exists (drain : Status) (w1 : Writer.t F) (dcalls ccalls : list Env.Call),
    Drain w = Some (drain, w1) /\
    dst_calls_ w1 = dst_calls_ w ++ dcalls /\
    drain_trace w dcalls drain /\
    Finish w = Some (if ok drain then fst (Close w1) else drain,
                     set_finished (snd (Close w1))) /\
    dst_calls_ (snd (Close w1)) = dst_calls_ w1 ++ ccalls /\
    close_trace (Close_appends w1) ccalls (fst (Close w1)).
Proof.
  intros Hq.
  destruct (Drain_quiescent w Hq) as (drain & w1 & dcalls & HD & Hd & Htr).
  destruct (Close_calls_exact w1) as (ccalls & Hc & Hct).
  exists drain, w1, dcalls, ccalls. split_and!; auto.
  rewrite Finish_Drain by apply Hq. now rewrite HD.
Qed.

End FinishFacts.


Lemma Finish_returns_first_error_witness :
  let w := sample_writer_pending sample_full_disk in
  exists (drain : Status) (w1 : Writer.t MemFile.t)
         (dcalls ccalls : list Env.Call),
    Writer.Drain w = Some (drain, w1) /\
    Writer.dst_calls_ w1 = Writer.dst_calls_ w ++ dcalls /\
    drain_trace w dcalls drain /\
    Writer.Finish w
    = Some (if ok drain then fst (Writer.Close w1) else drain,
            Writer.set_finished (snd (Writer.Close w1))) /\
    Writer.dst_calls_ (snd (Writer.Close w1))
    = Writer.dst_calls_ w1 ++ ccalls /\
    close_trace (Close_appends w1) ccalls (fst (Writer.Close w1)).
Proof.
  apply (Finish_returns_first_error (sample_writer_pending sample_full_disk)).
  unfold quiescent. split_and!; try (vm_compute; reflexivity).
  - eexists. vm_compute. reflexivity.
  - vm_compute. discriminate.
Defined.

(** [Finish] after a failed drain, computed. The append of the pending block
    fails; [Finish] returns that error, and it has still emitted the filter
    stream, the index stripe and the footer, and synced and closed the
    destination. On a destination that fails the first append of [Close],
    with nothing to drain, that error comes back and the destination is
    neither synced nor closed. *)
Example sample_Finish_errors :
  option_map (fun r => (fst r, map Env.is_append (Writer.dst_calls_ (snd r)),
                        map (fun c => ok (Env.call_status c))
                          (Writer.dst_calls_ (snd r))))
    (Writer.Finish (sample_writer_pending sample_full_disk))
  = Some (IOError "No space left on device",
          [true; true; true; true; false; false],
          [false; true; true; true; true; true]) /\
  option_map (fun r => (fst r, map Env.is_append (Writer.dst_calls_ (snd r))))
    (Writer.Finish (sample_writer sample_full_disk))
  = Some (IOError "No space left on device", [true]).
Proof. vm_compute. split; reflexivity. Qed.
